(** * Kinematic model and kinematic state of planning_models

    A shallow embedding of [planning_models::KinematicState]
    (planning_models2/src/kinematic_state.cpp) and of the parts of
    [planning_models::KinematicModel] it is built on
    (planning_models/include/planning_models/kinematic_model.h and the older
    header that declares [usedParams], [stateIndex] and [getGroup]).

    - a C [double] is a primitive binary64 [float]; the C comparison and
      arithmetic operators are the IEEE 754 ones of [PrimFloat];
    - an [unsigned int] index is a [nat] whose arithmetic ([i << 1], [a + b])
      wraps around at [2^32];
    - arrays ([double*], [std::vector]) are lists; reading or writing outside
      an array, or dereferencing a null pointer, is undefined behaviour and
      makes the operation return [None];
    - pointers returned by the name lookups are values of [ptr], which is
      either [NULL] or a reference to an object;
    - [std::map<std::string, T*>] is a [gmap string T]. *)

From Stdlib Require Import ZArith Floats Lia.
From stdpp Require Import gmap strings list fin_maps.


(** ** C doubles *)

(** The operators of C on [double], in terms of the primitives. *)
Definition dle (a b : float) : bool := (a <=? b)%float.      (* a <= b *)
Definition dge (a b : float) : bool := (b <=? a)%float.      (* a >= b *)
Definition dlt (a b : float) : bool := (a <? b)%float.       (* a <  b *)
Definition dgt (a b : float) : bool := (b <? a)%float.       (* a >  b *)
Definition dne (a b : float) : bool := negb (a =? b)%float.  (* a != b *)
Definition fabs (a : float) : float := abs a.
Arguments dle : simpl never.
Arguments dge : simpl never.
Arguments dlt : simpl never.
Arguments dgt : simpl never.
Arguments dne : simpl never.
Arguments fabs : simpl never.

(** [DBL_MIN] of <cfloat>: the smallest positive normal double. *)
Definition DBL_MIN : float := 0x1p-1022%float.

(** Conversion of a C [int] to [double] (exact: an [int] has 32 bits). *)
Definition double_of_int (z : Z) : float :=
  if (z <? 0)%Z then (- of_uint63 (Uint63.of_Z (- z)))%float
  else of_uint63 (Uint63.of_Z z).

(** Two doubles hold the same value when they are the same double or compare
    equal with [==] (which identifies the two zeros and separates NaN from
    itself). *)
Definition same_value (a b : float) : Prop := a = b ∨ (a =? b)%float = true.

(** ** Unsigned 32-bit arithmetic *)

Definition UINT_MAX : N := 4294967295%N.

(** Truncation of a natural number to an [unsigned int]. *)
Definition u32 (n : N) : nat := N.to_nat (N.land n UINT_MAX).

(** [i << 1] *)
Definition shl1 (i : nat) : nat := u32 (N.shiftl (N.of_nat i) 1).

(** [a + b] *)
Definition uadd (a b : nat) : nat := u32 (N.of_nat a + N.of_nat b).

(** ** Memory *)

(** A possibly null pointer to an object. *)
Inductive ptr (A : Type) : Type :=
  | NULL : ptr A
  | Ref : A → ptr A.
Arguments NULL {A}.
Arguments Ref {A} _.

(** [*p], undefined on the null pointer. *)
Definition deref {A} (p : ptr A) : option A :=
  match p with
  | NULL => None
  | Ref a => Some a
  end.

(** [a[i]] as an rvalue. *)
Definition load {A} (a : list A) (i : nat) : option A := a !! i.

(** [a[i] = v], undefined outside the array. *)
Definition store {A} (a : list A) (i : nat) (v : A) : option (list A) :=
  if decide (i < length a) then Some (<[i:=v]> a) else None.

(** [for (unsigned int i = i0 ; i < i0 + n ; ++i) body], threading the state
    and stopping at undefined behaviour. *)
Fixpoint for_loop {St} (body : nat → St → option St) (i n : nat) (s : St) : option St :=
  match n with
  | O => Some s
  | S n' => s' ← body i s; for_loop body (S i) n' s'
  end.

(** [for (...) if (!test(i)) return false; return true;] *)
Fixpoint for_all (test : nat → option bool) (i n : nat) : option bool :=
  match n with
  | O => Some true
  | S n' => b ← test i; if b : bool then for_all test (S i) n' else Some false
  end.

(** ** The model, as the state reads it *)

(** A joint: the range of the state vector it reads. The state spells the
    fields [used_params] and [state_index]. *)
Record Joint := {
  name : string;
  usedParams : nat;
  stateIndex : nat
}.

(** A group of joints: [state_index] gives, for each dimension of the state
    of the group, its index in the global state. *)
Record JointGroup := {
  dimension : nat;
  state_index : list nat
}.

(** A link; of its fields only the name matters here. *)
Record Link := {
  link_name : string
}.

Record KinematicModel := {
  groupMap_ : gmap string JointGroup;
  linkMap_ : gmap string Link;
  jointMap_ : gmap string Joint;
  jointList_ : list Joint;
  stateBounds_ : list float;
  dimension_ : nat
}.

Definition getDimension (m : KinematicModel) : nat := dimension_ m.
Definition getStateBounds (m : KinematicModel) : list float := stateBounds_ m.

(** Modelled from the spec: the bodies of [KinematicModel::getGroup],
    [KinematicModel::getLink] and [KinematicModel::getJoint] are not part of
    the sources, only their declarations are. The lookups resolve the name in
    the model's map and return "not found" (the null pointer) for a name that
    is not registered. *)
Definition getGroup (m : KinematicModel) (n : string) : ptr JointGroup :=
  match groupMap_ m !! n with
  | Some g => Ref g
  | None => NULL
  end.

Definition getLink (m : KinematicModel) (n : string) : ptr Link :=
  match linkMap_ m !! n with
  | Some l => Ref l
  | None => NULL
  end.

Definition getJoint (m : KinematicModel) (n : string) : ptr Joint :=
  match jointMap_ m !! n with
  | Some j => Ref j
  | None => NULL
  end.

(** ** The state *)

Record KinematicState := {
  owner_ : KinematicModel;
  randSeed_ : N;
  params_ : list float;
  updated_ : list bool
}.

Definition with_params (s : KinematicState) (p : list float) : KinematicState :=
  {| owner_ := owner_ s; randSeed_ := randSeed_ s; params_ := p; updated_ := updated_ s |}.

Definition with_updated (s : KinematicState) (u : list bool) : KinematicState :=
  {| owner_ := owner_ s; randSeed_ := randSeed_ s; params_ := params_ s; updated_ := u |}.

Definition with_seed (s : KinematicState) (r : N) : KinematicState :=
  {| owner_ := owner_ s; randSeed_ := r; params_ := params_ s; updated_ := updated_ s |}.

(** [params_[i] = v] *)
Definition set_param (i : nat) (v : float) (s : KinematicState) : option KinematicState :=
  p ← store (params_ s) i v; Some (with_params s p).

(** [updated_[i] = b] *)
Definition set_updated (i : nat) (b : bool) (s : KinematicState) : option KinematicState :=
  u ← store (updated_ s) i b; Some (with_updated s u).

(** The value [defaultParams] gives a component with bounds [lo], [hi]. *)
Definition default_value (lo hi : float) : float :=
  if dle lo 0 && dge hi 0 then 0%float else ((lo + hi) / 2)%float.

(** [params_[j] = 0.0] or the middle of the bounds of component [j] *)
Definition default_at (j : nat) (s : KinematicState) : option KinematicState :=
  let bounds := getStateBounds (owner_ s) in
  let j2 := shl1 j in
  lo ← load bounds j2;
  hi ← load bounds (uadd j2 1);
  set_param j (default_value lo hi) s.

Definition defaultParams_at (i : nat) (s : KinematicState) : option KinematicState :=
  s ← default_at i s; set_updated i true s.

Definition defaultParams (s : KinematicState) : option KinematicState :=
  for_loop defaultParams_at 0 (getDimension (owner_ s)) s.

Definition defaultParamsGroup (group : JointGroup) (s : KinematicState) : option KinematicState :=
  for_loop (λ i s, j ← load (state_index group) i; default_at j s) 0 (dimension group) s.

(** The overload taking the name of the group. *)
Definition defaultParamsGroup_name (group : string) (s : KinematicState) : option KinematicState :=
  g ← deref (getGroup (owner_ s) group); defaultParamsGroup g s.

(** The clamp of [enforceBounds]. *)
Definition clamp (lo hi p : float) : float :=
  if dgt p hi then hi else if dlt p lo then lo else p.

Definition enforceBounds_at (j : nat) (s : KinematicState) : option KinematicState :=
  let bounds := getStateBounds (owner_ s) in
  let j2 := shl1 j in
  p ← load (params_ s) j;
  hi ← load bounds (uadd j2 1);
  if dgt p hi then set_param j hi s
  else
    lo ← load bounds j2;
    if dlt p lo then set_param j lo s else Some s.

Definition enforceBoundsGroup (group : JointGroup) (s : KinematicState) : option KinematicState :=
  for_loop (λ i s, j ← load (state_index group) i; enforceBounds_at j s)
    0 (dimension group) s.

Definition enforceBoundsGroup_name (group : string) (s : KinematicState) : option KinematicState :=
  g ← deref (getGroup (owner_ s) group); enforceBoundsGroup g s.

Definition enforceBounds (s : KinematicState) : option KinematicState :=
  for_loop enforceBounds_at 0 (getDimension (owner_ s)) s.

(** One round of the loop of [checkBounds]: [false] when component [j] is
    outside its bounds. *)
Definition checkBounds_at (s : KinematicState) (j : nat) : option bool :=
  let bounds := getStateBounds (owner_ s) in
  let j2 := shl1 j in
  p ← load (params_ s) j;
  hi ← load bounds (uadd j2 1);
  if dgt p hi then Some false
  else
    lo ← load bounds j2;
    if dlt p lo then Some false else Some true.

Definition checkBoundsGroup (group : JointGroup) (s : KinematicState) : option bool :=
  for_all (λ i, j ← load (state_index group) i; checkBounds_at s j) 0 (dimension group).

Definition checkBoundsGroup_name (group : string) (s : KinematicState) : option bool :=
  g ← deref (getGroup (owner_ s) group); checkBoundsGroup g s.

Definition checkBounds (s : KinematicState) : option bool :=
  for_all (checkBounds_at s) 0 (getDimension (owner_ s)).

Definition checkBoundsJoint (n : string) (s : KinematicState) : option bool :=
  joint ← deref (getJoint (owner_ s) n);
  let p := uadd (stateIndex joint) (usedParams joint) in
  for_all (checkBounds_at s) (stateIndex joint) (p - stateIndex joint).

Definition reset (s : KinematicState) : option KinematicState :=
  for_loop (λ i s, set_updated i false s) 0 (getDimension (owner_ s)) s.

Definition resetGroup (group : JointGroup) (s : KinematicState) : option KinematicState :=
  for_loop (λ i s, j ← load (state_index group) i; set_updated j false s)
    0 (dimension group) s.

Definition resetGroup_name (group : string) (s : KinematicState) : option KinematicState :=
  g ← deref (getGroup (owner_ s) group); resetGroup g s.

Definition seenAll (s : KinematicState) : option bool :=
  for_all (λ i, load (updated_ s) i) 0 (getDimension (owner_ s)).

Definition seenAllGroup (group : JointGroup) (s : KinematicState) : option bool :=
  for_all (λ i, j ← load (state_index group) i; load (updated_ s) j) 0 (dimension group).

Definition seenAllGroup_name (group : string) (s : KinematicState) : option bool :=
  g ← deref (getGroup (owner_ s) group); seenAllGroup g s.

Definition seenJoint (n : string) (s : KinematicState) : option bool :=
  joint ← deref (getJoint (owner_ s) n);
  for_all (λ i, load (updated_ s) (uadd (stateIndex joint) i)) 0 (usedParams joint).

(** [getParamsJoint] returns the pointer [params_ + joint->state_index]: here
    the offset into [params_]. *)
Definition getParamsJoint (n : string) (s : KinematicState) : option nat :=
  joint ← deref (getJoint (owner_ s) n); Some (stateIndex joint).

(** The round of the loops of the [setParams] family that looks at component
    [pos] of the state and at the supplied value [v]; [result] is the flag
    the loop accumulates. *)
Definition setParams_at (pos : nat) (v : float) (rs : bool * KinematicState)
  : option (bool * KinematicState) :=
  let '(result, s) := rs in
  p ← load (params_ s) pos;
  if dne p v then
    s ← set_param pos v s; s ← set_updated pos true s; Some (true, s)
  else
    u ← load (updated_ s) pos;
    if negb u then
      s ← set_param pos v s; s ← set_updated pos true s; Some (true, s)
    else Some (result, s).

(** [setParams(const double *params)] *)
Definition setParams (params : list float) (s : KinematicState) : option (bool * KinematicState) :=
  for_loop (λ i rs, v ← load params i; setParams_at i v rs)
    0 (getDimension (owner_ s)) (false, s).

(** [setParamsGroup(const double *params, const JointGroup *group)] *)
Definition setParamsGroup (params : list float) (group : JointGroup) (s : KinematicState)
  : option (bool * KinematicState) :=
  for_loop (λ i rs,
    j ← load (state_index group) i; v ← load params i; setParams_at j v rs)
    0 (dimension group) (false, s).

(** [setParamsGroup(const double *params, const std::string &group)] *)
Definition setParamsGroup_name (params : list float) (group : string) (s : KinematicState)
  : option (bool * KinematicState) :=
  g ← deref (getGroup (owner_ s) group); setParamsGroup params g s.

(** [setParamsJoint(const double *params, const std::string &name)] *)
Definition setParamsJoint (params : list float) (n : string) (s : KinematicState)
  : option (bool * KinematicState) :=
  joint ← deref (getJoint (owner_ s) n);
  for_loop (λ i rs,
    let pos_i := uadd (stateIndex joint) i in
    v ← load params i; setParams_at pos_i v rs)
    0 (usedParams joint) (false, s).

(** [params_[j] = value; updated_[j] = true] *)
Definition setAll_at (value : float) (j : nat) (s : KinematicState) : option KinematicState :=
  s ← set_param j value s; set_updated j true s.

Definition setAll (value : float) (s : KinematicState) : option KinematicState :=
  for_loop (setAll_at value) 0 (getDimension (owner_ s)) s.

Definition setAllInGroup (value : float) (group : JointGroup) (s : KinematicState)
  : option KinematicState :=
  for_loop (λ i s, j ← load (state_index group) i; setAll_at value j s)
    0 (dimension group) s.

Definition setAllInGroup_name (value : float) (group : string) (s : KinematicState)
  : option KinematicState :=
  g ← deref (getGroup (owner_ s) group); setAllInGroup value g s.

(** [copyParamsGroup(double *params, const JointGroup *group)]: the values
    written to the caller's buffer, in order. *)
Definition copyParamsGroup (group : JointGroup) (s : KinematicState) : option (list float) :=
  for_loop (λ i out,
    j ← load (state_index group) i; v ← load (params_ s) j; Some (out ++ [v]))
    0 (dimension group) [].

Definition copyParamsGroup_name (group : string) (s : KinematicState) : option (list float) :=
  g ← deref (getGroup (owner_ s) group); copyParamsGroup g s.

(** [operator==] *)
Definition equal (s rhs : KinematicState) : option bool :=
  let dim := getDimension (owner_ s) in
  if negb (dim =? getDimension (owner_ rhs))%nat then Some false
  else
    for_all (λ i,
      a ← load (params_ s) i;
      b ← load (params_ rhs) i;
      Some (negb (dgt (fabs (a - b)%float) DBL_MIN))) 0 dim.

(** ** Random parameters *)

Section Random.

(** [rand_r] and [RAND_MAX] of the C library: the generator maps the seed
    it is handed to the number it returns and to the seed it leaves. *)
Variable rand_r : N → Z * N.
Variable RAND_MAX : Z.

(** [(double)rand_r(&randSeed_) / (RAND_MAX + 1.0)], with the seed it leaves *)
Definition draw (s : KinematicState) : float * KinematicState :=
  let '(r, seed) := rand_r (randSeed_ s) in
  ((double_of_int r / (double_of_int RAND_MAX + 1))%float, with_seed s seed).

Definition randomParams_at (j : nat) (s : KinematicState) : option KinematicState :=
  let bounds := getStateBounds (owner_ s) in
  let j2 := shl1 j in
  hi ← load bounds (uadd j2 1);
  lo ← load bounds j2;
  let '(u, s) := draw s in
  s ← set_param j ((hi - lo) * u + lo)%float s;
  set_updated j true s.

Definition randomParamsGroup (group : JointGroup) (s : KinematicState) : option KinematicState :=
  for_loop (λ i s, j ← load (state_index group) i; randomParams_at j s)
    0 (dimension group) s.

Definition randomParamsGroup_name (group : string) (s : KinematicState) : option KinematicState :=
  g ← deref (getGroup (owner_ s) group); randomParamsGroup g s.

Definition randomParams (s : KinematicState) : option KinematicState :=
  for_loop randomParams_at 0 (getDimension (owner_ s)) s.

Definition perturbParams_at (factor : float) (j : nat) (s : KinematicState)
  : option KinematicState :=
  let bounds := getStateBounds (owner_ s) in
  let j2 := shl1 j in
  hi ← load bounds (uadd j2 1);
  lo ← load bounds j2;
  let '(u, s) := draw s in
  p ← load (params_ s) j;
  set_param j (p + factor * (hi - lo) * (2 * u - 1))%float s.

Definition perturbParamsGroup (factor : float) (group : JointGroup) (s : KinematicState)
  : option KinematicState :=
  s ← for_loop (λ i s, j ← load (state_index group) i; perturbParams_at factor j s)
        0 (dimension group) s;
  enforceBoundsGroup group s.

Definition perturbParamsGroup_name (factor : float) (group : string) (s : KinematicState)
  : option KinematicState :=
  g ← deref (getGroup (owner_ s) group); perturbParamsGroup factor g s.

Definition perturbParams (factor : float) (s : KinematicState) : option KinematicState :=
  s ← for_loop (perturbParams_at factor) 0 (getDimension (owner_ s)) s;
  enforceBounds s.

End Random.

(** The constructor [KinematicState(model)]: [now] is the wall clock in
    nanoseconds, [fresh] what the new array of [double] holds. *)
Definition KinematicState_new (model : KinematicModel) (now : N) (fresh : float)
  : option KinematicState :=
  s ← defaultParams {| owner_ := model;
                       randSeed_ := (now mod UINT_MAX)%N;
                       params_ := replicate (getDimension model) fresh;
                       updated_ := replicate (getDimension model) false |};
  reset s.

(** ** The lookup of a group in the model of kinematic_model.h *)

Module Model.

Record JointModelGroup := {
  name_ : string;
  joint_model_name_vector_ : list string
}.

Record KinematicModel := {
  joint_model_group_map_ : gmap string JointModelGroup
}.

(** [map.find(key)]: the entry the iterator points at, [None] for [end()]. *)
Definition find {A} (m : gmap string A) (key : string) : option (string * A) :=
  v ← m !! key; Some (key, v).

(** Modelled from the spec: [hasModelGroup] is declared in the header and
    defined elsewhere; it tells whether the name is registered in the map
    of the groups. *)
Definition hasModelGroup (m : KinematicModel) (group : string) : bool :=
  bool_decide (is_Some (joint_model_group_map_ m !! group)).

(** [getModelGroup], as the header defines it. Dereferencing [end()] is
    undefined. *)
Definition getModelGroup (m : KinematicModel) (n : string) : option (ptr JointModelGroup) :=
  if negb (hasModelGroup m n) then Some NULL
  else it ← find (joint_model_group_map_ m) n; Some (Ref (snd it)).

End Model.

(** ** Construction of the model *)

(** The kinds of joints and the number of parameters of each, as the
    constructors of the joint classes set [usedParams]. *)
Inductive JointKind := Fixed | Revolute | Prismatic | Planar | Floating.

Definition usedParams_of (k : JointKind) : nat :=
  match k with
  | Fixed => 0
  | Revolute => 1
  | Prismatic => 1
  | Planar => 3
  | Floating => 7
  end.

(** The structural description: a rooted tree of links connected by typed
    joints. A joint declares its type ([None] for a type the model does not
    know), whether it is continuous, and the limits of each parameter. *)
Record JointDesc := {
  jd_name : string;
  jd_type : option JointKind;
  jd_continuous : bool;
  jd_limits : nat → float * float
}.

#[warnings="-register-all"]
Inductive LinkDesc : Type :=
  | link_desc : string → list (JointDesc * LinkDesc) → LinkDesc.

Definition ld_name (l : LinkDesc) : string :=
  match l with link_desc n _ => n end.

Definition ld_children (l : LinkDesc) : list (JointDesc * LinkDesc) :=
  match l with link_desc _ cs => cs end.

(** What the traversal has built so far. *)
Record Builder := {
  b_jointList : list Joint;
  b_jointMap : gmap string Joint;
  b_linkMap : gmap string Link;
  b_bounds : list float;
  b_dimension : nat
}.

Definition Builder_empty : Builder :=
  {| b_jointList := []; b_jointMap := ∅; b_linkMap := ∅; b_bounds := []; b_dimension := 0 |}.

Section Construction.

(** The range a continuous revolute joint contributes instead of its
    declared limits. *)
Variable full_turn : float * float.

(** The construction of the groups from the joints of the model and the
    lists of member names. *)
Variable buildGroups : list Joint → gmap string (list string) → gmap string JointGroup.

(** Modelled from the spec: the bounds a joint of kind [k] appends to the
    bounds of the model, one pair per parameter. *)
Definition joint_bounds (k : JointKind) (d : JointDesc) : list float :=
  match k with
  | Revolute =>
      if jd_continuous d then [fst full_turn; snd full_turn]
      else [fst (jd_limits d 0); snd (jd_limits d 0)]
  | _ => flat_map (λ i, [fst (jd_limits d i); snd (jd_limits d i)]) (seq 0 (usedParams_of k))
  end.

(** Modelled from the spec: [constructJoint] is declared in the header and
    defined elsewhere. It fails on an unknown joint type and on a name
    that is already registered; otherwise the joint starts at the running
    dimension counter, its bounds are appended, the counter advances by
    its number of parameters and its name is registered. *)
Definition constructJoint (d : JointDesc) (b : Builder) : option Builder :=
  k ← jd_type d;
  if decide (is_Some (b_jointMap b !! jd_name d)) then None
  else
    let j := {| name := jd_name d; usedParams := usedParams_of k;
                stateIndex := b_dimension b |} in
    Some {| b_jointList := b_jointList b ++ [j];
            b_jointMap := <[jd_name d := j]> (b_jointMap b);
            b_linkMap := b_linkMap b;
            b_bounds := b_bounds b ++ joint_bounds k d;
            b_dimension := b_dimension b + usedParams_of k |}.

(** Modelled from the spec: [constructLink], likewise; it fails on a name
    that is already registered. *)
Definition constructLink (l : LinkDesc) (b : Builder) : option Builder :=
  if decide (is_Some (b_linkMap b !! ld_name l)) then None
  else
    Some {| b_jointList := b_jointList b;
            b_jointMap := b_jointMap b;
            b_linkMap := <[ld_name l := {| link_name := ld_name l |}]> (b_linkMap b);
            b_bounds := b_bounds b;
            b_dimension := b_dimension b |}.

(** Modelled from the spec: [buildRecursive], the depth-first traversal
    from the joint [d] that leads to the link [l]. *)
Fixpoint buildRecursive (d : JointDesc) (l : LinkDesc) (b : Builder) : option Builder :=
  b ← constructJoint d b;
  b ← constructLink l b;
  match l with
  | link_desc _ cs =>
      (fix children (cs : list (JointDesc * LinkDesc)) (b : Builder) : option Builder :=
         match cs with
         | [] => Some b
         | (d', l') :: cs' => b ← buildRecursive d' l' b; children cs' b
         end) cs b
  end.

(** Modelled from the spec: the constructor of [KinematicModel] from the
    description rooted at the pair of [d] and [l] and from the groups. It
    yields no model when the traversal fails. *)
Definition KinematicModel_new (d : JointDesc) (l : LinkDesc)
    (groups : gmap string (list string)) : option KinematicModel :=
  b ← buildRecursive d l Builder_empty;
  Some {| groupMap_ := buildGroups (b_jointList b) groups;
          linkMap_ := b_linkMap b;
          jointMap_ := b_jointMap b;
          jointList_ := b_jointList b;
          stateBounds_ := b_bounds b;
          dimension_ := b_dimension b |}.

End Construction.

(** The ranges of the joints [js] tile the interval from [start] on: each
    joint starts where the one before it ends. *)
Fixpoint tiles (start : nat) (js : list Joint) : Prop :=
  match js with
  | [] => True
  | j :: js' => stateIndex j = start ∧ tiles (start + usedParams j) js'
  end.

(** Σ over the joints of [usedParams] *)
Fixpoint sum_usedParams (js : list Joint) : nat :=
  match js with
  | [] => 0
  | j :: js' => usedParams j + sum_usedParams js'
  end.


(** ** Invariants *)

(** What the state relies on in its model: there is a pair of bounds for each
    component of the state, and twice the index of a component is an
    [unsigned int]. *)
Record model_ok (m : KinematicModel) : Prop := {
  bounds_size : length (getStateBounds m) = 2 * getDimension m;
  dimension_fits : (N.of_nat (getDimension m) < 2 ^ 31)%N
}.

(** The invariant of the class [KinematicState]: the two buffers have the
    dimension of the model. *)
Record state_ok (s : KinematicState) : Prop := {
  owner_ok : model_ok (owner_ s);
  params_size : length (params_ s) = getDimension (owner_ s);
  updated_size : length (updated_ s) = getDimension (owner_ s)
}.

(** A group of the model [m]: [state_index] has [dimension] entries, all of
    them components of the state of [m]. *)
Record group_ok (m : KinematicModel) (g : JointGroup) : Prop := {
  group_dimension : dimension g = length (state_index g);
  group_range : Forall (λ j, j < getDimension m) (state_index g)
}.

(** A joint of the model [m]: its parameters are components of the state. *)
Definition joint_ok (m : KinematicModel) (j : Joint) : Prop :=
  stateIndex j + usedParams j ≤ getDimension m.

(** Every group and every joint registered in the model is one of the model. *)
Record registry_ok (m : KinematicModel) : Prop := {
  groups_ok : ∀ n g, groupMap_ m !! n = Some g → group_ok m g;
  joints_ok : ∀ n j, jointMap_ m !! n = Some j → joint_ok m j
}.

(** No component has its upper bound below its lower bound. *)
Definition bounds_ordered (m : KinematicModel) : Prop :=
  ∀ i lo hi,
    getStateBounds m !! (2 * i) = Some lo →
    getStateBounds m !! (2 * i + 1) = Some hi →
    dlt hi lo = false.

(** ** Sequences of calls of the random operations *)

Inductive RandomCall :=
  | RandomParams
  | RandomParamsGroup (group : JointGroup)
  | PerturbParams (factor : float)
  | PerturbParamsGroup (factor : float) (group : JointGroup).

Definition run_call (rand_r : N → Z * N) (RAND_MAX : Z) (c : RandomCall) (s : KinematicState)
  : option KinematicState :=
  match c with
  | RandomParams => randomParams rand_r RAND_MAX s
  | RandomParamsGroup g => randomParamsGroup rand_r RAND_MAX g s
  | PerturbParams f => perturbParams rand_r RAND_MAX f s
  | PerturbParamsGroup f g => perturbParamsGroup rand_r RAND_MAX f g s
  end.

Fixpoint run_calls (rand_r : N → Z * N) (RAND_MAX : Z) (cs : list RandomCall)
    (s : KinematicState) : option KinematicState :=
  match cs with
  | [] => Some s
  | c :: cs' => s' ← run_call rand_r RAND_MAX c s; run_calls rand_r RAND_MAX cs' s'
  end.

(** The seed after [n] calls of [rand_r]. *)
Fixpoint seed_after (rand_r : N → Z * N) (n : nat) (seed : N) : N :=
  match n with
  | O => seed
  | S n' => seed_after rand_r n' (snd (rand_r seed))
  end.

(** ** A model, a generator and states to run the operations on *)

(** The generator the C standard gives as an example of [rand_r], with its
    [RAND_MAX]. *)
Definition sample_rand_r (seed : N) : Z * N :=
  let next := ((seed * 1103515245 + 12345) mod 2 ^ 32)%N in
  (Z.of_N ((next / 65536) mod 32768), next).

Definition sample_RAND_MAX : Z := 32767.

(** Two joints with one parameter each, and a group made of the second. *)
Definition sample_model : KinematicModel :=
  let j0 := {| name := "shoulder"; usedParams := 1; stateIndex := 0 |} in
  let j1 := {| name := "elbow"; usedParams := 1; stateIndex := 1 |} in
  {| groupMap_ := {[ "arm" := {| dimension := 1; state_index := [1] |} ]};
     linkMap_ := {[ "base" := {| link_name := "base" |} ]};
     jointMap_ := {[ "shoulder" := j0; "elbow" := j1 ]};
     jointList_ := [j0; j1];
     stateBounds_ := [(-1)%float; 1%float; 2%float; 4%float];
     dimension_ := 2 |}.

Definition sample_group : JointGroup := {| dimension := 1; state_index := [1] |}.

Definition sample_state : KinematicState :=
  {| owner_ := sample_model; randSeed_ := 42;
     params_ := [0.5%float; 5%float]; updated_ := [true; false] |}.

(** ** Copies of a state *)

(** [copyFrom(sp)], for a state [sp] that is not [*this]: the state takes the
    owner of [sp], a new array of the dimension of that owner ([fresh] is
    what the new array holds) filled with the first components of [sp], and
    the flags of [sp]. The seed stays. *)
Definition copyFrom (sp : KinematicState) (fresh : float) (s : KinematicState)
  : option KinematicState :=
  let s := {| owner_ := owner_ sp; randSeed_ := randSeed_ s;
              params_ := params_ s; updated_ := updated_ s |} in
  let dim := getDimension (owner_ s) in
  let s := with_params s (replicate dim fresh) in
  s ← for_loop (λ i s, v ← load (params_ sp) i; set_param i v s) 0 dim s;
  Some (with_updated s (updated_ sp)).

(** The copy constructor [KinematicState(sp)]: [now] is the wall clock in
    nanoseconds. *)
Definition KinematicState_copy (sp : KinematicState) (now : N) (fresh : float)
  : option KinematicState :=
  copyFrom sp fresh {| owner_ := owner_ sp; randSeed_ := (now mod UINT_MAX)%N;
                       params_ := []; updated_ := [] |}.

(** [operator=], on a store of states by address: [*this = rhs] copies from
    [rhs] unless [this == &rhs]. *)
Definition assign (h : gmap N KinematicState) (this rhs : N) (fresh : float)
  : option (gmap N KinematicState) :=
  s ← h !! this;
  r ← h !! rhs;
  if decide (this ≠ rhs) then s' ← copyFrom r fresh s; Some (<[this:=s']> h)
  else Some h.

(** [operator!=] *)
Definition not_equal (s rhs : KinematicState) : option bool :=
  b ← equal s rhs; Some (negb b).

(** ** Joints by name, and copies of the parameters *)

(** [v.size()] as the bound of a loop [for (unsigned int i = 0 ; i < v.size() ;
    ++i)]: the counter reaches the size only when the size is an
    [unsigned int]; no result is given for a longer vector. *)
Definition size_of {A} (v : list A) : option nat :=
  if decide (N.of_nat (length v) ≤ UINT_MAX)%N then Some (length v) else None.

(** [checkBoundsJoints(names)] *)
Definition checkBoundsJoints (names : list string) (s : KinematicState) : option bool :=
  size ← size_of names;
  for_all (λ i, n ← load names i; checkBoundsJoint n s) 0 size.

(** What is inserted into an output stream: an [unsigned int] or a text. *)
Inductive item :=
  | Unsigned (n : nat)
  | Text (t : string).

(** [missing(out)]: the stream after the call. *)
Definition missing (out : list item) (s : KinematicState) : option (list item) :=
  for_loop (λ i out,
    u ← load (updated_ s) i;
    if negb u then Some (out ++ [Unsigned i; Text " "]) else Some out)
    0 (getDimension (owner_ s)) out.

(** The largest [int]. *)
Definition INT_MAX : Z := 2147483647.

(** [u += x] for an [int u] and an [unsigned int x]: the sum is taken in
    [unsigned int] and converted back to [int]. *)
Definition int_add_unsigned (u : Z) (x : nat) : Z :=
  let r := Z.of_nat (uadd (u32 (Z.to_N (u mod 2 ^ 32))) x) in
  if (r <=? INT_MAX)%Z then r else (r - 2 ^ 32)%Z.

(** [p + u] for a pointer [p] to the first element of an array: the rest of
    the array from index [u], undefined when [p + u] is not within the array
    or one past its end. *)
Definition offset {A} (a : list A) (u : Z) : option (list A) :=
  if decide (0 ≤ u ≤ Z.of_nat (length a))%Z then Some (drop (Z.to_nat u) a) else None.

(** [setParamsJoints(const double *params, names)] *)
Definition setParamsJoints (params : list float) (names : list string) (s : KinematicState)
  : option (bool * KinematicState) :=
  size ← size_of names;
  r ← for_loop (λ i (st : bool * Z * KinematicState),
         let '(change, u, s) := st in
         n ← load names i;
         p ← offset params u;
         r ← setParamsJoint p n s;
         joint ← deref (getJoint (owner_ s) n);
         Some (change || r.1, int_add_unsigned u (usedParams joint), r.2))
       0 size (false, 0%Z, s);
  Some (r.1.1, r.2).

(** [std::copy(first, first + n, out)] from the array [a], with [first] at
    index [i]: the values written, in order. *)
Definition copy_range (a : list float) (i n : nat) : option (list float) :=
  for_loop (λ k out, v ← load a (i + k); Some (out ++ [v])) 0 n [].

(** [copyParamsJoint(params, name)]: the values written to [params]. *)
Definition copyParamsJoint (n : string) (s : KinematicState) : option (list float) :=
  joint ← deref (getJoint (owner_ s) n);
  copy_range (params_ s) (stateIndex joint) (usedParams joint).

(** [copyParams(params)]: the values written to [params]. *)
Definition copyParams (s : KinematicState) : option (list float) :=
  copy_range (params_ s) 0 (getDimension (owner_ s)).

(** [copyParamsJoints(std::vector<double> &params, names)]: [params] after
    the call. *)
Definition copyParamsJoints (names : list string) (s : KinematicState) : option (list float) :=
  size ← size_of names;
  for_loop (λ j params, n ← load names j; p ← copyParamsJoint n s; Some (params ++ p))
    0 size [].

(** ** A caller: the start state of the planner *)

(** The loop of [IKConstrainedPlanner::fillStartState]
    (ik_constrained_planner/src/ik_constrained_planner.cpp) that completes
    the start state [s] from the current state of the robot: [joints] is the
    vector [getJoints] filled, [robot] the state [getRobotState] points at.
    A joint that is not seen takes its parameters from [robot], through the
    pointer [getParamsJoint] returns. *)
Definition fill_unseen (robot : KinematicState) (joints : list Joint) (s : KinematicState)
  : option KinematicState :=
  size ← size_of joints;
  for_loop (λ i s,
    j ← load joints i;
    seen ← seenJoint (name j) s;
    if negb seen then
      from ← getParamsJoint (name j) robot;
      p ← offset (params_ robot) (Z.of_nat from);
      r ← setParamsJoint p (name j) s;
      Some r.2
    else Some s) 0 size s.

(** ** Auxiliary definitions of the proofs *)


Fixpoint fold_opt {A St} (F : A → St → option St) (xs : list A) (s : St) : option St :=
  match xs with
  | [] => Some s
  | x :: xs' => s' ← F x s; fold_opt F xs' s'
  end.

Fixpoint all_opt {A} (T : A → option bool) (xs : list A) : option bool :=
  match xs with
  | [] => Some true
  | x :: xs' => b ← T x; if b : bool then all_opt T xs' else Some false
  end.


(** The bounds of component [j], as the loops read them. *)
Definition lower (m : KinematicModel) (j : nat) : option float :=
  load (getStateBounds m) (shl1 j).
Definition upper (m : KinematicModel) (j : nat) : option float :=
  load (getStateBounds m) (uadd (shl1 j) 1).

(** What one round of [enforceBounds] does to component [j]. *)
Inductive enforce_step (j : nat) (s : KinematicState) : KinematicState → Prop :=
  | enforce_upper p hi :
      params_ s !! j = Some p → upper (owner_ s) j = Some hi →
      dgt p hi = true →
      enforce_step j s (with_params s (<[j:=hi]> (params_ s)))
  | enforce_lower p lo hi :
      params_ s !! j = Some p → upper (owner_ s) j = Some hi →
      lower (owner_ s) j = Some lo →
      dgt p hi = false → dlt p lo = true →
      enforce_step j s (with_params s (<[j:=lo]> (params_ s)))
  | enforce_keep p lo hi :
      params_ s !! j = Some p → upper (owner_ s) j = Some hi →
      lower (owner_ s) j = Some lo →
      dgt p hi = false → dlt p lo = false →
      enforce_step j s s.

(** Component [j] holds its default value. *)
Definition defaulted (j : nat) (s : KinematicState) : Prop :=
  ∃ lo hi, lower (owner_ s) j = Some lo ∧ upper (owner_ s) j = Some hi ∧
    params_ s !! j = Some (default_value lo hi).

(** Component [j] is marked as seen. *)
Definition seen (j : nat) (s : KinematicState) : Prop := updated_ s !! j = Some true.

Definition apart (a c : float) : bool := dgt (fabs (a - c)%float) DBL_MIN.


(** What the claim says of a call of the [setParams] family that addresses
    the components [addressed], each with the value supplied for it, on the
    state [s], when it returns [r] and leaves the state [s']. *)
Definition setParams_post (addressed : list (nat * float)) (s : KinematicState)
    (r : bool) (s' : KinematicState) : Prop :=
  (∀ j v, (j, v) ∈ addressed → ∃ p, params_ s' !! j = Some p ∧ same_value p v) ∧
  (∀ j v, (j, v) ∈ addressed → updated_ s' !! j = Some true) ∧
  (r = true ↔
     ∃ j v p u, (j, v) ∈ addressed ∧ params_ s !! j = Some p ∧ updated_ s !! j = Some u ∧
                (dne p v = true ∨ u = false)) ∧
  (r = false → s' = s).

(** The loop over the pairs of an addressed component and its value. *)
Definition setParams_fold (jvs : list (nat * float)) (rs : bool * KinematicState)
  : option (bool * KinematicState) :=
  fold_opt (λ jv, setParams_at jv.1 jv.2) jvs rs.


(** [(double)r / (RAND_MAX + 1.0)] for the number [r] drawn from [seed] *)
Definition fraction (rand_r : N → Z * N) (RAND_MAX : Z) (seed : N) : float :=
  (double_of_int (rand_r seed).1 / (double_of_int RAND_MAX + 1))%float.

(** The value [randomParams] gives a component with bounds [lo], [hi]. *)
Definition sample (lo hi u : float) : float := ((hi - lo) * u + lo)%float.

(** Two states that differ at most in which components are seen. *)
Definition same_draws (s1 s2 : KinematicState) : Prop :=
  owner_ s1 = owner_ s2 ∧ randSeed_ s1 = randSeed_ s2 ∧ params_ s1 = params_ s2 ∧
  length (updated_ s1) = length (updated_ s2).


(** The groups a call names are groups of the model. *)
Definition call_ok (m : KinematicModel) (c : RandomCall) : Prop :=
  match c with
  | RandomParamsGroup g | PerturbParamsGroup _ g => group_ok m g
  | _ => True
  end.

(** A state of the model [m] that satisfies the invariant of the class. *)
Definition state_of (m : KinematicModel) (s : KinematicState) : Prop :=
  state_ok s ∧ owner_ s = m.


(** A second state of the sample model, with the seed of [sample_state] and
    another buffer. *)
Definition sample_state' : KinematicState :=
  {| owner_ := sample_model; randSeed_ := 42;
     params_ := [0.25%float; 3%float]; updated_ := [false; true] |}.

(** A state whose only component has bounds whose difference overflows. *)
Definition wide_state : KinematicState :=
  {| owner_ := {| groupMap_ := ∅; linkMap_ := ∅; jointMap_ := ∅; jointList_ := [];
                  stateBounds_ := [(-0x1p+1023)%float; 0x1p+1023%float];
                  dimension_ := 1 |};
     randSeed_ := 42; params_ := [0%float]; updated_ := [false] |}.

(** The state of the traversal: the joints built so far tile the state
    vector up to the running counter, and the bounds hold one pair for each
    component. *)
Definition builder_ok (b : Builder) : Prop :=
  tiles 0 (b_jointList b) ∧
  sum_usedParams (b_jointList b) = b_dimension b ∧
  length (b_bounds b) = 2 * b_dimension b.

Fixpoint LinkDesc_rect' (P : LinkDesc → Prop)
    (H : ∀ n cs, Forall (λ c, P c.2) cs → P (link_desc n cs)) (l : LinkDesc) : P l :=
  match l with
  | link_desc n cs =>
      H n cs ((fix go (cs : list (JointDesc * LinkDesc)) : Forall (λ c, P c.2) cs :=
                 match cs with
                 | [] => Forall_nil_2 _
                 | (d, l') :: cs' =>
                     Forall_cons_2 (λ c, P c.2) (d, l') cs' (LinkDesc_rect' P H l') (go cs')
                 end) cs)
  end.


(** A description to build a model from: a floating base that carries an arm
    of a continuous revolute joint and a prismatic joint, and a camera on a
    fixed joint. *)
Definition sample_joint (n : string) (k : JointKind) (continuous : bool) : JointDesc :=
  {| jd_name := n; jd_type := Some k; jd_continuous := continuous;
     jd_limits := λ _, ((-1)%float, 1%float) |}.

Definition sample_root_joint : JointDesc := sample_joint "world_joint" Floating false.

Definition sample_root_link : LinkDesc :=
  link_desc "base"
    [ (sample_joint "shoulder" Revolute true,
       link_desc "upper_arm"
         [ (sample_joint "elbow" Prismatic false, link_desc "forearm" []) ]);
      (sample_joint "camera_mount" Fixed false, link_desc "camera" []) ].

Definition sample_full_turn : float * float :=
  ((-0x1.921fb54442d18p+1)%float, 0x1.921fb54442d18p+1%float).

Definition no_groups (js : list Joint) (groups : gmap string (list string))
  : gmap string JointGroup := ∅.

(** The exponent of the last bit of a binary64 number below [2^e]. *)
Definition fexp64 (e : Z) : Z := SpecFloat.fexp prec emax e.

(** A mantissa and an exponent in canonical form. *)
Definition canonical (m : positive) (e : Z) : Prop :=
  fexp64 (Zpos (digits2_pos m) + e)%Z = e.

(** Some bit that was shifted out of [r] is 1. *)
Definition inexact (r : shr_record) : bool := shr_r r || shr_s r.

(** [r'] is [r] shifted right by [n] bits: the bits shifted out make [rem],
    and [r'] is exact when [r] was and they are all 0. *)
Definition shifted (n : Z) (r r' : shr_record) : Prop :=
  (0 <= shr_m r')%Z /\
  exists rem, (0 <= rem < 2 ^ n)%Z /\ (shr_m r = shr_m r' * 2 ^ n + rem)%Z /\
    (inexact r' = false <-> inexact r = false /\ rem = 0%Z).

(** What [binary_round_aux] returns for a positive number [X], counted in
    units of [2^u], that the mantissa [mx], the exponent [ex] and the
    location [lx] describe: [X] lies between [m' * 2^e'] and the next
    multiple of [2^e'], and the result is one of the two, the lower one when
    [X] is that one. *)
Inductive rounds_to (u X : Z) (r : spec_float) : Prop :=
  | rounds_to_intro (m' e' mr : Z) :
      (0 <= m')%Z -> (u <= e')%Z ->
      (m' * 2 ^ (e' - u) <= X < (m' + 1) * 2 ^ (e' - u))%Z ->
      (m' = 0%Z -> e' = (-1074)%Z) ->
      ((0 < m')%Z -> fexp64 (Zdigits2 m' + e')%Z = e') ->
      (mr = m' \/ (mr = (m' + 1)%Z /\ X <> (m' * 2 ^ (e' - u))%Z)) ->
      ((mr = 0%Z /\ r = S754_zero false) \/
       (exists m e, canonical m e /\
          (Zpos m * 2 ^ (e - u))%Z = (mr * 2 ^ (e' - u))%Z /\
          r = if (e <=? 971)%Z then S754_finite false m e else S754_infinity false)) ->
      rounds_to u X r.

(** The value of a positive number with mantissa [m] and exponent [e], in
    units of [2^u]. *)
Definition scaled (u : Z) (m : positive) (e : Z) : Z := (Zpos m * 2 ^ (e - u))%Z.

(** The double [2.0]. *)
Definition SFtwo : spec_float := S754_finite false 4503599627370496 (-51).

(** [(x + y) / 2.0] *)
Definition SFmid (x y : spec_float) : spec_float :=
  SFdiv prec emax (SFadd prec emax x y) SFtwo.

(** [x] is one of the two infinities. *)
Definition SFinfinite (x : spec_float) : bool :=
  match x with S754_infinity _ => true | _ => false end.

(** The value of a finite number in units of [2^u]. *)
Definition SFval (u : Z) (x : spec_float) : Z :=
  match x with S754_finite s m e => cond_Zopp s (scaled u m e) | _ => 0%Z end.

(** [x] is a zero or a finite number. *)
Definition SFfinite (x : spec_float) : bool :=
  match x with S754_zero _ | S754_finite _ _ _ => true | _ => false end.

(** [r] is what rounding gives for the number [X], counted in units of
    [2^u]. *)
Inductive rounds (u X : Z) (r : spec_float) : Prop :=
  | rounds_zero (s : bool) : X = 0%Z -> r = S754_zero s -> rounds u X r
  | rounds_pos : (0 < X)%Z -> rounds_to u X r -> rounds u X r
  | rounds_neg : (X < 0)%Z -> rounds_to u (- X)%Z (SFopp r) -> rounds u X r.

(** [(hi - lo) * u + lo] *)
Definition SFsample (lo hi u : spec_float) : spec_float :=
  SFadd prec emax (SFmul prec emax (SFsub prec emax hi lo) u) lo.

(** The double [1 - 2^-31]. *)
Definition SFumax : spec_float := S754_finite false 9007199250546688 (-53).

(** [z] as a double: what the conversion of an integer returns. *)
Definition SFofZ (z : Z) : spec_float := binary_normalize prec emax z 0 false.

(** [r / (R + 1.0)] for integers [0 <= r <= R < 2^31] *)
Definition SFfraction (r R : Z) : spec_float :=
  SFdiv prec emax (SFofZ r) (SFadd prec emax (SFofZ R) (S754_finite false 4503599627370496 (-52))).

(** The sum [lo + hi] of two finite doubles is infinite. *)
Definition sum_overflows (lo hi : float) : bool :=
  is_infinity (lo + hi) && negb (is_infinity lo || is_infinity hi).

(** No component has bounds that are not finite or whose difference
    overflows. *)
Definition bounds_finite (m : KinematicModel) : Prop :=
  ∀ i lo hi,
    getStateBounds m !! (2 * i) = Some lo →
    getStateBounds m !! (2 * i + 1) = Some hi →
    is_finite (hi - lo) = true.

(** [RAND_MAX] is an [int], below [2^31], and [rand_r] returns a number
    between 0 and [RAND_MAX]. *)
Definition rand_r_ok (rand_r : N → Z * N) (RAND_MAX : Z) : Prop :=
  (RAND_MAX < 2 ^ 31)%Z ∧ ∀ seed, (0 ≤ (rand_r seed).1 ≤ RAND_MAX)%Z.

(** Component [j] of [s] lies within its bounds: [lo <= p <= hi]. *)
Definition within_at (s : KinematicState) (j : nat) : Prop :=
  ∃ p lo hi, params_ s !! j = Some p ∧
    lower (owner_ s) j = Some lo ∧ upper (owner_ s) j = Some hi ∧
    dle lo p = true ∧ dle p hi = true.

(** Component [k] of [s'] is the one of [s]: the value and the flag. *)
Definition untouched (k : nat) (s s' : KinematicState) : Prop :=
  owner_ s' = owner_ s ∧ params_ s' !! k = params_ s !! k ∧ updated_ s' !! k = updated_ s !! k.

(** One round of the loop of [setParamsJoints]. *)
Definition setParamsJoints_at (params : list float) (n : string) (st : bool * Z * KinematicState)
  : option (bool * Z * KinematicState) :=
  let '(change, u, s) := st in
  p ← offset params u; r ← setParamsJoint p n s;
  joint ← deref (getJoint (owner_ s) n);
  Some (change || r.1, int_add_unsigned u (usedParams joint), r.2).

(** The components the joints [js] address, with the values they take from
    [params], joint after joint. *)
Fixpoint joints_values (params : list float) (js : list Joint) : list (nat * float) :=
  match js with
  | [] => []
  | j :: js' =>
      zip (seq (stateIndex j) (usedParams j)) params
      ++ joints_values (drop (usedParams j) params) js'
  end.

(** What [copyParamsJoint] copies for the joint [j]. *)
Definition joint_params (s : KinematicState) (j : Joint) : list float :=
  take (usedParams j) (drop (stateIndex j) (params_ s)).

(** One round of the loop of [fill_unseen]. *)
Definition fill_joint (robot : KinematicState) (j : Joint) (s : KinematicState)
  : option KinematicState :=
  seen ← seenJoint (name j) s;
  if negb seen then
    from ← getParamsJoint (name j) robot;
    p ← offset (params_ robot) (Z.of_nat from);
    r ← setParamsJoint p (name j) s;
    Some r.2
  else Some s.

(** * Proofs *)


(** ** Comparison of doubles *)

Lemma SFcompare_swap (x y : spec_float) :
  SFcompare y x = CompOpp <$> SFcompare x y.
Proof.
  destruct x as [[]|[]| |[] m1 e1], y as [[]|[]| |[] m2 e2]; try reflexivity;
    cbn; rewrite (Z.compare_antisym e1 e2);
    destruct (e1 ?= e2)%Z; cbn; try reflexivity;
    rewrite (Pos.compare_cont_antisym m1 m2 Eq); cbn;
    destruct (Pos.compare_cont Eq m1 m2); reflexivity.
Qed.

Lemma SFcompare_diag (x : spec_float) :
  SFcompare x x = None ∨ SFcompare x x = Some Eq.
Proof.
  destruct x as [[]|[]| |[] m e]; cbn; auto;
    rewrite Z.compare_refl; right; f_equal;
    change (Pos.compare_cont Eq m m) with (m ?= m)%positive;
    rewrite Pos.compare_refl; reflexivity.
Qed.

Lemma dlt_irrefl (x : float) : dlt x x = false.
Proof.
  unfold dlt. rewrite ltb_spec. unfold SFltb.
  destruct (SFcompare_diag (Prim2SF x)) as [-> | ->]; reflexivity.
Qed.

Lemma dgt_irrefl (x : float) : dgt x x = false.
Proof. apply dlt_irrefl. Qed.

Lemma dlt_asym (a b : float) : dlt a b = true → dlt b a = false.
Proof.
  unfold dlt. rewrite !ltb_spec. unfold SFltb.
  rewrite (SFcompare_swap (Prim2SF a) (Prim2SF b)).
  destruct (SFcompare (Prim2SF a) (Prim2SF b)) as [[]|]; cbn; congruence.
Qed.

Lemma dle_not_dlt (a b : float) : dle a b = true → dlt b a = false.
Proof.
  unfold dle, dlt. rewrite ltb_spec, leb_spec. unfold SFltb, SFleb.
  rewrite (SFcompare_swap (Prim2SF a) (Prim2SF b)).
  destruct (SFcompare (Prim2SF a) (Prim2SF b)) as [[]|]; cbn; congruence.
Qed.

Lemma dgt_neq (a b : float) : dgt a b = true → a ≠ b.
Proof. intros H ->. rewrite dgt_irrefl in H. discriminate. Qed.

Lemma dlt_neq (a b : float) : dlt a b = true → a ≠ b.
Proof. intros H ->. rewrite dlt_irrefl in H. discriminate. Qed.

(** ** Unsigned arithmetic without overflow *)

Lemma u32_small (n : N) : (n < 2 ^ 32)%N → u32 n = N.to_nat n.
Proof.
  intros H. unfold u32, UINT_MAX.
  change 4294967295%N with (N.ones 32).
  rewrite N.land_ones. rewrite N.mod_small by exact H. reflexivity.
Qed.

Lemma shl1_small (i : nat) : (N.of_nat i < 2 ^ 31)%N → shl1 i = 2 * i.
Proof.
  intros H. unfold shl1. rewrite u32_small.
  - rewrite N.shiftl_mul_pow2. change (2 ^ 1)%N with 2%N. lia.
  - rewrite N.shiftl_mul_pow2. change (2 ^ 1)%N with 2%N.
    change (2 ^ 32)%N with (2 * 2 ^ 31)%N. lia.
Qed.

Lemma uadd_small (a b : nat) : (N.of_nat a + N.of_nat b < 2 ^ 32)%N → uadd a b = a + b.
Proof. intros H. unfold uadd. rewrite u32_small by exact H. lia. Qed.


(** ** Loops *)

Lemma load_middle {A} (pre : list A) x xs : load (pre ++ x :: xs) (length pre) = Some x.
Proof. unfold load. apply list_lookup_middle. reflexivity. Qed.

Lemma for_loop_ext {St} (F G : nat → St → option St) i n s :
  (∀ k s, i ≤ k < i + n → F k s = G k s) → for_loop F i n s = for_loop G i n s.
Proof.
  revert i s. induction n as [|n IH]; intros i s H; cbn; [reflexivity|].
  rewrite H by lia. destruct (G i s) as [s'|]; cbn; [|reflexivity].
  apply IH. intros k s0 Hk. apply H. lia.
Qed.

Lemma for_loop_seq {St} (F : nat → St → option St) i n s :
  for_loop F i n s = fold_opt F (seq i n) s.
Proof.
  revert i s. induction n as [|n IH]; intros i s; cbn; [reflexivity|].
  destruct (F i s) as [s'|]; cbn; [apply IH|reflexivity].
Qed.

Lemma for_loop_indices {St} (F : nat → St → option St) (pre js : list nat) s :
  for_loop (λ i s, j ← load (pre ++ js) i; F j s) (length pre) (length js) s
  = fold_opt F js s.
Proof.
  revert pre s. induction js as [|j js IH]; intros pre s; cbn; [reflexivity|].
  rewrite load_middle. cbn.
  destruct (F j s) as [s'|]; cbn; [|reflexivity].
  specialize (IH (pre ++ [j]) s'). rewrite <- app_assoc in IH. cbn in IH.
  rewrite length_app in IH. cbn in IH. rewrite Nat.add_1_r in IH. exact IH.
Qed.

Lemma for_all_seq (T : nat → option bool) i n :
  for_all T i n = all_opt T (seq i n).
Proof.
  revert i. induction n as [|n IH]; intros i; cbn; [reflexivity|].
  destruct (T i) as [[]|]; cbn; [apply IH|reflexivity|reflexivity].
Qed.

Lemma for_all_indices (T : nat → option bool) (pre js : list nat) :
  for_all (λ i, j ← load (pre ++ js) i; T j) (length pre) (length js)
  = all_opt T js.
Proof.
  revert pre. induction js as [|j js IH]; intros pre; cbn; [reflexivity|].
  rewrite load_middle. cbn.
  destruct (T j) as [[]|]; cbn; [|reflexivity|reflexivity].
  specialize (IH (pre ++ [j])). rewrite <- app_assoc in IH. cbn in IH.
  rewrite length_app in IH. cbn in IH. rewrite Nat.add_1_r in IH. exact IH.
Qed.

Lemma all_opt_true {A} (T : A → option bool) xs :
  all_opt T xs = Some true ↔ ∀ x, x ∈ xs → T x = Some true.
Proof.
  induction xs as [|x xs IH]; cbn.
  - split; [intros _ y Hy; inversion Hy|reflexivity].
  - destruct (T x) as [[]|] eqn:E; cbn.
    + rewrite IH. split.
      * intros H y Hy. apply elem_of_cons in Hy as [->|Hy]; auto.
      * intros H y Hy. apply H. now apply elem_of_cons; right.
    + split; [discriminate|]. intros H. specialize (H x). rewrite E in H.
      apply H. now apply elem_of_cons; left.
    + split; [discriminate|]. intros H. specialize (H x). rewrite E in H.
      apply H. now apply elem_of_cons; left.
Qed.

Lemma all_opt_defined {A} (T : A → option bool) xs :
  (∀ x, x ∈ xs → is_Some (T x)) → is_Some (all_opt T xs).
Proof.
  induction xs as [|x xs IH]; cbn; intros H; [eauto|].
  destruct (H x) as [[] E]; [now apply elem_of_cons; left| |]; rewrite E; cbn; [|eauto].
  apply IH. intros y Hy. apply H. now apply elem_of_cons; right.
Qed.

Lemma fold_opt_fixed {A St} (F : A → St → option St) xs s :
  (∀ x, x ∈ xs → F x s = Some s) → fold_opt F xs s = Some s.
Proof.
  induction xs as [|x xs IH]; cbn; intros H; [reflexivity|].
  rewrite H by (now apply elem_of_cons; left). cbn.
  apply IH. intros y Hy. apply H. now apply elem_of_cons; right.
Qed.

Lemma for_loop_indices0 {St} (F : nat → St → option St) (js : list nat) s :
  for_loop (λ i s, j ← load js i; F j s) 0 (length js) s = fold_opt F js s.
Proof. apply (for_loop_indices F []). Qed.

Lemma for_all_indices0 (T : nat → option bool) (js : list nat) :
  for_all (λ i, j ← load js i; T j) 0 (length js) = all_opt T js.
Proof. apply (for_all_indices T []). Qed.


(** ** Stores *)

Lemma store_Some {A} (a : list A) i v a' :
  store a i v = Some a' ↔ i < length a ∧ a' = <[i:=v]> a.
Proof.
  unfold store. destruct (decide (i < length a)); split.
  - intros [= <-]. auto.
  - intros [_ ->]. reflexivity.
  - discriminate.
  - intros [? _]. contradiction.
Qed.

Lemma set_param_Some i v s s' :
  set_param i v s = Some s' ↔
  i < length (params_ s) ∧ s' = with_params s (<[i:=v]> (params_ s)).
Proof.
  unfold set_param. destruct (store (params_ s) i v) as [a|] eqn:E; cbn.
  - apply store_Some in E as [H ->]. split; [intros [= <-]; auto|intros [_ ->]; reflexivity].
  - split; [discriminate|]. intros [H _].
    assert (is_Some (store (params_ s) i v)) as [? E'] by (eexists; apply store_Some; eauto).
    congruence.
Qed.

Lemma set_updated_Some i b s s' :
  set_updated i b s = Some s' ↔
  i < length (updated_ s) ∧ s' = with_updated s (<[i:=b]> (updated_ s)).
Proof.
  unfold set_updated. destruct (store (updated_ s) i b) as [a|] eqn:E; cbn.
  - apply store_Some in E as [H ->]. split; [intros [= <-]; auto|intros [_ ->]; reflexivity].
  - split; [discriminate|]. intros [H _].
    assert (is_Some (store (updated_ s) i b)) as [? E'] by (eexists; apply store_Some; eauto).
    congruence.
Qed.

Lemma with_params_id s : with_params s (params_ s) = s.
Proof. destruct s; reflexivity. Qed.

(** ** Bounds *)

Lemma enforceBounds_at_step j s s' :
  enforceBounds_at j s = Some s' ↔ enforce_step j s s'.
Proof.
  unfold enforceBounds_at. fold (upper (owner_ s) j). fold (lower (owner_ s) j).
  unfold load. split.
  - intros H.
    destruct (params_ s !! j) as [p|] eqn:Ep; [cbn in H|discriminate].
    destruct (upper (owner_ s) j) as [hi|] eqn:Ehi; [cbn in H|discriminate].
    destruct (dgt p hi) eqn:Egt.
    { apply set_param_Some in H as [_ ->]. eapply enforce_upper; eauto. }
    destruct (lower (owner_ s) j) as [lo|] eqn:Elo; [cbn in H|discriminate].
    destruct (dlt p lo) eqn:Elt.
    { apply set_param_Some in H as [_ ->]. eapply enforce_lower; eauto. }
    injection H as <-. eapply enforce_keep; eauto.
  - intros [p hi Hp Hhi Hgt|p lo hi Hp Hhi Hlo Hgt Hlt|p lo hi Hp Hhi Hlo Hgt Hlt];
      rewrite Hp, Hhi; cbn; rewrite Hgt; [|rewrite Hlo; cbn; rewrite Hlt..].
    + apply set_param_Some. split; [|reflexivity]. eapply lookup_lt_Some; eauto.
    + apply set_param_Some. split; [|reflexivity]. eapply lookup_lt_Some; eauto.
    + reflexivity.
Qed.

Lemma checkBounds_at_true s j :
  checkBounds_at s j = Some true ↔
  ∃ p lo hi, params_ s !! j = Some p ∧ upper (owner_ s) j = Some hi ∧
    lower (owner_ s) j = Some lo ∧ dgt p hi = false ∧ dlt p lo = false.
Proof.
  unfold checkBounds_at. fold (upper (owner_ s) j). fold (lower (owner_ s) j).
  unfold load. split.
  - intros H.
    destruct (params_ s !! j) as [p|] eqn:Ep; [cbn in H|discriminate].
    destruct (upper (owner_ s) j) as [hi|] eqn:Ehi; [cbn in H|discriminate].
    destruct (dgt p hi) eqn:Egt; [discriminate|].
    destruct (lower (owner_ s) j) as [lo|] eqn:Elo; [cbn in H|discriminate].
    destruct (dlt p lo) eqn:Elt; [discriminate|]. eauto 10.
  - intros (p & lo & hi & -> & -> & Hlo & Hgt & Hlt). cbn.
    rewrite Hgt, Hlo. cbn. rewrite Hlt. reflexivity.
Qed.

(** A component within its bounds is left alone, and only such a component
    is. *)
Lemma enforce_step_fixed j s s' :
  enforce_step j s s' → (params_ s' !! j = params_ s !! j ↔ checkBounds_at s j = Some true).
Proof.
  intros [p hi Hp Hhi Hgt|p lo hi Hp Hhi Hlo Hgt Hlt|p lo hi Hp Hhi Hlo Hgt Hlt]; cbn.
  - rewrite list_lookup_insert_eq by (eapply lookup_lt_Some; eauto). rewrite Hp. split.
    + intros [= ->]. rewrite dgt_irrefl in Hgt. discriminate.
    + intros (p' & lo' & hi' & Hp' & Hhi' & _ & Hgt' & _)%checkBounds_at_true. congruence.
  - rewrite list_lookup_insert_eq by (eapply lookup_lt_Some; eauto). rewrite Hp. split.
    + intros [= ->]. rewrite dlt_irrefl in Hlt. discriminate.
    + intros (p' & lo' & hi' & Hp' & Hhi' & Hlo' & _ & Hlt')%checkBounds_at_true. congruence.
  - split; [|reflexivity]. intros _. apply checkBounds_at_true. eauto 10.
Qed.

Lemma enforce_step_same j s s' :
  enforce_step j s s' → checkBounds_at s j = Some true → s' = s.
Proof.
  intros [p hi Hp Hhi Hgt|p lo hi Hp Hhi Hlo Hgt Hlt|p lo hi Hp Hhi Hlo Hgt Hlt]
    (p' & lo' & hi' & Hp' & Hhi' & Hlo' & Hgt' & Hlt')%checkBounds_at_true;
    congruence.
Qed.

(** A round leaves the owner, the seed, the flags, the size of the buffer and
    the other components alone. *)
Lemma enforce_step_frame j s s' :
  enforce_step j s s' →
  owner_ s' = owner_ s ∧ randSeed_ s' = randSeed_ s ∧ updated_ s' = updated_ s ∧
  length (params_ s') = length (params_ s) ∧
  ∀ k, k ≠ j → params_ s' !! k = params_ s !! k.
Proof.
  intros [p hi Hp Hhi Hgt|p lo hi Hp Hhi Hlo Hgt Hlt|p lo hi Hp Hhi Hlo Hgt Hlt]; cbn;
    rewrite ?length_insert; repeat split; auto;
    intros k Hk; apply list_lookup_insert_ne; auto.
Qed.

(** After a round, the component is within its bounds when they are ordered. *)
Lemma enforce_step_within j s s' lo hi :
  enforce_step j s s' →
  lower (owner_ s) j = Some lo → upper (owner_ s) j = Some hi → dlt hi lo = false →
  checkBounds_at s' j = Some true.
Proof.
  intros [p hi' Hp Hhi Hgt|p lo' hi' Hp Hhi Hlo Hgt Hlt|p lo' hi' Hp Hhi Hlo Hgt Hlt]
    Hlo' Hhi' Hord; apply checkBounds_at_true; cbn.
  - exists hi, lo, hi. rewrite list_lookup_insert_eq by (eapply lookup_lt_Some; eauto).
    assert (hi' = hi) as -> by congruence.
    repeat split; auto. apply dgt_irrefl.
  - assert (hi' = hi) as -> by congruence. assert (lo' = lo) as -> by congruence.
    exists lo, lo, hi. rewrite list_lookup_insert_eq by (eapply lookup_lt_Some; eauto).
    repeat split; auto. apply dlt_irrefl.
  - eauto 10.
Qed.

Lemma enforce_step_preserves j k s s' :
  enforce_step j s s' → checkBounds_at s k = Some true → checkBounds_at s' k = Some true.
Proof.
  intros Hstep Hk. destruct (decide (k = j)) as [->|Hne].
  - now rewrite (enforce_step_same _ _ _ Hstep Hk).
  - destruct (enforce_step_frame _ _ _ Hstep) as (Ho & _ & _ & _ & Hp).
    apply checkBounds_at_true in Hk as (p & lo & hi & ? & ? & ? & ? & ?).
    apply checkBounds_at_true. exists p, lo, hi. rewrite Ho, Hp by exact Hne. auto.
Qed.

(** The loop of [enforceBounds] over the components [js]. *)
Lemma enforce_fold_frame js s s' :
  fold_opt enforceBounds_at js s = Some s' →
  owner_ s' = owner_ s ∧ randSeed_ s' = randSeed_ s ∧ updated_ s' = updated_ s ∧
  length (params_ s') = length (params_ s) ∧
  ∀ k, k ∉ js → params_ s' !! k = params_ s !! k.
Proof.
  revert s. induction js as [|j js IH]; intros s; cbn.
  - intros [= <-]. auto.
  - destruct (enforceBounds_at j s) as [s1|] eqn:E; [cbn|discriminate].
    intros H. apply IH in H as (Ho & Hr & Hu & Hl & Hk).
    apply enforceBounds_at_step, enforce_step_frame in E as (Ho1 & Hr1 & Hu1 & Hl1 & Hk1).
    repeat split; try congruence.
    intros k Hnin. apply not_elem_of_cons in Hnin as [? ?].
    rewrite Hk by assumption. now apply Hk1.
Qed.

Lemma enforce_fold_within js s s' :
  (∀ j, j ∈ js → ∃ lo hi, lower (owner_ s) j = Some lo ∧ upper (owner_ s) j = Some hi ∧
                          dlt hi lo = false) →
  fold_opt enforceBounds_at js s = Some s' →
  ∀ j, j ∈ js → checkBounds_at s' j = Some true.
Proof.
  revert s. induction js as [|j js IH]; intros s Hord; cbn.
  - intros _ j Hj. inversion Hj.
  - destruct (enforceBounds_at j s) as [s1|] eqn:E; [cbn|discriminate].
    intros H k Hk. apply enforceBounds_at_step in E.
    destruct (enforce_step_frame _ _ _ E) as (Ho1 & _).
    assert (∀ j0, j0 ∈ js → checkBounds_at s' j0 = Some true) as Hrest.
    { apply (IH s1); [|exact H]. intros j0 Hj0. rewrite Ho1. apply Hord.
      now apply elem_of_cons; right. }
    destruct (decide (k ∈ js)) as [Hin|Hnin]; [now apply Hrest|].
    apply elem_of_cons in Hk as [->|Hk]; [|contradiction].
    destruct (Hord j) as (lo & hi & Hlo & Hhi & Hlt); [now apply elem_of_cons; left|].
    pose proof (enforce_step_within _ _ _ _ _ E Hlo Hhi Hlt) as Hin1.
    clear -Hin1 H. revert s1 H Hin1. induction js as [|j' js IH]; intros s1; cbn.
    + now intros [= <-].
    + destruct (enforceBounds_at j' s1) as [s2|] eqn:E'; [cbn|discriminate].
      intros H Hin1. apply (IH s2 H).
      apply enforceBounds_at_step in E'. eapply enforce_step_preserves; eauto.
Qed.

Lemma enforce_fold_idempotent js s s' :
  (∀ j, j ∈ js → ∃ lo hi, lower (owner_ s) j = Some lo ∧ upper (owner_ s) j = Some hi ∧
                          dlt hi lo = false) →
  fold_opt enforceBounds_at js s = Some s' →
  fold_opt enforceBounds_at js s' = Some s'.
Proof.
  intros Hord H. apply fold_opt_fixed. intros j Hj.
  pose proof (enforce_fold_within _ _ _ Hord H j Hj) as Hin.
  apply enforceBounds_at_step.
  apply checkBounds_at_true in Hin as (p & lo & hi & ? & ? & ? & ? & ?).
  eapply enforce_keep; eauto.
Qed.

Lemma enforce_fold_unchanged js s s' :
  NoDup js →
  fold_opt enforceBounds_at js s = Some s' →
  params_ s' = params_ s →
  ∀ j, j ∈ js → checkBounds_at s j = Some true.
Proof.
  intros Hnd. revert s. induction Hnd as [|j js Hnin Hnd IH]; intros s; cbn.
  - intros _ _ j Hj. inversion Hj.
  - destruct (enforceBounds_at j s) as [s1|] eqn:E; [cbn|discriminate].
    intros H Heq k Hk. apply enforceBounds_at_step in E.
    destruct (enforce_fold_frame _ _ _ H) as (_ & _ & _ & _ & Hfr).
    assert (checkBounds_at s j = Some true) as Hj.
    { apply (enforce_step_fixed _ _ _ E). rewrite <- Hfr by exact Hnin. now rewrite Heq. }
    apply elem_of_cons in Hk as [->|Hk]; [exact Hj|].
    rewrite (enforce_step_same _ _ _ E Hj) in H. now apply (IH s H Heq).
Qed.

Lemma enforce_fold_within_fixed js s :
  (∀ j, j ∈ js → checkBounds_at s j = Some true) →
  fold_opt enforceBounds_at js s = Some s.
Proof.
  intros H. apply fold_opt_fixed. intros j Hj. apply enforceBounds_at_step.
  pose proof (H j Hj) as Hc.
  apply checkBounds_at_true in Hc as (p & lo & hi & ? & ? & ? & ? & ?).
  eapply enforce_keep; eauto.
Qed.



(** ** Definedness under the invariants *)

Lemma index_fits m j :
  model_ok m → j < getDimension m → (N.of_nat j < 2 ^ 31)%N.
Proof. intros [_ H] Hj. lia. Qed.

Lemma bounds_at m j :
  model_ok m → j < getDimension m →
  ∃ lo hi, lower m j = Some lo ∧ upper m j = Some hi ∧
    getStateBounds m !! (2 * j) = Some lo ∧ getStateBounds m !! (2 * j + 1) = Some hi.
Proof.
  intros Hm Hj. pose proof (index_fits _ _ Hm Hj) as Hfit.
  unfold lower, upper, load. rewrite (shl1_small j Hfit).
  rewrite uadd_small by (change (2 ^ 32)%N with (2 * 2 ^ 31)%N; lia).
  destruct Hm as [Hsz _].
  destruct (lookup_lt_is_Some_2 (getStateBounds m) (2 * j)) as [lo Hlo]; [lia|].
  destruct (lookup_lt_is_Some_2 (getStateBounds m) (2 * j + 1)) as [hi Hhi]; [lia|].
  exists lo, hi. auto.
Qed.

Lemma bounds_ordered_at m j lo hi :
  model_ok m → j < getDimension m → bounds_ordered m →
  lower m j = Some lo → upper m j = Some hi → dlt hi lo = false.
Proof.
  intros Hm Hj Hord Hlo Hhi.
  destruct (bounds_at m j Hm Hj) as (lo' & hi' & Hlo' & Hhi' & H1 & H2).
  apply (Hord j); congruence.
Qed.

Lemma enforce_step_ok j s s' : enforce_step j s s' → state_ok s → state_ok s'.
Proof.
  intros (Ho & _ & Hu & Hl & _)%enforce_step_frame [Hm Hp Hup].
  split; rewrite ?Ho, ?Hu, ?Hl; assumption.
Qed.

Lemma enforceBounds_at_defined j s :
  state_ok s → j < getDimension (owner_ s) → ∃ s', enforce_step j s s'.
Proof.
  intros [Hm Hp Hu] Hj.
  destruct (bounds_at _ _ Hm Hj) as (lo & hi & Hlo & Hhi & _).
  destruct (lookup_lt_is_Some_2 (params_ s) j) as [p Hpj]; [lia|].
  destruct (dgt p hi) eqn:Egt; [eexists; eapply enforce_upper; eauto|].
  destruct (dlt p lo) eqn:Elt; [eexists; eapply enforce_lower; eauto|].
  eexists; eapply enforce_keep; eauto.
Qed.

Lemma enforce_fold_defined js s :
  state_ok s → Forall (λ j, j < getDimension (owner_ s)) js →
  ∃ s', fold_opt enforceBounds_at js s = Some s' ∧ state_ok s'.
Proof.
  intros Hs Hjs. remember (getDimension (owner_ s)) as n eqn:Hn.
  revert s Hs Hn. induction Hjs as [|j js Hj Hjs IH]; intros s Hs Hn; cbn.
  - eauto.
  - destruct (enforceBounds_at_defined j s Hs) as [s1 Hstep].
    { rewrite <- Hn. exact Hj. }
    pose proof (enforce_step_frame _ _ _ Hstep) as (Ho & _).
    apply enforceBounds_at_step in Hstep as Hrun. rewrite Hrun. cbn.
    apply IH; [|congruence]. apply enforceBounds_at_step in Hrun.
    eapply enforce_step_ok; eauto.
Qed.

Lemma checkBounds_at_defined s j :
  state_ok s → j < getDimension (owner_ s) → is_Some (checkBounds_at s j).
Proof.
  intros [Hm Hp Hu] Hj.
  destruct (bounds_at _ _ Hm Hj) as (lo & hi & Hlo & Hhi & _).
  destruct (lookup_lt_is_Some_2 (params_ s) j) as [p Hpj]; [lia|].
  unfold checkBounds_at. fold (upper (owner_ s) j). fold (lower (owner_ s) j).
  unfold load. rewrite Hpj, Hhi. cbn. destruct (dgt p hi); [eauto|].
  rewrite Hlo. cbn. destruct (dlt p lo); eauto.
Qed.

Lemma Forall_seq_lt n : Forall (λ j, j < n) (seq 0 n).
Proof. apply Forall_forall. intros j Hj. apply elem_of_seq in Hj. lia. Qed.

Lemma enforceBounds_fold s : enforceBounds s = fold_opt enforceBounds_at (seq 0 (getDimension (owner_ s))) s.
Proof. apply for_loop_seq. Qed.

Lemma enforceBoundsGroup_fold g s :
  dimension g = length (state_index g) →
  enforceBoundsGroup g s = fold_opt enforceBounds_at (state_index g) s.
Proof.
  intros Hd. unfold enforceBoundsGroup. rewrite Hd.
  apply (for_loop_indices enforceBounds_at []).
Qed.

Lemma checkBounds_all s : checkBounds s = all_opt (checkBounds_at s) (seq 0 (getDimension (owner_ s))).
Proof. apply for_all_seq. Qed.

Lemma ordered_on s js :
  state_ok s → bounds_ordered (owner_ s) → Forall (λ j, j < getDimension (owner_ s)) js →
  ∀ j, j ∈ js → ∃ lo hi, lower (owner_ s) j = Some lo ∧ upper (owner_ s) j = Some hi ∧
                          dlt hi lo = false.
Proof.
  intros [Hm _ _] Hord Hjs j Hj.
  assert (j < getDimension (owner_ s)) as Hlt by (eapply Forall_forall in Hjs; eauto).
  destruct (bounds_at _ _ Hm Hlt) as (lo & hi & Hlo & Hhi & _).
  exists lo, hi. repeat split; auto. eapply bounds_ordered_at; eauto.
Qed.

(** ** The sample state *)

Lemma sample_model_ok : model_ok sample_model.
Proof. split; [reflexivity|vm_compute; reflexivity]. Qed.

Lemma sample_state_ok : state_ok sample_state.
Proof. split; [apply sample_model_ok|reflexivity|reflexivity]. Qed.

Lemma sample_group_ok : group_ok sample_model sample_group.
Proof. split; [reflexivity|]. repeat constructor. Qed.

Lemma sample_bounds_ordered : bounds_ordered sample_model.
Proof.
  intros i lo hi Hlo Hhi. destruct i as [|[|i]].
  - injection Hlo as <-. injection Hhi as <-. reflexivity.
  - injection Hlo as <-. injection Hhi as <-. reflexivity.
  - apply lookup_lt_Some in Hlo. cbn in Hlo. lia.
Qed.

(** C3 (counterexample): with the bounds of a component in the wrong order
    (minimum 10, maximum 0) [enforceBounds] is not idempotent: from 5 the
    first call gives 0 and the second call gives 10. *)
Lemma enforceBounds_not_idempotent :
  let m := {| groupMap_ := ∅; linkMap_ := ∅; jointMap_ := ∅; jointList_ := [];
              stateBounds_ := [10%float; 0%float]; dimension_ := 1 |} in
  let s := {| owner_ := m; randSeed_ := 0; params_ := [5%float]; updated_ := [true] |} in
  (params_ <$> enforceBounds s) = Some [0%float] ∧
  (params_ <$> (enforceBounds s ≫= enforceBounds)) = Some [10%float].
Proof. split; vm_compute; reflexivity. Qed.

(** C3 (amended): when no component has its upper bound below its lower
    bound, [enforceBounds] is idempotent: it is defined on every state, and
    applied to its own result it returns that result unchanged. The same
    holds for [enforceBoundsGroup] and every group of the model. *)
Theorem enforceBounds_idempotent (s : KinematicState) (g : JointGroup) :
  state_ok s → group_ok (owner_ s) g → bounds_ordered (owner_ s) →
  (∃ s', enforceBounds s = Some s' ∧ enforceBounds s' = Some s') ∧
  (∃ s', enforceBoundsGroup g s = Some s' ∧ enforceBoundsGroup g s' = Some s').
Proof.
  intros Hs [Hd Hr] Hord. split.
  - destruct (enforce_fold_defined (seq 0 (getDimension (owner_ s))) s Hs)
      as (s' & Hrun & Hs'); [apply Forall_seq_lt|].
    exists s'. rewrite !enforceBounds_fold.
    destruct (enforce_fold_frame _ _ _ Hrun) as (Ho & _). rewrite Ho.
    split; [exact Hrun|]. eapply enforce_fold_idempotent; [|exact Hrun].
    apply ordered_on; auto. apply Forall_seq_lt.
  - destruct (enforce_fold_defined (state_index g) s Hs) as (s' & Hrun & Hs'); [exact Hr|].
    exists s'. rewrite !enforceBoundsGroup_fold by exact Hd.
    split; [exact Hrun|]. eapply enforce_fold_idempotent; [|exact Hrun].
    apply ordered_on; auto.
Qed.

Lemma enforceBounds_idempotent_witness :
  (∃ s', enforceBounds sample_state = Some s' ∧ enforceBounds s' = Some s') ∧
  (∃ s', enforceBoundsGroup sample_group sample_state = Some s' ∧
         enforceBoundsGroup sample_group s' = Some s').
Proof.
  apply (enforceBounds_idempotent sample_state sample_group).
  - exact sample_state_ok.
  - exact sample_group_ok.
  - exact sample_bounds_ordered.
Defined.

(** C4: on every state [checkBounds] and [enforceBounds] are defined, and
    [checkBounds] returns true if and only if [enforceBounds] leaves the
    buffer of parameters as it was. *)
Theorem checkBounds_iff_enforceBounds_unchanged (s : KinematicState) :
  state_ok s →
  ∃ b s', checkBounds s = Some b ∧ enforceBounds s = Some s' ∧
    (b = true ↔ params_ s' = params_ s).
Proof.
  intros Hs.
  destruct (enforce_fold_defined (seq 0 (getDimension (owner_ s))) s Hs)
    as (s' & Hrun & Hs'); [apply Forall_seq_lt|].
  destruct (all_opt_defined (checkBounds_at s) (seq 0 (getDimension (owner_ s)))) as [b Hb].
  { intros j Hj. apply checkBounds_at_defined; [exact Hs|]. apply elem_of_seq in Hj. lia. }
  exists b, s'. rewrite checkBounds_all, enforceBounds_fold. repeat split; auto.
  - intros ->. pose proof (proj1 (all_opt_true _ _) Hb) as Hall.
    rewrite (enforce_fold_within_fixed _ _ Hall) in Hrun. now injection Hrun as <-.
  - intros Heq. destruct b; [reflexivity|].
    assert (all_opt (checkBounds_at s) (seq 0 (getDimension (owner_ s))) = Some true) as Ht.
    { apply all_opt_true. eapply enforce_fold_unchanged; eauto. apply NoDup_seq. }
    congruence.
Qed.

Lemma checkBounds_iff_enforceBounds_unchanged_witness :
  ∃ b s', checkBounds sample_state = Some b ∧ enforceBounds sample_state = Some s' ∧
    (b = true ↔ params_ s' = params_ sample_state).
Proof. apply (checkBounds_iff_enforceBounds_unchanged sample_state). exact sample_state_ok. Defined.



(** ** Invariants of loops *)

Lemma fold_opt_preserves {A St} (F : A → St → option St) (P : St → Prop) xs s s' :
  (∀ x s s', x ∈ xs → F x s = Some s' → P s → P s') →
  fold_opt F xs s = Some s' → P s → P s'.
Proof.
  revert s. induction xs as [|x xs IH]; intros s Hstep; cbn.
  - now intros [= <-].
  - destruct (F x s) as [s1|] eqn:E; [cbn|discriminate]. intros H Hs.
    apply (IH s1); auto.
    + intros y t t' Hy. apply Hstep. now apply elem_of_cons; right.
    + eapply Hstep; eauto. now apply elem_of_cons; left.
Qed.

Lemma fold_opt_establishes {A St} (F : A → St → option St) (Q : A → St → Prop) xs s s' :
  (∀ x s s', F x s = Some s' → Q x s') →
  (∀ x y s s', F x s = Some s' → Q y s → Q y s') →
  fold_opt F xs s = Some s' → ∀ y, y ∈ xs → Q y s'.
Proof.
  intros Hest Hpre. revert s. induction xs as [|x xs IH]; intros s; cbn.
  - intros _ y Hy. inversion Hy.
  - destruct (F x s) as [s1|] eqn:E; [cbn|discriminate]. intros H y Hy.
    apply elem_of_cons in Hy as [->|Hy]; [|now apply (IH s1)].
    apply (fold_opt_preserves F (Q x) xs s1 s'); eauto.
Qed.

Lemma fold_opt_defined {A St} (F : A → St → option St) (P : A → Prop) (Inv : St → Prop) xs s :
  (∀ x s, P x → Inv s → ∃ s', F x s = Some s' ∧ Inv s') →
  Forall P xs → Inv s → ∃ s', fold_opt F xs s = Some s' ∧ Inv s'.
Proof.
  intros Hstep Hxs. revert s. induction Hxs as [|x xs Hx Hxs IH]; intros s Hs; cbn.
  - eauto.
  - destruct (Hstep x s Hx Hs) as (s1 & -> & Hs1). cbn. now apply IH.
Qed.

(** ** Default parameters *)

Lemma default_at_Some j s s' :
  default_at j s = Some s' ↔
  ∃ lo hi, lower (owner_ s) j = Some lo ∧ upper (owner_ s) j = Some hi ∧
    j < length (params_ s) ∧
    s' = with_params s (<[j:=default_value lo hi]> (params_ s)).
Proof.
  unfold default_at. fold (upper (owner_ s) j). fold (lower (owner_ s) j). split.
  - intros H.
    destruct (lower (owner_ s) j) as [lo|]; [cbn in H|discriminate].
    destruct (upper (owner_ s) j) as [hi|]; [cbn in H|discriminate].
    apply set_param_Some in H as [Hj ->]. eauto 10.
  - intros (lo & hi & -> & -> & Hj & ->). cbn. apply set_param_Some. auto.
Qed.

Lemma defaultParams_at_Some j s s' :
  defaultParams_at j s = Some s' ↔
  ∃ lo hi, lower (owner_ s) j = Some lo ∧ upper (owner_ s) j = Some hi ∧
    j < length (params_ s) ∧ j < length (updated_ s) ∧
    s' = with_updated (with_params s (<[j:=default_value lo hi]> (params_ s)))
           (<[j:=true]> (updated_ s)).
Proof.
  unfold defaultParams_at. split.
  - intros H. destruct (default_at j s) as [s1|] eqn:E; [cbn in H|discriminate].
    apply default_at_Some in E as (lo & hi & Hlo & Hhi & Hj & ->).
    apply set_updated_Some in H as [Hu ->]. exists lo, hi. auto.
  - intros (lo & hi & Hlo & Hhi & Hj & Hu & ->).
    assert (default_at j s = Some (with_params s (<[j:=default_value lo hi]> (params_ s)))) as ->.
    { apply default_at_Some. eauto 10. }
    cbn. apply set_updated_Some. auto.
Qed.

Lemma default_at_frame j s s' :
  default_at j s = Some s' →
  owner_ s' = owner_ s ∧ randSeed_ s' = randSeed_ s ∧ updated_ s' = updated_ s ∧
  length (params_ s') = length (params_ s) ∧
  ∀ k, k ≠ j → params_ s' !! k = params_ s !! k.
Proof.
  intros (lo & hi & _ & _ & _ & ->)%default_at_Some. cbn.
  rewrite length_insert. repeat split; auto.
  intros k Hk. now apply list_lookup_insert_ne.
Qed.

Lemma default_at_defaulted j s s' : default_at j s = Some s' → defaulted j s'.
Proof.
  intros (lo & hi & Hlo & Hhi & Hj & ->)%default_at_Some.
  exists lo, hi. cbn. repeat split; auto. now apply list_lookup_insert_eq.
Qed.

Lemma default_at_preserves j k s s' :
  default_at j s = Some s' → defaulted k s → defaulted k s'.
Proof.
  intros Hrun Hk. destruct (decide (k = j)) as [->|Hne].
  - eapply default_at_defaulted; eauto.
  - destruct (default_at_frame _ _ _ Hrun) as (Ho & _ & _ & _ & Hfr).
    destruct Hk as (lo & hi & ? & ? & ?). exists lo, hi. rewrite Ho, Hfr by exact Hne. auto.
Qed.

Lemma defaultParams_at_parts j s s' :
  defaultParams_at j s = Some s' →
  ∃ s1, default_at j s = Some s1 ∧ set_updated j true s1 = Some s'.
Proof.
  unfold defaultParams_at. destruct (default_at j s) as [s1|]; [cbn|discriminate]. eauto.
Qed.

Lemma set_updated_defaulted i b k s s' :
  set_updated i b s = Some s' → defaulted k s → defaulted k s'.
Proof. intros [_ ->]%set_updated_Some H. exact H. Qed.

Lemma defaultParams_at_seen j k s s' :
  defaultParams_at j s = Some s' → k = j ∨ seen k s → seen k s'.
Proof.
  intros (lo & hi & _ & _ & _ & Hu & ->)%defaultParams_at_Some Hk. unfold seen. cbn.
  destruct (decide (k = j)) as [->|Hne].
  - now apply list_lookup_insert_eq.
  - rewrite list_lookup_insert_ne by auto. destruct Hk; [contradiction|assumption].
Qed.

Lemma state_ok_with_params s p :
  state_ok s → length p = length (params_ s) → state_ok (with_params s p).
Proof. intros [Hm Hp Hu] Hl. split; cbn; congruence. Qed.

Lemma state_ok_with_updated s u :
  state_ok s → length u = length (updated_ s) → state_ok (with_updated s u).
Proof. intros [Hm Hp Hu] Hl. split; cbn; congruence. Qed.

Lemma default_at_defined m j s :
  state_ok s ∧ owner_ s = m → j < getDimension m →
  ∃ s', default_at j s = Some s' ∧ state_ok s' ∧ owner_ s' = m.
Proof.
  intros [Hs <-] Hj. pose proof Hs as [Hm Hp Hu].
  destruct (bounds_at _ _ Hm Hj) as (lo & hi & Hlo & Hhi & _).
  eexists. split; [apply default_at_Some; exists lo, hi; repeat split; eauto; lia|].
  split; [|reflexivity]. apply state_ok_with_params; [exact Hs|]. apply length_insert.
Qed.

Lemma set_updated_defined m j b s :
  state_ok s ∧ owner_ s = m → j < getDimension m →
  ∃ s', set_updated j b s = Some s' ∧ state_ok s' ∧ owner_ s' = m.
Proof.
  intros [Hs <-] Hj. pose proof Hs as [Hm Hp Hu].
  eexists. split; [apply set_updated_Some; split; [lia|reflexivity]|].
  split; [|reflexivity]. apply state_ok_with_updated; [exact Hs|]. apply length_insert.
Qed.

Lemma set_param_defined m j v s :
  state_ok s ∧ owner_ s = m → j < getDimension m →
  ∃ s', set_param j v s = Some s' ∧ state_ok s' ∧ owner_ s' = m.
Proof.
  intros [Hs <-] Hj. pose proof Hs as [Hm Hp Hu].
  eexists. split; [apply set_param_Some; split; [lia|reflexivity]|].
  split; [|reflexivity]. apply state_ok_with_params; [exact Hs|]. apply length_insert.
Qed.

Lemma defaultParams_at_defined m j s :
  state_ok s ∧ owner_ s = m → j < getDimension m →
  ∃ s', defaultParams_at j s = Some s' ∧ state_ok s' ∧ owner_ s' = m.
Proof.
  intros Hs Hj. unfold defaultParams_at.
  destruct (default_at_defined m j s Hs Hj) as (s1 & -> & Hs1). cbn.
  now apply set_updated_defined.
Qed.

Lemma defaultParams_fold s :
  defaultParams s = fold_opt defaultParams_at (seq 0 (getDimension (owner_ s))) s.
Proof. apply for_loop_seq. Qed.

Lemma defaultParamsGroup_fold g s :
  dimension g = length (state_index g) →
  defaultParamsGroup g s = fold_opt default_at (state_index g) s.
Proof.
  intros Hd. unfold defaultParamsGroup. rewrite Hd.
  apply (for_loop_indices default_at []).
Qed.

(** The whole-state loop gives every component its default value and marks
    it as seen. *)
Lemma defaultParams_defined s :
  state_ok s →
  ∃ s', defaultParams s = Some s' ∧ state_ok s' ∧ owner_ s' = owner_ s ∧
    ∀ j, j < getDimension (owner_ s) → defaulted j s' ∧ seen j s'.
Proof.
  intros Hs. rewrite defaultParams_fold.
  destruct (fold_opt_defined defaultParams_at (λ j, j < getDimension (owner_ s))
    (λ t, state_ok t ∧ owner_ t = owner_ s) (seq 0 (getDimension (owner_ s))) s)
    as (s' & Hrun & Hs' & Ho); auto using Forall_seq_lt.
  { intros j t Hj Ht. apply defaultParams_at_defined; auto. }
  exists s'. do 3 (split; [assumption|]). intros j Hj. split.
  - apply (fold_opt_establishes defaultParams_at defaulted _ _ _) with (y := j) in Hrun; auto.
    + intros x t t' (t1 & H1 & H2)%defaultParams_at_parts.
      eapply set_updated_defaulted; eauto. eapply default_at_defaulted; eauto.
    + intros x y t t' (t1 & H1 & H2)%defaultParams_at_parts Hy.
      eapply set_updated_defaulted; eauto. eapply default_at_preserves; eauto.
    + apply elem_of_seq. lia.
  - apply (fold_opt_establishes defaultParams_at seen _ _ _) with (y := j) in Hrun; auto.
    + intros x t t' Hx. eapply defaultParams_at_seen; eauto.
    + intros x y t t' Hx Hy. eapply defaultParams_at_seen; eauto.
    + apply elem_of_seq. lia.
Qed.

(** The loop over a group gives every component of the group its default
    value and leaves the flags as they were. *)
Lemma defaultParamsGroup_defined g s :
  state_ok s → group_ok (owner_ s) g →
  ∃ s', defaultParamsGroup g s = Some s' ∧ state_ok s' ∧ owner_ s' = owner_ s ∧
    updated_ s' = updated_ s ∧ ∀ j, j ∈ state_index g → defaulted j s'.
Proof.
  intros Hs [Hd Hr]. rewrite defaultParamsGroup_fold by exact Hd.
  destruct (fold_opt_defined default_at (λ j, j < getDimension (owner_ s))
    (λ t, state_ok t ∧ owner_ t = owner_ s) (state_index g) s)
    as (s' & Hrun & Hs' & Ho); auto.
  { intros j t Hj Ht. apply default_at_defined; auto. }
  exists s'. do 3 (split; [assumption|]). split.
  - apply (fold_opt_preserves default_at (λ t, updated_ t = updated_ s) _ _ _) in Hrun; auto.
    intros x t t' _ (_ & _ & Hu & _)%default_at_frame. congruence.
  - intros j Hj.
    apply (fold_opt_establishes default_at defaulted _ _ _) with (y := j) in Hrun; auto.
    + intros x t t'. apply default_at_defaulted.
    + intros x y t t'. apply default_at_preserves.
Qed.



(** ** Equality of states *)

Lemma Prim2SF_DBL_MIN : Prim2SF DBL_MIN = S754_finite false 4503599627370496 (-1074).
Proof. reflexivity. Qed.

Lemma SFcompare_Eq_finite s1 m1 e1 s2 m2 e2 :
  SFcompare (S754_finite s1 m1 e1) (S754_finite s2 m2 e2) = Some Eq →
  s1 = s2 ∧ m1 = m2 ∧ e1 = e2.
Proof.
  cbn. destruct s1, s2; try discriminate;
    destruct (e1 ?= e2)%Z eqn:E; try discriminate;
    apply Z.compare_eq in E; subst; intros [= H];
    [apply (f_equal CompOpp) in H; rewrite CompOpp_involutive in H; cbn in H|];
    apply Pos.compare_eq in H; auto.
Qed.

(** Doubles that compare equal are not told apart by the test of
    [operator==]. *)
Lemma eqb_not_apart (a c : float) :
  (a =? c)%float = true → dgt (fabs (a - c)%float) DBL_MIN = false.
Proof.
  unfold dgt, fabs. rewrite FloatAxioms.eqb_spec, FloatAxioms.ltb_spec, FloatAxioms.abs_spec, FloatAxioms.sub_spec, Prim2SF_DBL_MIN.
  unfold SFeqb.
  destruct (Prim2SF a) as [[]|[]| |[] m1 e1], (Prim2SF c) as [[]|[]| |[] m2 e2];
    try (cbn; discriminate); try reflexivity.
  all: intros H; destruct (SFcompare _ _) as [[]|] eqn:E; try discriminate.
  all: apply SFcompare_Eq_finite in E as (_ & -> & ->).
  all: unfold SF64sub, SFsub; rewrite Z.sub_diag; reflexivity.
Qed.

Lemma equal_all s rhs :
  getDimension (owner_ s) = getDimension (owner_ rhs) →
  equal s rhs =
  all_opt (λ i, a ← load (params_ s) i; b ← load (params_ rhs) i; Some (negb (apart a b)))
    (seq 0 (getDimension (owner_ s))).
Proof.
  intros Hd. unfold equal. rewrite <- Hd, Nat.eqb_refl. cbn. apply for_all_seq.
Qed.

(** C7 (counterexample): the states with buffers [0] and [2^-1074] compare
    equal, and the two components are not numerically identical. *)
Lemma equal_not_exact :
  let m := {| groupMap_ := ∅; linkMap_ := ∅; jointMap_ := ∅; jointList_ := [];
              stateBounds_ := [(-1)%float; 1%float]; dimension_ := 1 |} in
  let s := {| owner_ := m; randSeed_ := 0; params_ := [0%float]; updated_ := [true] |} in
  let rhs := {| owner_ := m; randSeed_ := 0; params_ := [0x1p-1074%float]; updated_ := [true] |} in
  equal s rhs = Some true ∧ (0 =? 0x1p-1074)%float = false.
Proof. split; vm_compute; reflexivity. Qed.

(** C7 (amended): two states of equal dimension compare equal if and only if
    no pair of corresponding components [a], [c] has [fabs(a - c) > DBL_MIN].
    Components that are numerically identical ([a == c]) always pass, so
    states whose components are pairwise identical compare equal; the
    converse is not claimed. *)
Theorem equal_iff_no_component_apart (s rhs : KinematicState) :
  state_ok s → state_ok rhs →
  getDimension (owner_ s) = getDimension (owner_ rhs) →
  ∃ b, equal s rhs = Some b ∧
    (b = true ↔
       ∀ i a c, params_ s !! i = Some a → params_ rhs !! i = Some c →
                dgt (fabs (a - c)%float) DBL_MIN = false) ∧
    ((∀ i a c, params_ s !! i = Some a → params_ rhs !! i = Some c →
               (a =? c)%float = true) → b = true).
Proof.
  intros [_ Hp _] [_ Hp' _] Hd. rewrite (equal_all s rhs Hd).
  set (T := λ i, a ← load (params_ s) i; b ← load (params_ rhs) i; Some (negb (apart a b))).
  assert (∀ i, i < getDimension (owner_ s) →
    ∃ a c, params_ s !! i = Some a ∧ params_ rhs !! i = Some c ∧ T i = Some (negb (apart a c)))
    as Hcell.
  { intros i Hi.
    destruct (lookup_lt_is_Some_2 (params_ s) i) as [a Ha]; [lia|].
    destruct (lookup_lt_is_Some_2 (params_ rhs) i) as [c Hc]; [lia|].
    exists a, c. unfold T, load. rewrite Ha, Hc. auto. }
  destruct (all_opt_defined T (seq 0 (getDimension (owner_ s)))) as [b Hb].
  { intros i Hi. apply elem_of_seq in Hi.
    destruct (Hcell i) as (a & c & _ & _ & ->); [lia|]. eauto. }
  assert (b = true ↔
    ∀ i a c, params_ s !! i = Some a → params_ rhs !! i = Some c →
             dgt (fabs (a - c)%float) DBL_MIN = false) as Hiff.
  { split.
    - intros -> i a c Ha Hc. pose proof (proj1 (all_opt_true _ _) Hb i) as Hi.
      assert (i < getDimension (owner_ s)) as Hlt by (apply lookup_lt_Some in Ha; lia).
      destruct (Hcell i Hlt) as (a' & c' & Ha' & Hc' & HT).
      rewrite HT in Hi. assert (a' = a) as -> by congruence. assert (c' = c) as -> by congruence.
      specialize (Hi ltac:(apply elem_of_seq; lia)). injection Hi as Hi.
      now apply negb_true_iff in Hi.
    - intros Hall. destruct b; [reflexivity|].
      assert (all_opt T (seq 0 (getDimension (owner_ s))) = Some true) as Ht; [|congruence].
      apply all_opt_true. intros i Hi. apply elem_of_seq in Hi.
      destruct (Hcell i) as (a & c & Ha & Hc & ->); [lia|].
      f_equal. apply negb_true_iff. now apply (Hall i). }
  exists b. split; [exact Hb|]. split; [exact Hiff|].
  intros Hsame. apply Hiff. intros i a c Ha Hc. apply eqb_not_apart. eauto.
Qed.

Lemma equal_iff_no_component_apart_witness :
  ∃ b, equal sample_state sample_state = Some b ∧
    (b = true ↔
       ∀ i a c, params_ sample_state !! i = Some a → params_ sample_state !! i = Some c →
                dgt (fabs (a - c)%float) DBL_MIN = false) ∧
    ((∀ i a c, params_ sample_state !! i = Some a → params_ sample_state !! i = Some c →
               (a =? c)%float = true) → b = true).
Proof.
  apply (equal_iff_no_component_apart sample_state sample_state).
  - exact sample_state_ok.
  - exact sample_state_ok.
  - reflexivity.
Defined.

(** ** Default parameters: what the claims say *)

(** C6 (the code at the failing input): on a state fresh from the
    constructor, [defaultParamsGroup] leaves the component of the group
    unseen, where [defaultParams] marks every component as seen. *)
Theorem defaultParamsGroup_leaves_unseen :
  (s ← KinematicState_new sample_model 0 0;
   s ← defaultParamsGroup sample_group s;
   seenAllGroup sample_group s) = Some false ∧
  (s ← KinematicState_new sample_model 0 0;
   s ← defaultParams s;
   seenAll s) = Some true.
Proof. split; vm_compute; reflexivity. Qed.


(** ** Setting parameters *)

Arguments setParams_at : simpl never.

Lemma drop_lookup_cons {A} (l : list A) i : i < length l → ∃ x, l !! i = Some x ∧ drop i l = x :: drop (S i) l.
Proof.
  intros H. destruct (lookup_lt_is_Some_2 l i H) as [x Hx]. exists x. split; [exact Hx|].
  now apply drop_S.
Qed.

Lemma for_loop_zip {St} (G : nat → float → St → option St) (J : nat → option nat)
    (js : list nat) (vs : list float) i rs :
  (∀ k j, js !! k = Some j → J (i + k) = Some j) →
  i + length js ≤ length vs →
  for_loop (λ i rs, j ← J i; v ← load vs i; G j v rs) i (length js) rs
  = fold_opt (λ jv, G jv.1 jv.2) (zip js (drop i vs)) rs.
Proof.
  revert i rs. induction js as [|j js IH]; intros i rs HJ Hlen; cbn; [reflexivity|].
  cbn in Hlen. destruct (drop_lookup_cons vs i) as (v & Hv & ->); [lia|].
  pose proof (HJ 0 j eq_refl) as HJ0. rewrite Nat.add_0_r in HJ0. rewrite HJ0.
  cbn. replace (load vs i) with (Some v) by (symmetry; exact Hv). cbn.
  destruct (G j v rs) as [rs'|]; cbn; [|reflexivity].
  apply IH; [|lia]. intros k j' Hk. replace (S i + k) with (i + S k) by lia. now apply HJ.
Qed.

(** What one round does. *)
Lemma setParams_at_Some j v r s r' s' :
  setParams_at j v (r, s) = Some (r', s') ↔
  ∃ p u, params_ s !! j = Some p ∧ updated_ s !! j = Some u ∧
    if dne p v || negb u
    then r' = true ∧
         s' = with_updated (with_params s (<[j:=v]> (params_ s))) (<[j:=true]> (updated_ s))
    else r' = r ∧ s' = s.
Proof.
  unfold setParams_at, load. split.
  - intros H. destruct (params_ s !! j) as [p|] eqn:Ep; [cbn in H|discriminate].
    destruct (dne p v) eqn:Ene.
    + destruct (set_param j v s) as [s1|] eqn:E1; [cbn in H|discriminate].
      destruct (set_updated j true s1) as [s2|] eqn:E2; [cbn in H|discriminate].
      apply set_param_Some in E1 as [_ ->]. apply set_updated_Some in E2 as [Hu ->].
      cbn in Hu. destruct (lookup_lt_is_Some_2 (updated_ s) j Hu) as [u Hu'].
      injection H as <- <-. exists p, u. rewrite Ene. cbn. auto.
    + destruct (updated_ s !! j) as [u|] eqn:Eu; [cbn in H|discriminate].
      exists p, u. rewrite Ene. destruct u; cbn in *.
      * injection H as <- <-. auto.
      * destruct (set_param j v s) as [s1|] eqn:E1; [cbn in H|discriminate].
        destruct (set_updated j true s1) as [s2|] eqn:E2; [cbn in H|discriminate].
        apply set_param_Some in E1 as [_ ->]. apply set_updated_Some in E2 as [_ ->].
        injection H as <- <-. auto.
  - intros (p & u & Hp & Hu & H). rewrite Hp. cbn.
    assert (set_param j v s = Some (with_params s (<[j:=v]> (params_ s)))) as E1.
    { apply set_param_Some. split; [eapply lookup_lt_Some; eauto|reflexivity]. }
    assert (set_updated j true (with_params s (<[j:=v]> (params_ s)))
            = Some (with_updated (with_params s (<[j:=v]> (params_ s)))
                      (<[j:=true]> (updated_ s)))) as E2.
    { apply set_updated_Some. split; [cbn; eapply lookup_lt_Some; eauto|reflexivity]. }
    destruct (dne p v) eqn:Ene; cbn in H.
    + destruct H as [-> ->]. rewrite E1. cbn. rewrite E2. reflexivity.
    + rewrite Hu. cbn. destruct u; cbn in H; destruct H as [-> ->]; [reflexivity|].
      rewrite E1. cbn. rewrite E2. reflexivity.
Qed.

Lemma setParams_at_frame j v r s r' s' :
  setParams_at j v (r, s) = Some (r', s') →
  owner_ s' = owner_ s ∧ randSeed_ s' = randSeed_ s ∧
  length (params_ s') = length (params_ s) ∧ length (updated_ s') = length (updated_ s) ∧
  ∀ k, k ≠ j → params_ s' !! k = params_ s !! k ∧ updated_ s' !! k = updated_ s !! k.
Proof.
  intros (p & u & Hp & Hu & H)%setParams_at_Some.
  destruct (dne p v || negb u); cbv iota in H; destruct H as [-> ->]; cbn;
    rewrite ?length_insert; repeat split; auto;
    apply list_lookup_insert_ne; auto.
Qed.

(** After a round the component holds the supplied value and is seen. *)
Lemma setParams_at_cell j v r s r' s' :
  setParams_at j v (r, s) = Some (r', s') →
  (∃ p, params_ s' !! j = Some p ∧ same_value p v) ∧ updated_ s' !! j = Some true.
Proof.
  intros (p & u & Hp & Hu & H)%setParams_at_Some.
  destruct (dne p v) eqn:Ene; cbn in H.
  - destruct H as [-> ->]. cbn. split.
    + exists v. split; [|now left]. apply list_lookup_insert_eq. eapply lookup_lt_Some; eauto.
    + apply list_lookup_insert_eq. eapply lookup_lt_Some; eauto.
  - destruct u; cbn in H; destruct H as [-> ->]; cbn.
    + split; [|exact Hu]. exists p. split; [exact Hp|]. right.
      unfold dne in Ene. now apply negb_false_iff in Ene.
    + split.
      * exists v. split; [|now left]. apply list_lookup_insert_eq. eapply lookup_lt_Some; eauto.
      * apply list_lookup_insert_eq. eapply lookup_lt_Some; eauto.
Qed.

Lemma setParams_fold_frame jvs r s r' s' :
  setParams_fold jvs (r, s) = Some (r', s') →
  owner_ s' = owner_ s ∧ randSeed_ s' = randSeed_ s ∧
  length (params_ s') = length (params_ s) ∧ length (updated_ s') = length (updated_ s) ∧
  ∀ k, k ∉ jvs.*1 → params_ s' !! k = params_ s !! k ∧ updated_ s' !! k = updated_ s !! k.
Proof.
  unfold setParams_fold. revert r s. induction jvs as [|[j v] jvs IH]; intros r s; cbn.
  - intros [= <- <-]. repeat split; auto.
  - destruct (setParams_at j v (r, s)) as [[r1 s1]|] eqn:E; [cbn|discriminate].
    intros H. apply IH in H as (Ho & Hr & Hl & Hl' & Hk).
    apply setParams_at_frame in E as (Ho1 & Hr1 & Hl1 & Hl1' & Hk1).
    do 4 (split; [congruence|]). intros k Hnin.
    apply not_elem_of_cons in Hnin as [? ?].
    destruct (Hk k) as [-> ->]; auto.
Qed.

Lemma setParams_fold_false jvs r s s' :
  setParams_fold jvs (r, s) = Some (false, s') → r = false ∧ s' = s.
Proof.
  unfold setParams_fold. revert r s. induction jvs as [|[j v] jvs IH]; intros r s; cbn.
  - intros [= -> ->]. auto.
  - destruct (setParams_at j v (r, s)) as [[r1 s1]|] eqn:E; [cbn|discriminate].
    intros H. apply IH in H as [-> ->].
    apply setParams_at_Some in E as (p & u & _ & _ & H).
    destruct (dne p v || negb u); cbv iota in H; destruct H; [discriminate|auto].
Qed.

Lemma setParams_fold_post jvs r s r' s' :
  NoDup jvs.*1 →
  setParams_fold jvs (r, s) = Some (r', s') →
  (∀ j v, (j, v) ∈ jvs → (∃ p, params_ s' !! j = Some p ∧ same_value p v) ∧
                           updated_ s' !! j = Some true) ∧
  (r' = true ↔ r = true ∨
     ∃ j v p u, (j, v) ∈ jvs ∧ params_ s !! j = Some p ∧ updated_ s !! j = Some u ∧
                (dne p v = true ∨ u = false)).
Proof.
  unfold setParams_fold. revert r s.
  induction jvs as [|[j v] jvs IH]; intros r s Hnd; cbn.
  - intros [= <- <-]. split.
    + intros j v Hj. inversion Hj.
    + split; [auto|]. intros [?|(j & v & p & u & Hj & _)]; [assumption|inversion Hj].
  - cbn in Hnd. apply NoDup_cons in Hnd as [Hnin Hnd].
    destruct (setParams_at j v (r, s)) as [[r1 s1]|] eqn:E; [cbn|discriminate].
    intros H. destruct (IH r1 s1 Hnd H) as [Hcells Hflag].
    destruct (setParams_fold_frame _ _ _ _ _ H) as (_ & _ & _ & _ & Hfr).
    destruct (setParams_at_frame _ _ _ _ _ _ E) as (_ & _ & _ & _ & Hfr1).
    split.
    + intros k w Hk. apply elem_of_cons in Hk as [[= -> ->]|Hk]; [|now apply Hcells].
      destruct (Hfr j Hnin) as [-> ->]. eapply setParams_at_cell; eauto.
    + rewrite Hflag. apply setParams_at_Some in E as (p & u & Hp & Hu & Hstep). split.
      * intros [->|(k & w & q & t & Hk & Hq & Ht & Hor)].
        -- destruct (dne p v || negb u) eqn:Ec; cbv iota in Hstep;
             destruct Hstep as [Hr1 ->]; [|now left].
           right. exists j, v, p, u. split; [now apply elem_of_cons; left|].
           repeat split; auto. apply orb_true_iff in Ec as [?|?%negb_true_iff]; auto.
        -- right. exists k, w, q, t. split; [now apply elem_of_cons; right|].
           assert (k ≠ j) as Hne.
           { intros ->. apply Hnin. apply list_elem_of_fmap. now exists (j, w). }
           assert (setParams_at j v (r, s) = Some (r1, s1)) as E'
             by (apply setParams_at_Some; eauto).
           destruct (setParams_at_frame _ _ _ _ _ _ E') as (_ & _ & _ & _ & Hfr2).
           destruct (Hfr2 k Hne) as [<- <-]. auto.
      * intros [->|(k & w & q & t & Hk & Hq & Ht & Hor)].
        -- left. destruct (dne p v || negb u); cbv iota in Hstep; destruct Hstep; auto.
        -- apply elem_of_cons in Hk as [[= -> ->]|Hk].
           ++ left. assert (q = p) as -> by congruence. assert (t = u) as -> by congruence.
              assert (dne p v || negb u = true) as Ec.
              { apply orb_true_iff. destruct Hor as [?| ->]; auto. }
              rewrite Ec in Hstep. now destruct Hstep.
           ++ right. exists k, w, q, t. split; [exact Hk|].
              assert (k ≠ j) as Hne.
              { intros ->. apply Hnin. apply list_elem_of_fmap. now exists (j, w). }
              assert (setParams_at j v (r, s) = Some (r1, s1)) as E'
                by (apply setParams_at_Some; eauto).
              destruct (setParams_at_frame _ _ _ _ _ _ E') as (_ & _ & _ & _ & Hfr2).
              destruct (Hfr2 k Hne) as [-> ->]. auto.
Qed.

Lemma setParams_fold_defined jvs r s :
  state_ok s → Forall (λ jv, jv.1 < getDimension (owner_ s)) jvs →
  ∃ r' s', setParams_fold jvs (r, s) = Some (r', s') ∧ state_ok s'.
Proof.
  intros Hs Hjs.
  destruct (fold_opt_defined (λ jv, setParams_at jv.1 jv.2)
    (λ jv, jv.1 < getDimension (owner_ s))
    (λ rs, state_ok rs.2 ∧ owner_ rs.2 = owner_ s) jvs (r, s)) as ([r' s'] & Hrun & Hs' & _); auto.
  - intros [j v] [r0 s0] Hj [Hs0 Ho]. cbn in *. pose proof Hs0 as [Hm Hp Hu].
    destruct (lookup_lt_is_Some_2 (params_ s0) j) as [p Hpj]; [rewrite Hp, Ho; lia|].
    destruct (lookup_lt_is_Some_2 (updated_ s0) j) as [u Huj]; [rewrite Hu, Ho; lia|].
    destruct (dne p v || negb u) eqn:Ec.
    + eexists (_, _). split; [apply setParams_at_Some; exists p, u; rewrite Ec; eauto|].
      cbn. split; [|assumption].
      apply state_ok_with_updated; [apply state_ok_with_params; auto|]; cbn;
        apply length_insert.
    + exists (r0, s0). split; [apply setParams_at_Some; exists p, u; rewrite Ec; eauto|].
      cbn. auto.
  - exists r', s'. auto.
Qed.

Lemma setParams_fold_spec jvs s :
  state_ok s → NoDup jvs.*1 → Forall (λ jv, jv.1 < getDimension (owner_ s)) jvs →
  ∃ r s', setParams_fold jvs (false, s) = Some (r, s') ∧ setParams_post jvs s r s'.
Proof.
  intros Hs Hnd Hjs.
  destruct (setParams_fold_defined jvs false s Hs Hjs) as (r & s' & Hrun & _).
  exists r, s'. split; [exact Hrun|].
  destruct (setParams_fold_post _ _ _ _ _ Hnd Hrun) as [Hcells Hflag].
  repeat split.
  - intros j v Hj. now destruct (Hcells j v Hj).
  - intros j v Hj. now destruct (Hcells j v Hj).
  - intros Hr. apply Hflag in Hr as [?|?]; [discriminate|assumption].
  - intros H. apply Hflag. now right.
  - intros ->. now apply setParams_fold_false in Hrun as [_ ->].
Qed.



Arguments setParams_at : simpl never.

Lemma setParams_fold_eq vs s :
  getDimension (owner_ s) ≤ length vs →
  setParams vs s = setParams_fold (zip (seq 0 (getDimension (owner_ s))) vs) (false, s).
Proof.
  intros Hlen. unfold setParams, setParams_fold.
  pose proof (for_loop_zip setParams_at (λ i, Some i)
    (seq 0 (getDimension (owner_ s))) vs 0 (false, s)) as H.
  rewrite length_seq in H. apply H.
  - intros k j Hk. apply lookup_seq in Hk as [-> _]. reflexivity.
  - cbn. lia.
Qed.

Lemma setParamsGroup_fold_eq vs g s :
  dimension g = length (state_index g) → dimension g ≤ length vs →
  setParamsGroup vs g s = setParams_fold (zip (state_index g) vs) (false, s).
Proof.
  intros Hd Hlen. unfold setParamsGroup, setParams_fold. rewrite Hd.
  apply (for_loop_zip setParams_at (load (state_index g)) (state_index g) vs 0).
  - intros k j Hk. exact Hk.
  - lia.
Qed.

Lemma setParamsJoint_fold_eq vs n joint s :
  state_ok s → jointMap_ (owner_ s) !! n = Some joint → joint_ok (owner_ s) joint →
  usedParams joint ≤ length vs →
  setParamsJoint vs n s
  = setParams_fold (zip (seq (stateIndex joint) (usedParams joint)) vs) (false, s).
Proof.
  intros [[_ Hfit] _ _] Hn Hj Hlen. unfold setParamsJoint, setParams_fold, getJoint.
  rewrite Hn. cbn.
  pose proof (for_loop_zip setParams_at (λ i, Some (uadd (stateIndex joint) i))
    (seq (stateIndex joint) (usedParams joint)) vs 0 (false, s)) as H.
  rewrite length_seq in H. apply H.
  - intros k j Hk. apply lookup_seq in Hk as [-> Hk]. cbn. f_equal.
    apply uadd_small. unfold joint_ok in Hj. change (2 ^ 32)%N with (2 * 2 ^ 31)%N. lia.
  - cbn. lia.
Qed.

Lemma zip_fst_le {A B} (l : list A) (k : list B) : length l ≤ length k → (zip l k).*1 = l.
Proof. intros H. now apply fst_zip. Qed.

Lemma Forall_zip_fst {A B} (P : A → Prop) (l : list A) (k : list B) :
  Forall P l → Forall (λ ab, P ab.1) (zip l k).
Proof.
  intros Hl. revert k. induction Hl as [|x l Hx Hl IH]; intros [|y k]; cbn; constructor; auto.
Qed.

(** C5: every operation of the [setParams] family (for the whole state, for
    a group, for a joint) is defined when the caller supplies a value for
    each addressed component; it leaves each addressed component holding
    the supplied value and marked as seen; it returns true if and only if
    some addressed component held a different value or was not yet seen;
    and when it returns false the state is unchanged. *)
Theorem setParams_family (s : KinematicState) (params : list float)
    (g : JointGroup) (n : string) (joint : Joint) :
  state_ok s →
  (getDimension (owner_ s) ≤ length params →
   ∃ r s', setParams params s = Some (r, s') ∧
     setParams_post (zip (seq 0 (getDimension (owner_ s))) params) s r s') ∧
  (group_ok (owner_ s) g → NoDup (state_index g) → dimension g ≤ length params →
   ∃ r s', setParamsGroup params g s = Some (r, s') ∧
     setParams_post (zip (state_index g) params) s r s') ∧
  (jointMap_ (owner_ s) !! n = Some joint → joint_ok (owner_ s) joint →
   usedParams joint ≤ length params →
   ∃ r s', setParamsJoint params n s = Some (r, s') ∧
     setParams_post (zip (seq (stateIndex joint) (usedParams joint)) params) s r s').
Proof.
  intros Hs. split; [|split].
  - intros Hlen. rewrite setParams_fold_eq by exact Hlen.
    apply setParams_fold_spec; [exact Hs| |].
    + rewrite zip_fst_le by (rewrite length_seq; lia). apply NoDup_seq.
    + apply (Forall_zip_fst (λ j, j < getDimension (owner_ s))), Forall_seq_lt.
  - intros [Hd Hr] Hnd Hlen. rewrite setParamsGroup_fold_eq by assumption.
    apply setParams_fold_spec; [exact Hs| |].
    + rewrite zip_fst_le by lia. exact Hnd.
    + apply (Forall_zip_fst (λ j, j < getDimension (owner_ s))), Hr.
  - intros Hn Hj Hlen. rewrite (setParamsJoint_fold_eq params n joint s) by assumption.
    apply setParams_fold_spec; [exact Hs| |].
    + rewrite zip_fst_le by (rewrite length_seq; lia). apply NoDup_seq.
    + apply (Forall_zip_fst (λ j, j < getDimension (owner_ s))).
      apply Forall_forall. intros j Hin. apply elem_of_seq in Hin.
      unfold joint_ok in Hj. lia.
Qed.

Lemma setParams_family_witness :
  (∃ r s', setParams [0.5%float; 3%float] sample_state = Some (r, s') ∧
     setParams_post (zip (seq 0 (getDimension (owner_ sample_state))) [0.5%float; 3%float])
       sample_state r s') ∧
  (∃ r s', setParamsGroup [0.5%float; 3%float] sample_group sample_state = Some (r, s') ∧
     setParams_post (zip (state_index sample_group) [0.5%float; 3%float]) sample_state r s') ∧
  (∃ r s', setParamsJoint [0.5%float; 3%float] "elbow" sample_state = Some (r, s') ∧
     setParams_post (zip (seq 1 1) [0.5%float; 3%float]) sample_state r s').
Proof.
  destruct (setParams_family sample_state [0.5%float; 3%float] sample_group "elbow"
    {| name := "elbow"; usedParams := 1; stateIndex := 1 |} sample_state_ok)
    as (H1 & H2 & H3).
  split; [|split].
  - apply H1. cbn. lia.
  - apply H2; [exact sample_group_ok|repeat constructor; set_solver|cbn; lia].
  - apply H3; [reflexivity|unfold joint_ok; cbn; lia|cbn; lia].
Defined.

(** ** Lookups *)

(** C8: the lookups by name are total. [getModelGroup] never reads past the
    end of the map: it returns the null pointer for a name that is not
    registered and the registered group otherwise; so do [getJoint],
    [getLink] and [getGroup]. *)
Theorem lookups_return_not_found (m : KinematicModel) (m2 : Model.KinematicModel) (n : string) :
  (Model.getModelGroup m2 n =
     Some (match Model.joint_model_group_map_ m2 !! n with
           | Some g => Ref g
           | None => NULL
           end)) ∧
  (getJoint m n = NULL ↔ jointMap_ m !! n = None) ∧
  (∀ j, getJoint m n = Ref j ↔ jointMap_ m !! n = Some j) ∧
  (getLink m n = NULL ↔ linkMap_ m !! n = None) ∧
  (∀ l, getLink m n = Ref l ↔ linkMap_ m !! n = Some l) ∧
  (getGroup m n = NULL ↔ groupMap_ m !! n = None) ∧
  (∀ g, getGroup m n = Ref g ↔ groupMap_ m !! n = Some g).
Proof.
  split.
  - unfold Model.getModelGroup, Model.hasModelGroup, Model.find.
    destruct (Model.joint_model_group_map_ m2 !! n) as [g|] eqn:E.
    + rewrite bool_decide_eq_true_2 by eauto. reflexivity.
    + rewrite bool_decide_eq_false_2 by (intros [? ?]; discriminate). reflexivity.
  - unfold getJoint, getLink, getGroup.
    destruct (jointMap_ m !! n), (linkMap_ m !! n), (groupMap_ m !! n);
      repeat split; intros; congruence.
Qed.


Section RandomFacts.

Variable rand_r : N → Z * N.
Variable RAND_MAX : Z.

Lemma draw_eq s :
  draw rand_r RAND_MAX s = (fraction rand_r RAND_MAX (randSeed_ s), with_seed s (rand_r (randSeed_ s)).2).
Proof. unfold draw, fraction. destruct (rand_r (randSeed_ s)); reflexivity. Qed.

Lemma randomParams_at_Some j s s' :
  randomParams_at rand_r RAND_MAX j s = Some s' ↔
  ∃ lo hi, lower (owner_ s) j = Some lo ∧ upper (owner_ s) j = Some hi ∧
    j < length (params_ s) ∧ j < length (updated_ s) ∧
    s' = {| owner_ := owner_ s; randSeed_ := (rand_r (randSeed_ s)).2;
            params_ := <[j:=sample lo hi (fraction rand_r RAND_MAX (randSeed_ s))]> (params_ s);
            updated_ := <[j:=true]> (updated_ s) |}.
Proof.
  unfold randomParams_at. fold (upper (owner_ s) j). fold (lower (owner_ s) j).
  rewrite draw_eq. split.
  - intros H.
    destruct (upper (owner_ s) j) as [hi|]; [cbn in H|discriminate].
    destruct (lower (owner_ s) j) as [lo|]; [cbn in H|discriminate].
    destruct (set_param _ _ _) as [s1|] eqn:E1; [cbn in H|discriminate].
    apply set_param_Some in E1 as [Hj ->]. apply set_updated_Some in H as [Hu ->].
    exists lo, hi. repeat split; auto.
  - intros (lo & hi & -> & -> & Hj & Hu & ->). cbn.
    unfold set_param, store. cbn. rewrite decide_True by exact Hj. cbn.
    unfold set_updated, store. cbn. rewrite decide_True by exact Hu. reflexivity.
Qed.

Lemma perturbParams_at_Some factor j s s' :
  perturbParams_at rand_r RAND_MAX factor j s = Some s' ↔
  ∃ lo hi p, lower (owner_ s) j = Some lo ∧ upper (owner_ s) j = Some hi ∧
    params_ s !! j = Some p ∧
    s' = {| owner_ := owner_ s; randSeed_ := (rand_r (randSeed_ s)).2;
            params_ := <[j:=(p + factor * (hi - lo)
                               * (2 * fraction rand_r RAND_MAX (randSeed_ s) - 1))%float]>
                         (params_ s);
            updated_ := updated_ s |}.
Proof.
  unfold perturbParams_at. fold (upper (owner_ s) j). fold (lower (owner_ s) j).
  rewrite draw_eq. split.
  - intros H.
    destruct (upper (owner_ s) j) as [hi|]; [cbn in H|discriminate].
    destruct (lower (owner_ s) j) as [lo|]; [cbn in H|discriminate].
    unfold load in H. cbn in H.
    destruct (params_ s !! j) as [p|] eqn:Ep; [cbn in H|discriminate].
    apply set_param_Some in H as [Hj ->]. exists lo, hi, p. repeat split; auto.
  - intros (lo & hi & p & -> & -> & Hp & ->). cbn. unfold load. cbn. rewrite Hp. cbn.
    unfold set_param, store. cbn.
    rewrite decide_True by (eapply lookup_lt_Some; eauto). reflexivity.
Qed.

(** *** States that differ only in what is seen run alike *)

Lemma same_draws_refl s : same_draws s s.
Proof. repeat split. Qed.

Lemma fold_same_draws {A} (F : A → KinematicState → option KinematicState) xs s1 s2 :
  (∀ x t1 t2, same_draws t1 t2 → option_Forall2 same_draws (F x t1) (F x t2)) →
  same_draws s1 s2 →
  option_Forall2 same_draws (fold_opt F xs s1) (fold_opt F xs s2).
Proof.
  intros HF. revert s1 s2. induction xs as [|x xs IH]; intros s1 s2 Hs; cbn.
  - now constructor.
  - destruct (HF x s1 s2 Hs) as [t1 t2 Ht|]; cbn; [now apply IH|constructor].
Qed.

Lemma randomParams_at_same j s1 s2 :
  same_draws s1 s2 → option_Forall2 same_draws (randomParams_at rand_r RAND_MAX j s1) (randomParams_at rand_r RAND_MAX j s2).
Proof.
  intros (Ho & Hr & Hp & Hu).
  destruct (randomParams_at rand_r RAND_MAX j s1) as [t1|] eqn:E1.
  - apply randomParams_at_Some in E1 as (lo & hi & Hlo & Hhi & Hj & Hju & ->).
    assert (randomParams_at rand_r RAND_MAX j s2 = Some
      {| owner_ := owner_ s2; randSeed_ := (rand_r (randSeed_ s2)).2;
         params_ := <[j:=sample lo hi (fraction rand_r RAND_MAX (randSeed_ s2))]> (params_ s2);
         updated_ := <[j:=true]> (updated_ s2) |}) as ->.
    { apply randomParams_at_Some. exists lo, hi. rewrite <- Ho, <- Hp, <- Hu. auto 10. }
    constructor. repeat split; cbn; rewrite ?length_insert; congruence.
  - destruct (randomParams_at rand_r RAND_MAX j s2) as [t2|] eqn:E2; [|constructor].
    apply randomParams_at_Some in E2 as (lo & hi & Hlo & Hhi & Hj & Hju & ->).
    assert (is_Some (randomParams_at rand_r RAND_MAX j s1)) as [? ?]; [|congruence].
    eexists. apply randomParams_at_Some. exists lo, hi. rewrite Ho, Hp, Hu. auto 10.
Qed.

Lemma perturbParams_at_same factor j s1 s2 :
  same_draws s1 s2 →
  option_Forall2 same_draws (perturbParams_at rand_r RAND_MAX factor j s1) (perturbParams_at rand_r RAND_MAX factor j s2).
Proof.
  intros (Ho & Hr & Hp & Hu).
  destruct (perturbParams_at rand_r RAND_MAX factor j s1) as [t1|] eqn:E1.
  - apply perturbParams_at_Some in E1 as (lo & hi & p & Hlo & Hhi & Hj & ->).
    assert (perturbParams_at rand_r RAND_MAX factor j s2 = Some
      {| owner_ := owner_ s2; randSeed_ := (rand_r (randSeed_ s2)).2;
         params_ := <[j:=(p + factor * (hi - lo)
                            * (2 * fraction rand_r RAND_MAX (randSeed_ s2) - 1))%float]>
                      (params_ s2);
         updated_ := updated_ s2 |}) as ->.
    { apply perturbParams_at_Some. exists lo, hi, p. rewrite <- Ho, <- Hp. auto 10. }
    constructor. repeat split; cbn; congruence.
  - destruct (perturbParams_at rand_r RAND_MAX factor j s2) as [t2|] eqn:E2; [|constructor].
    apply perturbParams_at_Some in E2 as (lo & hi & p & Hlo & Hhi & Hj & ->).
    assert (is_Some (perturbParams_at rand_r RAND_MAX factor j s1)) as [? ?]; [|congruence].
    eexists. apply perturbParams_at_Some. exists lo, hi, p. rewrite Ho, Hp. auto 10.
Qed.

Lemma enforceBounds_at_same j s1 s2 :
  same_draws s1 s2 →
  option_Forall2 same_draws (enforceBounds_at j s1) (enforceBounds_at j s2).
Proof.
  intros (Ho & Hr & Hp & Hu). unfold enforceBounds_at. rewrite <- Ho, <- Hp.
  fold (upper (owner_ s1) j). fold (lower (owner_ s1) j).
  destruct (load (params_ s1) j) as [p|]; cbn; [|constructor].
  destruct (upper (owner_ s1) j) as [hi|]; cbn; [|constructor].
  assert (∀ v, option_Forall2 same_draws (set_param j v s1) (set_param j v s2)) as Hset.
  { intros v. unfold set_param, store. rewrite <- Hp.
    destruct (decide _); cbn; constructor. repeat split; cbn; congruence. }
  destruct (dgt p hi); [apply Hset|].
  destruct (lower (owner_ s1) j) as [lo|]; cbn; [|constructor].
  destruct (dlt p lo); [apply Hset|]. constructor. repeat split; congruence.
Qed.

End RandomFacts.


Section RandomRuns.

Variable rand_r : N → Z * N.
Variable RAND_MAX : Z.

Lemma randomParams_at_defined m j s :
  state_of m s → j < getDimension m →
  ∃ s', randomParams_at rand_r RAND_MAX j s = Some s' ∧ state_of m s'.
Proof.
  intros [Hs <-] Hj. pose proof Hs as [Hm Hp Hu].
  destruct (bounds_at _ _ Hm Hj) as (lo & hi & Hlo & Hhi & _).
  eexists. split.
  - apply randomParams_at_Some. exists lo, hi. repeat split; eauto; lia.
  - split; [|reflexivity]. split; cbn; rewrite ?length_insert; auto.
Qed.

Lemma perturbParams_at_defined factor m j s :
  state_of m s → j < getDimension m →
  ∃ s', perturbParams_at rand_r RAND_MAX factor j s = Some s' ∧ state_of m s'.
Proof.
  intros [Hs <-] Hj. pose proof Hs as [Hm Hp Hu].
  destruct (bounds_at _ _ Hm Hj) as (lo & hi & Hlo & Hhi & _).
  destruct (lookup_lt_is_Some_2 (params_ s) j) as [p Hpj]; [lia|].
  eexists. split.
  - apply perturbParams_at_Some. exists lo, hi, p. repeat split; eauto.
  - split; [|reflexivity]. split; cbn; rewrite ?length_insert; auto.
Qed.

Lemma enforceBounds_at_state_of m j s :
  state_of m s → j < getDimension m →
  ∃ s', enforceBounds_at j s = Some s' ∧ state_of m s'.
Proof.
  intros [Hs <-] Hj. destruct (enforceBounds_at_defined j s Hs Hj) as [s' Hstep].
  exists s'. split; [now apply enforceBounds_at_step|].
  split; [eapply enforce_step_ok; eauto|]. now apply enforce_step_frame in Hstep.
Qed.

Lemma randomParams_fold s :
  randomParams rand_r RAND_MAX s
  = fold_opt (randomParams_at rand_r RAND_MAX) (seq 0 (getDimension (owner_ s))) s.
Proof. apply for_loop_seq. Qed.

Lemma randomParamsGroup_fold g s :
  dimension g = length (state_index g) →
  randomParamsGroup rand_r RAND_MAX g s
  = fold_opt (randomParams_at rand_r RAND_MAX) (state_index g) s.
Proof.
  intros Hd. unfold randomParamsGroup. rewrite Hd.
  apply (for_loop_indices (randomParams_at rand_r RAND_MAX) []).
Qed.

Lemma perturbParams_fold factor s :
  perturbParams rand_r RAND_MAX factor s
  = s' ← fold_opt (perturbParams_at rand_r RAND_MAX factor)
           (seq 0 (getDimension (owner_ s))) s;
    enforceBounds s'.
Proof. unfold perturbParams. now rewrite for_loop_seq. Qed.

Lemma perturbParamsGroup_fold factor g s :
  dimension g = length (state_index g) →
  perturbParamsGroup rand_r RAND_MAX factor g s
  = s' ← fold_opt (perturbParams_at rand_r RAND_MAX factor) (state_index g) s;
    fold_opt enforceBounds_at (state_index g) s'.
Proof.
  intros Hd. unfold perturbParamsGroup. rewrite Hd.
  rewrite for_loop_indices0.
  destruct (fold_opt _ _ s) as [s'|]; cbn; [|reflexivity].
  now apply enforceBoundsGroup_fold.
Qed.

(** *** Definedness of the four operations *)

Lemma randomParams_defined m s :
  state_of m s → ∃ s', randomParams rand_r RAND_MAX s = Some s' ∧ state_of m s'.
Proof.
  intros Hs. rewrite randomParams_fold. destruct Hs as [Hs <-].
  apply (fold_opt_defined _ (λ j, j < getDimension (owner_ s)) (state_of (owner_ s)));
    [|apply Forall_seq_lt|split; auto].
  intros j t Hj Ht. now apply randomParams_at_defined.
Qed.

Lemma randomParamsGroup_defined m g s :
  state_of m s → group_ok m g →
  ∃ s', randomParamsGroup rand_r RAND_MAX g s = Some s' ∧ state_of m s'.
Proof.
  intros Hs [Hd Hr]. rewrite randomParamsGroup_fold by exact Hd.
  apply (fold_opt_defined _ (λ j, j < getDimension m) (state_of m)); auto.
  intros j t Hj Ht. now apply randomParams_at_defined.
Qed.

Lemma perturbParams_defined factor m s :
  state_of m s → ∃ s', perturbParams rand_r RAND_MAX factor s = Some s' ∧ state_of m s'.
Proof.
  intros Hs. rewrite perturbParams_fold. destruct Hs as [Hs <-].
  destruct (fold_opt_defined (perturbParams_at rand_r RAND_MAX factor)
    (λ j, j < getDimension (owner_ s)) (state_of (owner_ s))
    (seq 0 (getDimension (owner_ s))) s) as (s1 & -> & Hs1 & Ho1);
    [|apply Forall_seq_lt|split; auto|].
  { intros j t Hj Ht. now apply perturbParams_at_defined. }
  cbn. rewrite enforceBounds_fold, Ho1.
  apply (fold_opt_defined _ (λ j, j < getDimension (owner_ s)) (state_of (owner_ s)));
    [|apply Forall_seq_lt|split; auto].
  intros j t Hj Ht. now apply enforceBounds_at_state_of.
Qed.

Lemma perturbParamsGroup_defined factor m g s :
  state_of m s → group_ok m g →
  ∃ s', perturbParamsGroup rand_r RAND_MAX factor g s = Some s' ∧ state_of m s'.
Proof.
  intros Hs [Hd Hr]. rewrite perturbParamsGroup_fold by exact Hd.
  destruct (fold_opt_defined (perturbParams_at rand_r RAND_MAX factor)
    (λ j, j < getDimension m) (state_of m) (state_index g) s) as (s1 & -> & Hs1); auto.
  { intros j t Hj Ht. now apply perturbParams_at_defined. }
  cbn. apply (fold_opt_defined _ (λ j, j < getDimension m) (state_of m)); auto.
  intros j t Hj Ht. now apply enforceBounds_at_state_of.
Qed.

Lemma run_call_defined m c s :
  state_of m s → call_ok m c →
  ∃ s', run_call rand_r RAND_MAX c s = Some s' ∧ state_of m s'.
Proof.
  intros Hs Hc. destruct c as [|g|f|f g]; cbn in *.
  - now apply randomParams_defined.
  - now apply randomParamsGroup_defined.
  - now apply perturbParams_defined.
  - now apply perturbParamsGroup_defined.
Qed.

Lemma run_calls_defined m cs s :
  state_of m s → Forall (call_ok m) cs →
  ∃ s', run_calls rand_r RAND_MAX cs s = Some s' ∧ state_of m s'.
Proof.
  intros Hs Hcs. revert s Hs. induction Hcs as [|c cs Hc Hcs IH]; intros s Hs; cbn.
  - eauto.
  - destruct (run_call_defined m c s Hs Hc) as (s1 & -> & Hs1). cbn. now apply IH.
Qed.

(** *** Reproducibility *)

Lemma for_loop_same (F : nat → KinematicState → option KinematicState) i n s1 s2 :
  (∀ k t1 t2, same_draws t1 t2 → option_Forall2 same_draws (F k t1) (F k t2)) →
  same_draws s1 s2 →
  option_Forall2 same_draws (for_loop F i n s1) (for_loop F i n s2).
Proof. intros HF Hs. rewrite !for_loop_seq. now apply fold_same_draws. Qed.

Lemma indexed_same (F : nat → KinematicState → option KinematicState) (js : list nat) :
  (∀ k t1 t2, same_draws t1 t2 → option_Forall2 same_draws (F k t1) (F k t2)) →
  ∀ k t1 t2, same_draws t1 t2 →
    option_Forall2 same_draws (j ← load js k; F j t1) (j ← load js k; F j t2).
Proof.
  intros HF k t1 t2 Ht. destruct (load js k) as [j|]; cbn; [now apply HF|constructor].
Qed.

Lemma enforceBounds_same s1 s2 :
  same_draws s1 s2 → option_Forall2 same_draws (enforceBounds s1) (enforceBounds s2).
Proof.
  intros Hs. unfold enforceBounds. destruct Hs as (Ho & Hr & Hp & Hu). rewrite <- Ho.
  apply for_loop_same; [apply enforceBounds_at_same|]. repeat split; auto.
Qed.

Lemma run_call_same c s1 s2 :
  same_draws s1 s2 →
  option_Forall2 same_draws (run_call rand_r RAND_MAX c s1) (run_call rand_r RAND_MAX c s2).
Proof.
  intros Hs. pose proof Hs as (Ho & _). destruct c as [|g|f|f g]; cbn.
  - unfold randomParams. rewrite <- Ho.
    apply for_loop_same; [apply randomParams_at_same|exact Hs].
  - unfold randomParamsGroup.
    apply for_loop_same; [apply indexed_same, randomParams_at_same|exact Hs].
  - unfold perturbParams. rewrite <- Ho.
    destruct (for_loop_same (perturbParams_at rand_r RAND_MAX f) 0
      (getDimension (owner_ s1)) s1 s2) as [t1 t2 Ht|];
      [apply perturbParams_at_same|exact Hs| |constructor].
    cbn. now apply enforceBounds_same.
  - unfold perturbParamsGroup.
    destruct (for_loop_same (λ i s, j ← load (state_index g) i;
                perturbParams_at rand_r RAND_MAX f j s) 0 (dimension g) s1 s2)
      as [t1 t2 Ht|]; [apply indexed_same, perturbParams_at_same|exact Hs| |constructor].
    cbn. unfold enforceBoundsGroup.
    apply for_loop_same; [apply indexed_same, enforceBounds_at_same|exact Ht].
Qed.

Lemma run_calls_same cs s1 s2 :
  same_draws s1 s2 →
  option_Forall2 same_draws (run_calls rand_r RAND_MAX cs s1) (run_calls rand_r RAND_MAX cs s2).
Proof.
  revert s1 s2. induction cs as [|c cs IH]; intros s1 s2 Hs; cbn.
  - now constructor.
  - destruct (run_call_same c s1 s2 Hs) as [t1 t2 Ht|]; cbn; [now apply IH|constructor].
Qed.

(** *** What [randomParams] samples *)

Lemma randomParams_loop i n s s' :
  fold_opt (randomParams_at rand_r RAND_MAX) (seq i n) s = Some s' →
  owner_ s' = owner_ s ∧
  randSeed_ s' = seed_after rand_r n (randSeed_ s) ∧
  (∀ j, j < i → params_ s' !! j = params_ s !! j ∧ updated_ s' !! j = updated_ s !! j) ∧
  ∀ k, k < n →
    ∃ lo hi, lower (owner_ s) (i + k) = Some lo ∧ upper (owner_ s) (i + k) = Some hi ∧
      params_ s' !! (i + k)
      = Some (sample lo hi (fraction rand_r RAND_MAX (seed_after rand_r k (randSeed_ s)))) ∧
      updated_ s' !! (i + k) = Some true.
Proof.
  revert i s. induction n as [|n IH]; intros i s; cbn.
  - intros [= <-]. repeat split; auto. intros k Hk. lia.
  - destruct (randomParams_at rand_r RAND_MAX i s) as [s1|] eqn:E; [cbn|discriminate].
    intros H. apply IH in H as (Ho & Hr & Hfr & Hk).
    apply randomParams_at_Some in E as (lo & hi & Hlo & Hhi & Hj & Hu & ->).
    cbn in *. do 2 (split; [assumption|]). split.
    + intros j Hji. destruct (Hfr j) as [-> ->]; [lia|].
      rewrite !list_lookup_insert_ne by lia. auto.
    + intros [|k] Hkn.
      * rewrite Nat.add_0_r. exists lo, hi. destruct (Hfr i) as [-> ->]; [lia|].
        rewrite !list_lookup_insert_eq by assumption. auto.
      * replace (i + S k) with (S i + k) by lia. apply Hk. lia.
Qed.

(** *** The answers to the claim *)

Lemma list_eq_same_length {A} (l k : list A) n :
  length l = n → length k = n → (∀ i, i < n → l !! i = k !! i) → l = k.
Proof.
  intros Hl Hk H. apply list_eq. intros i. destruct (decide (i < n)) as [?|?]; [auto|].
  rewrite !lookup_ge_None_2 by lia. reflexivity.
Qed.

Lemma randomParams_spec s :
  state_ok s →
  ∃ t, randomParams rand_r RAND_MAX s = Some t ∧ state_ok t ∧ owner_ t = owner_ s ∧
    randSeed_ t = seed_after rand_r (getDimension (owner_ s)) (randSeed_ s) ∧
    ∀ i, i < getDimension (owner_ s) →
      ∃ lo hi, lower (owner_ s) i = Some lo ∧ upper (owner_ s) i = Some hi ∧
        params_ t !! i
        = Some (sample lo hi (fraction rand_r RAND_MAX (seed_after rand_r i (randSeed_ s)))) ∧
        updated_ t !! i = Some true.
Proof.
  intros Hs. destruct (randomParams_defined (owner_ s) s) as (t & Hrun & Ht & Ho);
    [split; auto|].
  exists t. do 3 (split; [assumption|]).
  rewrite randomParams_fold in Hrun. apply randomParams_loop in Hrun as (_ & Hr & _ & Hk).
  split; [exact Hr|]. intros i Hi. apply (Hk i Hi).
Qed.

Lemma randomParams_same_seed s1 s2 :
  state_ok s1 → state_ok s2 → owner_ s1 = owner_ s2 → randSeed_ s1 = randSeed_ s2 →
  ∃ t1 t2, randomParams rand_r RAND_MAX s1 = Some t1 ∧
    randomParams rand_r RAND_MAX s2 = Some t2 ∧
    state_ok t1 ∧ state_ok t2 ∧ owner_ t1 = owner_ s1 ∧ same_draws t1 t2.
Proof.
  intros Hs1 Hs2 Ho Hr.
  destruct (randomParams_spec s1 Hs1) as (t1 & Hrun1 & Ht1 & Ho1 & Hr1 & Hk1).
  destruct (randomParams_spec s2 Hs2) as (t2 & Hrun2 & Ht2 & Ho2 & Hr2 & Hk2).
  exists t1, t2. do 5 (split; [assumption|]).
  split; [congruence|]. split; [congruence|].
  destruct Ht1 as [_ Hp1 Hu1], Ht2 as [_ Hp2 Hu2]. split; [|congruence].
  apply (list_eq_same_length _ _ (getDimension (owner_ s1))); [congruence|congruence|].
  intros i Hi.
  destruct (Hk1 i Hi) as (lo & hi & Hlo & Hhi & -> & _).
  destruct (Hk2 i) as (lo' & hi' & Hlo' & Hhi' & -> & _); [congruence|].
  rewrite <- Ho in Hlo', Hhi'. rewrite <- Hr. congruence.
Qed.

Lemma perturbParams_within factor s :
  state_ok s → bounds_ordered (owner_ s) →
  ∃ t, perturbParams rand_r RAND_MAX factor s = Some t ∧ checkBounds t = Some true.
Proof.
  intros Hs Hord.
  destruct (perturbParams_defined factor (owner_ s) s) as (t & Hrun & Ht & Ho); [split; auto|].
  exists t. split; [exact Hrun|].
  rewrite perturbParams_fold in Hrun.
  destruct (fold_opt _ _ s) as [s1|] eqn:E1; [cbn in Hrun|discriminate].
  assert (state_of (owner_ s) s1) as [Hs1 Ho1].
  { destruct (fold_opt_defined (perturbParams_at rand_r RAND_MAX factor)
      (λ j, j < getDimension (owner_ s)) (state_of (owner_ s))
      (seq 0 (getDimension (owner_ s))) s) as (s1' & E1' & Hs1');
      [|apply Forall_seq_lt|split; auto|congruence].
    intros j u Hj Hu. now apply perturbParams_at_defined. }
  rewrite enforceBounds_fold in Hrun. rewrite checkBounds_all, Ho.
  apply all_opt_true. rewrite Ho1 in Hrun.
  eapply enforce_fold_within; [|exact Hrun].
  apply ordered_on; [exact Hs1|now rewrite Ho1|rewrite Ho1; apply Forall_seq_lt].
Qed.

Lemma perturbParamsGroup_within factor g s :
  state_ok s → group_ok (owner_ s) g → bounds_ordered (owner_ s) →
  ∃ t, perturbParamsGroup rand_r RAND_MAX factor g s = Some t ∧
    checkBoundsGroup g t = Some true.
Proof.
  intros Hs Hg Hord.
  destruct (perturbParamsGroup_defined factor (owner_ s) g s) as (t & Hrun & Ht & Ho);
    [split; auto|exact Hg|].
  exists t. split; [exact Hrun|]. destruct Hg as [Hd Hr].
  rewrite perturbParamsGroup_fold in Hrun by exact Hd.
  destruct (fold_opt _ _ s) as [s1|] eqn:E1; [cbn in Hrun|discriminate].
  assert (state_of (owner_ s) s1) as [Hs1 Ho1].
  { destruct (fold_opt_defined (perturbParams_at rand_r RAND_MAX factor)
      (λ j, j < getDimension (owner_ s)) (state_of (owner_ s))
      (state_index g) s) as (s1' & E1' & Hs1'); [|exact Hr|split; auto|congruence].
    intros j u Hj Hu. now apply perturbParams_at_defined. }
  unfold checkBoundsGroup. rewrite Hd, for_all_indices0.
  apply all_opt_true. eapply enforce_fold_within; [|exact Hrun].
  apply ordered_on; [exact Hs1|now rewrite Ho1|now rewrite Ho1].
Qed.

End RandomRuns.


Lemma sample_state'_ok : state_ok sample_state'.
Proof. split; [apply sample_model_ok|reflexivity|reflexivity]. Qed.



(** ** Operations that take a name *)

Lemma by_name_defined {A B} (p : ptr A) (f : A → option B) :
  (∀ a, p = Ref a → is_Some (f a)) →
  is_Some (a ← deref p; f a) ↔ p ≠ NULL.
Proof.
  intros Hf. destruct p as [|a]; cbn.
  - split; [intros [? ?]; discriminate|congruence].
  - split; [discriminate|]. intros _. now apply Hf.
Qed.

Lemma getGroup_Ref m n g : getGroup m n = Ref g → groupMap_ m !! n = Some g.
Proof. unfold getGroup. destruct (groupMap_ m !! n); congruence. Qed.

Lemma getJoint_Ref m n j : getJoint m n = Ref j → jointMap_ m !! n = Some j.
Proof. unfold getJoint. destruct (jointMap_ m !! n); congruence. Qed.

Lemma group_op_defined_iff {B} (op : JointGroup → KinematicState → option B) s n :
  (∀ g, groupMap_ (owner_ s) !! n = Some g → is_Some (op g s)) →
  is_Some (g ← deref (getGroup (owner_ s) n); op g s) ↔ getGroup (owner_ s) n ≠ NULL.
Proof. intros H. apply by_name_defined. intros g Hg%getGroup_Ref. now apply H. Qed.

Lemma joint_op_defined_iff {B} (op : Joint → option B) s n :
  (∀ j, jointMap_ (owner_ s) !! n = Some j → is_Some (op j)) →
  is_Some (j ← deref (getJoint (owner_ s) n); op j) ↔ getJoint (owner_ s) n ≠ NULL.
Proof. intros H. apply by_name_defined. intros j Hj%getJoint_Ref. now apply H. Qed.

Lemma checkBoundsGroup_defined g s :
  state_ok s → group_ok (owner_ s) g → is_Some (checkBoundsGroup g s).
Proof.
  intros Hs [Hd Hr]. unfold checkBoundsGroup. rewrite Hd, for_all_indices0.
  apply all_opt_defined. intros j Hj. apply checkBounds_at_defined; [exact Hs|].
  eapply Forall_forall in Hr; eauto.
Qed.

Lemma resetGroup_defined g s :
  state_ok s → group_ok (owner_ s) g → is_Some (resetGroup g s).
Proof.
  intros Hs [Hd Hr]. unfold resetGroup. rewrite Hd.
  rewrite (for_loop_indices0 (λ j s, set_updated j false s)).
  destruct (fold_opt_defined (λ j s, set_updated j false s)
    (λ j, j < getDimension (owner_ s)) (state_of (owner_ s)) (state_index g) s)
    as (s' & -> & _); eauto.
  - intros j t Hj Ht. now apply set_updated_defined.
  - split; auto.
Qed.

Lemma seenAllGroup_defined g s :
  state_ok s → group_ok (owner_ s) g → is_Some (seenAllGroup g s).
Proof.
  intros [_ _ Hu] [Hd Hr]. unfold seenAllGroup. rewrite Hd.
  rewrite (for_all_indices0 (λ j, load (updated_ s) j)).
  apply all_opt_defined. intros j Hj. apply lookup_lt_is_Some_2. rewrite Hu.
  eapply Forall_forall in Hr; eauto.
Qed.

Lemma setAll_at_defined value m j s :
  state_of m s → j < getDimension m →
  ∃ s', setAll_at value j s = Some s' ∧ state_of m s'.
Proof.
  intros Hs Hj. unfold setAll_at.
  destruct (set_param_defined m j value s Hs Hj) as (s1 & -> & Hs1). cbn.
  now apply set_updated_defined.
Qed.

Lemma setAllInGroup_defined value g s :
  state_ok s → group_ok (owner_ s) g → is_Some (setAllInGroup value g s).
Proof.
  intros Hs [Hd Hr]. unfold setAllInGroup. rewrite Hd, for_loop_indices0.
  destruct (fold_opt_defined (setAll_at value)
    (λ j, j < getDimension (owner_ s)) (state_of (owner_ s)) (state_index g) s)
    as (s' & -> & _); eauto.
  - intros j t Hj Ht. now apply setAll_at_defined.
  - split; auto.
Qed.

Lemma copyParamsGroup_defined g s :
  state_ok s → group_ok (owner_ s) g → is_Some (copyParamsGroup g s).
Proof.
  intros [_ Hp _] [Hd Hr]. unfold copyParamsGroup. rewrite Hd.
  rewrite (for_loop_indices0 (λ j out, v ← load (params_ s) j; Some (out ++ [v]))).
  destruct (fold_opt_defined (λ j out, v ← load (params_ s) j; Some (out ++ [v]))
    (λ j, j < getDimension (owner_ s)) (λ _, True) (state_index g) [])
    as (out & -> & _); eauto.
  intros j out Hj _. destruct (lookup_lt_is_Some_2 (params_ s) j) as [v Hv]; [lia|].
  unfold load. rewrite Hv. cbn. eauto.
Qed.

Lemma setParamsGroup_defined params g s :
  state_ok s → group_ok (owner_ s) g → dimension g ≤ length params →
  is_Some (setParamsGroup params g s).
Proof.
  intros Hs [Hd Hr] Hlen. rewrite setParamsGroup_fold_eq by assumption.
  destruct (setParams_fold_defined (zip (state_index g) params) false s Hs)
    as (r & s' & -> & _); eauto.
  apply (Forall_zip_fst (λ j, j < getDimension (owner_ s))), Hr.
Qed.

Lemma joint_end (s : KinematicState) (joint : Joint) :
  state_ok s → joint_ok (owner_ s) joint →
  uadd (stateIndex joint) (usedParams joint) = stateIndex joint + usedParams joint.
Proof.
  intros [[_ Hfit] _ _] Hj. apply uadd_small. unfold joint_ok in Hj.
  change (2 ^ 32)%N with (2 * 2 ^ 31)%N. lia.
Qed.

Lemma checkBoundsJoint_defined n joint s :
  state_ok s → jointMap_ (owner_ s) !! n = Some joint → joint_ok (owner_ s) joint →
  is_Some (checkBoundsJoint n s).
Proof.
  intros Hs Hn Hj. unfold checkBoundsJoint, getJoint. rewrite Hn. cbn.
  rewrite (joint_end s joint Hs Hj), for_all_seq.
  apply all_opt_defined. intros j Hin. apply elem_of_seq in Hin.
  apply checkBounds_at_defined; [exact Hs|]. unfold joint_ok in Hj. lia.
Qed.

Lemma seenJoint_defined n joint s :
  state_ok s → jointMap_ (owner_ s) !! n = Some joint → joint_ok (owner_ s) joint →
  is_Some (seenJoint n s).
Proof.
  intros Hs Hn Hj. unfold seenJoint, getJoint. rewrite Hn. cbn.
  rewrite for_all_seq. apply all_opt_defined. intros i Hin. apply elem_of_seq in Hin.
  pose proof Hs as [[_ Hfit] _ Hu]. unfold joint_ok in Hj.
  rewrite uadd_small by (change (2 ^ 32)%N with (2 * 2 ^ 31)%N; lia).
  apply lookup_lt_is_Some_2. lia.
Qed.

Lemma setParamsJoint_defined params n joint s :
  state_ok s → jointMap_ (owner_ s) !! n = Some joint → joint_ok (owner_ s) joint →
  usedParams joint ≤ length params →
  is_Some (setParamsJoint params n s).
Proof.
  intros Hs Hn Hj Hlen. rewrite (setParamsJoint_fold_eq params n joint s) by assumption.
  destruct (setParams_fold_defined
    (zip (seq (stateIndex joint) (usedParams joint)) params) false s Hs)
    as (r & s' & -> & _); eauto.
  apply (Forall_zip_fst (λ j, j < getDimension (owner_ s))).
  apply Forall_forall. intros j Hin. apply elem_of_seq in Hin. unfold joint_ok in Hj. lia.
Qed.



Lemma sample_groups n g :
  groupMap_ sample_model !! n = Some g → g = sample_group.
Proof.
  unfold sample_model. cbn. intros [_ <-]%lookup_singleton_Some. reflexivity.
Qed.

Lemma sample_joints n j :
  jointMap_ sample_model !! n = Some j → usedParams j = 1 ∧ stateIndex j < 2.
Proof.
  unfold sample_model. cbn.
  intros [[_ <-]|[_ [_ <-]%lookup_singleton_Some]]%lookup_insert_Some; cbn; lia.
Qed.

Lemma sample_registry_ok : registry_ok sample_model.
Proof.
  split.
  - intros n g ->%sample_groups. exact sample_group_ok.
  - intros n j [Hu Hi]%sample_joints. unfold joint_ok. cbn. lia.
Qed.

(** ** Construction of the model *)

Lemma tiles_snoc start js j :
  tiles start (js ++ [j]) ↔ tiles start js ∧ stateIndex j = start + sum_usedParams js.
Proof.
  revert start. induction js as [|j0 js IH]; intros start; cbn.
  - rewrite Nat.add_0_r. tauto.
  - rewrite IH. split.
    + intros (? & ? & ?). repeat split; auto. lia.
    + intros ((? & ?) & ?). repeat split; auto. lia.
Qed.

Lemma sum_usedParams_snoc js j :
  sum_usedParams (js ++ [j]) = sum_usedParams js + usedParams j.
Proof. induction js as [|j0 js IH]; cbn; lia. Qed.

Lemma joint_bounds_length full_turn k d :
  length (joint_bounds full_turn k d) = 2 * usedParams_of k.
Proof.
  destruct k; cbn; try reflexivity. destruct (jd_continuous d); reflexivity.
Qed.

Lemma constructJoint_ok full_turn d b b' :
  constructJoint full_turn d b = Some b' → builder_ok b → builder_ok b'.
Proof.
  unfold constructJoint. destruct (jd_type d) as [k|]; [cbn|discriminate].
  destruct (decide _); [discriminate|]. intros [= <-] (Ht & Hs & Hb).
  unfold builder_ok. cbn. rewrite tiles_snoc, sum_usedParams_snoc, length_app,
    joint_bounds_length. cbn. repeat split; auto; lia.
Qed.

Lemma constructLink_ok l b b' :
  constructLink l b = Some b' → builder_ok b → builder_ok b'.
Proof.
  unfold constructLink. destruct (decide _); [discriminate|]. now intros [= <-].
Qed.

Lemma buildRecursive_ok full_turn l :
  ∀ d b b', buildRecursive full_turn d l b = Some b' → builder_ok b → builder_ok b'.
Proof.
  induction l as [n cs IH] using LinkDesc_rect'. intros d b b'. cbn.
  destruct (constructJoint full_turn d b) as [b1|] eqn:E1; [cbn|discriminate].
  destruct (constructLink (link_desc n cs) b1) as [b2|] eqn:E2; [cbn|discriminate].
  intros H Hb.
  assert (builder_ok b2) as Hb2.
  { eapply constructLink_ok; eauto. eapply constructJoint_ok; eauto. }
  clear E1 E2 Hb. revert b2 H Hb2.
  induction IH as [|[d' l'] cs Hl' _ IHcs]; intros b2 H Hb2.
  - now injection H as <-.
  - destruct (buildRecursive full_turn d' l' b2) as [b3|] eqn:E3; [cbn in H|discriminate].
    apply (IHcs b3 H). eapply Hl'; eauto.
Qed.

Lemma tiles_cover start js i :
  tiles start js → start ≤ i < start + sum_usedParams js →
  ∃ j, j ∈ js ∧ stateIndex j ≤ i < stateIndex j + usedParams j.
Proof.
  revert start. induction js as [|j js IH]; intros start; cbn.
  - lia.
  - intros [Hj Ht] Hi. destruct (decide (i < start + usedParams j)) as [Hlt|Hge].
    + exists j. split; [now apply elem_of_cons; left|lia].
    + destruct (IH (start + usedParams j) Ht) as (j' & Hin & Hr); [lia|].
      exists j'. split; [now apply elem_of_cons; right|exact Hr].
Qed.

Lemma tiles_lower start js k j :
  tiles start js → js !! k = Some j → start ≤ stateIndex j.
Proof.
  revert start k. induction js as [|j0 js IH]; intros start k; cbn; [discriminate 2|].
  intros [Hj Ht] Hk. destruct k as [|k]; cbn in Hk.
  - injection Hk as <-. lia.
  - specialize (IH _ _ Ht Hk). lia.
Qed.

(** The ranges of joints that tile do not overlap: a joint that comes later
    starts at or after the end of every joint before it. *)
Lemma tiles_disjoint start js k1 k2 j1 j2 :
  tiles start js → k1 < k2 → js !! k1 = Some j1 → js !! k2 = Some j2 →
  stateIndex j1 + usedParams j1 ≤ stateIndex j2.
Proof.
  revert start k1 k2. induction js as [|j js IH]; intros start k1 k2; cbn; [discriminate 3|].
  intros [Hj Ht] Hk H1 H2. destruct k2 as [|k2]; [lia|]. cbn in H2.
  destruct k1 as [|k1]; cbn in H1.
  - injection H1 as <-. rewrite Hj. eapply tiles_lower; eauto.
  - apply (IH (start + usedParams j) k1 k2); auto. lia.
Qed.


(** C1: in every model the constructor yields, the joints, in the order in
    which they were declared, tile the state vector from 0: each joint
    starts where the joint before it ends, so that the ranges neither
    overlap nor leave a gap, every component below the dimension lies in
    the range of a joint, and the numbers of parameters of the joints add up
    to the dimension. *)
Theorem KinematicModel_new_partition (full_turn : float * float)
    (buildGroups : list Joint → gmap string (list string) → gmap string JointGroup)
    (d : JointDesc) (l : LinkDesc) (groups : gmap string (list string))
    (m : KinematicModel) :
  KinematicModel_new full_turn buildGroups d l groups = Some m →
  tiles 0 (jointList_ m) ∧
  sum_usedParams (jointList_ m) = getDimension m ∧
  (∀ i, i < getDimension m →
     ∃ j, j ∈ jointList_ m ∧ stateIndex j ≤ i < stateIndex j + usedParams j) ∧
  (∀ k1 k2 j1 j2, k1 < k2 →
     jointList_ m !! k1 = Some j1 → jointList_ m !! k2 = Some j2 →
     stateIndex j1 + usedParams j1 ≤ stateIndex j2).
Proof.
  unfold KinematicModel_new.
  destruct (buildRecursive full_turn d l Builder_empty) as [b|] eqn:E; [cbn|discriminate].
  intros [= <-]. unfold getDimension. cbn.
  destruct (buildRecursive_ok full_turn l d Builder_empty b E) as (Ht & Hs & _).
  { repeat split. }
  split; [exact Ht|]. split; [exact Hs|]. split.
  - intros i Hi. apply (tiles_cover 0); [exact Ht|]. lia.
  - intros k1 k2 j1 j2. now apply (tiles_disjoint 0).
Qed.

Lemma KinematicModel_new_partition_witness :
  ∃ m, KinematicModel_new sample_full_turn no_groups sample_root_joint sample_root_link ∅
       = Some m ∧
    sum_usedParams (jointList_ m) = getDimension m.
Proof.
  destruct (KinematicModel_new sample_full_turn no_groups sample_root_joint
              sample_root_link ∅) as [m|] eqn:E.
  - exists m. split; [reflexivity|].
    apply (KinematicModel_new_partition sample_full_turn no_groups sample_root_joint
             sample_root_link ∅ m E).
  - vm_compute in E. discriminate E.
Defined.

Example sample_model_built :
  (λ m, (stateIndex <$> jointList_ m, usedParams <$> jointList_ m, getDimension m,
         length (getStateBounds m)))
  <$> KinematicModel_new sample_full_turn no_groups sample_root_joint sample_root_link ∅
  = Some ([0; 7; 8; 9], [7; 1; 1; 0], 9, 18).
Proof. vm_compute. reflexivity. Qed.



(** ** Binary64 arithmetic: a midpoint and a sample between two bounds *)

Section Binary64.
Local Open Scope Z_scope.

(** *** The binary64 format *)

Lemma fexp64_eq e : fexp64 e = Z.max (e - 53) (-1074).
Proof. reflexivity. Qed.

Lemma fexp64_mono a b : a <= b -> fexp64 a <= fexp64 b.
Proof. rewrite !fexp64_eq. lia. Qed.

Lemma digits2_bounds (m : positive) :
  2 ^ (Zpos (digits2_pos m) - 1) <= Zpos m < 2 ^ Zpos (digits2_pos m).
Proof.
  induction m as [m IH|m IH|]; cbn [digits2_pos].
  - rewrite Pos2Z.inj_succ. change (Zpos m~1) with (2 * Zpos m + 1).
    replace (Z.succ (Zpos (digits2_pos m)) - 1) with (Z.succ (Zpos (digits2_pos m) - 1)) by lia.
    rewrite !Z.pow_succ_r by lia.
    revert IH. generalize (2 ^ (Zpos (digits2_pos m) - 1)) (2 ^ Zpos (digits2_pos m)). intros; lia.
  - rewrite Pos2Z.inj_succ. change (Zpos m~0) with (2 * Zpos m).
    replace (Z.succ (Zpos (digits2_pos m)) - 1) with (Z.succ (Zpos (digits2_pos m) - 1)) by lia.
    rewrite !Z.pow_succ_r by lia.
    revert IH. generalize (2 ^ (Zpos (digits2_pos m) - 1)) (2 ^ Zpos (digits2_pos m)). intros; lia.
  - cbn. lia.
Qed.

Lemma Zdigits2_bounds (m : Z) :
  0 < m -> 2 ^ (Zdigits2 m - 1) <= m < 2 ^ Zdigits2 m.
Proof. destruct m as [|p|p]; try lia. intros _. apply digits2_bounds. Qed.

Lemma Zdigits2_pos (m : Z) : 0 < m -> 0 < Zdigits2 m.
Proof. destruct m; cbn; lia. Qed.

Lemma Zdigits2_unique (m k : Z) :
  0 < k -> 2 ^ (k - 1) <= m < 2 ^ k -> Zdigits2 m = k.
Proof.
  intros Hk [Hlo Hhi]. assert (0 < m) as Hm by (pose proof (Z.pow_pos_nonneg 2 (k - 1)); lia).
  pose proof (Zdigits2_bounds m Hm) as [Hlo' Hhi']. pose proof (Zdigits2_pos m Hm) as Hd.
  destruct (Z.lt_trichotomy (Zdigits2 m) k) as [Hlt|[Heq|Hgt]]; [|exact Heq|].
  - assert (2 ^ Zdigits2 m <= 2 ^ (k - 1)) by (apply Z.pow_le_mono_r; lia). lia.
  - assert (2 ^ k <= 2 ^ (Zdigits2 m - 1)) by (apply Z.pow_le_mono_r; lia). lia.
Qed.

Lemma Zdigits2_mono (a b : Z) : 0 < a -> a <= b -> Zdigits2 a <= Zdigits2 b.
Proof.
  intros Ha Hab. pose proof (Zdigits2_bounds a Ha) as [Hlo _].
  pose proof (Zdigits2_bounds b ltac:(lia)) as [_ Hhi].
  destruct (Z_le_gt_dec (Zdigits2 a) (Zdigits2 b)) as [?|Hgt]; [assumption|].
  assert (2 ^ Zdigits2 b <= 2 ^ (Zdigits2 a - 1)).
  { apply Z.pow_le_mono_r; [lia|]. lia. }
  lia.
Qed.

(** Canonical numbers are ordered like their exponents. *)
Lemma canonical_exponent_lt (m1 m2 : positive) (e1 e2 u : Z) :
  canonical m1 e1 -> canonical m2 e2 -> u <= e1 -> e1 < e2 ->
  Zpos m1 * 2 ^ (e1 - u) < Zpos m2 * 2 ^ (e2 - u).
Proof.
  unfold canonical. rewrite !fexp64_eq. intros H1 H2 Hu Hlt.
  pose proof (digits2_bounds m1) as [_ Hhi1]. pose proof (digits2_bounds m2) as [Hlo2 _].
  set (d1 := Zpos (digits2_pos m1)) in *. set (d2 := Zpos (digits2_pos m2)) in *.
  assert (0 < d1) by (unfold d1; lia). assert (0 < d2) by (unfold d2; lia).
  assert (d1 + e1 <= d2 - 1 + e2) as Hd by lia.
  assert (Zpos m1 * 2 ^ (e1 - u) < 2 ^ d1 * 2 ^ (e1 - u)) as Ha.
  { apply Z.mul_lt_mono_pos_r; [apply Z.pow_pos_nonneg; lia|assumption]. }
  assert (2 ^ (d2 - 1) * 2 ^ (e2 - u) <= Zpos m2 * 2 ^ (e2 - u)) as Hb.
  { apply Z.mul_le_mono_nonneg_r; [apply Z.pow_nonneg; lia|assumption]. }
  rewrite <- Z.pow_add_r in Ha by lia. rewrite <- Z.pow_add_r in Hb by lia.
  assert (2 ^ (d1 + (e1 - u)) <= 2 ^ (d2 - 1 + (e2 - u))) by (apply Z.pow_le_mono_r; lia).
  lia.
Qed.

Lemma canonical_exponent_le (m1 m2 : positive) (e1 e2 u : Z) :
  canonical m1 e1 -> canonical m2 e2 -> u <= e1 -> u <= e2 ->
  Zpos m1 * 2 ^ (e1 - u) <= Zpos m2 * 2 ^ (e2 - u) -> e1 <= e2.
Proof.
  intros H1 H2 Hu1 Hu2 Hle. destruct (Z_le_gt_dec e1 e2) as [?|Hgt]; [assumption|].
  pose proof (canonical_exponent_lt m2 m1 e2 e1 u H2 H1 Hu2 ltac:(lia)). lia.
Qed.

(** *** Shifting a mantissa to the right *)

Lemma loc_of_shr_record_exact r : loc_of_shr_record r = loc_Exact <-> inexact r = false.
Proof. destruct r as [m [] []]; cbn; split; congruence. Qed.

Lemma inexact_of_loc m l : inexact (shr_record_of_loc m l) = false <-> l = loc_Exact.
Proof. destruct l as [|[]]; cbn; split; congruence. Qed.

Lemma shr_m_of_loc m l : shr_m (shr_record_of_loc m l) = m.
Proof. destruct l as [|[]]; reflexivity. Qed.

Lemma shifted_1 r : 0 <= shr_m r -> shifted 1 r (shr_1 r).
Proof.
  destruct r as [m rb sb]. cbn. intros Hm. unfold shifted, inexact.
  destruct m as [|[p|p|]|p]; cbn; try lia.
  - split; [lia|]. exists 0. destruct rb, sb; cbn; intuition (congruence || lia).
  - split; [lia|]. exists 1. destruct rb, sb; cbn; intuition (congruence || lia).
  - split; [lia|]. exists 0. destruct rb, sb; cbn; intuition (congruence || lia).
  - split; [lia|]. exists 1. destruct rb, sb; cbn; intuition (congruence || lia).
Qed.

Lemma shifted_trans a b r1 r2 r3 :
  0 <= a -> 0 <= b -> shifted a r1 r2 -> shifted b r2 r3 -> shifted (a + b) r1 r3.
Proof.
  intros Ha Hb (H2 & rem1 & Hr1 & E1 & I1) (H3 & rem2 & Hr2 & E2 & I2).
  split; [assumption|]. exists (rem2 * 2 ^ a + rem1).
  assert (0 < 2 ^ a) by (apply Z.pow_pos_nonneg; lia).
  assert (0 < 2 ^ b) by (apply Z.pow_pos_nonneg; lia).
  rewrite Z.pow_add_r by lia. repeat split.
  - nia.
  - nia.
  - rewrite E1, E2. ring.
  - apply I2 in H1 as [H1 ->]. now apply I1 in H1 as [? ?].
  - apply I2 in H1 as [H1 ->]. apply I1 in H1 as [? ->]. lia.
  - intros [Hi Hrem]. assert (rem1 = 0 /\ rem2 = 0) as [-> ->] by nia.
    apply I2. split; [|reflexivity]. apply I1. auto.
Qed.

Lemma shifted_nonneg n r r' : shifted n r r' -> 0 <= n -> 0 <= shr_m r.
Proof.
  intros (H & rem & Hr & E & _) Hn. assert (0 < 2 ^ n) by (apply Z.pow_pos_nonneg; lia). nia.
Qed.

Lemma iter_pos_shifted (p : positive) r :
  0 <= shr_m r -> shifted (Zpos p) r (SpecFloat.iter_pos shr_1 p r).
Proof.
  revert r. induction p as [p IH|p IH|]; intros r Hr; cbn [SpecFloat.iter_pos].
  - pose proof (shifted_1 r Hr) as H1.
    assert (0 <= shr_m (shr_1 r)) as Hr1 by (now destruct H1).
    pose proof (IH _ Hr1) as H2.
    assert (0 <= shr_m (SpecFloat.iter_pos shr_1 p (shr_1 r))) as Hr2 by (now destruct H2).
    pose proof (IH _ Hr2) as H3.
    replace (Zpos p~1) with (1 + Zpos p + Zpos p) by lia.
    eapply shifted_trans; [lia|lia| |exact H3].
    eapply shifted_trans; [lia|lia|exact H1|exact H2].
  - pose proof (IH _ Hr) as H2.
    assert (0 <= shr_m (SpecFloat.iter_pos shr_1 p r)) as Hr2 by (now destruct H2).
    pose proof (IH _ Hr2) as H3.
    replace (Zpos p~0) with (Zpos p + Zpos p) by lia.
    eapply shifted_trans; [lia|lia|exact H2|exact H3].
  - now apply shifted_1.
Qed.

Lemma shifted_0 r : 0 <= shr_m r -> shifted 0 r r.
Proof.
  intros Hr. split; [assumption|]. exists 0. cbn. repeat split; try lia; tauto.
Qed.

(** [shr] shifts by [n] bits when [n] is positive and not at all otherwise. *)
Lemma shr_shifted r e n :
  0 <= shr_m r ->
  shifted (Z.max n 0) r (fst (shr r e n)) /\ snd (shr r e n) = e + Z.max n 0.
Proof.
  intros Hr. destruct n as [|p|p]; cbn [shr fst snd].
  - split; [now apply shifted_0|lia].
  - rewrite Z.max_l by lia. split; [now apply iter_pos_shifted|reflexivity].
  - rewrite Z.max_r by lia. split; [now apply shifted_0|lia].
Qed.

(** *** Rounding to nearest *)

Lemma pow2_pos (k : Z) : 0 <= k -> 0 < 2 ^ k.
Proof. intros. apply Z.pow_pos_nonneg; lia. Qed.

Lemma pow2_split (a b : Z) : 0 <= a -> 0 <= b -> 2 ^ (a + b) = 2 ^ a * 2 ^ b.
Proof. intros. apply Z.pow_add_r; lia. Qed.

Lemma shr_fexp_spec (mx ex : Z) (lx : location) :
  0 < mx -> ex <= fexp64 (Zdigits2 mx + ex) ->
  snd (shr_fexp prec emax mx ex lx) = fexp64 (Zdigits2 mx + ex) /\
  shifted (fexp64 (Zdigits2 mx + ex) - ex) (shr_record_of_loc mx lx)
    (fst (shr_fexp prec emax mx ex lx)).
Proof.
  intros Hm He. unfold shr_fexp. fold (fexp64 (Zdigits2 mx + ex)).
  destruct (shr_shifted (shr_record_of_loc mx lx) ex (fexp64 (Zdigits2 mx + ex) - ex))
    as [Hs He'].
  { rewrite shr_m_of_loc. lia. }
  rewrite Z.max_l in Hs, He' by lia. split; [lia|exact Hs].
Qed.

(** The mantissa [mx] truncated to the exponent [e']. *)
Lemma truncate_bracket (mx m' rem ex e' u X : Z) :
  u <= ex -> ex <= e' -> 0 <= rem < 2 ^ (e' - ex) -> mx = m' * 2 ^ (e' - ex) + rem ->
  mx * 2 ^ (ex - u) <= X < (mx + 1) * 2 ^ (ex - u) ->
  m' * 2 ^ (e' - u) <= X < (m' + 1) * 2 ^ (e' - u) /\
  (X = m' * 2 ^ (e' - u) <-> X = mx * 2 ^ (ex - u) /\ rem = 0).
Proof.
  intros Hu He Hrem Hmx HX.
  replace (e' - u) with ((e' - ex) + (ex - u)) by lia.
  rewrite pow2_split by lia.
  pose proof (pow2_pos (e' - ex) ltac:(lia)) as Hp1.
  pose proof (pow2_pos (ex - u) ltac:(lia)) as Hp2.
  set (a := 2 ^ (e' - ex)) in *. set (b := 2 ^ (ex - u)) in *. subst mx.
  repeat split; try nia.
Qed.

Lemma truncate_digits (mx m' rem n : Z) :
  0 < mx -> 0 <= n -> 0 <= rem < 2 ^ n -> mx = m' * 2 ^ n + rem -> 0 <= m' ->
  (m' = 0 -> Zdigits2 mx <= n) /\ (0 < m' -> Zdigits2 m' = Zdigits2 mx - n).
Proof.
  intros Hmx Hn Hrem E Hm'.
  pose proof (Zdigits2_bounds mx Hmx) as [Hlo Hhi]. pose proof (Zdigits2_pos mx Hmx) as Hd.
  pose proof (pow2_pos n Hn) as Hp. split.
  - intros ->. destruct (Z_le_gt_dec (Zdigits2 mx) n) as [?|Hgt]; [assumption|].
    assert (2 ^ n <= 2 ^ (Zdigits2 mx - 1)) by (apply Z.pow_le_mono_r; lia). lia.
  - intros Hpos. destruct (Z_le_gt_dec (Zdigits2 mx) n) as [Hle|Hgt].
    + assert (2 ^ Zdigits2 mx <= 2 ^ n) by (apply Z.pow_le_mono_r; lia). nia.
    + apply Zdigits2_unique; [lia|].
      assert (2 ^ (Zdigits2 mx - 1) = 2 ^ (Zdigits2 mx - n - 1) * 2 ^ n) as E1.
      { rewrite <- pow2_split by lia. f_equal. lia. }
      assert (2 ^ Zdigits2 mx = 2 ^ (Zdigits2 mx - n) * 2 ^ n) as E2.
      { rewrite <- pow2_split by lia. f_equal. lia. }
      rewrite E1 in Hlo. rewrite E2 in Hhi.
      pose proof (pow2_pos (Zdigits2 mx - n - 1) ltac:(lia)).
      split; nia.
Qed.

Lemma round_nearest_even_cases (m : Z) (l : location) :
  round_nearest_even m l = m \/ (round_nearest_even m l = m + 1 /\ l <> loc_Exact).
Proof.
  destruct l as [|[]]; unfold round_nearest_even; try (left; reflexivity).
  - match goal with |- context [if ?b then _ else _] => destruct b end;
      [left; reflexivity|right; split; [reflexivity|discriminate]].
  - right; split; [reflexivity|discriminate].
Qed.

Lemma second_shift (mr e' dm : Z) :
  0 < mr -> 0 <= dm -> fexp64 (dm + e') = e' -> 2 ^ (dm - 1) <= mr <= 2 ^ dm ->
  (dm = 0 -> e' = -1074) ->
  exists m e, canonical m e /\
    (forall u, u <= e' -> Zpos m * 2 ^ (e - u) = mr * 2 ^ (e' - u)) /\
    shr_m (fst (shr_fexp prec emax mr e' loc_Exact)) = Zpos m /\
    snd (shr_fexp prec emax mr e' loc_Exact) = e.
Proof.
  intros Hmr Hdm Hcan [Hlo Hhi] Hsub.
  assert (fexp64 (Zdigits2 mr + e') = e' \/
          (fexp64 (Zdigits2 mr + e') = e' + 1 /\ mr = 2 ^ 53)) as Hcases.
  { destruct (Z.eq_dec mr (2 ^ dm)) as [Heq|Hne].
    - assert (Zdigits2 mr = dm + 1) as ->.
      { apply Zdigits2_unique; [lia|]. rewrite Heq.
        replace (dm + 1 - 1) with dm by lia. split; [lia|].
        pose proof (pow2_pos dm Hdm). replace (dm + 1) with (Z.succ dm) by lia.
        rewrite Z.pow_succ_r by lia. lia. }
      rewrite fexp64_eq in *.
      destruct (Z.eq_dec dm 53) as [->|Hd]; [right; split; [lia|exact Heq]|].
      left. destruct (Z.eq_dec dm 0) as [->|Hd0]; [rewrite Hsub by reflexivity; lia|]. lia.
    - left. assert (Zdigits2 mr = dm) as ->; [|exact Hcan].
      apply Zdigits2_unique; [|lia].
      destruct (Z.eq_dec dm 0) as [->|?]; [|lia]. cbn in *. lia. }
  pose proof (shr_shifted (shr_record_of_loc mr loc_Exact) e'
                (fexp64 (Zdigits2 mr + e') - e')) as [Hs He]; [cbn; lia|].
  unfold shr_fexp. fold (fexp64 (Zdigits2 mr + e')).
  destruct (shr _ _ _) as [r e]. cbn [fst snd] in *.
  destruct Hs as (Hr & rem & Hrem & E & I). cbn in E, I.
  destruct mr as [|p|p]; try lia.
  destruct Hcases as [H0|[H1 Hp]].
  - rewrite H0, Z.sub_diag in *. change (Z.max 0 0) with 0 in *; change (2 ^ 0) with 1 in *.
    assert (rem = 0) as -> by lia.
    exists p, e'. split; [exact H0|]. split; [|split; [|lia]].
    + intros u Hu. reflexivity.
    + rewrite Z.mul_1_r, Z.add_0_r in E. now rewrite <- E.
  - rewrite H1 in *. replace (e' + 1 - e') with 1 in * by lia.
    rewrite Z.max_l in * by lia. change (2 ^ 1) with 2 in *.
    assert (rem = 0 /\ shr_m r = 2 ^ 52) as [-> Hm].
    { rewrite Hp in E. change (2 ^ 53) with 9007199254740992 in E.
      change (2 ^ 52) with 4503599627370496. clear -E Hrem. lia. }
    exists 4503599627370496%positive, (e' + 1). split; [|split; [|split]].
    + unfold canonical.
      assert (p = 9007199254740992%positive) as -> by (apply Pos2Z.inj; exact Hp).
      change (Zdigits2 (Zpos 9007199254740992)) with 54 in H1.
      change (Zpos (digits2_pos 4503599627370496)) with 53.
      rewrite fexp64_eq in *. clear -H1. lia.
    + intros u Hu. rewrite Hp. replace (e' + 1 - u) with (Z.succ (e' - u)) by lia.
      rewrite Z.pow_succ_r by lia. change (2 ^ 53) with (Zpos 4503599627370496 * 2). ring.
    + rewrite Hm. reflexivity.
    + exact He.
Qed.

Lemma binary_round_aux_rounds (mx ex : Z) (lx : location) (u X : Z) :
  0 < mx -> u <= ex ->
  ex <= fexp64 (Zdigits2 mx + ex) ->
  mx * 2 ^ (ex - u) <= X < (mx + 1) * 2 ^ (ex - u) ->
  (lx = loc_Exact <-> X = mx * 2 ^ (ex - u)) ->
  rounds_to u X (binary_round_aux prec emax false mx ex lx).
Proof.
  intros Hmx Hu Hex HX Hlx.
  destruct (shr_fexp_spec mx ex lx Hmx Hex) as [He' Hs].
  unfold binary_round_aux.
  destruct (shr_fexp prec emax mx ex lx) as [r' e']. cbn [fst snd] in He', Hs.
  set (n := fexp64 (Zdigits2 mx + ex) - ex) in *.
  assert (e' - ex = n) as Hn by lia. assert (0 <= n) as Hn0 by lia.
  destruct Hs as (Hm' & rem & Hrem & E & I). rewrite shr_m_of_loc in E.
  rewrite inexact_of_loc in I. set (m' := shr_m r') in *.
  rewrite <- Hn in Hrem, E.
  destruct (truncate_bracket mx m' rem ex e' u X Hu ltac:(lia) Hrem E HX) as [Hbr Hex'].
  rewrite Hn in Hrem, E.
  destruct (truncate_digits mx m' rem n Hmx Hn0 Hrem E Hm') as [Hd0 Hd1].
  assert (-1074 <= e') as Hmin by (rewrite He', fexp64_eq; lia).
  assert (m' = 0 -> e' = -1074) as Hsub.
  { intros H0. specialize (Hd0 H0). rewrite He', fexp64_eq in *. lia. }
  assert (0 < m' -> fexp64 (Zdigits2 m' + e') = e') as Hcan.
  { intros Hpos. rewrite (Hd1 Hpos), He'. f_equal. lia. }
  set (mr := round_nearest_even m' (loc_of_shr_record r')).
  assert (mr = m' \/ (mr = m' + 1 /\ X <> m' * 2 ^ (e' - u))) as Hmr.
  { destruct (round_nearest_even_cases m' (loc_of_shr_record r')) as [H|[H Hl]];
      [now left|right]. split; [exact H|].
    intros HXeq. apply Hl. apply loc_of_shr_record_exact. apply I.
    apply Hex' in HXeq as [HXeq ->]. split; [now apply Hlx|reflexivity]. }
  apply (rounds_to_intro u X _ m' e' mr); auto; [lia|].
  destruct (Z.eq_dec mr 0) as [H0|Hne].
  - left. split; [exact H0|]. rewrite H0. unfold shr_fexp. cbn [Zdigits2].
    fold (fexp64 (0 + e')). rewrite fexp64_eq.
    destruct (Z.max (0 + e' - 53) (-1074) - e') eqn:En; cbn; try reflexivity. lia.
  - right. assert (0 < mr) as Hmrpos by lia.
    destruct (second_shift mr e' (if Z.eq_dec m' 0 then 0 else Zdigits2 m'))
      as (m & e & Hc & Hval & Hsm & Hse); auto.
    + destruct (Z.eq_dec m' 0); [lia|]. pose proof (Zdigits2_pos m'). lia.
    + destruct (Z.eq_dec m' 0) as [H0|H0].
      * rewrite (Hsub H0). reflexivity.
      * apply Hcan. lia.
    + destruct (Z.eq_dec m' 0) as [H0|H0].
      * cbn. lia.
      * pose proof (Zdigits2_bounds m' ltac:(lia)). lia.
    + destruct (Z.eq_dec m' 0); [auto|]. pose proof (Zdigits2_pos m'). lia.
    + exists m, e. split; [exact Hc|]. split; [apply Hval; lia|].
      destruct (shr_fexp prec emax mr e' loc_Exact) as [r'' e'']. cbn [fst snd] in Hsm, Hse.
      rewrite Hsm, Hse. reflexivity.
Qed.

(** **** Rounding is monotone *)

Lemma canonical_min m e : canonical m e -> -1074 <= e.
Proof. unfold canonical. rewrite fexp64_eq. lia. Qed.

Lemma multiple_le (k m' p X : Z) :
  0 < p -> k * p <= X -> X < (m' + 1) * p -> k * p <= m' * p.
Proof.
  intros Hp H1 H2. assert (k * p < (m' + 1) * p) as Hlt by lia.
  apply Z.mul_lt_mono_pos_r in Hlt; [|exact Hp].
  apply Z.mul_le_mono_nonneg_r; lia.
Qed.

Lemma scaled_multiple u m e e' :
  u <= e' -> e' <= e -> scaled u m e = (Zpos m * 2 ^ (e - e')) * 2 ^ (e' - u).
Proof.
  intros. unfold scaled. rewrite <- Z.mul_assoc, <- pow2_split by lia. do 2 f_equal. lia.
Qed.

(** A representable number that is at most [X] is at most the rounding of
    [X]: the rounding is not zero, and when it is finite it is at least that
    number. *)
Lemma rounds_to_lower u X r ma ea :
  rounds_to u X r -> canonical ma ea -> u <= ea -> scaled u ma ea <= X ->
  r = S754_infinity false \/
  exists m e, r = S754_finite false m e /\ canonical m e /\ e <= 971 /\
              scaled u ma ea <= scaled u m e.
Proof.
  intros [m' e' mr Hm' Hu Hbr Hsub Hcan Hmr Hres] Ha Hua HA.
  pose proof (canonical_min _ _ Ha) as Hamin.
  assert (scaled u ma ea <= m' * 2 ^ (e' - u)) as Hfloor.
  { destruct (Z_le_gt_dec e' ea) as [Hle|Hgt].
    - rewrite (scaled_multiple u ma ea e') in * by lia.
      eapply multiple_le; [apply pow2_pos; lia|exact HA|apply Hbr].
    - destruct (Z.eq_dec m' 0) as [H0|H0]; [specialize (Hsub H0); lia|].
      destruct m' as [|p|p]; try lia.
      pose proof (canonical_exponent_lt ma p ea e' u Ha (Hcan ltac:(lia)) Hua ltac:(lia)).
      unfold scaled. lia. }
  assert (0 < scaled u ma ea) as Hpos.
  { unfold scaled. pose proof (pow2_pos (ea - u) ltac:(lia)). nia. }
  pose proof (pow2_pos (e' - u) ltac:(lia)) as Hp.
  assert (m' * 2 ^ (e' - u) <= mr * 2 ^ (e' - u)) as Hup by (destruct Hmr as [->|[-> _]]; nia).
  destruct Hres as [[H0 _]|(m & e & Hc & Hval & ->)].
  - subst mr. nia.
  - destruct (e <=? 971) eqn:Ee; [right|now left].
    exists m, e. split; [reflexivity|]. split; [exact Hc|]. split; [lia|].
    unfold scaled in *. lia.
Qed.

(** A representable number that is at least [X] is at least the rounding of
    [X], and the rounding is finite when that number is. *)
Lemma rounds_to_upper u X r mb eb :
  rounds_to u X r -> canonical mb eb -> u <= eb -> X <= scaled u mb eb ->
  r = S754_zero false \/
  (exists m e, r = S754_finite false m e /\ canonical m e /\ e <= 971 /\
               scaled u m e <= scaled u mb eb) \/
  (r = S754_infinity false /\ 971 < eb).
Proof.
  intros [m' e' mr Hm' Hu Hbr Hsub Hcan Hmr Hres] Hb Hub HB.
  pose proof (canonical_min _ _ Hb) as Hbmin.
  pose proof (pow2_pos (e' - u) ltac:(lia)) as Hp.
  assert (mr * 2 ^ (e' - u) <= scaled u mb eb) as Hceil.
  { destruct Hmr as [->|[-> Hne]]; [lia|].
    destruct (Z_le_gt_dec e' eb) as [Hle|Hgt].
    - rewrite (scaled_multiple u mb eb e') in * by lia.
      set (k := Zpos mb * 2 ^ (eb - e')) in *.
      assert (m' * 2 ^ (e' - u) < k * 2 ^ (e' - u)) as Hlt by lia.
      apply Z.mul_lt_mono_pos_r in Hlt; [|exact Hp].
      apply Z.mul_le_mono_nonneg_r; lia.
    - destruct (Z.eq_dec m' 0) as [H0|H0]; [specialize (Hsub H0); lia|].
      destruct m' as [|p|p]; try lia.
      pose proof (canonical_exponent_lt mb p eb e' u Hb (Hcan ltac:(lia)) Hub ltac:(lia)).
      unfold scaled in *. lia. }
  destruct Hres as [[_ ->]|(m & e & Hc & Hval & ->)]; [now left|right].
  assert (scaled u m e <= scaled u mb eb) as Hle by (unfold scaled in *; lia).
  assert (u <= e) as Hue.
  { pose proof (canonical_min _ _ Hc). destruct (Z_le_gt_dec u e); [assumption|].
    exfalso. unfold scaled in Hle. rewrite (Z.pow_neg_r 2 (e - u)) in * by lia.
    pose proof (pow2_pos (e' - u) ltac:(lia)).
    assert (0 < mr) by (destruct Hmr as [->|[-> _]]; nia || lia). nia. }
  pose proof (canonical_exponent_le m mb e eb u Hc Hb Hue Hub Hle) as Hexp.
  destruct (e <=? 971) eqn:Ee.
  - left. exists m, e. repeat split; auto. lia.
  - right. split; [reflexivity|]. lia.
Qed.

(** *** Addition of two positive numbers *)

Lemma Zdigits2_shift (m k : Z) : 0 < m -> 0 <= k -> Zdigits2 (m * 2 ^ k) = Zdigits2 m + k.
Proof.
  intros Hm Hk. pose proof (Zdigits2_bounds m Hm) as [Hlo Hhi].
  pose proof (Zdigits2_pos m Hm) as Hd. pose proof (pow2_pos k Hk) as Hp.
  apply Zdigits2_unique; [lia|].
  replace (Zdigits2 m + k - 1) with (Zdigits2 m - 1 + k) by lia.
  rewrite !pow2_split by lia. split.
  - apply Z.mul_le_mono_nonneg_r; lia.
  - apply Z.mul_lt_mono_pos_r; lia.
Qed.

Lemma shl_align_spec (mx : positive) (ex ez : Z) :
  snd (shl_align mx ex ez) = Z.min ex ez /\
  Zpos (fst (shl_align mx ex ez)) = Zpos mx * 2 ^ (ex - Z.min ex ez).
Proof.
  unfold shl_align. destruct (ez - ex) as [|d|d] eqn:E; cbn [fst snd].
  - rewrite Z.min_l by lia. rewrite Z.sub_diag. cbn. lia.
  - rewrite Z.min_l by lia. rewrite Z.sub_diag. cbn. lia.
  - rewrite Z.min_r by lia. split; [reflexivity|].
    change (PosDef.Pos.iter xO mx d) with (shift_pos d mx).
    rewrite shift_pos_correct, Z.pow_pos_fold.
    replace (ex - ez) with (Zpos d) by lia. lia.
Qed.

Lemma binary_round_rounds (mx : positive) (ex u : Z) :
  u <= ex -> u <= -1074 ->
  rounds_to u (Zpos mx * 2 ^ (ex - u)) (binary_round prec emax false mx ex).
Proof.
  intros Hu Hmin. unfold binary_round. fold (fexp64 (Zpos (digits2_pos mx) + ex)).
  pose proof (shl_align_spec mx ex (fexp64 (Zpos (digits2_pos mx) + ex))) as [He Hm].
  destruct (shl_align _ _ _) as [mz ez]. cbn [fst snd] in He, Hm.
  assert (-1074 <= fexp64 (Zpos (digits2_pos mx) + ex)) as Hf by (rewrite fexp64_eq; lia).
  assert (Zpos mx * 2 ^ (ex - u) = Zpos mz * 2 ^ (ez - u)) as HX.
  { rewrite Hm, <- Z.mul_assoc, <- pow2_split by lia. do 2 f_equal. lia. }
  rewrite HX. apply binary_round_aux_rounds.
  - lia.
  - lia.
  - rewrite Hm, Zdigits2_shift by lia. cbn [Zdigits2].
    rewrite <- He.
    replace (Zpos (digits2_pos mx) + (ex - ez) + ez) with (Zpos (digits2_pos mx) + ex) by lia.
    lia.
  - pose proof (pow2_pos (ez - u) ltac:(lia)). lia.
  - split; reflexivity.
Qed.

Lemma SFadd_rounds (ma mb : positive) (ea eb u : Z) :
  u <= -1074 -> -1074 <= ea -> -1074 <= eb ->
  rounds_to u (scaled u ma ea + scaled u mb eb)
    (SFadd prec emax (S754_finite false ma ea) (S754_finite false mb eb)).
Proof.
  intros Hu Ha Hb. unfold SFadd.
  change (IntDef.Z.min ea eb) with (Z.min ea eb).
  pose proof (shl_align_spec ma ea (Z.min ea eb)) as [_ Hma].
  pose proof (shl_align_spec mb eb (Z.min ea eb)) as [_ Hmb].
  destruct (shl_align ma _ _) as [ma' ea'], (shl_align mb _ _) as [mb' eb'].
  cbn [fst snd cond_Zopp] in *.
  rewrite Z.min_r in Hma by lia. rewrite Z.min_r in Hmb by lia.
  change (Zpos ma' + Zpos mb') with (Zpos (ma' + mb')). cbn [binary_normalize].
  replace (scaled u ma ea + scaled u mb eb) with (Zpos (ma' + mb') * 2 ^ (Z.min ea eb - u)).
  - apply binary_round_rounds; lia.
  - rewrite Pos2Z.inj_add, Hma, Hmb, Z.mul_add_distr_r. unfold scaled.
    rewrite <- !Z.mul_assoc, <- !pow2_split by lia. do 2 f_equal; f_equal; lia.
Qed.

(** *** Division by two *)

Lemma canonical_digits (m : positive) (e : Z) :
  canonical m e ->
  Zpos (digits2_pos m) <= 53 /\ (Zpos (digits2_pos m) < 53 -> e = -1074).
Proof. unfold canonical. rewrite fexp64_eq. lia. Qed.

Lemma div_core_two (ms : positive) (es : Z) :
  canonical ms es -> 2 <= scaled (-1074) ms es ->
  exists q e' l,
    SFdiv_core_binary prec emax (Zpos ms) es 4503599627370496 (-51) = (q, e', l) /\
    0 < q /\ -1074 <= e' /\ e' <= fexp64 (Zdigits2 q + e') /\
    q * 2 ^ (e' - -1075) <= scaled (-1074) ms es < (q + 1) * 2 ^ (e' - -1075) /\
    (l = loc_Exact <-> scaled (-1074) ms es = q * 2 ^ (e' - -1075)).
Proof.
  intros Hcan HX. pose proof (canonical_min _ _ Hcan) as Hmin.
  pose proof (canonical_digits _ _ Hcan) as [Hd53 Hsub].
  pose proof (digits2_bounds ms) as [Hlo Hhi].
  unfold SFdiv_core_binary. cbv zeta.
  change (Zdigits2 4503599627370496) with 53. cbn [Zdigits2].
  set (d := Zpos (digits2_pos ms)) in *.
  fold (fexp64 (d + es - (53 + -51))).
  change (IntDef.Z.min ?a ?b) with (Z.min a b).
  assert (Z.min (fexp64 (d + es - (53 + -51))) (es - -51) = fexp64 (d + es - 2)) as ->.
  { replace (d + es - (53 + -51)) with (d + es - 2) by lia.
    unfold canonical in Hcan. fold d in Hcan. rewrite fexp64_eq in *. lia. }
  set (e' := fexp64 (d + es - 2)).
  assert (-1074 <= e' /\ e' <= es /\ (e' = -1074 \/ e' = d + es - 55)) as (He1 & He2 & He3).
  { unfold e'. unfold canonical in Hcan. fold d in Hcan. rewrite fexp64_eq in *. lia. }
  assert (0 < es - -51 - e') as Hs by lia.
  destruct (es - -51 - e') as [|s|s] eqn:Es; try lia.
  change (IntDef.Z.shiftl (Zpos ms) (Zpos s)) with (Z.shiftl (Zpos ms) (Zpos s)).
  rewrite Z.shiftl_mul_pow2 by lia.
  change (IntDef.Z.div_eucl ?a ?b) with (Z.div_eucl a b).
  pose proof (Z_div_mod (Zpos ms * 2 ^ Zpos s) 4503599627370496 ltac:(lia)) as Hdiv.
  destruct (Z.div_eucl _ _) as [q r]. destruct Hdiv as [Hqr Hr].
  exists q, e', (new_location 4503599627370496 r). split; [reflexivity|].
  set (P := 2 ^ (e' - -1075)).
  assert (0 < P) as HP by (apply pow2_pos; lia).
  assert (scaled (-1074) ms es * 4503599627370496 = (q * 4503599627370496 + r) * P) as HXP.
  { replace (q * 4503599627370496 + r) with (Zpos ms * 2 ^ Zpos s) by lia.
    unfold scaled, P. change 4503599627370496 with (2 ^ 52).
    rewrite <- !Z.mul_assoc, <- !pow2_split by lia. do 2 f_equal. lia. }
  assert (0 < q) as Hq.
  { destruct He3 as [E|E].
    - assert (Zpos ms * 2 ^ Zpos s = scaled (-1074) ms es * 2 ^ 51) as Hm.
      { unfold scaled. rewrite <- Z.mul_assoc, <- pow2_split by lia. do 2 f_equal. lia. }
      change (2 ^ 51) with 2251799813685248 in Hm. lia.
    - assert (2 ^ (d - 1) * 2 ^ Zpos s <= Zpos ms * 2 ^ Zpos s) as Hm.
      { apply Z.mul_le_mono_nonneg_r; [|exact Hlo]. apply Z.lt_le_incl, pow2_pos. lia. }
      assert (0 < d) by (unfold d; lia).
      rewrite <- pow2_split in Hm by lia.
      replace (d - 1 + Zpos s) with 105 in Hm by lia.
      change (2 ^ 105) with 40564819207303340847894502572032 in Hm. lia. }
  split; [exact Hq|]. split; [exact He1|]. split; [|split].
  - destruct He3 as [E|E]; [rewrite fexp64_eq; lia|].
    assert (53 <= Zdigits2 q); [|rewrite fexp64_eq; lia].
    assert (2 ^ (d - 1) * 2 ^ Zpos s <= Zpos ms * 2 ^ Zpos s) as Hm.
    { apply Z.mul_le_mono_nonneg_r; [|exact Hlo]. apply Z.lt_le_incl, pow2_pos. lia. }
    assert (0 < d) by (unfold d; lia).
    rewrite <- pow2_split in Hm by lia.
    replace (d - 1 + Zpos s) with 105 in Hm by lia.
    change (2 ^ 105) with 40564819207303340847894502572032 in Hm.
    assert (2 ^ 52 <= q) as Hq52 by (change (2 ^ 52) with 4503599627370496; lia).
    pose proof (Zdigits2_bounds q Hq) as [_ Hup].
    destruct (Z_lt_le_dec (Zdigits2 q) 53) as [Hlt|?]; [|assumption].
    assert (2 ^ Zdigits2 q <= 2 ^ 52) by (apply Z.pow_le_mono_r; lia). lia.
  - clearbody P. clear -HXP Hr HP. nia.
  - unfold new_location. change (IntDef.Z.even 4503599627370496) with true.
    cbv iota. unfold new_location_even.
    destruct (Z.eqb_spec r 0) as [->|Hne].
    + split; [intros _|reflexivity]. clearbody P. clear -HXP. lia.
    + split; [discriminate|]. intros E. exfalso. clearbody P. clear -HXP E Hne HP. nia.
Qed.

Lemma SFdiv_two_rounds (ms : positive) (es : Z) :
  canonical ms es -> 2 <= scaled (-1074) ms es ->
  rounds_to (-1075) (scaled (-1074) ms es)
    (SFdiv prec emax (S754_finite false ms es) SFtwo).
Proof.
  intros Hcan HX.
  destruct (div_core_two ms es Hcan HX) as (q & e' & l & E & Hq & He & Hf & Hbr & Hl).
  unfold SFdiv, SFtwo. rewrite E. cbn [xorb].
  apply binary_round_aux_rounds; [exact Hq|lia|exact Hf|exact Hbr|exact Hl].
Qed.

(** *** Order of canonical numbers *)

Lemma scaled_pos u m e : u <= e -> 0 < scaled u m e.
Proof. intros. unfold scaled. pose proof (pow2_pos (e - u) ltac:(lia)). lia. Qed.

Lemma scaled_unit u m e : u <= e -> scaled (u - 1) m e = 2 * scaled u m e.
Proof.
  intros. unfold scaled. replace (e - (u - 1)) with (Z.succ (e - u)) by lia.
  rewrite Z.pow_succ_r by lia. lia.
Qed.

(** Twice a canonical number is a canonical number, with an exponent that may
    be above the largest one of the format. *)
Lemma canonical_double (m : positive) (e u : Z) :
  canonical m e -> u <= e ->
  exists m2 e2, canonical m2 e2 /\ u <= e2 /\ scaled u m2 e2 = 2 * scaled u m e.
Proof.
  intros Hcan Hu. pose proof (canonical_digits _ _ Hcan) as [Hd Hsub].
  pose proof (canonical_min _ _ Hcan) as Hmin.
  destruct (Z.eq_dec (Zpos (digits2_pos m)) 53) as [E|E].
  - exists m, (e + 1). split; [|split; [lia|]].
    + unfold canonical in *. rewrite fexp64_eq in *. lia.
    + unfold scaled. replace (e + 1 - u) with (Z.succ (e - u)) by lia.
      rewrite Z.pow_succ_r by lia. lia.
  - exists (m~0)%positive, e. split; [|split; [lia|]].
    + unfold canonical in *. cbn [digits2_pos]. rewrite Pos2Z.inj_succ.
      rewrite fexp64_eq in *. lia.
    + unfold scaled. change (Zpos m~0) with (2 * Zpos m). lia.
Qed.

Lemma compare_cont_le (m1 m2 : positive) :
  (Zpos m1 <= Zpos m2 <-> PosDef.Pos.compare_cont Eq m1 m2 <> Gt).
Proof.
  change (PosDef.Pos.compare_cont Eq m1 m2) with (Pos.compare m1 m2).
  destruct (Pos.compare_spec m1 m2); split; intros; try lia; try congruence.
Qed.

Lemma SFleb_scaled (s : bool) (m1 m2 : positive) (e1 e2 u : Z) :
  canonical m1 e1 -> canonical m2 e2 -> u <= e1 -> u <= e2 ->
  (SFleb (S754_finite s m1 e1) (S754_finite s m2 e2) = true <->
   if s then scaled u m2 e2 <= scaled u m1 e1 else scaled u m1 e1 <= scaled u m2 e2).
Proof.
  intros H1 H2 Hu1 Hu2. unfold SFleb, SFcompare.
  pose proof (compare_cont_le m1 m2) as Hc.
  assert (Zpos m2 <= Zpos m1 <-> PosDef.Pos.compare_cont Eq m1 m2 <> Lt) as Hc'.
  { change (PosDef.Pos.compare_cont Eq m1 m2) with (Pos.compare m1 m2).
    destruct (Pos.compare_spec m1 m2); split; intros; try lia; try congruence. }
  pose proof (pow2_pos (e1 - u) ltac:(lia)) as Hp.
  destruct (Z.compare_spec e1 e2) as [->|Hlt|Hgt].
  - assert (scaled u m1 e2 <= scaled u m2 e2 <-> Zpos m1 <= Zpos m2) as Hs.
    { unfold scaled. split; intros.
      - apply Z.mul_le_mono_pos_r in H; assumption.
      - apply Z.mul_le_mono_nonneg_r; lia. }
    assert (scaled u m2 e2 <= scaled u m1 e2 <-> Zpos m2 <= Zpos m1) as Hs'.
    { unfold scaled. split; intros.
      - apply Z.mul_le_mono_pos_r in H; assumption.
      - apply Z.mul_le_mono_nonneg_r; lia. }
    destruct s; [rewrite Hs', Hc'|rewrite Hs, Hc];
      destruct (PosDef.Pos.compare_cont Eq m1 m2); cbn; split; congruence.
  - pose proof (canonical_exponent_lt m1 m2 e1 e2 u H1 H2 Hu1 Hlt) as Hlt'.
    fold (scaled u m1 e1) (scaled u m2 e2) in Hlt'.
    destruct s; split; intros; try reflexivity; try discriminate; lia.
  - pose proof (canonical_exponent_lt m2 m1 e2 e1 u H2 H1 Hu2 ltac:(lia)) as Hlt'.
    fold (scaled u m1 e1) (scaled u m2 e2) in Hlt'.
    destruct s; split; intros; try reflexivity; try discriminate; lia.
Qed.

(** *** The midpoint of two positive numbers *)

Lemma SFmid_positive (ma mb : positive) (ea eb : Z) :
  canonical ma ea -> canonical mb eb -> eb <= 971 ->
  scaled (-1074) ma ea <= scaled (-1074) mb eb ->
  SFinfinite (SFadd prec emax (S754_finite false ma ea) (S754_finite false mb eb)) = false ->
  exists m e, SFmid (S754_finite false ma ea) (S754_finite false mb eb) = S754_finite false m e /\
    canonical m e /\ e <= 971 /\
    scaled (-1074) ma ea <= scaled (-1074) m e <= scaled (-1074) mb eb.
Proof.
  intros Ha Hb Hbmax Hab Hfin.
  pose proof (canonical_min _ _ Ha) as Hamin. pose proof (canonical_min _ _ Hb) as Hbmin.
  pose proof (SFadd_rounds ma mb ea eb (-1074) ltac:(lia) Hamin Hbmin) as Hsum.
  destruct (canonical_double ma ea (-1074) Ha Hamin) as (ma2 & ea2 & Ha2 & Hua2 & Ea2).
  destruct (canonical_double mb eb (-1074) Hb Hbmin) as (mb2 & eb2 & Hb2 & Hub2 & Eb2).
  pose proof (rounds_to_lower _ _ _ ma2 ea2 Hsum Ha2 Hua2 ltac:(lia)) as Hlow.
  pose proof (rounds_to_upper _ _ _ mb2 eb2 Hsum Hb2 Hub2 ltac:(lia)) as Hup.
  unfold SFmid.
  destruct Hlow as [Hinf|(ms & es & Es & Hs & Hsmax & Hslow)];
    [rewrite Hinf in Hfin; discriminate|].
  rewrite Es in *. clear Hsum Hfin.
  destruct Hup as [Hz|[(ms' & es' & Es' & _ & _ & Hsup)|[Hinf _]]]; try discriminate.
  injection Es' as <- <-.
  pose proof (canonical_min _ _ Hs) as Hsmin.
  pose proof (scaled_pos (-1074) ma ea Hamin) as Hapos.
  pose proof (SFdiv_two_rounds ms es Hs ltac:(lia)) as Hdiv.
  pose proof (scaled_unit (-1074) ma ea Hamin) as Easc.
  pose proof (scaled_unit (-1074) mb eb Hbmin) as Ebsc.
  change (-1074 - 1) with (-1075) in *.
  pose proof (rounds_to_lower _ _ _ ma ea Hdiv Ha ltac:(lia) ltac:(lia)) as Hlow.
  pose proof (rounds_to_upper _ _ _ mb eb Hdiv Hb ltac:(lia) ltac:(lia)) as Hup.
  destruct Hlow as [Hinf|(m & e & E & Hm & Hmax & Hlow)].
  - rewrite Hinf in Hup. destruct Hup as [?|[(? & ? & ? & _)|[_ ?]]]; try discriminate. lia.
  - rewrite E in *. destruct Hup as [?|[(m' & e' & E' & _ & _ & Hup)|[? _]]]; try discriminate.
    injection E' as <- <-. exists m, e. split; [reflexivity|]. split; [exact Hm|].
    split; [exact Hmax|]. pose proof (canonical_min _ _ Hm) as Hmmin.
    pose proof (scaled_unit (-1074) m e Hmmin) as Emsc.
    change (-1074 - 1) with (-1075) in *. lia.
Qed.

(** *** The midpoint of two numbers of the same sign *)

Lemma binary_round_aux_opp (m e : Z) (l : location) :
  binary_round_aux prec emax true m e l = SFopp (binary_round_aux prec emax false m e l).
Proof.
  unfold binary_round_aux. destruct (shr_fexp prec emax m e l) as [r1 e1].
  destruct (shr_fexp prec emax _ e1 loc_Exact) as [r2 e2].
  destruct (shr_m r2); [reflexivity| |reflexivity].
  destruct (e2 <=? emax - prec); reflexivity.
Qed.

Lemma SFadd_negative (ma mb : positive) (ea eb : Z) :
  SFadd prec emax (S754_finite true ma ea) (S754_finite true mb eb) =
  SFopp (SFadd prec emax (S754_finite false ma ea) (S754_finite false mb eb)).
Proof.
  unfold SFadd. cbn [cond_Zopp].
  destruct (shl_align ma _ _) as [ma' ea'], (shl_align mb _ _) as [mb' eb'].
  cbn [fst]. change (- Zpos ma' + - Zpos mb') with (Zneg (ma' + mb')).
  change (Zpos ma' + Zpos mb') with (Zpos (ma' + mb')).
  cbn [binary_normalize]. unfold binary_round.
  destruct (shl_align _ _ _) as [mz ez]. apply binary_round_aux_opp.
Qed.

Lemma SFdiv_two_opp (x : spec_float) :
  SFdiv prec emax (SFopp x) SFtwo = SFopp (SFdiv prec emax x SFtwo).
Proof.
  destruct x as [s|s| |s m e]; try (destruct s; reflexivity); [reflexivity|].
  unfold SFopp at 1, SFdiv, SFtwo.
  destruct (SFdiv_core_binary _ _ _ _ _ _) as [[q e'] l].
  destruct s; cbn [xorb negb]; [|apply binary_round_aux_opp].
  rewrite binary_round_aux_opp. now destruct (binary_round_aux _ _ _ _ _ _) as [[]|[]| |[] ? ?].
Qed.

Lemma SFmid_negative (ma mb : positive) (ea eb : Z) :
  SFmid (S754_finite true ma ea) (S754_finite true mb eb) =
  SFopp (SFmid (S754_finite false ma ea) (S754_finite false mb eb)).
Proof. unfold SFmid. rewrite SFadd_negative. apply SFdiv_two_opp. Qed.

Lemma SFadd_comm_positive (ma mb : positive) (ea eb : Z) :
  SFadd prec emax (S754_finite false ma ea) (S754_finite false mb eb) =
  SFadd prec emax (S754_finite false mb eb) (S754_finite false ma ea).
Proof.
  unfold SFadd. change (IntDef.Z.min ?a ?b) with (Z.min a b).
  rewrite (Z.min_comm eb ea). f_equal. apply Z.add_comm.
Qed.

Lemma valid_finite (s : bool) (m : positive) (e : Z) :
  valid_binary (S754_finite s m e) = true -> canonical m e /\ e <= 971.
Proof.
  cbn [SpecFloat.valid_binary]. unfold bounded, canonical_mantissa.
  intros [H1 H2]%andb_prop. apply Z.eqb_eq in H1. apply Z.leb_le in H2.
  split; [exact H1|exact H2].
Qed.

(** The midpoint [(x + y) / 2] of two numbers [x <= y] that are either both
    above or both below zero lies between them, unless the sum of two finite
    numbers is infinite. *)
Lemma SFmid_between (x y : spec_float) :
  valid_binary x = true -> valid_binary y = true ->
  SFleb x y = true ->
  SFleb x (S754_zero false) && SFleb (S754_zero false) y = false ->
  SFinfinite (SFadd prec emax x y) && negb (SFinfinite x || SFinfinite y) = false ->
  SFleb x (SFmid x y) = true /\ SFleb (SFmid x y) y = true.
Proof.
  intros Vx Vy Hle Hz Hov.
  destruct x as [sx|sx| |sx ma ea], y as [sy|sy| |sy mb eb];
    try destruct sx; try destruct sy; try discriminate; try (split; reflexivity).
  - (* both negative *)
    apply valid_finite in Vx as [Ha Hamax], Vy as [Hb Hbmax].
    pose proof (canonical_min _ _ Ha) as Hamin. pose proof (canonical_min _ _ Hb) as Hbmin.
    apply (SFleb_scaled true ma mb ea eb (-1074) Ha Hb Hamin Hbmin) in Hle.
    rewrite SFmid_negative. rewrite SFadd_negative in Hov.
    unfold SFmid. rewrite SFadd_comm_positive in *. fold (SFmid (S754_finite false mb eb) (S754_finite false ma ea)).
    destruct (SFmid_positive mb ma eb ea Hb Ha Hamax Hle) as (m & e & E & Hm & Hmax & Hlo & Hhi).
    { now destruct (SFadd _ _ _ _). }
    rewrite E. cbn [SFopp negb]. pose proof (canonical_min _ _ Hm) as Hmmin. split.
    + apply (SFleb_scaled true ma m ea e (-1074)); assumption.
    + apply (SFleb_scaled true m mb e eb (-1074)); assumption.
  - (* both positive *)
    apply valid_finite in Vx as [Ha Hamax], Vy as [Hb Hbmax].
    pose proof (canonical_min _ _ Ha) as Hamin. pose proof (canonical_min _ _ Hb) as Hbmin.
    apply (SFleb_scaled false ma mb ea eb (-1074) Ha Hb Hamin Hbmin) in Hle.
    destruct (SFmid_positive ma mb ea eb Ha Hb Hbmax Hle) as (m & e & E & Hm & Hmax & Hlo & Hhi).
    { now destruct (SFadd _ _ _ _). }
    rewrite E. pose proof (canonical_min _ _ Hm) as Hmmin. split.
    + apply (SFleb_scaled false ma m ea e (-1074)); assumption.
    + apply (SFleb_scaled false m mb e eb (-1074)); assumption.
Qed.

(** When the sum of two finite numbers is infinite, so is the midpoint. *)
Lemma SFmid_overflow (x y : spec_float) :
  SFleb x y = true ->
  SFinfinite (SFadd prec emax x y) && negb (SFinfinite x || SFinfinite y) = true ->
  SFleb x (SFmid x y) && SFleb (SFmid x y) y = false.
Proof.
  intros Hle [Hinf Hfin]%andb_prop. unfold SFmid.
  destruct (SFadd prec emax x y) as [|s| |]; try discriminate.
  destruct x as [[]|[]| |[] ma ea], y as [[]|[]| |[] mb eb], s; try discriminate; reflexivity.
Qed.

(** *** Numbers of either sign *)

Lemma SFopp_involutive (x : spec_float) : SFopp (SFopp x) = x.
Proof. destruct x as [[]|[]| |[] m e]; reflexivity. Qed.

Lemma SFval_opp (u : Z) (x : spec_float) : SFval u (SFopp x) = - SFval u x.
Proof. destruct x as [[]|[]| |[] m e]; cbn [SFopp SFval negb cond_Zopp]; lia. Qed.

Lemma SFfinite_opp (x : spec_float) : SFfinite (SFopp x) = SFfinite x.
Proof. destruct x as [[]|[]| |[] m e]; reflexivity. Qed.

Lemma valid_opp (x : spec_float) : valid_binary (SFopp x) = valid_binary x.
Proof. destruct x as [[]|[]| |[] m e]; reflexivity. Qed.

Lemma rounds_opp (u X : Z) (r : spec_float) : rounds u X r -> rounds u (- X) (SFopp r).
Proof.
  intros [s H0 ->|Hpos H|Hneg H].
  - apply (rounds_zero _ _ _ (negb s)); [lia|reflexivity].
  - apply rounds_neg; [lia|]. rewrite SFopp_involutive, Z.opp_involutive. exact H.
  - apply rounds_pos; [lia|exact H].
Qed.

Lemma SFleb_opp (x y : spec_float) : SFleb (SFopp x) (SFopp y) = SFleb y x.
Proof.
  unfold SFleb.
  destruct x as [[]|[]| |[] m1 e1], y as [[]|[]| |[] m2 e2]; try reflexivity;
    cbn [SFopp negb SFcompare];
    rewrite (Z.compare_antisym e1 e2);
    change (PosDef.Pos.compare_cont Eq ?a ?b) with (Pos.compare a b);
    rewrite (Pos.compare_antisym m1 m2);
    destruct (e1 ?= e2), (m1 ?= m2)%positive; reflexivity.
Qed.

Lemma scaled_units (u k : Z) (m : positive) (e : Z) :
  u <= e -> 0 <= k -> scaled (u - k) m e = scaled u m e * 2 ^ k.
Proof.
  intros. unfold scaled. rewrite <- Z.mul_assoc, <- pow2_split by lia. do 2 f_equal. lia.
Qed.

Lemma SFval_units (u k : Z) (x : spec_float) :
  valid_binary x = true -> u <= -1074 -> 0 <= k -> SFval (u - k) x = SFval u x * 2 ^ k.
Proof.
  intros V Hu Hk. destruct x as [s|s| |s m e]; try reflexivity.
  apply valid_finite in V as [Hc _]. pose proof (canonical_min _ _ Hc).
  cbn [SFval]. rewrite scaled_units by lia. destruct s; cbn [cond_Zopp]; lia.
Qed.

(** Order and values agree. *)
Lemma SFleb_val (u : Z) (x y : spec_float) :
  valid_binary x = true -> valid_binary y = true ->
  SFfinite x = true -> SFfinite y = true -> u <= -1074 ->
  (SFleb x y = true <-> SFval u x <= SFval u y).
Proof.
  intros Vx Vy Fx Fy Hu.
  destruct x as [sx|sx| |sx mx ex], y as [sy|sy| |sy my ey]; try discriminate.
  - cbn. split; [lia|reflexivity].
  - apply valid_finite in Vy as [Hy _]. pose proof (canonical_min _ _ Hy).
    pose proof (scaled_pos u my ey ltac:(lia)).
    destruct sy; unfold SFleb; cbn [SFval cond_Zopp SFcompare];
      split; intros; try lia; try discriminate; reflexivity.
  - apply valid_finite in Vx as [Hx _]. pose proof (canonical_min _ _ Hx).
    pose proof (scaled_pos u mx ex ltac:(lia)).
    destruct sx; unfold SFleb; cbn [SFval cond_Zopp SFcompare];
      split; intros; try lia; try discriminate; reflexivity.
  - apply valid_finite in Vx as [Hx _], Vy as [Hy _].
    pose proof (canonical_min _ _ Hx). pose proof (canonical_min _ _ Hy).
    pose proof (scaled_pos u mx ex ltac:(lia)). pose proof (scaled_pos u my ey ltac:(lia)).
    destruct sx, sy.
    + rewrite (SFleb_scaled true mx my ex ey u) by (assumption || lia).
      cbn [SFval cond_Zopp]. lia.
    + cbn [SFval cond_Zopp]. split; [lia|reflexivity].
    + cbn [SFval cond_Zopp]. split; [discriminate|lia].
    + rewrite (SFleb_scaled false mx my ex ey u) by (assumption || lia).
      cbn [SFval cond_Zopp]. lia.
Qed.

(** A number of the format is its own rounding. *)
Lemma rounds_self (u : Z) (x : spec_float) :
  valid_binary x = true -> SFfinite x = true -> u <= -1074 -> rounds u (SFval u x) x.
Proof.
  intros V F Hu. destruct x as [s|s| |s m e]; try discriminate.
  - now apply (rounds_zero _ _ _ s).
  - apply valid_finite in V as [Hc Hmax]. pose proof (canonical_min _ _ Hc) as Hmin.
    pose proof (scaled_pos u m e ltac:(lia)) as Hpos.
    assert (rounds_to u (scaled u m e) (S754_finite false m e)) as H.
    { apply (rounds_to_intro _ _ _ (Zpos m) e (Zpos m)); try lia.
      - unfold scaled. pose proof (pow2_pos (e - u) ltac:(lia)). lia.
      - intros _. exact Hc.
      - right. exists m, e. split; [exact Hc|]. split; [reflexivity|].
        apply Z.leb_le in Hmax. now rewrite Hmax. }
    destruct s; cbn [SFval cond_Zopp].
    + apply rounds_neg; [lia|]. rewrite Z.opp_involutive. exact H.
    + apply rounds_pos; [lia|exact H].
Qed.

(** What rounding gives is a number of the format. *)
Lemma rounds_to_valid (u X : Z) (r : spec_float) : rounds_to u X r -> valid_binary r = true.
Proof.
  intros [m' e' mr _ _ _ _ _ _ [[_ ->]|(m & e & Hc & _ & ->)]]; [reflexivity|].
  destruct (Z.leb_spec e 971); [|reflexivity].
  cbn [SpecFloat.valid_binary]. unfold bounded, canonical_mantissa.
  apply andb_true_intro. split; [apply Z.eqb_eq; exact Hc|apply Z.leb_le; assumption].
Qed.

Lemma rounds_valid (u X : Z) (r : spec_float) : rounds u X r -> valid_binary r = true.
Proof.
  intros [s _ ->|_ H|_ H]; [reflexivity|now apply rounds_to_valid in H|].
  apply rounds_to_valid in H. now rewrite valid_opp in H.
Qed.

(** Rounding is monotone: below a number of the format. *)
Lemma rounds_upper (u X : Z) (r b : spec_float) :
  rounds u X r -> valid_binary b = true -> SFfinite b = true -> u <= -1074 ->
  X <= SFval u b -> SFleb r b = true.
Proof.
  intros Hr Vb Fb Hu HX. destruct b as [sb|sb| |sb mb eb]; try discriminate.
  - cbn [SFval] in HX. destruct Hr as [s _ ->|Hpos H|Hneg H]; [reflexivity|lia|].
    destruct H as [m' e' mr _ _ _ _ _ _ [[_ E]|(m & e & _ & _ & E)]];
      destruct r as [[]|[]| |[] mr' er']; try discriminate; try reflexivity;
      cbn [SFopp negb] in E; destruct (e <=? 971); discriminate.
  - apply valid_finite in Vb as [Hb Hbmax]. pose proof (canonical_min _ _ Hb) as Hbmin.
    pose proof (scaled_pos u mb eb ltac:(lia)) as Hbpos.
    cbn [SFval] in HX. destruct Hr as [s H0 ->|Hpos H|Hneg H].
    + destruct sb; cbn [cond_Zopp] in HX; [lia|reflexivity].
    + destruct sb; cbn [cond_Zopp] in HX; [lia|].
      destruct (rounds_to_upper u X r mb eb H Hb ltac:(lia) HX)
        as [->|[(m & e & -> & Hm & Hmax & Hle)|[_ ?]]]; [reflexivity| |lia].
      pose proof (canonical_min _ _ Hm).
      apply (SFleb_scaled false m mb e eb u); (assumption || lia).
    + destruct sb; cbn [cond_Zopp] in HX.
      * destruct (rounds_to_lower u (- X) (SFopp r) mb eb H Hb ltac:(lia) ltac:(lia))
          as [E|(m & e & E & Hm & Hmax & Hle)].
        -- destruct r as [[]|[]| |[] mr' er']; try discriminate; reflexivity.
        -- destruct r as [[]|[]| |[] mr' er']; try discriminate.
           injection E as <- <-. pose proof (canonical_min _ _ Hm).
           apply (SFleb_scaled true mr' mb er' eb u); (assumption || lia).
      * destruct H as [m' e' mr _ _ _ _ _ _ [[_ E]|(m & e & _ & _ & E)]];
          destruct r as [[]|[]| |[] mr' er']; try discriminate; try reflexivity;
          cbn [SFopp negb] in E; destruct (e <=? 971); discriminate.
Qed.

(** Rounding is monotone: above a number of the format. *)
Lemma rounds_lower (u X : Z) (r a : spec_float) :
  rounds u X r -> valid_binary a = true -> SFfinite a = true -> u <= -1074 ->
  SFval u a <= X -> SFleb a r = true.
Proof.
  intros Hr Va Fa Hu HX. rewrite <- SFleb_opp.
  apply (rounds_upper u (- X)); [now apply rounds_opp|now rewrite valid_opp|
    now rewrite SFfinite_opp|exact Hu|rewrite SFval_opp; lia].
Qed.

(** *** Sums, differences and products *)

Lemma binary_round_opp (m : positive) (e : Z) :
  binary_round prec emax true m e = SFopp (binary_round prec emax false m e).
Proof.
  unfold binary_round. destruct (shl_align _ _ _) as [mz ez]. apply binary_round_aux_opp.
Qed.

Lemma binary_normalize_rounds (z e u : Z) :
  u <= e -> u <= -1074 ->
  rounds u (z * 2 ^ (e - u)) (binary_normalize prec emax z e false).
Proof.
  intros Hu Hmin. pose proof (pow2_pos (e - u) ltac:(lia)) as Hp.
  destruct z as [|m|m]; cbn [binary_normalize].
  - now apply (rounds_zero _ _ _ false).
  - apply rounds_pos; [lia|]. now apply binary_round_rounds.
  - apply rounds_neg; [lia|]. rewrite binary_round_opp, SFopp_involutive.
    replace (- (Zneg m * 2 ^ (e - u))) with (Zpos m * 2 ^ (e - u)) by lia.
    now apply binary_round_rounds.
Qed.

Lemma aligned_value (s : bool) (m : positive) (e ez u : Z) :
  u <= ez -> ez <= e ->
  cond_Zopp s (Zpos (fst (shl_align m e ez))) * 2 ^ (ez - u) = cond_Zopp s (scaled u m e).
Proof.
  intros Hu He. pose proof (shl_align_spec m e ez) as [_ Hm].
  rewrite Z.min_r in Hm by lia. rewrite Hm. unfold scaled.
  assert (Zpos m * 2 ^ (e - ez) * 2 ^ (ez - u) = Zpos m * 2 ^ (e - u)) as E.
  { rewrite <- Z.mul_assoc, <- pow2_split by lia. do 2 f_equal. lia. }
  destruct s; cbn [cond_Zopp]; lia.
Qed.

(** The sum of two numbers of the format is the rounding of their sum. *)
Lemma SFadd_rounds_signed (u : Z) (x y : spec_float) :
  valid_binary x = true -> valid_binary y = true ->
  SFfinite x = true -> SFfinite y = true -> u <= -1074 ->
  rounds u (SFval u x + SFval u y) (SFadd prec emax x y).
Proof.
  intros Vx Vy Fx Fy Hu.
  destruct x as [sx|sx| |sx mx ex], y as [sy|sy| |sy my ey]; try discriminate.
  - cbn [SFval SFadd]. destruct sx, sy; now eapply rounds_zero.
  - change (SFval u (S754_zero sx)) with 0. rewrite Z.add_0_l. now apply rounds_self.
  - change (SFval u (S754_zero sy)) with 0. rewrite Z.add_0_r. now apply rounds_self.
  - apply valid_finite in Vx as [Hx _], Vy as [Hy _].
    pose proof (canonical_min _ _ Hx). pose proof (canonical_min _ _ Hy).
    unfold SFadd. change (IntDef.Z.min ex ey) with (Z.min ex ey). cbn [SFval].
    rewrite <- (aligned_value sx mx ex (Z.min ex ey) u) by lia.
    rewrite <- (aligned_value sy my ey (Z.min ex ey) u) by lia.
    rewrite <- Z.mul_add_distr_r. apply binary_normalize_rounds; lia.
Qed.

Lemma SFsub_add (x y : spec_float) : SFsub prec emax x y = SFadd prec emax x (SFopp y).
Proof.
  destruct x as [[]|[]| |sx mx ex], y as [[]|[]| |sy my ey]; try reflexivity.
  unfold SFsub, SFadd, SFopp. f_equal. destruct sy; cbn [negb cond_Zopp]; lia.
Qed.

(** The difference of two numbers of the format is the rounding of their
    difference. *)
Lemma SFsub_rounds (u : Z) (x y : spec_float) :
  valid_binary x = true -> valid_binary y = true ->
  SFfinite x = true -> SFfinite y = true -> u <= -1074 ->
  rounds u (SFval u x - SFval u y) (SFsub prec emax x y).
Proof.
  intros Vx Vy Fx Fy Hu. rewrite SFsub_add.
  replace (SFval u x - SFval u y) with (SFval u x + SFval u (SFopp y))
    by (rewrite SFval_opp; lia).
  apply SFadd_rounds_signed; try assumption; [now rewrite valid_opp|now rewrite SFfinite_opp].
Qed.

Lemma Zdigits2_mul (a b : Z) :
  0 < a -> 0 < b -> Zdigits2 a + Zdigits2 b - 1 <= Zdigits2 (a * b).
Proof.
  intros Ha Hb. pose proof (Zdigits2_bounds a Ha) as [Ha1 _].
  pose proof (Zdigits2_bounds b Hb) as [Hb1 _].
  pose proof (Zdigits2_pos a Ha). pose proof (Zdigits2_pos b Hb).
  pose proof (Zdigits2_bounds (a * b) ltac:(nia)) as [_ Hab].
  destruct (Z_le_gt_dec (Zdigits2 a + Zdigits2 b - 1) (Zdigits2 (a * b))) as [?|Hgt];
    [assumption|exfalso].
  assert (2 ^ Zdigits2 (a * b) <= 2 ^ (Zdigits2 a - 1 + (Zdigits2 b - 1)))
    by (apply Z.pow_le_mono_r; lia).
  rewrite pow2_split in * by lia.
  pose proof (pow2_pos (Zdigits2 a - 1) ltac:(lia)).
  pose proof (pow2_pos (Zdigits2 b - 1) ltac:(lia)).
  assert (2 ^ (Zdigits2 a - 1) * 2 ^ (Zdigits2 b - 1) <= a * b)
    by (apply Z.mul_le_mono_nonneg; lia).
  lia.
Qed.

Lemma binary_round_aux_sign (s : bool) (m e : Z) (l : location) :
  binary_round_aux prec emax s m e l =
  if s then SFopp (binary_round_aux prec emax false m e l)
  else binary_round_aux prec emax false m e l.
Proof. destruct s; [apply binary_round_aux_opp|reflexivity]. Qed.

(** The product of two numbers of the format is the rounding of their
    product. *)
Lemma SFmul_rounds (u1 u2 : Z) (x y : spec_float) :
  valid_binary x = true -> valid_binary y = true ->
  SFfinite x = true -> SFfinite y = true -> u1 <= -1074 -> u2 <= -1074 ->
  rounds (u1 + u2) (SFval u1 x * SFval u2 y) (SFmul prec emax x y).
Proof.
  intros Vx Vy Fx Fy Hu1 Hu2.
  destruct x as [sx|sx| |sx mx ex], y as [sy|sy| |sy my ey]; try discriminate;
    try (cbn [SFval SFmul]; eapply rounds_zero; [lia|reflexivity]).
  apply valid_finite in Vx as [Hx _], Vy as [Hy _].
  pose proof (canonical_min _ _ Hx) as Hxmin. pose proof (canonical_min _ _ Hy) as Hymin.
  pose proof (canonical_digits _ _ Hx) as [Hdx Hsx].
  pose proof (canonical_digits _ _ Hy) as [Hdy Hsy].
  assert (rounds_to (u1 + u2) (scaled u1 mx ex * scaled u2 my ey)
            (binary_round_aux prec emax false (Zpos (mx * my)) (ex + ey) loc_Exact)) as H.
  { assert (scaled u1 mx ex * scaled u2 my ey
            = Zpos (mx * my) * 2 ^ (ex + ey - (u1 + u2))) as ->.
    { unfold scaled. replace (ex + ey - (u1 + u2)) with (ex - u1 + (ey - u2)) by lia.
      rewrite pow2_split by lia. rewrite Pos2Z.inj_mul. ring. }
    apply binary_round_aux_rounds.
    - lia.
    - lia.
    - pose proof (Zdigits2_mul (Zpos mx) (Zpos my) ltac:(lia) ltac:(lia)) as Hd.
      rewrite <- Pos2Z.inj_mul in Hd. cbn [Zdigits2] in Hd.
      pose proof (digits2_bounds mx) as [_ ?]. pose proof (digits2_bounds my) as [_ ?].
      assert (0 < Zpos (digits2_pos mx)) by lia. assert (0 < Zpos (digits2_pos my)) by lia.
      cbn [Zdigits2]. rewrite fexp64_eq.
      destruct (Z.eq_dec (Zpos (digits2_pos mx)) 53); [lia|].
      destruct (Z.eq_dec (Zpos (digits2_pos my)) 53); [lia|].
      rewrite Hsx, Hsy by lia. lia.
    - pose proof (pow2_pos (ex + ey - (u1 + u2)) ltac:(lia)). lia.
    - split; reflexivity. }
  pose proof (scaled_pos u1 mx ex ltac:(lia)). pose proof (scaled_pos u2 my ey ltac:(lia)).
  unfold SFmul. rewrite binary_round_aux_sign. cbn [SFval].
  destruct sx, sy; cbn [xorb cond_Zopp].
  - apply rounds_pos; [nia|]. replace (- scaled u1 mx ex * - scaled u2 my ey)
      with (scaled u1 mx ex * scaled u2 my ey) by ring. exact H.
  - apply rounds_neg; [nia|]. rewrite SFopp_involutive.
    replace (- (- scaled u1 mx ex * scaled u2 my ey))
      with (scaled u1 mx ex * scaled u2 my ey) by ring. exact H.
  - apply rounds_neg; [nia|]. rewrite SFopp_involutive.
    replace (- (scaled u1 mx ex * - scaled u2 my ey))
      with (scaled u1 mx ex * scaled u2 my ey) by ring. exact H.
  - apply rounds_pos; [nia|exact H].
Qed.

(** *** A sample between two bounds *)

Lemma SFval_umax : SFval (-1074) SFumax = 2 ^ 31 * 2 ^ 1043 - 2 ^ 1043.
Proof. reflexivity. Qed.

Lemma canonical_unique (m1 m2 : positive) (e1 e2 u : Z) :
  canonical m1 e1 -> canonical m2 e2 -> u <= e1 -> u <= e2 ->
  scaled u m1 e1 <= scaled u m2 e2 -> e1 <= e2.
Proof.
  intros H1 H2 Hu1 Hu2 Hle. destruct (Z_le_gt_dec e1 e2) as [?|Hgt]; [assumption|].
  pose proof (canonical_exponent_lt m2 m1 e2 e1 u H2 H1 Hu2 ltac:(lia)) as Hlt.
  fold (scaled u m2 e2) (scaled u m1 e1) in Hlt. lia.
Qed.

(** The rounding [r] of a positive number [X] and a number [dd] of the
    format below [X]: a fraction of [r] is at most [dd]. *)
Lemma rounds_to_floor (X : Z) (r : spec_float) :
  rounds_to (-1074) X r -> SFfinite r = true ->
  exists dd, valid_binary dd = true /\ SFfinite dd = true /\
    0 <= SFval (-1074) dd <= X /\ 0 <= SFval (-1074) r /\
    forall V, 0 <= V <= 2 ^ 31 * 2 ^ 1043 - 2 ^ 1043 ->
      SFval (-1074) r * V <= SFval (-1074) dd * (2 ^ 31 * 2 ^ 1043).
Proof.
  intros [m' e' mr Hm' Hu Hbr Hsub Hcan Hmr Hres] Hfin.
  set (P := 2 ^ (e' - -1074)) in *.
  assert (0 < P) as HP by (apply pow2_pos; lia).
  set (A := 2 ^ 1043). assert (0 < A) as HA by (apply pow2_pos; lia).
  destruct Hres as [[-> ->]|(m & e & Hc & Hval & ->)].
  - exists (S754_zero false). cbn [SFval]. repeat split; try reflexivity; try lia.
  - destruct (Z.leb_spec e 971) as [Hmax|]; [|discriminate].
    pose proof (canonical_min _ _ Hc) as Hmin.
    pose proof (scaled_pos (-1074) m e Hmin) as Hpos.
    fold (scaled (-1074) m e) in Hval. cbn [SFval cond_Zopp].
    destruct Hmr as [->|[-> Hne]].
    + exists (S754_finite false m e). cbn [SFval cond_Zopp].
      split; [|split; [reflexivity|split; [lia|split; [lia|]]]].
      * cbn [SpecFloat.valid_binary]. unfold bounded, canonical_mantissa.
        apply andb_true_intro. split; [apply Z.eqb_eq; exact Hc|apply Z.leb_le; exact Hmax].
      * intros V [HV0 HV]. apply Z.mul_le_mono_nonneg_l; [lia|]. lia.
    + assert (-1074 < e') as He'.
      { destruct (Z.eq_dec e' (-1074)) as [E|]; [|lia]. exfalso.
        subst e'. change P with 1 in *. lia. }
      destruct m' as [|p|p]; [specialize (Hsub eq_refl); lia| |lia].
      specialize (Hcan ltac:(lia)). cbn [Zdigits2] in Hcan.
      assert (Zpos (digits2_pos p) = 53) as Hd by (rewrite fexp64_eq in Hcan; lia).
      pose proof (digits2_bounds p) as [Hp52 _]. rewrite Hd in Hp52.
      change (2 ^ (53 - 1)) with 4503599627370496 in Hp52.
      assert (e' <= e) as Hee.
      { apply (canonical_unique p m e' e (-1074)); [exact Hcan|exact Hc|lia|lia|].
        unfold scaled at 1. fold P. rewrite Hval. clearbody P. nia. }
      exists (S754_finite false p e'). cbn [SFval cond_Zopp].
      change (scaled (-1074) p e') with (Zpos p * P).
      split; [|split; [reflexivity|split; [|split; [lia|]]]].
      * cbn [SpecFloat.valid_binary]. unfold bounded, canonical_mantissa.
        apply andb_true_intro. split; [apply Z.eqb_eq; exact Hcan|apply Z.leb_le; change (e' <= 971); lia].
      * clearbody P. nia.
      * intros V [HV0 HV]. rewrite Hval. change (2 ^ 31) with 2147483648 in *.
        fold A in HV |- *. clearbody P A. clear -HV0 HV HP HA Hp52.
        assert ((Zpos p + 1) * V <= Zpos p * (2147483648 * A)) as Hle by nia.
        replace ((Zpos p + 1) * P * V) with (P * ((Zpos p + 1) * V)) by ring.
        replace (Zpos p * P * (2147483648 * A)) with (P * (Zpos p * (2147483648 * A))) by ring.
        apply Z.mul_le_mono_nonneg_l; lia.
Qed.

Lemma SFsub_finite (x y : spec_float) :
  SFfinite (SFsub prec emax x y) = true -> SFfinite x = true /\ SFfinite y = true.
Proof.
  destruct x as [[]|[]| |sx mx ex], y as [[]|[]| |sy my ey];
    try (split; reflexivity); cbn [SFsub SFfinite negb]; discriminate.
Qed.

(** [(hi - lo) * u + lo] lies between [lo <= hi] when [hi - lo] is finite and
    [0 <= u <= 1 - 2^-31]. *)
Lemma SFsample_between (lo hi uu : spec_float) :
  valid_binary lo = true -> valid_binary hi = true -> valid_binary uu = true ->
  SFleb lo hi = true -> SFfinite (SFsub prec emax hi lo) = true ->
  SFleb (S754_zero false) uu = true -> SFleb uu SFumax = true ->
  SFleb lo (SFsample lo hi uu) = true /\ SFleb (SFsample lo hi uu) hi = true.
Proof.
  intros Vlo Vhi Vu Hle Hfin Hu0 Hu1.
  destruct (SFsub_finite _ _ Hfin) as [Fhi Flo].
  assert (SFfinite uu = true) as Fu
    by (destruct uu as [[]|[]| |[] m e]; try discriminate; reflexivity).
  set (u := -1074) in *. assert (u <= -1074) as Hunit by (unfold u; lia).
  apply (SFleb_val u) in Hle; try assumption.
  apply (SFleb_val u) in Hu0; try assumption; try reflexivity. cbn [SFval] in Hu0.
  apply (SFleb_val u) in Hu1; try assumption; try reflexivity.
  unfold u in Hu1 at 2. rewrite SFval_umax in Hu1.
  pose proof (SFsub_rounds u hi lo Vhi Vlo Fhi Flo Hunit) as Hd.
  set (d := SFsub prec emax hi lo) in *.
  pose proof (rounds_valid _ _ _ Hd) as Vd.
  assert (exists dd, valid_binary dd = true /\ SFfinite dd = true /\
            0 <= SFval u dd <= SFval u hi - SFval u lo /\ 0 <= SFval u d /\
            SFval u d * SFval u uu <= SFval u dd * (2 ^ 31 * 2 ^ 1043))
    as (dd & Vdd & Fdd & Hdd & Hd0 & Hprod).
  { destruct Hd as [s H0 E|Hpos H|Hneg H]; [|
      destruct (rounds_to_floor _ _ H Hfin) as (dd & Hv & Hf & Hb & Hn & Hp);
      exists dd; split; [exact Hv|]; split; [exact Hf|]; split; [exact Hb|];
      split; [exact Hn|]; apply Hp; lia|lia].
    exists (S754_zero false). rewrite E. cbn [SFval]. repeat split; try reflexivity; lia. }
  pose proof (SFmul_rounds u u d uu Vd Vu Hfin Fu Hunit Hunit) as Hp.
  set (p := SFmul prec emax d uu) in *.
  pose proof (rounds_valid _ _ _ Hp) as Vp.
  assert (SFleb p dd = true) as Hpdd.
  { apply (rounds_upper (u + u) _ _ _ Hp Vdd Fdd ltac:(lia)).
    replace (u + u) with (u - 1074) by (unfold u; lia).
    rewrite (SFval_units u 1074 dd Vdd Hunit ltac:(lia)).
    change (2 ^ 1074) with (2 ^ (31 + 1043)). rewrite pow2_split by lia. exact Hprod. }
  assert (SFleb (S754_zero false) p = true) as Hp0.
  { apply (rounds_lower (u + u) _ _ _ Hp); [reflexivity|reflexivity|lia|].
    cbn [SFval]. apply Z.mul_nonneg_nonneg; lia. }
  assert (SFfinite p = true) as Fp.
  { destruct p as [[]|[]| |[] m e]; try reflexivity; try discriminate.
    destruct dd as [[]|[]| |[] m e]; discriminate. }
  apply (SFleb_val u) in Hpdd; try assumption.
  apply (SFleb_val u) in Hp0; try assumption; try reflexivity. cbn [SFval] in Hp0.
  pose proof (SFadd_rounds_signed u p lo Vp Vlo Fp Flo Hunit) as Hr.
  unfold SFsample. fold d. fold p. split.
  - apply (rounds_lower u _ _ _ Hr Vlo Flo Hunit). lia.
  - apply (rounds_upper u _ _ _ Hr Vhi Fhi Hunit). lia.
Qed.

(** *** Integers and their quotients *)

Lemma canonical_inj (m1 m2 : positive) (e1 e2 u : Z) :
  canonical m1 e1 -> canonical m2 e2 -> u <= e1 -> u <= e2 ->
  scaled u m1 e1 = scaled u m2 e2 -> m1 = m2 /\ e1 = e2.
Proof.
  intros H1 H2 Hu1 Hu2 E.
  pose proof (canonical_unique m1 m2 e1 e2 u H1 H2 Hu1 Hu2 ltac:(lia)).
  pose proof (canonical_unique m2 m1 e2 e1 u H2 H1 Hu2 Hu1 ltac:(lia)).
  assert (e1 = e2) as -> by lia. split; [|reflexivity].
  unfold scaled in E. pose proof (pow2_pos (e2 - u) ltac:(lia)).
  apply Z.mul_cancel_r in E; [|lia]. now injection E.
Qed.

(** A rounding of a number of the format is that number. *)
Lemma rounds_exact (u : Z) (r a : spec_float) :
  rounds u (SFval u a) r -> valid_binary a = true -> SFfinite a = true -> u <= -1074 ->
  SFfinite r = true /\ SFval u r = SFval u a.
Proof.
  intros Hr Va Fa Hu. pose proof (rounds_valid _ _ _ Hr) as Vr.
  pose proof (rounds_upper u _ r a Hr Va Fa Hu ltac:(lia)) as Hup.
  pose proof (rounds_lower u _ r a Hr Va Fa Hu ltac:(lia)) as Hlow.
  assert (SFfinite r = true) as Fr.
  { destruct r as [[]|[]| |[] m e]; try reflexivity; try discriminate;
      destruct a as [[]|[]| |[] ma ea]; discriminate. }
  split; [exact Fr|].
  apply (SFleb_val u) in Hup; try assumption. apply (SFleb_val u) in Hlow; try assumption. lia.
Qed.

(** The double that holds a positive integer below [2^53]. *)
Lemma integer_canonical (z : Z) :
  0 < z < 2 ^ 53 ->
  exists m e, canonical m e /\ Zpos (digits2_pos m) = 53 /\ -52 <= e <= 0 /\
    Zpos m = z * 2 ^ (- e).
Proof.
  intros [Hz0 Hz]. pose proof (Zdigits2_bounds z Hz0) as [Hlo Hhi].
  pose proof (Zdigits2_pos z Hz0) as Hd.
  assert (Zdigits2 z <= 53) as Hd53.
  { destruct (Z_le_gt_dec (Zdigits2 z) 53) as [?|Hgt]; [assumption|].
    assert (2 ^ 53 <= 2 ^ (Zdigits2 z - 1)) by (apply Z.pow_le_mono_r; lia). lia. }
  pose proof (pow2_pos (53 - Zdigits2 z) ltac:(lia)) as Hp.
  assert (0 < z * 2 ^ (53 - Zdigits2 z)) as Hm by nia.
  destruct (z * 2 ^ (53 - Zdigits2 z)) as [|m|m] eqn:Em; try lia.
  exists m, (Zdigits2 z - 53).
  assert (Zpos (digits2_pos m) = 53) as Hdm.
  { change (Zpos (digits2_pos m)) with (Zdigits2 (Zpos m)).
    rewrite <- Em, Zdigits2_shift by lia. lia. }
  split; [|split; [exact Hdm|split; [lia|]]].
  - unfold canonical. rewrite Hdm, fexp64_eq. lia.
  - rewrite <- Em. do 2 f_equal. lia.
Qed.

Lemma rounds_integer (z : Z) (r : spec_float) :
  rounds (-1074) (z * 2 ^ 1074) r -> 0 < z < 2 ^ 53 ->
  exists m e, r = S754_finite false m e /\ canonical m e /\ Zpos (digits2_pos m) = 53 /\
    -52 <= e <= 0 /\ Zpos m = z * 2 ^ (- e).
Proof.
  intros Hr Hz. destruct (integer_canonical z Hz) as (m & e & Hc & Hd & He & Hm).
  exists m, e. split; [|auto].
  assert (valid_binary (S754_finite false m e) = true) as Va.
  { cbn [SpecFloat.valid_binary]. unfold bounded, canonical_mantissa.
    apply andb_true_intro. split; [apply Z.eqb_eq; exact Hc|apply Z.leb_le].
    change (e <= 971). lia. }
  assert (SFval (-1074) (S754_finite false m e) = z * 2 ^ 1074) as Ea.
  { cbn [SFval cond_Zopp]. unfold scaled. rewrite Hm, <- Z.mul_assoc, <- pow2_split by lia.
    do 2 f_equal. lia. }
  rewrite <- Ea in Hr.
  destruct (rounds_exact (-1074) r _ Hr Va eq_refl ltac:(lia)) as [Fr Ev].
  pose proof (rounds_valid _ _ _ Hr) as Vr.
  pose proof (scaled_pos (-1074) m e ltac:(lia)) as Hpos.
  cbn [SFval cond_Zopp] in Ev.
  destruct r as [s|s| |s mr er]; try discriminate; cbn [SFval] in Ev; [lia|].
  apply valid_finite in Vr as [Hcr _]. pose proof (canonical_min _ _ Hcr).
  pose proof (scaled_pos (-1074) mr er ltac:(lia)).
  destruct s; cbn [cond_Zopp] in Ev; [lia|].
  destruct (canonical_inj mr m er e (-1074) Hcr Hc ltac:(lia) ltac:(lia) Ev) as [-> ->].
  reflexivity.
Qed.

Lemma SFofZ_positive (z : Z) :
  0 < z < 2 ^ 53 ->
  exists m e, SFofZ z = S754_finite false m e /\ canonical m e /\
    Zpos (digits2_pos m) = 53 /\ -52 <= e <= 0 /\ Zpos m = z * 2 ^ (- e).
Proof.
  intros Hz. apply rounds_integer; [|exact Hz].
  apply (binary_normalize_rounds z 0 (-1074)); lia.
Qed.

Lemma new_location_exact (n k : Z) : new_location n k = loc_Exact <-> k = 0.
Proof.
  unfold new_location, new_location_even, new_location_odd.
  destruct (IntDef.Z.even n), (Z.eqb_spec k 0); split; intros; try assumption;
    try reflexivity; try discriminate; lia.
Qed.

(** The quotient of two normal numbers is at most a number [b] of the format
    that their exact quotient is at most. *)
Lemma SFdiv_upper (m1 m2 mb : positive) (e1 e2 eb : Z) :
  canonical m1 e1 -> canonical m2 e2 -> canonical mb eb -> eb <= 971 ->
  Zpos (digits2_pos m1) = 53 -> Zpos (digits2_pos m2) = 53 ->
  -1074 <= e1 - e2 - 53 ->
  Zpos m1 * 2 ^ 53 * 2 ^ (e1 - e2 - 53 - -1075) <= scaled (-1075) mb eb * Zpos m2 ->
  SFleb (S754_zero false)
        (SFdiv prec emax (S754_finite false m1 e1) (S754_finite false m2 e2)) = true /\
  SFleb (SFdiv prec emax (S754_finite false m1 e1) (S754_finite false m2 e2))
        (S754_finite false mb eb) = true.
Proof.
  intros H1 H2 Hb Hbmax Hd1 Hd2 He HB.
  pose proof (canonical_min _ _ Hb) as Hbmin.
  pose proof (digits2_bounds m1) as [Hm1 _]. pose proof (digits2_bounds m2) as [Hm2 Hm2'].
  rewrite Hd1 in Hm1. rewrite Hd2 in Hm2, Hm2'.
  change (2 ^ (53 - 1)) with 4503599627370496 in *.
  change (2 ^ 53) with 9007199254740992 in *.
  unfold SFdiv, SFdiv_core_binary. cbv zeta. cbn [xorb Zdigits2]. rewrite Hd1, Hd2.
  fold (fexp64 (53 + e1 - (53 + e2))).
  change (IntDef.Z.min ?a ?b) with (Z.min a b).
  assert (Z.min (fexp64 (53 + e1 - (53 + e2))) (e1 - e2) = e1 - e2 - 53) as ->
    by (rewrite fexp64_eq; lia).
  replace (e1 - e2 - (e1 - e2 - 53)) with 53 by lia.
  change (IntDef.Z.shiftl (Zpos m1) 53) with (Z.shiftl (Zpos m1) 53).
  rewrite Z.shiftl_mul_pow2 by lia. change (2 ^ 53) with 9007199254740992.
  change (IntDef.Z.div_eucl ?a ?b) with (Z.div_eucl a b).
  pose proof (Z_div_mod (Zpos m1 * 9007199254740992) (Zpos m2) ltac:(lia)) as Hdiv.
  destruct (Z.div_eucl _ _) as [q r]. destruct Hdiv as [Hqr Hr].
  set (e' := e1 - e2 - 53) in *. set (P := 2 ^ (e' - -1075)) in *.
  assert (2 <= P) as HP.
  { unfold P. replace (e' - -1075) with (Z.succ (e' + 1074)) by lia.
    rewrite Z.pow_succ_r by lia. pose proof (pow2_pos (e' + 1074) ltac:(lia)). lia. }
  assert (4503599627370496 <= q) as Hq by nia.
  set (X := if r =? 0 then q * P else q * P + 1).
  assert (X <= scaled (-1075) mb eb) as HX.
  { unfold X. clearbody P. destruct (Z.eqb_spec r 0) as [->|Hne].
    - rewrite Hqr, Z.add_0_r in HB.
      replace (Zpos m2 * q * P) with (q * P * Zpos m2) in HB by ring.
      apply Z.mul_le_mono_pos_r in HB; lia.
    - assert (q * P * Zpos m2 < scaled (-1075) mb eb * Zpos m2) as Hlt by nia.
      apply Z.mul_lt_mono_pos_r in Hlt; lia. }
  assert (rounds_to (-1075) X
            (binary_round_aux prec emax false q e' (new_location (Zpos m2) r))) as Hround.
  { apply binary_round_aux_rounds.
    - lia.
    - lia.
    - assert (53 <= Zdigits2 q); [|rewrite fexp64_eq; lia].
      pose proof (Zdigits2_bounds q ltac:(lia)) as [_ Hup].
      destruct (Z_lt_le_dec (Zdigits2 q) 53) as [Hlt|?]; [|assumption].
      assert (2 ^ Zdigits2 q <= 2 ^ 52) by (apply Z.pow_le_mono_r; lia).
      change (2 ^ 52) with 4503599627370496 in *. lia.
    - fold P. unfold X. destruct (r =? 0); lia.
    - fold P. rewrite new_location_exact. unfold X.
      destruct (Z.eqb_spec r 0); split; intros; lia. }
  destruct (rounds_to_upper _ _ _ mb eb Hround Hb ltac:(lia) HX)
    as [->|[(m & e & -> & Hm & Hmax & Hle)|[_ ?]]]; [split; reflexivity| |lia].
  pose proof (canonical_min _ _ Hm). split; [reflexivity|].
  apply (SFleb_scaled false m mb e eb (-1075)); (assumption || lia).
Qed.

Lemma SFfraction_range (r R : Z) :
  0 <= r <= R -> R < 2 ^ 31 ->
  SFleb (S754_zero false) (SFfraction r R) = true /\ SFleb (SFfraction r R) SFumax = true.
Proof.
  intros Hr HR. change (2 ^ 31) with 2147483648 in HR. unfold SFfraction.
  set (one := S754_finite false 4503599627370496 (-52)).
  assert (rounds (-1074) ((R + 1) * 2 ^ 1074) (SFadd prec emax (SFofZ R) one)) as Hsum.
  { assert (rounds (-1074) (R * 2 ^ 1074) (SFofZ R)) as HRr
      by (apply (binary_normalize_rounds R 0 (-1074)); lia).
    assert (SFfinite (SFofZ R) = true /\ SFval (-1074) (SFofZ R) = R * 2 ^ 1074) as [FR ER].
    { destruct (Z.eq_dec R 0) as [->|Hne]; [split; reflexivity|].
      destruct (rounds_integer R _ HRr) as (m & e & -> & Hc & _ & He & Hm).
      { change (2 ^ 53) with 9007199254740992. lia. }
      split; [reflexivity|]. cbn [SFval cond_Zopp]. unfold scaled.
      rewrite Hm, <- Z.mul_assoc, <- pow2_split by lia. do 2 f_equal. lia. }
    replace ((R + 1) * 2 ^ 1074) with (SFval (-1074) (SFofZ R) + SFval (-1074) one)
      by (rewrite ER; change (SFval (-1074) one) with (2 ^ 1074); ring).
    apply SFadd_rounds_signed;
      [exact (rounds_valid _ _ _ HRr)|reflexivity|exact FR|reflexivity|lia]. }
  destruct (rounds_integer (R + 1) _ Hsum) as (m2 & e2 & -> & H2 & Hd2 & He2 & Hm2).
  { change (2 ^ 53) with 9007199254740992. lia. }
  destruct (Z.eq_dec r 0) as [->|Hne]; [split; reflexivity|].
  destruct (SFofZ_positive r) as (m1 & e1 & -> & H1 & Hd1 & He1 & Hm1).
  { change (2 ^ 53) with 9007199254740992. lia. }
  apply SFdiv_upper; [exact H1|exact H2|reflexivity|lia|exact Hd1|exact Hd2|lia|].
  change (scaled (-1075) 9007199250546688 (-53)) with ((2 ^ 31 - 1) * (2 ^ 53 * 2 ^ 991)).
  assert (2 ^ (- e1) * 2 ^ (e1 - e2 - 53 - -1075) = 2 ^ 31 * 2 ^ 991 * 2 ^ (- e2)) as E.
  { change (2 ^ 31 * 2 ^ 991) with (2 ^ 1022). rewrite <- !pow2_split by lia. f_equal. lia. }
  rewrite Hm1, Hm2.
  replace (r * 2 ^ (- e1) * 2 ^ 53 * 2 ^ (e1 - e2 - 53 - -1075))
    with (r * 2 ^ 53 * (2 ^ (- e1) * 2 ^ (e1 - e2 - 53 - -1075))) by ring.
  rewrite E.
  replace (r * 2 ^ 53 * (2 ^ 31 * 2 ^ 991 * 2 ^ (- e2)))
    with (r * 2 ^ 31 * (2 ^ 53 * 2 ^ 991 * 2 ^ (- e2))) by ring.
  replace ((2 ^ 31 - 1) * (2 ^ 53 * 2 ^ 991) * ((R + 1) * 2 ^ (- e2)))
    with ((2 ^ 31 - 1) * (R + 1) * (2 ^ 53 * 2 ^ 991 * 2 ^ (- e2))) by ring.
  apply Z.mul_le_mono_nonneg_r.
  - pose proof (pow2_pos 53 ltac:(lia)). pose proof (pow2_pos 991 ltac:(lia)).
    pose proof (pow2_pos (- e2) ltac:(lia)).
    apply Z.lt_le_incl. repeat apply Z.mul_pos_pos; assumption.
  - change (2 ^ 31) with 2147483648. lia.
Qed.

End Binary64.

(** *** The midpoint and the sample in the arithmetic of C *)

Lemma is_infinity_spec (x : float) : is_infinity x = SFinfinite (Prim2SF x).
Proof.
  unfold is_infinity. rewrite FloatAxioms.eqb_spec, FloatAxioms.abs_spec.
  change (Prim2SF infinity) with (S754_infinity false).
  now destruct (Prim2SF x) as [[]|[]| |[] m e].
Qed.

Lemma is_finite_spec (x : float) : is_finite x = SFfinite (Prim2SF x).
Proof.
  unfold is_finite, is_nan. rewrite is_infinity_spec, FloatAxioms.eqb_spec. unfold SFeqb.
  destruct (SFcompare_diag (Prim2SF x)) as [E|E]; rewrite E;
    destruct (Prim2SF x) as [[]|[]| |[] m e]; try reflexivity; discriminate.
Qed.

Lemma midpoint_spec (lo hi : float) :
  Prim2SF ((lo + hi) / 2) = SFmid (Prim2SF lo) (Prim2SF hi).
Proof. rewrite FloatAxioms.div_spec, FloatAxioms.add_spec. reflexivity. Qed.

(** [(lo + hi) / 2.0] lies between [lo <= hi] when 0 does not, unless the
    sum overflows. *)
Lemma midpoint_between (lo hi : float) :
  dle lo hi = true → dle lo 0 && dge hi 0 = false → sum_overflows lo hi = false →
  dle lo ((lo + hi) / 2) = true ∧ dle ((lo + hi) / 2) hi = true.
Proof.
  unfold dle, dge, sum_overflows.
  rewrite !FloatAxioms.leb_spec, !is_infinity_spec, midpoint_spec, FloatAxioms.add_spec.
  change (Prim2SF 0) with (S754_zero false).
  apply SFmid_between; apply Prim2SF_valid.
Qed.

(** When the sum overflows the midpoint is infinite, and outside the bounds. *)
Lemma midpoint_overflow (lo hi : float) :
  dle lo hi = true → sum_overflows lo hi = true →
  dle lo ((lo + hi) / 2) && dle ((lo + hi) / 2) hi = false.
Proof.
  unfold dle, sum_overflows.
  rewrite !FloatAxioms.leb_spec, !is_infinity_spec, midpoint_spec, FloatAxioms.add_spec.
  apply SFmid_overflow.
Qed.

Lemma sample_spec (lo hi u : float) :
  Prim2SF (sample lo hi u) = SFsample (Prim2SF lo) (Prim2SF hi) (Prim2SF u).
Proof.
  unfold sample.
  rewrite FloatAxioms.add_spec, FloatAxioms.mul_spec, FloatAxioms.sub_spec. reflexivity.
Qed.

Lemma double_of_int_spec (z : Z) :
  (0 ≤ z < 2 ^ 31)%Z → Prim2SF (double_of_int z) = SFofZ z.
Proof.
  intros Hz. unfold double_of_int. destruct (Z.ltb_spec z 0) as [?|_]; [lia|].
  rewrite FloatAxioms.of_uint63_spec, Uint63.of_Z_spec. unfold SFofZ. f_equal.
  apply Z.mod_small. change Uint63.wB with (2 ^ 63)%Z.
  change (2 ^ 31)%Z with 2147483648%Z in Hz. change (2 ^ 63)%Z with 9223372036854775808%Z. lia.
Qed.

Lemma fraction_spec (rand_r : N → Z * N) (RAND_MAX : Z) (seed : N) :
  rand_r_ok rand_r RAND_MAX →
  Prim2SF (fraction rand_r RAND_MAX seed) = SFfraction (rand_r seed).1 RAND_MAX.
Proof.
  intros [HR Hr]. specialize (Hr seed). unfold fraction, SFfraction.
  rewrite FloatAxioms.div_spec, FloatAxioms.add_spec, !double_of_int_spec by lia.
  reflexivity.
Qed.

(** Two finite bounds of which the upper one is not below the lower one. *)
Lemma finite_ordered (lo hi : float) :
  is_finite (hi - lo) = true → dlt hi lo = false → dle lo hi = true.
Proof.
  unfold dlt, dle. rewrite is_finite_spec, FloatAxioms.sub_spec, ltb_spec, leb_spec.
  intros [Fhi Flo]%SFsub_finite. unfold SFltb, SFleb.
  rewrite (SFcompare_swap (Prim2SF lo) (Prim2SF hi)).
  destruct (Prim2SF lo) as [[]|[]| |[] m1 e1], (Prim2SF hi) as [[]|[]| |[] m2 e2];
    try discriminate; try reflexivity;
    destruct (SFcompare _ _) as [[]|] eqn:E; try reflexivity; try discriminate;
    cbn in E; destruct (e1 ?= e2)%Z; discriminate.
Qed.

(** The sample [(hi - lo) * u + lo] that [randomParams] draws for finite
    bounds [lo <= hi] lies within the bounds. *)
Lemma sample_within (rand_r : N → Z * N) (RAND_MAX : Z) (seed : N) (lo hi : float) :
  rand_r_ok rand_r RAND_MAX →
  is_finite (hi - lo) = true → dlt hi lo = false →
  dle lo (sample lo hi (fraction rand_r RAND_MAX seed)) = true ∧
  dle (sample lo hi (fraction rand_r RAND_MAX seed)) hi = true.
Proof.
  intros Hok Hfin Hord. pose proof (finite_ordered lo hi Hfin Hord) as Hle.
  pose proof (fraction_spec rand_r RAND_MAX seed Hok) as Hu.
  destruct Hok as [HR Hr]. specialize (Hr seed).
  destruct (SFfraction_range (rand_r seed).1 RAND_MAX Hr HR) as [Hu0 Hu1].
  rewrite <- Hu in Hu0, Hu1.
  unfold dle in *. rewrite FloatAxioms.leb_spec in Hle.
  rewrite is_finite_spec, FloatAxioms.sub_spec in Hfin.
  rewrite !FloatAxioms.leb_spec, !sample_spec.
  apply SFsample_between; auto using Prim2SF_valid.
Qed.



(** ** Random parameters within the bounds *)

Lemma within_at_check s j : within_at s j → checkBounds_at s j = Some true.
Proof.
  intros (p & lo & hi & Hp & Hlo & Hhi & Hl & Hu).
  apply checkBounds_at_true. exists p, lo, hi. do 3 (split; [assumption|]).
  split; [exact (dle_not_dlt _ _ Hu)|exact (dle_not_dlt _ _ Hl)].
Qed.

Lemma SFcompare_None (x y : spec_float) :
  SFcompare x y = None → x = S754_nan ∨ y = S754_nan.
Proof.
  destruct x as [[]|[]| |[] m1 e1], y as [[]|[]| |[] m2 e2]; cbn; try discriminate; auto.
Qed.

(** What the two comparisons of [checkBounds] give for a component that is
    not NaN, when its bounds are ordered with [<=]: it lies within them. *)
Lemma check_within (p lo hi : float) :
  dgt p hi = false → dlt p lo = false → dle lo hi = true → is_nan p = false →
  dle lo p = true ∧ dle p hi = true.
Proof.
  unfold dgt, dlt, dle, is_nan.
  rewrite FloatAxioms.eqb_spec, !FloatAxioms.ltb_spec, !FloatAxioms.leb_spec.
  unfold SFeqb, SFltb, SFleb. intros H1 H2 H3 H4.
  assert (Prim2SF p ≠ S754_nan) as Hp by (intros E; rewrite E in H4; discriminate).
  assert (Prim2SF lo ≠ S754_nan) as Hlo by (intros E; rewrite E in H3; discriminate).
  assert (Prim2SF hi ≠ S754_nan) as Hhi.
  { intros E. rewrite E in H3. now destruct (Prim2SF lo) as [[]|[]| |[] m e]. }
  split.
  - rewrite (SFcompare_swap (Prim2SF p) (Prim2SF lo)).
    destruct (SFcompare (Prim2SF p) (Prim2SF lo)) as [[]|] eqn:E; try reflexivity;
      [discriminate|]. now destruct (SFcompare_None _ _ E).
  - rewrite (SFcompare_swap (Prim2SF p) (Prim2SF hi)) in H1.
    destruct (SFcompare (Prim2SF p) (Prim2SF hi)) as [[]|] eqn:E; try reflexivity;
      [discriminate|]. now destruct (SFcompare_None _ _ E).
Qed.

(** A component that [checkBounds] accepts is NaN or, when its bounds are
    ordered with [<=], within them. *)
Lemma checked_within s i p lo hi :
  state_ok s → checkBounds_at s i = Some true → params_ s !! i = Some p →
  getStateBounds (owner_ s) !! (2 * i) = Some lo →
  getStateBounds (owner_ s) !! (2 * i + 1) = Some hi →
  dle lo hi = true →
  is_nan p = true ∨ (dle lo p = true ∧ dle p hi = true).
Proof.
  intros [Hm Hlen _] (p' & lo' & hi' & Hp' & Hhi' & Hlo' & H1 & H2)%checkBounds_at_true
    Hp Hlo Hhi Hle.
  assert (i < getDimension (owner_ s)) as Hi by (apply lookup_lt_Some in Hp; lia).
  destruct (bounds_at _ i Hm Hi) as (lo'' & hi'' & ? & ? & ? & ?).
  assert (p' = p) as -> by congruence.
  assert (lo' = lo) as -> by congruence. assert (hi' = hi) as -> by congruence.
  destruct (is_nan p) eqn:E; [now left|right]. now apply check_within.
Qed.

Lemma within_at_bounds s i p lo hi :
  state_ok s → within_at s i → params_ s !! i = Some p →
  getStateBounds (owner_ s) !! (2 * i) = Some lo →
  getStateBounds (owner_ s) !! (2 * i + 1) = Some hi →
  dle lo p = true ∧ dle p hi = true.
Proof.
  intros [Hm Hlen _] (p' & lo' & hi' & Hp' & Hlo' & Hhi' & H1 & H2) Hp Hlo Hhi.
  assert (i < getDimension (owner_ s)) as Hi by (apply lookup_lt_Some in Hp; lia).
  destruct (bounds_at _ i Hm Hi) as (lo'' & hi'' & ? & ? & ? & ?).
  assert (p' = p) as -> by congruence.
  assert (lo' = lo) as -> by congruence. assert (hi' = hi) as -> by congruence. auto.
Qed.

Section RandomWithin.

Variable rand_r : N → Z * N.
Variable RAND_MAX : Z.
Hypothesis rand_r_range : rand_r_ok rand_r RAND_MAX.

Variable m : KinematicModel.
Hypothesis bounds_are_ordered : bounds_ordered m.
Hypothesis bounds_are_finite : bounds_finite m.

Lemma randomParams_at_within j s s' :
  state_of m s → j < getDimension m →
  randomParams_at rand_r RAND_MAX j s = Some s' → within_at s' j.
Proof.
  intros [Hs Ho] Hj (lo & hi & Hlo & Hhi & Hjp & Hju & ->)%randomParams_at_Some.
  destruct Hs as [Hm _ _]. rewrite Ho in *.
  destruct (bounds_at m j Hm Hj) as (lo' & hi' & Hlo' & Hhi' & H1 & H2).
  assert (lo' = lo) as -> by congruence. assert (hi' = hi) as -> by congruence.
  destruct (sample_within rand_r RAND_MAX (randSeed_ s) lo hi rand_r_range
              (bounds_are_finite j lo hi H1 H2) (bounds_are_ordered j lo hi H1 H2)) as [Hl Hu].
  eexists _, lo, hi. cbn.
  split; [now apply list_lookup_insert_eq|]. auto.
Qed.

Lemma randomParams_at_keeps x y s s' :
  state_of m s → x < getDimension m →
  randomParams_at rand_r RAND_MAX x s = Some s' →
  within_at s y → within_at s' y.
Proof.
  intros Hs Hx Hrun Hy. destruct (decide (x = y)) as [<-|Hne].
  - exact (randomParams_at_within x s s' Hs Hx Hrun).
  - apply randomParams_at_Some in Hrun as (lo & hi & _ & _ & _ & _ & ->).
    destruct Hy as (p & lo' & hi' & Hp & Hlo & Hhi & H1 & H2).
    exists p, lo', hi'. cbn.
    rewrite list_lookup_insert_ne by exact Hne. auto.
Qed.

Lemma randomParams_fold_within js :
  Forall (λ j, j < getDimension m) js →
  ∀ s t, state_of m s → fold_opt (randomParams_at rand_r RAND_MAX) js s = Some t →
    ∀ j, j ∈ js → within_at t j.
Proof.
  induction 1 as [|x xs Hx Hxs IH]; intros s t Hs Hrun j Hj; [inversion Hj|].
  cbn in Hrun.
  destruct (randomParams_at_defined rand_r RAND_MAX m x s Hs Hx) as (s1 & E1 & Hs1).
  rewrite E1 in Hrun. cbn in Hrun.
  apply elem_of_cons in Hj as [->|Hj]; [|eapply IH; eauto].
  assert (state_of m t ∧ within_at t x) as [_ Ht]; [|exact Ht].
  apply (fold_opt_preserves (randomParams_at rand_r RAND_MAX)
           (λ u, state_of m u ∧ within_at u x) xs s1 t); [|exact Hrun|].
  - intros y u u' Hy Hstep [Hu Hc].
    assert (y < getDimension m) as Hlt by (eapply Forall_forall in Hxs; eauto).
    destruct (randomParams_at_defined rand_r RAND_MAX m y u Hu Hlt) as (u1 & E & Hu1).
    assert (u1 = u') as -> by congruence.
    split; [exact Hu1|]. exact (randomParams_at_keeps y x u u' Hu Hlt Hstep Hc).
  - split; [exact Hs1|]. exact (randomParams_at_within x s s1 Hs Hx E1).
Qed.

Lemma randomParams_within s :
  state_of m s →
  ∃ t, randomParams rand_r RAND_MAX s = Some t ∧ state_of m t ∧
    checkBounds t = Some true ∧ ∀ j, j < getDimension m → within_at t j.
Proof.
  intros Hs. destruct (randomParams_defined rand_r RAND_MAX m s Hs) as (t & Hrun & Ht & Ho).
  exists t. split; [exact Hrun|]. split; [split; assumption|].
  rewrite randomParams_fold in Hrun. destruct Hs as [Hs Hos]. rewrite Hos in Hrun.
  pose proof (randomParams_fold_within _ (Forall_seq_lt _) s t (conj Hs Hos) Hrun) as Hin.
  split.
  - rewrite checkBounds_all, Ho. apply all_opt_true. intros j Hj.
    now apply within_at_check, Hin.
  - intros j Hj. apply Hin, elem_of_seq. lia.
Qed.

Lemma randomParamsGroup_within g s :
  state_of m s → group_ok m g →
  ∃ t, randomParamsGroup rand_r RAND_MAX g s = Some t ∧ state_of m t ∧
    checkBoundsGroup g t = Some true ∧ ∀ j, j ∈ state_index g → within_at t j.
Proof.
  intros Hs Hg.
  destruct (randomParamsGroup_defined rand_r RAND_MAX m g s Hs Hg) as (t & Hrun & Ht & Ho).
  exists t. split; [exact Hrun|]. split; [split; assumption|]. destruct Hg as [Hd Hr].
  rewrite randomParamsGroup_fold in Hrun by exact Hd.
  pose proof (randomParams_fold_within _ Hr s t Hs Hrun) as Hin.
  split; [|exact Hin].
  unfold checkBoundsGroup. rewrite Hd, for_all_indices0. apply all_opt_true.
  intros j Hj. now apply within_at_check, Hin.
Qed.

End RandomWithin.



(** ** Default parameters: the values *)

(** C2 (amended): [defaultParams] is defined on every state, and sets each
    component to 0 when 0 lies within the bounds of the component, where it
    is then within the bounds, and to the double [(lo + hi) / 2.0]
    otherwise; for bounds [lo <= hi] that double is within the bounds if and
    only if the sum [lo + hi] of the two finite bounds does not overflow. *)
Theorem defaultParams_values (s : KinematicState) :
  state_ok s →
  ∃ s', defaultParams s = Some s' ∧
    ∀ i lo hi, i < getDimension (owner_ s) →
      getStateBounds (owner_ s) !! (2 * i) = Some lo →
      getStateBounds (owner_ s) !! (2 * i + 1) = Some hi →
      ∃ p, params_ s' !! i = Some p ∧
        (dle lo 0 = true ∧ dge hi 0 = true →
         p = 0%float ∧ dle lo p = true ∧ dle p hi = true) ∧
        (¬ (dle lo 0 = true ∧ dge hi 0 = true) →
         p = ((lo + hi) / 2)%float ∧
         (dle lo hi = true →
          (dle lo p = true ∧ dle p hi = true ↔ sum_overflows lo hi = false))).
Proof.
  intros Hs. destruct (defaultParams_defined s Hs) as (s' & Hrun & Hs' & Ho & Hcells).
  exists s'. split; [exact Hrun|]. intros i lo hi Hi Hlo Hhi.
  destruct (Hcells i Hi) as [(lo' & hi' & Hlo' & Hhi' & Hp) _].
  destruct (bounds_at (owner_ s) i) as (lo'' & hi'' & Hl & Hh & Hl2 & Hh2);
    [now destruct Hs|exact Hi|].
  rewrite Ho in Hlo', Hhi'.
  assert (lo' = lo) as -> by congruence. assert (hi' = hi) as -> by congruence.
  exists (default_value lo hi). split; [exact Hp|]. unfold default_value. split.
  - intros [H1 H2]. rewrite H1, H2. cbn. auto.
  - intros Hn.
    assert (dle lo 0 && dge hi 0 = false) as Hz.
    { destruct (dle lo 0), (dge hi 0); try reflexivity. exfalso. apply Hn. auto. }
    rewrite Hz. split; [reflexivity|]. intros Hle. split.
    + intros [H1 H2]. destruct (sum_overflows lo hi) eqn:Eo; [|reflexivity].
      pose proof (midpoint_overflow lo hi Hle Eo) as Hout.
      rewrite H1, H2 in Hout. discriminate.
    + intros Hno. now apply midpoint_between.
Qed.

Lemma defaultParams_values_witness :
  ∃ s', defaultParams sample_state = Some s' ∧
    ∀ i lo hi, i < getDimension (owner_ sample_state) →
      getStateBounds (owner_ sample_state) !! (2 * i) = Some lo →
      getStateBounds (owner_ sample_state) !! (2 * i + 1) = Some hi →
      ∃ p, params_ s' !! i = Some p ∧
        (dle lo 0 = true ∧ dge hi 0 = true →
         p = 0%float ∧ dle lo p = true ∧ dle p hi = true) ∧
        (¬ (dle lo 0 = true ∧ dge hi 0 = true) →
         p = ((lo + hi) / 2)%float ∧
         (dle lo hi = true →
          (dle lo p = true ∧ dle p hi = true ↔ sum_overflows lo hi = false))).
Proof. apply (defaultParams_values sample_state). exact sample_state_ok. Defined.

(** C2 (counterexample): with the well-formed bounds [2^1023 <= 2^1023] the
    sum of the bounds overflows, and [defaultParams] sets the component to
    infinity, above its upper bound. *)
Lemma defaultParams_overflow :
  let m := {| groupMap_ := ∅; linkMap_ := ∅; jointMap_ := ∅; jointList_ := [];
              stateBounds_ := [0x1p+1023%float; 0x1p+1023%float]; dimension_ := 1 |} in
  let s := {| owner_ := m; randSeed_ := 0; params_ := [0%float]; updated_ := [false] |} in
  dle 0x1p+1023 0x1p+1023 = true ∧
  sum_overflows 0x1p+1023 0x1p+1023 = true ∧
  (params_ <$> defaultParams s) = Some [infinity] ∧
  dle infinity 0x1p+1023 = false.
Proof. repeat split; vm_compute; reflexivity. Qed.



(** ** Random parameters: what the claim says *)

Lemma sample_rand_r_ok : rand_r_ok sample_rand_r sample_RAND_MAX.
Proof.
  split; [reflexivity|]. intros seed. unfold sample_rand_r, sample_RAND_MAX. cbn [fst].
  generalize (((seed * 1103515245 + 12345) mod 2 ^ 32 / 65536)%N). intros n.
  pose proof (N.mod_lt n 32768 ltac:(discriminate)) as H.
  revert H. generalize (n mod 32768)%N. intros k H. lia.
Qed.

Lemma sample_bounds_finite : bounds_finite sample_model.
Proof.
  intros i lo hi Hlo Hhi. destruct i as [|[|i]].
  - injection Hlo as <-. injection Hhi as <-. reflexivity.
  - injection Hlo as <-. injection Hhi as <-. reflexivity.
  - apply lookup_lt_Some in Hlo. cbn in Hlo. lia.
Qed.






(** * More of the state *)

(** ** Flags *)

Lemma state_eq (s t : KinematicState) :
  owner_ s = owner_ t → randSeed_ s = randSeed_ t → params_ s = params_ t →
  updated_ s = updated_ t → s = t.
Proof. destruct s, t. cbn. intros -> -> -> ->. reflexivity. Qed.

Lemma seenAll_all s :
  seenAll s = all_opt (λ i, load (updated_ s) i) (seq 0 (getDimension (owner_ s))).
Proof. apply for_all_seq. Qed.

Lemma seenAll_true s :
  seenAll s = Some true ↔ ∀ i, i < getDimension (owner_ s) → updated_ s !! i = Some true.
Proof.
  rewrite seenAll_all, all_opt_true. split.
  - intros H i Hi. apply H, elem_of_seq. lia.
  - intros H i Hi%elem_of_seq. apply H. lia.
Qed.

Lemma seenAll_defined s : state_ok s → is_Some (seenAll s).
Proof.
  intros [_ _ Hu]. rewrite seenAll_all. apply all_opt_defined.
  intros i Hi%elem_of_seq. apply lookup_lt_is_Some_2. lia.
Qed.

(** The loops that write one flag to the components [js]. *)
Lemma set_updated_fold (b : bool) js s :
  Forall (λ j, j < length (updated_ s)) js →
  ∃ s', fold_opt (λ j s, set_updated j b s) js s = Some s' ∧
    owner_ s' = owner_ s ∧ randSeed_ s' = randSeed_ s ∧ params_ s' = params_ s ∧
    length (updated_ s') = length (updated_ s) ∧
    (∀ k, k ∈ js → updated_ s' !! k = Some b) ∧
    (∀ k, k ∉ js → updated_ s' !! k = updated_ s !! k).
Proof.
  revert s. induction js as [|j js IH]; intros s Hjs; cbn.
  - exists s. repeat split; auto. intros k Hk. inversion Hk.
  - apply Forall_cons in Hjs as [Hj Hjs].
    assert (set_updated j b s = Some (with_updated s (<[j:=b]> (updated_ s)))) as ->
      by (apply set_updated_Some; auto).
    cbn.
    destruct (IH (with_updated s (<[j:=b]> (updated_ s)))) as (s' & -> & Ho & Hr & Hp & Hl & Hin & Hout).
    { cbn. now rewrite length_insert. }
    cbn in *. rewrite length_insert in Hl. exists s'. split; [reflexivity|].
    do 4 (split; [assumption|]). split.
    + intros k Hk. destruct (decide (k ∈ js)) as [?|Hn]; [now apply Hin|].
      apply elem_of_cons in Hk as [->|?]; [|contradiction].
      rewrite Hout by exact Hn. now apply list_lookup_insert_eq.
    + intros k Hk. apply not_elem_of_cons in Hk as [Hne Hk].
      rewrite Hout by exact Hk. now apply list_lookup_insert_ne.
Qed.

Lemma replicate_eq {A} (l : list A) n x :
  length l = n → (∀ i, i < n → l !! i = Some x) → l = replicate n x.
Proof.
  intros Hl H. apply (list_eq_same_length _ _ n); [exact Hl|apply length_replicate|].
  intros i Hi. rewrite H by exact Hi. symmetry. now apply lookup_replicate_2.
Qed.

Lemma reset_spec s :
  state_ok s →
  reset s = Some (with_updated s (replicate (getDimension (owner_ s)) false)).
Proof.
  intros [Hm Hp Hu]. unfold reset. rewrite for_loop_seq.
  destruct (set_updated_fold false (seq 0 (getDimension (owner_ s))) s)
    as (s' & -> & Ho & Hr & Hps & Hl & Hin & _).
  { rewrite Hu. apply Forall_seq_lt. }
  f_equal. apply state_eq; cbn; try assumption.
  apply replicate_eq; [congruence|]. intros i Hi. apply Hin, elem_of_seq. lia.
Qed.

Lemma resetGroup_fold g s :
  dimension g = length (state_index g) →
  resetGroup g s = fold_opt (λ j s, set_updated j false s) (state_index g) s.
Proof. intros Hd. unfold resetGroup. rewrite Hd. apply for_loop_indices0. Qed.

(** ** The constructor *)

Lemma lower_upper_at m i lo hi :
  model_ok m → i < getDimension m →
  getStateBounds m !! (2 * i) = Some lo → getStateBounds m !! (2 * i + 1) = Some hi →
  lower m i = Some lo ∧ upper m i = Some hi.
Proof.
  intros Hm Hi Hlo Hhi. destruct (bounds_at m i Hm Hi) as (lo' & hi' & -> & -> & H1 & H2).
  split; congruence.
Qed.

Lemma defaultParams_seed s s' : defaultParams s = Some s' → randSeed_ s' = randSeed_ s.
Proof.
  rewrite defaultParams_fold. intros H.
  apply (fold_opt_preserves defaultParams_at (λ t, randSeed_ t = randSeed_ s) _ _ _) in H;
    [exact H| |reflexivity].
  intros x t t' _ (lo & hi & _ & _ & _ & _ & ->)%defaultParams_at_Some Ht. exact Ht.
Qed.

(** X1: the constructor is defined on every model, and the state it returns
    satisfies the invariant of the class, has the seed [now % UINT_MAX],
    holds in every component the default value of its bounds and has no
    component marked as seen, so that [seenAll] is false unless the
    dimension is 0; what the new array held does not matter. *)
Theorem KinematicState_new_fresh (m : KinematicModel) (now : N) (fresh : float) :
  model_ok m →
  ∃ s, KinematicState_new m now fresh = Some s ∧
    state_ok s ∧ owner_ s = m ∧ randSeed_ s = (now mod UINT_MAX)%N ∧
    updated_ s = replicate (getDimension m) false ∧
    (∀ i lo hi, i < getDimension m →
       getStateBounds m !! (2 * i) = Some lo →
       getStateBounds m !! (2 * i + 1) = Some hi →
       params_ s !! i = Some (default_value lo hi)) ∧
    (seenAll s = Some true ↔ getDimension m = 0) ∧
    ∀ fresh', KinematicState_new m now fresh' = Some s.
Proof.
  intros Hm.
  assert (∀ f, ∃ s, KinematicState_new m now f = Some s ∧
    state_ok s ∧ owner_ s = m ∧ randSeed_ s = (now mod UINT_MAX)%N ∧
    updated_ s = replicate (getDimension m) false ∧
    (∀ i, i < getDimension m → defaulted i s)) as Hnew.
  { intros f. unfold KinematicState_new.
    set (s0 := {| owner_ := m; randSeed_ := (now mod UINT_MAX)%N;
                  params_ := replicate (getDimension m) f;
                  updated_ := replicate (getDimension m) false |}).
    assert (state_ok s0) as Hs0 by (split; cbn; [exact Hm|apply length_replicate..]).
    destruct (defaultParams_defined s0 Hs0) as (s1 & E1 & Hs1 & Ho1 & Hd1).
    pose proof (defaultParams_seed _ _ E1) as Hr1. rewrite E1. cbn.
    rewrite (reset_spec s1 Hs1). eexists. split; [reflexivity|]. cbn.
    split; [apply state_ok_with_updated; [exact Hs1|rewrite length_replicate; now destruct Hs1]|].
    split; [exact Ho1|]. split; [exact Hr1|]. rewrite Ho1. split; [reflexivity|].
    intros i Hi. destruct (Hd1 i Hi) as [Hd _]. exact Hd. }
  destruct (Hnew fresh) as (s & E & Hs & Ho & Hr & Hu & Hd).
  exists s. do 5 (split; [assumption|]). split; [|split].
  - intros i lo hi Hi Hlo Hhi.
    destruct (lower_upper_at m i lo hi Hm Hi Hlo Hhi) as [Hl Hh].
    destruct (Hd i Hi) as (lo' & hi' & Hl' & Hh' & Hp). rewrite Ho in Hl', Hh'. congruence.
  - rewrite seenAll_true, Ho, Hu. split.
    + intros H. destruct (getDimension m) as [|n]; [reflexivity|].
      specialize (H 0 ltac:(lia)). discriminate.
    + intros -> i Hi. lia.
  - intros f. destruct (Hnew f) as (s' & E' & Hs' & Ho' & Hr' & Hu' & Hd').
    rewrite E'. f_equal. apply state_eq; try congruence.
    apply (list_eq_same_length _ _ (getDimension m));
      [destruct Hs' as [_ H _]; congruence|destruct Hs as [_ H _]; congruence|].
    intros i Hi. destruct (Hd i Hi) as (lo & hi & Hl & Hh & ->).
    destruct (Hd' i Hi) as (lo' & hi' & Hl' & Hh' & ->). congruence.
Qed.

Lemma KinematicState_new_fresh_witness :
  ∃ s, KinematicState_new sample_model 7 1 = Some s ∧
    state_ok s ∧ owner_ s = sample_model ∧ randSeed_ s = (7 mod UINT_MAX)%N ∧
    updated_ s = replicate (getDimension sample_model) false ∧
    (∀ i lo hi, i < getDimension sample_model →
       getStateBounds sample_model !! (2 * i) = Some lo →
       getStateBounds sample_model !! (2 * i + 1) = Some hi →
       params_ s !! i = Some (default_value lo hi)) ∧
    (seenAll s = Some true ↔ getDimension sample_model = 0) ∧
    ∀ fresh', KinematicState_new sample_model 7 fresh' = Some s.
Proof. apply (KinematicState_new_fresh sample_model 7 1). exact sample_model_ok. Defined.



(** ** Equality and copies *)

(** The test of [operator==] never tells a double from itself, a NaN or an
    infinity included. *)
Lemma apart_diag (a : float) : apart a a = false.
Proof.
  unfold apart, dgt, fabs.
  rewrite FloatAxioms.ltb_spec, FloatAxioms.abs_spec, FloatAxioms.sub_spec, Prim2SF_DBL_MIN.
  destruct (Prim2SF a) as [[]|[]| |[] m e]; try reflexivity;
    unfold SF64sub, SFsub; rewrite Z.sub_diag; reflexivity.
Qed.

Lemma SFabs_opp (x : spec_float) : SFabs (SFopp x) = SFabs x.
Proof. now destruct x as [[]|[]| |[] m e]. Qed.

Lemma binary_normalize_abs_opp (z e : Z) :
  SFabs (binary_normalize prec emax (- z) e false) = SFabs (binary_normalize prec emax z e false).
Proof.
  destruct z as [|m|m]; [reflexivity| |].
  - change (- Zpos m)%Z with (Zneg m). cbn [binary_normalize].
    now rewrite binary_round_opp, SFabs_opp.
  - change (- Zneg m)%Z with (Zpos m). cbn [binary_normalize].
    now rewrite binary_round_opp, SFabs_opp.
Qed.

Lemma SFsub_abs_swap (x y : spec_float) :
  SFabs (SFsub prec emax x y) = SFabs (SFsub prec emax y x).
Proof.
  destruct x as [[]|[]| |sx mx ex], y as [[]|[]| |sy my ey]; try reflexivity.
  unfold SFsub. change (IntDef.Z.min ?a ?b) with (Z.min a b). rewrite (Z.min_comm ey ex).
  rewrite <- binary_normalize_abs_opp. do 2 f_equal. lia.
Qed.

Lemma apart_swap (a b : float) : apart a b = apart b a.
Proof.
  unfold apart, dgt, fabs.
  rewrite !FloatAxioms.ltb_spec, !FloatAxioms.abs_spec, !FloatAxioms.sub_spec.
  unfold SF64sub. now rewrite SFsub_abs_swap.
Qed.

Lemma equal_same_params s rhs :
  getDimension (owner_ s) = getDimension (owner_ rhs) →
  length (params_ s) = getDimension (owner_ s) → params_ s = params_ rhs →
  equal s rhs = Some true.
Proof.
  intros Hd Hl Hp. rewrite equal_all by exact Hd. apply all_opt_true.
  intros i Hi%elem_of_seq. unfold load. rewrite <- Hp.
  destruct (lookup_lt_is_Some_2 (params_ s) i) as [a ->]; [lia|]. cbn.
  now rewrite apart_diag.
Qed.

(** X2: [operator==] is reflexive and symmetric on the states of a model,
    whatever their components (a state with NaN components is equal to
    itself), and [operator!=] is its negation. *)
Theorem equal_reflexive_symmetric (s rhs : KinematicState) :
  state_ok s → state_ok rhs →
  equal s s = Some true ∧ equal s rhs = equal rhs s ∧
  not_equal s rhs = negb <$> equal s rhs.
Proof.
  intros Hs Hr. split; [|split].
  - apply equal_same_params; [reflexivity|now destruct Hs|reflexivity].
  - destruct (decide (getDimension (owner_ s) = getDimension (owner_ rhs))) as [Hd|Hd].
    + rewrite (equal_all s rhs Hd), (equal_all rhs s (eq_sym Hd)), <- Hd.
      assert (∀ xs : list nat,
        all_opt (λ i, a ← load (params_ s) i; b ← load (params_ rhs) i;
                      Some (negb (apart a b))) xs
        = all_opt (λ i, a ← load (params_ rhs) i; b ← load (params_ s) i;
                        Some (negb (apart a b))) xs) as H; [|apply H].
      induction xs as [|i xs IH]; cbn; [reflexivity|].
      destruct (load (params_ s) i) as [a|], (load (params_ rhs) i) as [b|]; cbn;
        try reflexivity.
      rewrite (apart_swap a b), IH. reflexivity.
    + unfold equal. apply Nat.eqb_neq in Hd as Hd1.
      assert (getDimension (owner_ rhs) ≠ getDimension (owner_ s)) as Hd2%Nat.eqb_neq by auto.
      now rewrite Hd1, Hd2.
  - unfold not_equal. now destruct (equal s rhs).
Qed.

Lemma equal_reflexive_symmetric_witness :
  equal sample_state sample_state = Some true ∧
  equal sample_state sample_state' = equal sample_state' sample_state ∧
  not_equal sample_state sample_state' = negb <$> equal sample_state sample_state'.
Proof.
  apply (equal_reflexive_symmetric sample_state sample_state').
  - exact sample_state_ok.
  - exact sample_state'_ok.
Defined.

(** The loop of [copyFrom]. *)
Lemma copy_fold (src : list float) js s :
  Forall (λ j, j < length (params_ s) ∧ j < length src) js →
  ∃ s', fold_opt (λ i s, v ← load src i; set_param i v s) js s = Some s' ∧
    owner_ s' = owner_ s ∧ randSeed_ s' = randSeed_ s ∧ updated_ s' = updated_ s ∧
    length (params_ s') = length (params_ s) ∧
    (∀ k, k ∈ js → params_ s' !! k = src !! k) ∧
    (∀ k, k ∉ js → params_ s' !! k = params_ s !! k).
Proof.
  revert s. induction js as [|j js IH]; intros s Hjs; cbn.
  - exists s. repeat split; auto. intros k Hk. inversion Hk.
  - apply Forall_cons in Hjs as [[Hj Hsrc] Hjs].
    destruct (lookup_lt_is_Some_2 src j Hsrc) as [v Hv].
    assert (load src j = Some v) as -> by exact Hv. cbn.
    assert (set_param j v s = Some (with_params s (<[j:=v]> (params_ s)))) as ->
      by (apply set_param_Some; auto).
    cbn.
    destruct (IH (with_params s (<[j:=v]> (params_ s))))
      as (s' & -> & Ho & Hr & Hu & Hl & Hin & Hout).
    { cbn. now rewrite length_insert. }
    cbn in *. rewrite length_insert in Hl. exists s'. split; [reflexivity|].
    do 4 (split; [assumption|]). split.
    + intros k Hk. destruct (decide (k ∈ js)) as [?|Hn]; [now apply Hin|].
      apply elem_of_cons in Hk as [->|?]; [|contradiction].
      rewrite Hout by exact Hn. rewrite Hv. now apply list_lookup_insert_eq.
    + intros k Hk. apply not_elem_of_cons in Hk as [Hne Hk].
      rewrite Hout by exact Hk. now apply list_lookup_insert_ne.
Qed.

Lemma copyFrom_spec sp fresh s :
  state_ok sp →
  copyFrom sp fresh s
  = Some {| owner_ := owner_ sp; randSeed_ := randSeed_ s;
            params_ := params_ sp; updated_ := updated_ sp |}.
Proof.
  intros [Hm Hp Hu]. unfold copyFrom. cbn. rewrite for_loop_seq.
  set (s0 := with_params _ _).
  destruct (copy_fold (params_ sp) (seq 0 (getDimension (owner_ sp))) s0)
    as (s' & -> & Ho & Hr & Hup & Hl & Hin & _).
  { unfold s0. cbn. rewrite length_replicate, Hp.
    eapply Forall_impl; [apply Forall_seq_lt|]. cbn. auto. }
  cbn. f_equal. unfold s0 in *. cbn in *. rewrite length_replicate in Hl.
  apply state_eq; cbn; try assumption; try reflexivity.
  apply (list_eq_same_length _ _ (getDimension (owner_ sp))); [exact Hl|exact Hp|].
  intros i Hi. apply Hin, elem_of_seq. lia.
Qed.

(** X3: the copy constructor returns a state of the same model with the
    parameters and the flags of the original and a seed of its own, taken
    from the clock; the copy satisfies the invariant of the class and
    compares equal to the original, whatever the components are and whatever
    the new array held. *)
Theorem KinematicState_copy_equal (sp : KinematicState) (now : N) (fresh : float) :
  state_ok sp →
  ∃ t, KinematicState_copy sp now fresh = Some t ∧ state_ok t ∧
    owner_ t = owner_ sp ∧ params_ t = params_ sp ∧ updated_ t = updated_ sp ∧
    randSeed_ t = (now mod UINT_MAX)%N ∧
    equal t sp = Some true ∧ not_equal t sp = Some false.
Proof.
  intros Hsp. unfold KinematicState_copy. rewrite (copyFrom_spec sp fresh _ Hsp).
  eexists. split; [reflexivity|]. cbn.
  assert (equal {| owner_ := owner_ sp; randSeed_ := (now mod UINT_MAX)%N;
                   params_ := params_ sp; updated_ := updated_ sp |} sp = Some true) as E
    by (apply equal_same_params; cbn; [reflexivity|now destruct Hsp|reflexivity]).
  split; [destruct Hsp; split; assumption|]. do 4 (split; [reflexivity|]).
  split; [exact E|]. unfold not_equal. now rewrite E.
Qed.

Lemma KinematicState_copy_equal_witness :
  ∃ t, KinematicState_copy sample_state 7 1 = Some t ∧ state_ok t ∧
    owner_ t = owner_ sample_state ∧ params_ t = params_ sample_state ∧
    updated_ t = updated_ sample_state ∧
    randSeed_ t = (7 mod UINT_MAX)%N ∧
    equal t sample_state = Some true ∧ not_equal t sample_state = Some false.
Proof. apply (KinematicState_copy_equal sample_state 7 1). exact sample_state_ok. Defined.

(** X4: an assignment [*this = rhs] between states in a store gives [*this]
    the model, the parameters and the flags of [rhs] and leaves it its own
    seed; [rhs] and every other state of the store stay as they are, and an
    assignment of a state to itself changes nothing. *)
Theorem assign_copies (h : gmap N KinematicState) (this rhs : N) (fresh : float)
    (s r : KinematicState) :
  h !! this = Some s → h !! rhs = Some r → state_ok r →
  ∃ h' s', assign h this rhs fresh = Some h' ∧
    h' !! this = Some s' ∧ h' !! rhs = Some (if decide (this = rhs) then s' else r) ∧
    owner_ s' = owner_ r ∧ params_ s' = params_ r ∧ updated_ s' = updated_ r ∧
    randSeed_ s' = randSeed_ s ∧
    (∀ a, a ≠ this → h' !! a = h !! a) ∧
    (this = rhs → h' = h).
Proof.
  intros Hs Hr Hok. unfold assign. rewrite Hs, Hr. cbn.
  destruct (decide (this ≠ rhs)) as [Hne|Heq].
  - rewrite (copyFrom_spec r fresh s Hok). cbn. eexists _, _. split; [reflexivity|].
    split; [apply lookup_insert_eq|]. rewrite decide_False by exact Hne.
    split; [now rewrite lookup_insert_ne|]. do 4 (split; [reflexivity|]).
    split; [|intros ?; contradiction]. intros a Ha. now rewrite lookup_insert_ne.
  - assert (this = rhs) as <- by (destruct (decide (this = rhs)); [assumption|contradiction]).
    assert (r = s) as -> by congruence.
    exists h, s. rewrite decide_True by reflexivity. repeat split; auto.
Qed.

Lemma assign_copies_witness :
  ∃ h' s', assign {[ 1%N := sample_state; 2%N := sample_state' ]} 1 2 0 = Some h' ∧
    h' !! 1%N = Some s' ∧ h' !! 2%N = Some (if decide (1%N = 2%N) then s' else sample_state') ∧
    owner_ s' = owner_ sample_state' ∧ params_ s' = params_ sample_state' ∧
    updated_ s' = updated_ sample_state' ∧ randSeed_ s' = randSeed_ sample_state ∧
    (∀ a, a ≠ 1%N → h' !! a = ({[ 1%N := sample_state; 2%N := sample_state' ]}
                                  : gmap N KinematicState) !! a) ∧
    (1%N = 2%N → h' = {[ 1%N := sample_state; 2%N := sample_state' ]}).
Proof.
  apply (assign_copies {[ 1%N := sample_state; 2%N := sample_state' ]} 1 2 0
           sample_state sample_state').
  - reflexivity.
  - reflexivity.
  - exact sample_state'_ok.
Defined.



(** ** Loops over a vector *)

Lemma for_all_list {A} (T : A → option bool) (pre xs : list A) :
  for_all (λ i, x ← load (pre ++ xs) i; T x) (length pre) (length xs) = all_opt T xs.
Proof.
  revert pre. induction xs as [|x xs IH]; intros pre; cbn; [reflexivity|].
  rewrite load_middle. cbn.
  destruct (T x) as [[]|]; cbn; [|reflexivity|reflexivity].
  specialize (IH (pre ++ [x])). rewrite <- app_assoc in IH. cbn in IH.
  rewrite length_app in IH. cbn in IH. rewrite Nat.add_1_r in IH. exact IH.
Qed.

Lemma for_loop_list {A St} (F : A → St → option St) (pre xs : list A) s :
  for_loop (λ i s, x ← load (pre ++ xs) i; F x s) (length pre) (length xs) s
  = fold_opt F xs s.
Proof.
  revert pre s. induction xs as [|x xs IH]; intros pre s; cbn; [reflexivity|].
  rewrite load_middle. cbn.
  destruct (F x s) as [s'|]; cbn; [|reflexivity].
  specialize (IH (pre ++ [x]) s'). rewrite <- app_assoc in IH. cbn in IH.
  rewrite length_app in IH. cbn in IH. rewrite Nat.add_1_r in IH. exact IH.
Qed.

Lemma size_of_fits {A} (v : list A) :
  (N.of_nat (length v) ≤ UINT_MAX)%N → size_of v = Some (length v).
Proof. intros H. unfold size_of. now rewrite decide_True. Qed.

Lemma all_opt_app {A} (T : A → option bool) xs ys :
  all_opt T (xs ++ ys) = b ← all_opt T xs; if b : bool then all_opt T ys else Some false.
Proof.
  induction xs as [|x xs IH]; cbn; [now destruct (all_opt T ys)|].
  destruct (T x) as [[]|]; cbn; auto.
Qed.

Lemma all_opt_false {A} (T : A → option bool) xs :
  (∀ x, x ∈ xs → is_Some (T x)) →
  all_opt T xs = Some false ↔ ∃ x, x ∈ xs ∧ T x = Some false.
Proof.
  intros Hdef. destruct (all_opt_defined T xs Hdef) as [[] E]; rewrite E.
  - split; [discriminate|]. intros (x & Hx & Hf).
    rewrite all_opt_true in E. rewrite (E x Hx) in Hf. discriminate.
  - split; [intros _|reflexivity].
    induction xs as [|x xs IH]; cbn in E; [discriminate|].
    destruct (T x) as [[]|] eqn:Ex; cbn in E; try discriminate.
    + destruct IH as (y & Hy & Hf); [|exact E|].
      * intros y Hy. apply Hdef. now apply elem_of_cons; right.
      * exists y. split; [now apply elem_of_cons; right|exact Hf].
    + exists x. split; [now apply elem_of_cons; left|exact Ex].
Qed.

(** ** Bounds of the joints *)

Lemma checkBoundsJoint_all n joint s :
  state_ok s → jointMap_ (owner_ s) !! n = Some joint → joint_ok (owner_ s) joint →
  checkBoundsJoint n s
  = all_opt (checkBounds_at s) (seq (stateIndex joint) (usedParams joint)).
Proof.
  intros Hs Hn Hj. unfold checkBoundsJoint, getJoint. rewrite Hn. cbn.
  rewrite (joint_end s joint Hs Hj), for_all_seq. do 2 f_equal. lia.
Qed.

Lemma checkBounds_true s :
  checkBounds s = Some true ↔
  ∀ i, i < getDimension (owner_ s) → checkBounds_at s i = Some true.
Proof.
  rewrite checkBounds_all, all_opt_true. split.
  - intros H i Hi. apply H, elem_of_seq. lia.
  - intros H i Hi%elem_of_seq. apply H. lia.
Qed.

Lemma checkBoundsJoint_true n joint s :
  state_ok s → jointMap_ (owner_ s) !! n = Some joint → joint_ok (owner_ s) joint →
  checkBoundsJoint n s = Some true ↔
  ∀ i, stateIndex joint ≤ i < stateIndex joint + usedParams joint →
       checkBounds_at s i = Some true.
Proof.
  intros Hs Hn Hj. rewrite (checkBoundsJoint_all n joint s Hs Hn Hj), all_opt_true. split.
  - intros H i Hi. apply H, elem_of_seq. lia.
  - intros H i Hi%elem_of_seq. apply H. lia.
Qed.

(** X5: on names of joints of the model, [checkBoundsJoints] returns true
    exactly when [checkBoundsJoint] is true of every name (so it is true of
    no name at all), and it is true whenever [checkBounds] is true of the
    whole state; once a joint is outside its bounds the result is false
    whatever names follow, registered or not. *)
Theorem checkBoundsJoints_all (names : list string) (s : KinematicState) :
  state_ok s → registry_ok (owner_ s) →
  Forall (λ n, is_Some (jointMap_ (owner_ s) !! n)) names →
  (N.of_nat (length names) ≤ UINT_MAX)%N →
  ∃ b, checkBoundsJoints names s = Some b ∧
    (b = true ↔ ∀ n, n ∈ names → checkBoundsJoint n s = Some true) ∧
    (checkBounds s = Some true → b = true) ∧
    (b = false → ∀ rest, (N.of_nat (length (names ++ rest)) ≤ UINT_MAX)%N →
       checkBoundsJoints (names ++ rest) s = Some false).
Proof.
  intros Hs Hreg Hnames Hsize.
  assert (∀ l, (N.of_nat (length l) ≤ UINT_MAX)%N →
            checkBoundsJoints l s = all_opt (λ n, checkBoundsJoint n s) l) as Hall.
  { intros l Hl. unfold checkBoundsJoints. rewrite (size_of_fits l Hl). cbn.
    apply (for_all_list (λ n, checkBoundsJoint n s) []). }
  assert (∀ n, n ∈ names → is_Some (checkBoundsJoint n s)) as Hdef.
  { intros n Hn. eapply Forall_forall in Hnames as [j Hj]; [|exact Hn].
    eapply checkBoundsJoint_defined; eauto. eapply joints_ok; eauto. }
  destruct (all_opt_defined _ names Hdef) as [b Hb].
  exists b. rewrite (Hall names Hsize). split; [exact Hb|]. split; [|split].
  - rewrite <- all_opt_true, Hb. split; congruence.
  - intros Hc. rewrite checkBounds_true in Hc.
    assert (all_opt (λ n, checkBoundsJoint n s) names = Some true) as E; [|congruence].
    apply all_opt_true. intros n Hn.
    eapply Forall_forall in Hnames as [j Hj]; [|exact Hn].
    pose proof (joints_ok _ Hreg n j Hj) as Hjok.
    apply (checkBoundsJoint_true n j s Hs Hj Hjok). intros i Hi. apply Hc.
    unfold joint_ok in Hjok. lia.
  - intros -> rest Hrest. rewrite (Hall _ Hrest), all_opt_app, Hb. reflexivity.
Qed.

Lemma checkBoundsJoints_all_witness :
  ∃ b, checkBoundsJoints ["shoulder"; "elbow"] sample_state = Some b ∧
    (b = true ↔ ∀ n, n ∈ ["shoulder"; "elbow"] → checkBoundsJoint n sample_state = Some true) ∧
    (checkBounds sample_state = Some true → b = true) ∧
    (b = false → ∀ rest, (N.of_nat (length (["shoulder"; "elbow"] ++ rest)) ≤ UINT_MAX)%N →
       checkBoundsJoints (["shoulder"; "elbow"] ++ rest) sample_state = Some false).
Proof.
  apply (checkBoundsJoints_all ["shoulder"; "elbow"] sample_state).
  - exact sample_state_ok.
  - exact sample_registry_ok.
  - repeat constructor; eexists; reflexivity.
  - vm_compute. discriminate.
Defined.

(** ** What [missing] writes *)

Lemma missing_fold js out s :
  Forall (λ j, j < length (updated_ s)) js →
  fold_opt (λ i out, u ← load (updated_ s) i;
                     if negb u then Some (out ++ [Unsigned i; Text " "]) else Some out) js out
  = Some (out ++ flat_map (λ i, [Unsigned i; Text " "])
                   (filter (λ i, updated_ s !! i = Some false) js)).
Proof.
  revert out. induction js as [|j js IH]; intros out Hjs.
  - cbn. now rewrite app_nil_r.
  - apply Forall_cons in Hjs as [Hj Hjs]. cbn [fold_opt].
    destruct (lookup_lt_is_Some_2 (updated_ s) j Hj) as [u Hu].
    rewrite filter_cons.
    assert (load (updated_ s) j = Some u) as -> by exact Hu.
    destruct u.
    + rewrite decide_False by congruence. cbn. now apply IH.
    + rewrite decide_True by assumption. cbn. rewrite IH by exact Hjs.
      now rewrite <- app_assoc.
Qed.

(** X6: [missing] appends to the stream the indices of the components that
    are not marked as seen, in increasing order, each followed by a blank;
    it writes nothing exactly when [seenAll] is true. *)
Theorem missing_lists_unseen (out : list item) (s : KinematicState) :
  state_ok s →
  let unseen := filter (λ i, updated_ s !! i = Some false)
                  (seq 0 (getDimension (owner_ s))) in
  missing out s = Some (out ++ flat_map (λ i, [Unsigned i; Text " "]) unseen) ∧
  (unseen = [] ↔ seenAll s = Some true) ∧
  (missing out s = Some out ↔ seenAll s = Some true).
Proof.
  intros Hs unseen. pose proof Hs as [_ _ Hu].
  assert (missing out s = Some (out ++ flat_map (λ i, [Unsigned i; Text " "]) unseen)) as E.
  { unfold missing. rewrite for_loop_seq. apply missing_fold. rewrite Hu.
    apply Forall_seq_lt. }
  assert (unseen = [] ↔ seenAll s = Some true) as Hiff.
  { rewrite seenAll_true. unfold unseen. split.
    - intros Hnil i Hi.
      destruct (lookup_lt_is_Some_2 (updated_ s) i) as [[] Hb]; [lia|exact Hb|].
      assert (i ∈ filter (λ i, updated_ s !! i = Some false)
                    (seq 0 (getDimension (owner_ s)))) as Hin.
      { apply list_elem_of_filter. split; [exact Hb|apply elem_of_seq; lia]. }
      rewrite Hnil in Hin. inversion Hin.
    - intros Hall. apply elem_of_nil_inv. intros i [Hf Hi%elem_of_seq]%list_elem_of_filter.
      rewrite Hall in Hf by lia. discriminate. }
  split; [exact E|]. split; [exact Hiff|]. rewrite <- Hiff, E. split.
  - intros [= H]. rewrite <- (app_nil_r out) in H at 2. apply app_inv_head in H.
    destruct unseen; [reflexivity|discriminate].
  - intros ->. cbn. now rewrite app_nil_r.
Qed.

Lemma missing_lists_unseen_witness :
  let unseen := filter (λ i, updated_ sample_state !! i = Some false)
                  (seq 0 (getDimension (owner_ sample_state))) in
  missing [Text "missing: "] sample_state
  = Some ([Text "missing: "] ++ flat_map (λ i, [Unsigned i; Text " "]) unseen) ∧
  (unseen = [] ↔ seenAll sample_state = Some true) ∧
  (missing [Text "missing: "] sample_state = Some [Text "missing: "]
   ↔ seenAll sample_state = Some true).
Proof. apply (missing_lists_unseen [Text "missing: "] sample_state). exact sample_state_ok. Defined.



(** ** The whole state and its joints *)

Lemma tiles_range start js j :
  tiles start js → j ∈ js →
  start ≤ stateIndex j ∧ stateIndex j + usedParams j ≤ start + sum_usedParams js.
Proof.
  revert start. induction js as [|j0 js IH]; intros start Ht Hj; [inversion Hj|].
  destruct Ht as [H0 Ht]. cbn. apply elem_of_cons in Hj as [->|Hj].
  - lia.
  - specialize (IH _ Ht Hj). lia.
Qed.

Lemma joint_index (s : KinematicState) (joint : Joint) i :
  state_ok s → joint_ok (owner_ s) joint → i < usedParams joint →
  uadd (stateIndex joint) i = stateIndex joint + i.
Proof.
  intros [[_ Hfit] _ _] Hj Hi. apply uadd_small. unfold joint_ok in Hj.
  change (2 ^ 32)%N with (2 * 2 ^ 31)%N. lia.
Qed.

Lemma seenJoint_true n joint s :
  state_ok s → jointMap_ (owner_ s) !! n = Some joint → joint_ok (owner_ s) joint →
  seenJoint n s = Some true ↔
  ∀ i, stateIndex joint ≤ i < stateIndex joint + usedParams joint →
       updated_ s !! i = Some true.
Proof.
  intros Hs Hn Hj. unfold seenJoint, getJoint. rewrite Hn. cbn.
  rewrite for_all_seq, all_opt_true. split.
  - intros H i Hi. specialize (H (i - stateIndex joint)).
    rewrite (joint_index s joint) in H by (auto; lia).
    replace (stateIndex joint + (i - stateIndex joint)) with i in H by lia.
    apply H, elem_of_seq. lia.
  - intros H k Hk%elem_of_seq. rewrite (joint_index s joint) by (auto; lia).
    apply H. lia.
Qed.

(** X7: when the joints of the model tile the state vector, each under its
    own name, the whole state is seen exactly when every joint is seen, and
    it is within the bounds exactly when every joint is. *)
Theorem whole_state_iff_every_joint (s : KinematicState) :
  state_ok s →
  tiles 0 (jointList_ (owner_ s)) →
  sum_usedParams (jointList_ (owner_ s)) = getDimension (owner_ s) →
  (∀ j, j ∈ jointList_ (owner_ s) → jointMap_ (owner_ s) !! name j = Some j) →
  (seenAll s = Some true ↔
   ∀ j, j ∈ jointList_ (owner_ s) → seenJoint (name j) s = Some true) ∧
  (checkBounds s = Some true ↔
   ∀ j, j ∈ jointList_ (owner_ s) → checkBoundsJoint (name j) s = Some true).
Proof.
  intros Hs Ht Hsum Hreg.
  assert (∀ j, j ∈ jointList_ (owner_ s) → joint_ok (owner_ s) j) as Hok.
  { intros j Hj. destruct (tiles_range 0 _ j Ht Hj) as [_ H]. unfold joint_ok. lia. }
  assert (∀ i, i < getDimension (owner_ s) →
            ∃ j, j ∈ jointList_ (owner_ s) ∧
                 stateIndex j ≤ i < stateIndex j + usedParams j) as Hcover.
  { intros i Hi. apply (tiles_cover 0); [exact Ht|lia]. }
  split.
  - rewrite seenAll_true. split.
    + intros H j Hj. apply (seenJoint_true (name j) j s Hs (Hreg j Hj) (Hok j Hj)).
      intros i Hi. apply H. specialize (Hok j Hj). unfold joint_ok in Hok. lia.
    + intros H i Hi. destruct (Hcover i Hi) as (j & Hj & Hr).
      specialize (H j Hj).
      rewrite (seenJoint_true (name j) j s Hs (Hreg j Hj) (Hok j Hj)) in H. now apply H.
  - rewrite checkBounds_true. split.
    + intros H j Hj. apply (checkBoundsJoint_true (name j) j s Hs (Hreg j Hj) (Hok j Hj)).
      intros i Hi. apply H. specialize (Hok j Hj). unfold joint_ok in Hok. lia.
    + intros H i Hi. destruct (Hcover i Hi) as (j & Hj & Hr).
      specialize (H j Hj).
      rewrite (checkBoundsJoint_true (name j) j s Hs (Hreg j Hj) (Hok j Hj)) in H.
      now apply H.
Qed.

Lemma sample_joints_registered j :
  j ∈ jointList_ sample_model → jointMap_ sample_model !! name j = Some j.
Proof.
  intros Hj. cbn in Hj. apply elem_of_cons in Hj as [->|Hj]; [reflexivity|].
  apply elem_of_cons in Hj as [->|Hj]; [reflexivity|inversion Hj].
Qed.

Lemma whole_state_iff_every_joint_witness :
  (seenAll sample_state = Some true ↔
   ∀ j, j ∈ jointList_ (owner_ sample_state) → seenJoint (name j) sample_state = Some true) ∧
  (checkBounds sample_state = Some true ↔
   ∀ j, j ∈ jointList_ (owner_ sample_state) →
        checkBoundsJoint (name j) sample_state = Some true).
Proof.
  apply (whole_state_iff_every_joint sample_state).
  - exact sample_state_ok.
  - cbn. auto.
  - reflexivity.
  - exact sample_joints_registered.
Defined.



(** ** After [enforceBounds] *)

Lemma nan_within (p lo hi : float) : is_nan p = true → dgt p hi = false ∧ dlt p lo = false.
Proof.
  unfold is_nan, dgt, dlt. rewrite FloatAxioms.eqb_spec, !FloatAxioms.ltb_spec.
  unfold SFeqb, SFltb. intros H.
  assert (Prim2SF p = S754_nan) as ->.
  { destruct (SFcompare_diag (Prim2SF p)) as [E|E]; rewrite E in H; [|discriminate].
    destruct (Prim2SF p) as [[]|[]| |[] m e]; try discriminate. reflexivity. }
  split; [now destruct (Prim2SF hi) as [[]|[]| |[] m e]|reflexivity].
Qed.

Lemma checkBounds_at_same s t i :
  owner_ t = owner_ s → params_ t !! i = params_ s !! i →
  checkBounds_at s i = Some true → checkBounds_at t i = Some true.
Proof.
  intros Ho Hp (p & lo & hi & Hpi & Hhi & Hlo & H1 & H2)%checkBounds_at_true.
  apply checkBounds_at_true. exists p, lo, hi. rewrite Ho, Hp. auto.
Qed.

Lemma enforce_fold_keeps js s s' i :
  fold_opt enforceBounds_at js s = Some s' →
  checkBounds_at s i = Some true → params_ s' !! i = params_ s !! i.
Proof.
  intros Hrun Hc.
  assert (owner_ s' = owner_ s ∧ params_ s' !! i = params_ s !! i) as [_ H]; [|exact H].
  apply (fold_opt_preserves enforceBounds_at
           (λ t, owner_ t = owner_ s ∧ params_ t !! i = params_ s !! i) js s s');
    [|exact Hrun|auto].
  intros j t t' _ Hstep%enforceBounds_at_step [Ho Hp].
  destruct (decide (j = i)) as [->|Hne].
  - rewrite (enforce_step_same i t t' Hstep); [auto|].
    now apply (checkBounds_at_same s t i).
  - apply enforce_step_frame in Hstep as (Ho' & _ & _ & _ & Hk).
    split; [congruence|]. rewrite Hk by auto. exact Hp.
Qed.

(** X8: when no upper bound is below its lower bound, [enforceBounds] leaves
    a state that [checkBounds] accepts; it changes neither the flags nor the
    seed, nor any component that was within its bounds; and a component that
    is NaN counts as within its bounds: it is left as it is and accepted. *)
Theorem enforceBounds_then_checkBounds (s : KinematicState) :
  state_ok s → bounds_ordered (owner_ s) →
  ∃ s', enforceBounds s = Some s' ∧ checkBounds s' = Some true ∧
    owner_ s' = owner_ s ∧ randSeed_ s' = randSeed_ s ∧ updated_ s' = updated_ s ∧
    (∀ i, checkBounds_at s i = Some true → params_ s' !! i = params_ s !! i) ∧
    (∀ i p, params_ s !! i = Some p → is_nan p = true → params_ s' !! i = Some p).
Proof.
  intros Hs Hord. pose proof Hs as [Hm Hp Hu].
  destruct (enforce_fold_defined (seq 0 (getDimension (owner_ s))) s Hs (Forall_seq_lt _))
    as (s' & Hrun & Hs').
  exists s'. rewrite enforceBounds_fold. split; [exact Hrun|].
  destruct (enforce_fold_frame _ _ _ Hrun) as (Ho & Hr & Hup & Hl & _).
  assert (∀ i, checkBounds_at s i = Some true → params_ s' !! i = params_ s !! i) as Hkeep
    by (intros i; apply (enforce_fold_keeps _ _ _ _ Hrun)).
  split; [|do 3 (split; [assumption|]); split; [exact Hkeep|]].
  - rewrite checkBounds_all, Ho. apply all_opt_true.
    eapply enforce_fold_within; [|exact Hrun].
    apply ordered_on; [exact Hs|exact Hord|apply Forall_seq_lt].
  - intros i p Hpi Hnan. rewrite Hkeep; [exact Hpi|].
    assert (i < getDimension (owner_ s)) as Hi by (apply lookup_lt_Some in Hpi; lia).
    destruct (bounds_at _ i Hm Hi) as (lo & hi & Hlo & Hhi & _).
    destruct (nan_within p lo hi Hnan) as [H1 H2].
    apply checkBounds_at_true. exists p, lo, hi. auto.
Qed.

Lemma enforceBounds_then_checkBounds_witness :
  ∃ s', enforceBounds sample_state = Some s' ∧ checkBounds s' = Some true ∧
    owner_ s' = owner_ sample_state ∧ randSeed_ s' = randSeed_ sample_state ∧
    updated_ s' = updated_ sample_state ∧
    (∀ i, checkBounds_at sample_state i = Some true →
          params_ s' !! i = params_ sample_state !! i) ∧
    (∀ i p, params_ sample_state !! i = Some p → is_nan p = true → params_ s' !! i = Some p).
Proof.
  apply (enforceBounds_then_checkBounds sample_state).
  - exact sample_state_ok.
  - exact sample_bounds_ordered.
Defined.

(** ** Default parameters, again *)

Lemma default_at_fixed j s : defaulted j s → default_at j s = Some s.
Proof.
  intros (lo & hi & Hlo & Hhi & Hp). apply default_at_Some. exists lo, hi.
  do 2 (split; [assumption|]). split; [now apply lookup_lt_Some in Hp|].
  rewrite list_insert_id by exact Hp. symmetry. apply with_params_id.
Qed.

Lemma defaultParams_at_fixed j s : defaulted j s → seen j s → defaultParams_at j s = Some s.
Proof.
  intros Hd Hseen. unfold defaultParams_at. rewrite (default_at_fixed j s Hd). cbn.
  apply set_updated_Some. split; [now apply lookup_lt_Some in Hseen|].
  rewrite list_insert_id by exact Hseen. now destruct s.
Qed.

(** X9: [defaultParams] is idempotent, and after it [defaultParamsGroup]
    changes nothing, for any group of the model. *)
Theorem defaultParams_idempotent (s : KinematicState) (g : JointGroup) :
  state_ok s → group_ok (owner_ s) g →
  ∃ s', defaultParams s = Some s' ∧ defaultParams s' = Some s' ∧
        defaultParamsGroup g s' = Some s'.
Proof.
  intros Hs [Hd Hr]. destruct (defaultParams_defined s Hs) as (s' & Hrun & Hs' & Ho & Hall).
  exists s'. split; [exact Hrun|]. split.
  - rewrite defaultParams_fold. apply fold_opt_fixed. intros j Hj%elem_of_seq.
    destruct (Hall j) as [H1 H2]; [rewrite <- Ho; lia|]. now apply defaultParams_at_fixed.
  - rewrite defaultParamsGroup_fold by exact Hd. apply fold_opt_fixed. intros j Hj.
    destruct (Hall j) as [H1 _]; [eapply Forall_forall in Hr; eauto|].
    now apply default_at_fixed.
Qed.

Lemma defaultParams_idempotent_witness :
  ∃ s', defaultParams sample_state = Some s' ∧ defaultParams s' = Some s' ∧
        defaultParamsGroup sample_group s' = Some s'.
Proof.
  apply (defaultParams_idempotent sample_state sample_group).
  - exact sample_state_ok.
  - exact sample_group_ok.
Defined.



(** ** What the operations on a group leave alone *)

Lemma for_loop_indexed_preserves {St} (F : nat → nat → St → option St) (P : St → Prop)
    (js : list nat) i n s s' :
  (∀ i j t t', j ∈ js → F i j t = Some t' → P t → P t') →
  for_loop (λ i s, j ← load js i; F i j s) i n s = Some s' → P s → P s'.
Proof.
  intros Hstep. revert i s. induction n as [|n IH]; intros i s Hrun Hs.
  - cbn in Hrun. now injection Hrun as <-.
  - cbn in Hrun. destruct (load js i) as [j|] eqn:Hj; [|discriminate]. cbn in Hrun.
    destruct (F i j s) as [t|] eqn:Ht; [|discriminate]. cbn in Hrun.
    apply (IH (S i) t Hrun). apply (Hstep i j s t); [|exact Ht|exact Hs].
    eapply list_elem_of_lookup_2. exact Hj.
Qed.

Lemma untouched_refl k s : untouched k s s.
Proof. now repeat split. Qed.

Lemma untouched_trans k s t u : untouched k s t → untouched k t u → untouched k s u.
Proof. intros (? & ? & ?) (? & ? & ?). repeat split; congruence. Qed.

Lemma default_at_untouched j k s s' : j ≠ k → default_at j s = Some s' → untouched k s s'.
Proof.
  intros Hne (Ho & _ & Hu & _ & Hk)%default_at_frame.
  split; [exact Ho|]. split; [apply Hk; auto|now rewrite Hu].
Qed.

Lemma enforceBounds_at_untouched j k s s' :
  j ≠ k → enforceBounds_at j s = Some s' → untouched k s s'.
Proof.
  intros Hne (Ho & _ & Hu & _ & Hk)%enforceBounds_at_step%enforce_step_frame.
  split; [exact Ho|]. split; [apply Hk; auto|now rewrite Hu].
Qed.

Lemma set_updated_untouched j b k s s' : j ≠ k → set_updated j b s = Some s' → untouched k s s'.
Proof.
  intros Hne [_ ->]%set_updated_Some. repeat split; cbn.
  now rewrite list_lookup_insert_ne.
Qed.

Lemma set_param_untouched j v k s s' : j ≠ k → set_param j v s = Some s' → untouched k s s'.
Proof.
  intros Hne [_ ->]%set_param_Some. repeat split; cbn.
  now rewrite list_lookup_insert_ne.
Qed.

Lemma setAll_at_untouched value j k s s' : j ≠ k → setAll_at value j s = Some s' → untouched k s s'.
Proof.
  intros Hne Hrun. unfold setAll_at in Hrun.
  destruct (set_param j value s) as [t|] eqn:Ht; [|discriminate]. cbn in Hrun.
  eapply untouched_trans; [eapply set_param_untouched|eapply set_updated_untouched]; eauto.
Qed.

Lemma setParams_at_untouched j v k r s r' s' :
  j ≠ k → setParams_at j v (r, s) = Some (r', s') → untouched k s s'.
Proof.
  intros Hne (Ho & _ & _ & _ & Hk)%setParams_at_frame.
  split; [exact Ho|]. apply Hk. auto.
Qed.

Section Frame.

Variable rand_r : N → Z * N.
Variable RAND_MAX : Z.

Lemma randomParams_at_untouched j k s s' :
  j ≠ k → randomParams_at rand_r RAND_MAX j s = Some s' → untouched k s s'.
Proof.
  intros Hne (lo & hi & _ & _ & _ & _ & ->)%randomParams_at_Some.
  repeat split; cbn; now rewrite list_lookup_insert_ne.
Qed.

Lemma perturbParams_at_untouched factor j k s s' :
  j ≠ k → perturbParams_at rand_r RAND_MAX factor j s = Some s' → untouched k s s'.
Proof.
  intros Hne (lo & hi & p & _ & _ & _ & ->)%perturbParams_at_Some.
  repeat split; cbn; now rewrite list_lookup_insert_ne.
Qed.

(** X10: an operation on a group changes neither the value nor the flag of a
    component that is not in the group. This holds for [defaultParamsGroup],
    [randomParamsGroup], [perturbParamsGroup], [enforceBoundsGroup],
    [setAllInGroup], [resetGroup] and [setParamsGroup]. *)
Theorem group_operations_frame (g : JointGroup) (s s' : KinematicState) (k : nat)
    (factor value : float) (params : list float) (r : bool) :
  k ∉ state_index g →
  defaultParamsGroup g s = Some s' ∨
  randomParamsGroup rand_r RAND_MAX g s = Some s' ∨
  perturbParamsGroup rand_r RAND_MAX factor g s = Some s' ∨
  enforceBoundsGroup g s = Some s' ∨
  setAllInGroup value g s = Some s' ∨
  resetGroup g s = Some s' ∨
  setParamsGroup params g s = Some (r, s') →
  owner_ s' = owner_ s ∧ params_ s' !! k = params_ s !! k ∧ updated_ s' !! k = updated_ s !! k.
Proof.
  intros Hk Hrun. change (untouched k s s').
  assert (∀ j, j ∈ state_index g → j ≠ k) as Hne by (intros j Hj ->; auto).
  assert (∀ s s', enforceBoundsGroup g s = Some s' → untouched k s s') as Henf.
  { intros t t' Ht.
    apply (for_loop_indexed_preserves (λ _, enforceBounds_at) (untouched k t)
             (state_index g) 0 (dimension g) t t'); [|exact Ht|apply untouched_refl].
    intros _ j u u' Hj Hu Hp. eapply untouched_trans; [exact Hp|].
    apply (enforceBounds_at_untouched j k u u'); [auto|exact Hu]. }
  destruct Hrun as [Hrun|[Hrun|[Hrun|[Hrun|[Hrun|[Hrun|Hrun]]]]]].
  - apply (for_loop_indexed_preserves (λ _, default_at) (untouched k s)
             (state_index g) 0 (dimension g) s s'); [|exact Hrun|apply untouched_refl].
    intros _ j u u' Hj Hu Hp. eapply untouched_trans; [exact Hp|].
    apply (default_at_untouched j k u u'); [auto|exact Hu].
  - apply (for_loop_indexed_preserves (λ _, randomParams_at rand_r RAND_MAX) (untouched k s)
             (state_index g) 0 (dimension g) s s'); [|exact Hrun|apply untouched_refl].
    intros _ j u u' Hj Hu Hp. eapply untouched_trans; [exact Hp|].
    apply (randomParams_at_untouched j k u u'); [auto|exact Hu].
  - unfold perturbParamsGroup in Hrun.
    destruct (for_loop _ 0 (dimension g) s) as [t|] eqn:Ht; [|discriminate]. cbn in Hrun.
    apply (untouched_trans k s t s'); [|now apply Henf].
    apply (for_loop_indexed_preserves (λ _, perturbParams_at rand_r RAND_MAX factor)
             (untouched k s) (state_index g) 0 (dimension g) s t);
      [|exact Ht|apply untouched_refl].
    intros _ j u u' Hj Hu Hp. eapply untouched_trans; [exact Hp|].
    apply (perturbParams_at_untouched factor j k u u'); [auto|exact Hu].
  - now apply Henf.
  - apply (for_loop_indexed_preserves (λ _, setAll_at value) (untouched k s)
             (state_index g) 0 (dimension g) s s'); [|exact Hrun|apply untouched_refl].
    intros _ j u u' Hj Hu Hp. eapply untouched_trans; [exact Hp|].
    apply (setAll_at_untouched value j k u u'); [auto|exact Hu].
  - apply (for_loop_indexed_preserves (λ _ j s, set_updated j false s) (untouched k s)
             (state_index g) 0 (dimension g) s s'); [|exact Hrun|apply untouched_refl].
    intros _ j u u' Hj Hu Hp. eapply untouched_trans; [exact Hp|].
    apply (set_updated_untouched j false k u u'); [auto|exact Hu].
  - apply (for_loop_indexed_preserves
             (λ i j rs, v ← load params i; setParams_at j v rs)
             (λ rs : bool * KinematicState, untouched k s rs.2)
             (state_index g) 0 (dimension g) (false, s) (r, s'));
      [|exact Hrun|apply untouched_refl].
    intros i j [b u] [b' u'] Hj Hu Hp. cbn in *.
    destruct (load params i) as [v|]; [|discriminate]. cbn in Hu.
    eapply untouched_trans; [exact Hp|]. apply (setParams_at_untouched j v k b u b' u'); [auto|exact Hu].
Qed.

End Frame.

Lemma group_operations_frame_witness :
  ∃ s', perturbParamsGroup sample_rand_r sample_RAND_MAX 0.5 sample_group sample_state = Some s' ∧
    owner_ s' = owner_ sample_state ∧ params_ s' !! 0 = params_ sample_state !! 0 ∧
    updated_ s' !! 0 = updated_ sample_state !! 0.
Proof.
  destruct (perturbParamsGroup sample_rand_r sample_RAND_MAX 0.5 sample_group sample_state)
    as [s'|] eqn:E; [|vm_compute in E; discriminate].
  exists s'. split; [reflexivity|].
  apply (group_operations_frame sample_rand_r sample_RAND_MAX sample_group sample_state s' 0
           0.5 0 [] false).
  - cbn. intros [H|H]%elem_of_cons; [discriminate|]. now apply elem_of_nil in H.
  - right. right. left. exact E.
Defined.



(** ** Setting every component, and forgetting them *)

Lemma setAll_at_Some value j s s' :
  setAll_at value j s = Some s' ↔
  j < length (params_ s) ∧ j < length (updated_ s) ∧
  s' = with_updated (with_params s (<[j:=value]> (params_ s))) (<[j:=true]> (updated_ s)).
Proof.
  unfold setAll_at. split.
  - intros H. destruct (set_param j value s) as [t|] eqn:Ht; [|discriminate]. cbn in H.
    apply set_param_Some in Ht as [Hj ->]. apply set_updated_Some in H as [Hu ->].
    auto.
  - intros (Hj & Hu & ->).
    assert (set_param j value s = Some (with_params s (<[j:=value]> (params_ s)))) as ->
      by (apply set_param_Some; auto).
    cbn. apply set_updated_Some. auto.
Qed.

Lemma setAll_fold value js s :
  state_ok s → Forall (λ j, j < getDimension (owner_ s)) js →
  ∃ s', fold_opt (setAll_at value) js s = Some s' ∧ state_ok s' ∧
    owner_ s' = owner_ s ∧ randSeed_ s' = randSeed_ s ∧
    (∀ k, k ∈ js → params_ s' !! k = Some value ∧ updated_ s' !! k = Some true) ∧
    (∀ k, k ∉ js → params_ s' !! k = params_ s !! k ∧ updated_ s' !! k = updated_ s !! k).
Proof.
  intros Hs Hjs. revert s Hs Hjs. induction js as [|j js IH]; intros s Hs Hjs.
  - exists s. cbn. split; [reflexivity|]. split; [exact Hs|]. do 2 (split; [reflexivity|]).
    split; [|auto]. intros k Hk. now apply elem_of_nil in Hk.
  - apply Forall_cons in Hjs as [Hj Hjs]. pose proof Hs as [Hm Hp Hu]. cbn [fold_opt].
    set (t := with_updated (with_params s (<[j:=value]> (params_ s))) (<[j:=true]> (updated_ s))).
    assert (setAll_at value j s = Some t) as -> by (apply setAll_at_Some; repeat split; lia).
    cbn. assert (state_ok t) as Ht.
    { split; cbn; [exact Hm|now rewrite length_insert|now rewrite length_insert]. }
    destruct (IH t Ht Hjs) as (s' & Hrun & Hs' & Ho & Hr & Hin & Hout).
    exists s'. split; [exact Hrun|]. split; [exact Hs'|]. do 2 (split; [assumption|]). split.
    + intros k Hk. destruct (decide (k ∈ js)) as [Hkj|Hkj]; [now apply Hin|].
      apply elem_of_cons in Hk as [->|Hk]; [|contradiction].
      destruct (Hout j Hkj) as [-> ->]. cbn.
      split; apply list_lookup_insert_eq; lia.
    + intros k [Hne Hk]%not_elem_of_cons. destruct (Hout k Hk) as [-> ->]. cbn.
      split; apply list_lookup_insert_ne; auto.
Qed.

Lemma setAll_as_fold value s :
  setAll value s = fold_opt (setAll_at value) (seq 0 (getDimension (owner_ s))) s.
Proof. apply for_loop_seq. Qed.

Lemma setAllInGroup_fold value g s :
  dimension g = length (state_index g) →
  setAllInGroup value g s = fold_opt (setAll_at value) (state_index g) s.
Proof. intros Hd. unfold setAllInGroup. rewrite Hd. apply for_loop_indices0. Qed.

Lemma seenAllGroup_all g s :
  dimension g = length (state_index g) →
  seenAllGroup g s = all_opt (λ j, load (updated_ s) j) (state_index g).
Proof. intros Hd. unfold seenAllGroup. rewrite Hd. apply for_all_indices0. Qed.

(** The values the loops of the copies collect. *)
Lemma gather_fold (a : list float) js out vs :
  Forall2 (λ j v, a !! j = Some v) js vs →
  fold_opt (λ j out, v ← load a j; Some (out ++ [v])) js out = Some (out ++ vs).
Proof.
  intros H. revert out. induction H as [|j v js vs Hj _ IH]; intros out.
  - cbn. now rewrite app_nil_r.
  - cbn [fold_opt]. assert (load a j = Some v) as -> by exact Hj.
    cbn. rewrite IH, <- app_assoc. reflexivity.
Qed.

Lemma copyParamsGroup_fold g s :
  dimension g = length (state_index g) →
  copyParamsGroup g s
  = fold_opt (λ j out, v ← load (params_ s) j; Some (out ++ [v])) (state_index g) [].
Proof. intros Hd. unfold copyParamsGroup. rewrite Hd. apply for_loop_indices0. Qed.

Lemma copy_range_loop (a : list float) i n k out :
  i + k + n ≤ length a →
  for_loop (λ k out, v ← load a (i + k); Some (out ++ [v])) k n out
  = Some (out ++ take n (drop (i + k) a)).
Proof.
  revert k out. induction n as [|n IH]; intros k out Hn.
  - cbn. now rewrite take_0, app_nil_r.
  - cbn [for_loop]. destruct (drop_lookup_cons a (i + k)) as (x & Hx & Hd); [lia|].
    assert (load a (i + k) = Some x) as -> by exact Hx. cbn. rewrite IH by lia. rewrite Hd. cbn.
    rewrite <- app_assoc. cbn. now replace (i + S k) with (S (i + k)) by lia.
Qed.

Lemma copy_range_spec (a : list float) i n :
  i + n ≤ length a → copy_range a i n = Some (take n (drop i a)).
Proof.
  intros H. unfold copy_range. rewrite copy_range_loop by lia.
  now rewrite Nat.add_0_r.
Qed.

Lemma copyParams_spec s : state_ok s → copyParams s = Some (params_ s).
Proof.
  intros [_ Hp _]. unfold copyParams. rewrite copy_range_spec by (cbn; lia).
  rewrite drop_0, <- Hp, take_ge by lia. reflexivity.
Qed.

(** X11: [setAll] leaves every component with the value and seen, so the
    copy of the parameters is that value [getDimension] times; [setAllInGroup]
    does the same to the components of the group, which is what
    [seenAllGroup] and [copyParamsGroup] then see. Neither touches the seed. *)
Theorem setAll_fills (value : float) (g : JointGroup) (s : KinematicState) :
  state_ok s → group_ok (owner_ s) g →
  (∃ s', setAll value s = Some s' ∧ state_ok s' ∧ randSeed_ s' = randSeed_ s ∧
     seenAll s' = Some true ∧
     copyParams s' = Some (replicate (getDimension (owner_ s)) value)) ∧
  (∃ s', setAllInGroup value g s = Some s' ∧ state_ok s' ∧ randSeed_ s' = randSeed_ s ∧
     seenAllGroup g s' = Some true ∧
     copyParamsGroup g s' = Some (replicate (dimension g) value)).
Proof.
  intros Hs [Hd Hr]. split.
  - destruct (setAll_fold value (seq 0 (getDimension (owner_ s))) s Hs (Forall_seq_lt _))
      as (s' & Hrun & Hs' & Ho & Hseed & Hin & _).
    exists s'. rewrite setAll_as_fold. do 3 (split; [assumption|]). split.
    + apply seenAll_true. intros i Hi. apply Hin, elem_of_seq. rewrite Ho in Hi. lia.
    + rewrite copyParams_spec by exact Hs'. f_equal. apply replicate_eq.
      * destruct Hs' as [_ Hp _]. now rewrite Hp, Ho.
      * intros i Hi. apply Hin, elem_of_seq. lia.
  - destruct (setAll_fold value (state_index g) s Hs Hr)
      as (s' & Hrun & Hs' & Ho & Hseed & Hin & _).
    exists s'. rewrite setAllInGroup_fold by exact Hd. do 3 (split; [assumption|]). split.
    + rewrite seenAllGroup_all by exact Hd. apply all_opt_true. intros j Hj. now apply Hin.
    + rewrite copyParamsGroup_fold by exact Hd.
      rewrite (gather_fold _ _ [] (replicate (dimension g) value)); [reflexivity|].
      rewrite Hd. clear Hd Hr Hrun. 
      assert (∀ k, k ∈ state_index g → params_ s' !! k = Some value) as H
        by (intros k Hk; now apply Hin).
      clear Hin. induction (state_index g) as [|j js IH]; cbn; constructor.
      * apply H. left.
      * apply IH. intros k Hk. apply H. now right.
Qed.

Lemma setAll_fills_witness :
  (∃ s', setAll 3 sample_state = Some s' ∧ state_ok s' ∧
     randSeed_ s' = randSeed_ sample_state ∧ seenAll s' = Some true ∧
     copyParams s' = Some (replicate (getDimension (owner_ sample_state)) 3%float)) ∧
  (∃ s', setAllInGroup 3 sample_group sample_state = Some s' ∧ state_ok s' ∧
     randSeed_ s' = randSeed_ sample_state ∧ seenAllGroup sample_group s' = Some true ∧
     copyParamsGroup sample_group s' = Some (replicate (dimension sample_group) 3%float)).
Proof.
  apply (setAll_fills 3 sample_group sample_state).
  - exact sample_state_ok.
  - exact sample_group_ok.
Defined.



Lemma zip_seq_lookup {A} (l : list A) i n j v :
  (j, v) ∈ zip (seq i n) l ↔ ∃ k, j = i + k ∧ k < n ∧ l !! k = Some v.
Proof.
  revert i l. induction n as [|n IH]; intros i l.
  - cbn. split; [intros H; now apply elem_of_nil in H|intros (k & _ & Hk & _); lia].
  - destruct l as [|x l].
    + cbn. split; [intros H; now apply elem_of_nil in H|intros (k & _ & _ & Hk); discriminate].
    + cbn [seq zip zip_with]. change (zip_with pair (seq (S i) n) l) with (zip (seq (S i) n) l).
      rewrite elem_of_cons, IH. split.
      * intros [[= -> ->]|(k & -> & Hk & Hv)].
        -- exists 0. split; [lia|]. split; [lia|reflexivity].
        -- exists (S k). split; [lia|]. split; [lia|exact Hv].
      * intros ([|k] & -> & Hk & Hv).
        -- left. cbn in Hv. injection Hv as ->. f_equal. lia.
        -- right. exists k. split; [lia|]. split; [lia|exact Hv].
Qed.

(** X12: [reset] and [resetGroup] forget what was seen and keep the values:
    after [reset] no component is seen, so [seenAll] fails unless the
    dimension is 0 and [setParams] reports a change; after [resetGroup] the
    seen components are those that were seen and are not in the group. *)
Theorem reset_forgets (g : JointGroup) (params : list float) (s : KinematicState) :
  state_ok s → group_ok (owner_ s) g → getDimension (owner_ s) ≤ length params →
  ∃ s1 s2, reset s = Some s1 ∧ resetGroup g s = Some s2 ∧
    params_ s1 = params_ s ∧ params_ s2 = params_ s ∧
    (seenAll s1 = Some true ↔ getDimension (owner_ s) = 0) ∧
    (seenAllGroup g s2 = Some true ↔ dimension g = 0) ∧
    (∀ k, updated_ s2 !! k = Some true ↔ updated_ s !! k = Some true ∧ k ∉ state_index g) ∧
    (0 < getDimension (owner_ s) → ∃ s3, setParams params s1 = Some (true, s3)).
Proof.
  intros Hs [Hd Hr] Hlen. pose proof Hs as [Hm Hp Hu].
  destruct (set_updated_fold false (state_index g) s) as (s2 & Hrun & Ho & _ & Hp2 & _ & Hin & Hout).
  { eapply Forall_impl; [exact Hr|]. cbn. intros j Hj. lia. }
  set (s1 := with_updated s (replicate (getDimension (owner_ s)) false)).
  assert (state_ok s1) as Hs1.
  { split; cbn; [exact Hm|exact Hp|apply length_replicate]. }
  exists s1, s2. split; [now apply reset_spec|]. split; [now rewrite resetGroup_fold|].
  split; [reflexivity|]. split; [exact Hp2|]. split; [|split; [|split]].
  - rewrite seenAll_true. cbn. split.
    + intros H. destruct (getDimension (owner_ s)) as [|d] eqn:E; [reflexivity|].
      specialize (H 0 ltac:(lia)). cbn in H. discriminate.
    + intros -> i Hi. lia.
  - rewrite seenAllGroup_all by exact Hd. rewrite all_opt_true, Hd. split.
    + intros H. destruct (state_index g) as [|j js]; [reflexivity|].
      specialize (H j ltac:(left)). unfold load in H. rewrite Hin in H by left. discriminate.
    + intros Hnil%nil_length_inv. rewrite Hnil. intros j Hj. now apply elem_of_nil in Hj.
  - intros k. split.
    + intros H. destruct (decide (k ∈ state_index g)) as [Hk|Hk].
      * rewrite Hin in H by exact Hk. discriminate.
      * rewrite Hout in H by exact Hk. auto.
    + intros [H Hk]. now rewrite Hout.
  - intros Hpos.
    destruct (setParams_fold_spec (zip (seq 0 (getDimension (owner_ s1))) params) s1 Hs1)
      as (r & s3 & Hset & _ & _ & Hr3 & _).
    { rewrite zip_fst_le by (rewrite length_seq; exact Hlen). apply NoDup_seq. }
    { apply (Forall_zip_fst (λ j, j < getDimension (owner_ s1))), Forall_seq_lt. }
    exists s3. rewrite setParams_fold_eq by exact Hlen. rewrite Hset. do 2 f_equal.
    apply Hr3. cbn [owner_ s1 with_updated].
    destruct (lookup_lt_is_Some_2 params 0) as [v Hv]; [lia|].
    destruct (lookup_lt_is_Some_2 (params_ s) 0) as [p Hp0]; [lia|].
    exists 0, v, p, false. split; [apply zip_seq_lookup; exists 0; auto|].
    split; [exact Hp0|]. split; [|now right].
    cbn. apply lookup_replicate_2. lia.
Qed.

Lemma reset_forgets_witness :
  ∃ s1 s2, reset sample_state = Some s1 ∧ resetGroup sample_group sample_state = Some s2 ∧
    params_ s1 = params_ sample_state ∧ params_ s2 = params_ sample_state ∧
    (seenAll s1 = Some true ↔ getDimension (owner_ sample_state) = 0) ∧
    (seenAllGroup sample_group s2 = Some true ↔ dimension sample_group = 0) ∧
    (∀ k, updated_ s2 !! k = Some true
          ↔ updated_ sample_state !! k = Some true ∧ k ∉ state_index sample_group) ∧
    (0 < getDimension (owner_ sample_state) →
     ∃ s3, setParams [0.5%float; 5%float] s1 = Some (true, s3)).
Proof.
  apply (reset_forgets sample_group [0.5%float; 5%float] sample_state).
  - exact sample_state_ok.
  - exact sample_group_ok.
  - cbn. lia.
Defined.

(** ** Writing back what was read *)

Lemma dne_diag (p : float) : dne p p = is_nan p.
Proof. reflexivity. Qed.

Lemma setParams_fold_same jvs r s r' s' :
  (∀ j v, (j, v) ∈ jvs → params_ s !! j = Some v) →
  setParams_fold jvs (r, s) = Some (r', s') →
  params_ s' = params_ s.
Proof.
  intros Hjvs Hrun.
  apply (fold_opt_preserves (λ jv, setParams_at jv.1 jv.2)
           (λ rs : bool * KinematicState, params_ rs.2 = params_ s) jvs (r, s) (r', s'));
    [|exact Hrun|reflexivity].
  intros [j v] [b t] [b' t'] Hin Hstep Ht. cbn in *.
  apply setParams_at_Some in Hstep as (p & u & Hp & _ & Hstep).
  destruct (dne p v || negb u); destruct Hstep as [_ ->]; [|exact Ht]. cbn.
  rewrite Ht. apply list_insert_id. now apply Hjvs.
Qed.

(** X13: writing back with [setParams] what [copyParams] read leaves the
    values as they are and every component seen. It reports no change
    exactly when every component had been seen and none is NaN (a NaN differs
    from itself), and then the state is the one before. *)
Theorem copyParams_setParams (s : KinematicState) :
  state_ok s →
  ∃ r s', (out ← copyParams s; setParams out s) = Some (r, s') ∧
    owner_ s' = owner_ s ∧ randSeed_ s' = randSeed_ s ∧
    params_ s' = params_ s ∧ seenAll s' = Some true ∧
    (r = false ↔ seenAll s = Some true ∧ ∀ p, p ∈ params_ s → is_nan p = false) ∧
    (r = false → s' = s).
Proof.
  intros Hs. pose proof Hs as [Hm Hp Hu].
  set (jvs := zip (seq 0 (getDimension (owner_ s))) (params_ s)).
  assert (∀ j v, (j, v) ∈ jvs ↔ j < getDimension (owner_ s) ∧ params_ s !! j = Some v) as Hjvs.
  { intros j v. unfold jvs. rewrite zip_seq_lookup. split.
    - intros (k & -> & Hk & Hv). auto.
    - intros [Hj Hv]. exists j. auto. }
  destruct (setParams_fold_spec jvs s Hs) as (r & s' & Hset & Hval & Hseen & Hr & Hsame).
  { unfold jvs. rewrite zip_fst_le by (rewrite length_seq; lia). apply NoDup_seq. }
  { apply (Forall_zip_fst (λ j, j < getDimension (owner_ s))), Forall_seq_lt. }
  exists r, s'. rewrite copyParams_spec by exact Hs. cbn.
  rewrite setParams_fold_eq by lia. fold jvs. split; [exact Hset|].
  destruct (setParams_fold_frame _ _ _ _ _ Hset) as (Ho & Hseed & _ & _ & _).
  do 2 (split; [assumption|]). split; [|split; [|split; [|exact Hsame]]].
  - apply (setParams_fold_same jvs false s r s'); [|exact Hset].
    intros j v Hin. now apply Hjvs.
  - apply seenAll_true. intros i Hi. rewrite Ho in Hi.
    destruct (lookup_lt_is_Some_2 (params_ s) i) as [v Hv]; [lia|].
    apply (Hseen i v). now apply Hjvs.
  - rewrite seenAll_true. split.
    + intros Hfalse. assert (r ≠ true) as Hnot by (rewrite Hfalse; discriminate).
      rewrite Hr in Hnot. split.
      * intros i Hi.
        destruct (lookup_lt_is_Some_2 (params_ s) i) as [p Hpi]; [lia|].
        destruct (lookup_lt_is_Some_2 (updated_ s) i) as [[] Hui]; [lia|exact Hui|].
        exfalso. apply Hnot. exists i, p, p, false. split; [now apply Hjvs|]. auto.
      * intros p [i Hpi]%list_elem_of_lookup_1.
        assert (i < getDimension (owner_ s)) as Hi by (apply lookup_lt_Some in Hpi; lia).
        destruct (lookup_lt_is_Some_2 (updated_ s) i) as [u Hui]; [lia|].
        destruct (is_nan p) eqn:E; [|reflexivity].
        exfalso. apply Hnot. exists i, p, p, u. split; [now apply Hjvs|].
        do 2 (split; [assumption|]). left. now rewrite dne_diag.
    + intros [Hall Hnan]. destruct r; [|reflexivity].
      destruct Hr as [Hr _]. destruct (Hr eq_refl) as (j & v & p & u & Hin & Hpj & Huj & Hor).
      apply Hjvs in Hin as [Hj Hv]. assert (v = p) as -> by congruence.
      destruct Hor as [Hne| ->].
      * rewrite dne_diag, Hnan in Hne; [discriminate|]. eapply list_elem_of_lookup_2; eauto.
      * rewrite Hall in Huj by exact Hj. discriminate.
Qed.

Lemma copyParams_setParams_witness :
  ∃ r s', (out ← copyParams sample_state; setParams out sample_state) = Some (r, s') ∧
    owner_ s' = owner_ sample_state ∧ randSeed_ s' = randSeed_ sample_state ∧
    params_ s' = params_ sample_state ∧ seenAll s' = Some true ∧
    (r = false ↔ seenAll sample_state = Some true ∧
                 ∀ p, p ∈ params_ sample_state → is_nan p = false) ∧
    (r = false → s' = sample_state).
Proof. apply (copyParams_setParams sample_state). exact sample_state_ok. Defined.



(** ** Several joints at once *)

Lemma int_add_unsigned_small (U x : nat) :
  (Z.of_nat (U + x) ≤ INT_MAX)%Z → int_add_unsigned (Z.of_nat U) x = Z.of_nat (U + x).
Proof.
  unfold INT_MAX. intros H. unfold int_add_unsigned.
  assert (Z.to_N (Z.of_nat U mod 2 ^ 32) = N.of_nat U) as ->.
  { rewrite Z.mod_small by lia. lia. }
  assert (u32 (N.of_nat U) = U) as ->.
  { rewrite u32_small; [lia|]. change (2 ^ 32)%N with 4294967296%N. lia. }
  assert (uadd U x = U + x) as ->.
  { apply uadd_small. change (2 ^ 32)%N with 4294967296%N. lia. }
  cbv zeta. assert ((Z.of_nat (U + x) <=? INT_MAX)%Z = true) as ->; [|reflexivity].
  apply Z.leb_le. unfold INT_MAX. lia.
Qed.

Lemma offset_nat {A} (a : list A) (U : nat) :
  U ≤ length a → offset a (Z.of_nat U) = Some (drop U a).
Proof.
  intros H. unfold offset. rewrite decide_True by lia. now rewrite Nat2Z.id.
Qed.

Lemma fold_opt_app {A St} (F : A → St → option St) xs ys s :
  fold_opt F (xs ++ ys) s = s' ← fold_opt F xs s; fold_opt F ys s'.
Proof.
  revert s. induction xs as [|x xs IH]; intros s; [reflexivity|].
  cbn. destruct (F x s) as [t|]; [cbn; apply IH|reflexivity].
Qed.

Lemma setParams_fold_flag jvs c s :
  setParams_fold jvs (c, s)
  = (λ rs : bool * KinematicState, (c || rs.1, rs.2)) <$> setParams_fold jvs (false, s).
Proof.
  unfold setParams_fold. revert c s. induction jvs as [|[j v] jvs IH]; intros c s.
  - cbn. now rewrite orb_false_r.
  - cbn [fold_opt fst snd].
    destruct (setParams_at j v (false, s)) as [[r0 s0]|] eqn:E0.
    + apply setParams_at_Some in E0 as (p & u & Hp & Hu & E0).
      assert (setParams_at j v (c, s) = Some (c || r0, s0)) as ->.
      { apply setParams_at_Some. exists p, u. do 2 (split; [assumption|]).
        destruct (dne p v || negb u); destruct E0 as [-> ->]; split; try reflexivity.
        - apply orb_true_r.
        - apply orb_false_r. }
      cbn. rewrite (IH (c || r0) s0), (IH r0 s0).
      destruct (fold_opt _ jvs (false, s0)) as [[r1 s1]|]; [|reflexivity].
      cbn. now rewrite orb_assoc.
    + destruct (setParams_at j v (c, s)) as [[r1 s1]|] eqn:E1; [|reflexivity].
      apply setParams_at_Some in E1 as (p & u & Hp & Hu & E1).
      assert (is_Some (setParams_at j v (false, s))) as [x Hx]; [|congruence].
      destruct (dne p v || negb u) eqn:Ed.
      * eexists (true, _). apply setParams_at_Some. exists p, u. rewrite Ed. eauto.
      * eexists (false, _). apply setParams_at_Some. exists p, u. rewrite Ed. eauto.
Qed.

Lemma setParams_fold_ok jvs r s r' s' :
  state_ok s → setParams_fold jvs (r, s) = Some (r', s') → state_ok s'.
Proof.
  intros [Hm Hp Hu] (Ho & _ & Hp' & Hu' & _)%setParams_fold_frame.
  split; [now rewrite Ho|rewrite Ho; lia|rewrite Ho; lia].
Qed.

Lemma setParams_fold_seen jvs r s r' s' :
  setParams_fold jvs (r, s) = Some (r', s') →
  (∀ j v, (j, v) ∈ jvs → updated_ s' !! j = Some true) ∧
  (∀ k, updated_ s !! k = Some true → updated_ s' !! k = Some true).
Proof.
  intros Hrun. split.
  - intros j v Hin.
    apply (fold_opt_establishes (λ jv, setParams_at jv.1 jv.2)
             (λ jv (rs : bool * KinematicState), updated_ rs.2 !! jv.1 = Some true)
             jvs (r, s) (r', s')) with (y := (j, v)); [| |exact Hrun|exact Hin].
    + intros [j1 v1] [b t] [b' t'] Hstep. cbn in *.
      now apply setParams_at_cell in Hstep as [_ H].
    + intros [j1 v1] [j2 v2] [b t] [b' t'] Hstep H. cbn in *.
      destruct (decide (j2 = j1)) as [->|Hne].
      * now apply setParams_at_cell in Hstep as [_ H'].
      * apply setParams_at_frame in Hstep as (_ & _ & _ & _ & Hk).
        destruct (Hk j2 Hne) as [_ ->]. exact H.
  - intros k Hk.
    apply (fold_opt_preserves (λ jv, setParams_at jv.1 jv.2)
             (λ rs : bool * KinematicState, updated_ rs.2 !! k = Some true)
             jvs (r, s) (r', s')); [|exact Hrun|exact Hk].
    intros [j1 v1] [b t] [b' t'] _ Hstep H. cbn in *.
    destruct (decide (k = j1)) as [->|Hne].
    + now apply setParams_at_cell in Hstep as [_ H'].
    + apply setParams_at_frame in Hstep as (_ & _ & _ & _ & Hk').
      destruct (Hk' k Hne) as [_ ->]. exact H.
Qed.

Lemma setParamsJoints_at_eq params n joint c (U : nat) s :
  state_ok s → jointMap_ (owner_ s) !! n = Some joint → joint_ok (owner_ s) joint →
  U + usedParams joint ≤ length params →
  (Z.of_nat (U + usedParams joint) ≤ INT_MAX)%Z →
  setParamsJoints_at params n (c, Z.of_nat U, s)
  = (λ rs : bool * KinematicState, (c || rs.1, Z.of_nat (U + usedParams joint), rs.2))
      <$> setParams_fold (zip (seq (stateIndex joint) (usedParams joint)) (drop U params))
            (false, s).
Proof.
  intros Hs Hn Hj Hlen Hmax. unfold setParamsJoints_at.
  rewrite offset_nat by lia. cbn.
  rewrite (setParamsJoint_fold_eq (drop U params) n joint s Hs Hn Hj)
    by (rewrite length_drop; lia).
  destruct (setParams_fold _ (false, s)) as [[r1 s1]|]; [|reflexivity]. cbn.
  unfold getJoint. rewrite Hn. cbn. now rewrite int_add_unsigned_small.
Qed.

Lemma joints_values_range m params js :
  Forall (joint_ok m) js →
  Forall (λ jv : nat * float, jv.1 < getDimension m) (joints_values params js).
Proof.
  intros H. revert params. induction H as [|j js Hj _ IH]; intros params; [constructor|].
  cbn. apply Forall_app. split; [|apply IH].
  apply (Forall_zip_fst (λ k, k < getDimension m)). apply Forall_forall.
  intros k Hk%elem_of_seq. unfold joint_ok in Hj. lia.
Qed.

Lemma setParamsJoints_fold params m names js c (U : nat) s :
  state_ok s → owner_ s = m →
  Forall2 (λ n j, jointMap_ m !! n = Some j) names js → Forall (joint_ok m) js →
  U + sum_usedParams js ≤ length params →
  (Z.of_nat (U + sum_usedParams js) ≤ INT_MAX)%Z →
  fold_opt (setParamsJoints_at params) names (c, Z.of_nat U, s)
  = (λ rs : bool * KinematicState, (c || rs.1, Z.of_nat (U + sum_usedParams js), rs.2))
      <$> setParams_fold (joints_values (drop U params) js) (false, s).
Proof.
  intros Hs Ho Hnames. revert c U s Hs Ho.
  induction Hnames as [|n j names js Hn _ IH]; intros c U s Hs Ho Hok Hlen Hmax.
  - cbn. now rewrite orb_false_r, Nat.add_0_r.
  - apply Forall_cons in Hok as [Hj Hok]. cbn [sum_usedParams] in Hlen, Hmax.
    cbn [fold_opt joints_values sum_usedParams]. subst m.
    rewrite (setParamsJoints_at_eq params n j c U s Hs Hn Hj) by lia.
    unfold setParams_fold at 2. rewrite fold_opt_app. fold (setParams_fold).
    change (fold_opt (λ jv : nat * float, setParams_at jv.1 jv.2)) with setParams_fold.
    destruct (setParams_fold (zip _ (drop U params)) (false, s)) as [[r1 s1]|] eqn:E1;
      [|reflexivity].
    cbn [fmap option_fmap option_map mbind option_bind fst snd].
    pose proof (setParams_fold_ok _ _ _ _ _ Hs E1) as Hs1.
    apply setParams_fold_frame in E1 as (Ho1 & _).
    rewrite (IH (c || r1) (U + usedParams j) s1 Hs1 Ho1) by (try assumption; lia).
    rewrite drop_drop, (setParams_fold_flag _ r1 s1).
    destruct (setParams_fold _ (false, s1)) as [[r2 s2]|]; [|reflexivity].
    cbn. now rewrite orb_assoc, Nat.add_assoc.
Qed.

Lemma named_joints_ok m names js :
  registry_ok m → Forall2 (λ n j, jointMap_ m !! n = Some j) names js → Forall (joint_ok m) js.
Proof.
  intros Hreg H. induction H as [|n j names js Hn _ IH]; constructor; [|exact IH].
  eapply joints_ok; eauto.
Qed.

Lemma setParamsJoints_eq params names js s :
  state_ok s → Forall (joint_ok (owner_ s)) js →
  Forall2 (λ n j, jointMap_ (owner_ s) !! n = Some j) names js →
  (N.of_nat (length names) ≤ UINT_MAX)%N →
  sum_usedParams js ≤ length params →
  (Z.of_nat (sum_usedParams js) ≤ INT_MAX)%Z →
  setParamsJoints params names s = setParams_fold (joints_values params js) (false, s).
Proof.
  intros Hs Hok Hnames Hsize Hlen Hmax.
  unfold setParamsJoints. rewrite size_of_fits by exact Hsize. cbn.
  rewrite (for_loop_ext _ (λ i st, n ← load ([] ++ names) i; setParamsJoints_at params n st))
    by (intros k [[c u] t] _; reflexivity).
  rewrite (for_loop_list (setParamsJoints_at params) [] names).
  change 0%Z with (Z.of_nat 0).
  rewrite (setParamsJoints_fold params (owner_ s) names js false 0 s Hs eq_refl Hnames Hok)
    by (cbn; lia).
  rewrite drop_0. destruct (setParams_fold _ (false, s)) as [[r1 s1]|]; reflexivity.
Qed.

Lemma joints_values_elem params js k v :
  (k, v) ∈ joints_values params js →
  ∃ j, j ∈ js ∧ stateIndex j ≤ k < stateIndex j + usedParams j.
Proof.
  revert params. induction js as [|j js IH]; intros params; cbn.
  - intros H. now apply elem_of_nil in H.
  - intros [H|H]%elem_of_app.
    + apply zip_seq_lookup in H as (i & -> & Hi & _). exists j. split; [left|lia].
    + destruct (IH _ H) as (j' & Hj' & Hk). exists j'. split; [now right|exact Hk].
Qed.

Lemma joints_values_covers params js j k :
  sum_usedParams js ≤ length params → j ∈ js →
  stateIndex j ≤ k < stateIndex j + usedParams j →
  ∃ v, (k, v) ∈ joints_values params js.
Proof.
  revert params. induction js as [|j0 js IH]; intros params Hlen Hj Hk.
  - now apply elem_of_nil in Hj.
  - cbn in Hlen |- *. apply elem_of_cons in Hj as [->|Hj].
    + destruct (lookup_lt_is_Some_2 params (k - stateIndex j0)) as [v Hv]; [lia|].
      exists v. apply elem_of_app. left. apply zip_seq_lookup.
      exists (k - stateIndex j0). split; [lia|]. split; [lia|exact Hv].
    + destruct (IH (drop (usedParams j0) params)) as [v Hv];
        [rewrite length_drop; lia|exact Hj|exact Hk|].
      exists v. apply elem_of_app. now right.
Qed.

Lemma joints_values_tiled params js start :
  tiles start js → joints_values params js = zip (seq start (sum_usedParams js)) params.
Proof.
  revert params start. induction js as [|j js IH]; intros params start; [reflexivity|].
  cbn [tiles joints_values sum_usedParams]. intros [-> Ht].
  rewrite (IH _ _ Ht). rewrite seq_app, zip_with_app_l.
  rewrite zip_with_take_r. now rewrite length_seq.
Qed.

Lemma setParamsJoints_seen params names joints s r s' :
  state_ok s → state_ok s' → owner_ s' = owner_ s → registry_ok (owner_ s) →
  Forall2 (λ n j, jointMap_ (owner_ s) !! n = Some j) names joints →
  sum_usedParams joints ≤ length params →
  setParams_fold (joints_values params joints) (false, s) = Some (r, s') →
  ∀ n, n ∈ names → seenJoint n s' = Some true.
Proof.
  intros Hs Hs' Ho Hreg Hnames Hlen Hrun n [i Hi]%list_elem_of_lookup_1.
  destruct (setParams_fold_seen _ _ _ _ _ Hrun) as [Hseen _].
  destruct (Forall2_lookup_l _ _ _ _ _ Hnames Hi) as (j & Hj & Hn).
  assert (joint_ok (owner_ s) j) as Hjok by (eapply joints_ok; eauto).
  apply (seenJoint_true n j s' Hs'); [now rewrite Ho|now rewrite Ho|].
  intros k Hk.
  destruct (joints_values_covers params joints j k Hlen) as [v Hv];
    [eapply list_elem_of_lookup_2; eauto|exact Hk|].
  exact (Hseen k v Hv).
Qed.

(** X14: [setParamsJoints] hands each named joint its share of [params], in
    the order of the names. When every name is a joint of the model and
    [params] has a value for each parameter of each of them, it returns, and
    then every named joint is seen, what was seen stays seen, a component of
    no named joint keeps its value and its flag, and a result [false] means
    that the state is as it was. *)
Theorem setParamsJoints_sets (params : list float) (names : list string)
    (joints : list Joint) (s : KinematicState) :
  state_ok s → registry_ok (owner_ s) →
  Forall2 (λ n j, jointMap_ (owner_ s) !! n = Some j) names joints →
  (N.of_nat (length names) ≤ UINT_MAX)%N →
  sum_usedParams joints ≤ length params →
  (Z.of_nat (sum_usedParams joints) ≤ INT_MAX)%Z →
  ∃ r s', setParamsJoints params names s = Some (r, s') ∧ state_ok s' ∧
    owner_ s' = owner_ s ∧ randSeed_ s' = randSeed_ s ∧
    (∀ n, n ∈ names → seenJoint n s' = Some true) ∧
    (∀ k, updated_ s !! k = Some true → updated_ s' !! k = Some true) ∧
    (∀ k, (∀ j, j ∈ joints → ¬ (stateIndex j ≤ k < stateIndex j + usedParams j)) →
          params_ s' !! k = params_ s !! k ∧ updated_ s' !! k = updated_ s !! k) ∧
    (r = false → s' = s).
Proof.
  intros Hs Hreg Hnames Hsize Hlen Hmax.
  pose proof (named_joints_ok _ _ _ Hreg Hnames) as Hok.
  rewrite (setParamsJoints_eq params names joints s) by assumption.
  destruct (setParams_fold_defined (joints_values params joints) false s Hs
              (joints_values_range _ _ _ Hok)) as (r & s' & Hrun & Hs').
  exists r, s'. split; [exact Hrun|]. split; [exact Hs'|].
  destruct (setParams_fold_frame _ _ _ _ _ Hrun) as (Ho & Hseed & _ & _ & Hframe).
  destruct (setParams_fold_seen _ _ _ _ _ Hrun) as [_ Hmono].
  do 2 (split; [assumption|]). split; [|split; [exact Hmono|split]].
  - exact (setParamsJoints_seen params names joints s r s' Hs Hs' Ho Hreg Hnames Hlen Hrun).
  - intros k Hk. apply Hframe. intros ([k' v] & -> & Hin)%list_elem_of_fmap.
    destruct (joints_values_elem _ _ _ _ Hin) as (j & Hj & Hr). exact (Hk j Hj Hr).
  - intros ->. now apply setParams_fold_false in Hrun as [_ ->].
Qed.

Lemma sample_names : 
  Forall2 (λ n j, jointMap_ (owner_ sample_state) !! n = Some j) ["elbow"; "shoulder"]
    [{| name := "elbow"; usedParams := 1; stateIndex := 1 |};
     {| name := "shoulder"; usedParams := 1; stateIndex := 0 |}].
Proof. repeat constructor. Qed.

Lemma setParamsJoints_sets_witness :
  let joints := [{| name := "elbow"; usedParams := 1; stateIndex := 1 |};
                 {| name := "shoulder"; usedParams := 1; stateIndex := 0 |}] in
  ∃ r s', setParamsJoints [3%float; 0.5%float] ["elbow"; "shoulder"] sample_state
          = Some (r, s') ∧ state_ok s' ∧
    owner_ s' = owner_ sample_state ∧ randSeed_ s' = randSeed_ sample_state ∧
    (∀ n, n ∈ ["elbow"; "shoulder"] → seenJoint n s' = Some true) ∧
    (∀ k, updated_ sample_state !! k = Some true → updated_ s' !! k = Some true) ∧
    (∀ k, (∀ j, j ∈ joints → ¬ (stateIndex j ≤ k < stateIndex j + usedParams j)) →
          params_ s' !! k = params_ sample_state !! k ∧
          updated_ s' !! k = updated_ sample_state !! k) ∧
    (r = false → s' = sample_state).
Proof.
  apply (setParamsJoints_sets [3%float; 0.5%float] ["elbow"; "shoulder"] _ sample_state).
  - exact sample_state_ok.
  - exact sample_registry_ok.
  - exact sample_names.
  - cbn. unfold UINT_MAX. lia.
  - cbn. lia.
  - cbn. unfold INT_MAX. lia.
Defined.



(** ** Copies of the parameters of joints *)

Lemma copyParamsJoint_spec n joint s :
  state_ok s → jointMap_ (owner_ s) !! n = Some joint → joint_ok (owner_ s) joint →
  copyParamsJoint n s = Some (joint_params s joint).
Proof.
  intros [_ Hp _] Hn Hj. unfold copyParamsJoint, getJoint. rewrite Hn. cbn.
  apply copy_range_spec. unfold joint_ok in Hj. lia.
Qed.

Lemma joint_params_length s j :
  state_ok s → joint_ok (owner_ s) j → length (joint_params s j) = usedParams j.
Proof.
  intros [_ Hp _] Hj. unfold joint_params, joint_ok in *.
  rewrite length_take, length_drop. lia.
Qed.

Lemma copyParamsJoints_fold names js s out :
  state_ok s → Forall (joint_ok (owner_ s)) js →
  Forall2 (λ n j, jointMap_ (owner_ s) !! n = Some j) names js →
  fold_opt (λ n params, p ← copyParamsJoint n s; Some (params ++ p)) names out
  = Some (out ++ flat_map (joint_params s) js).
Proof.
  intros Hs Hok Hnames. revert out Hok.
  induction Hnames as [|n j names js Hn _ IH]; intros out Hok.
  - cbn. now rewrite app_nil_r.
  - apply Forall_cons in Hok as [Hj Hok]. cbn [fold_opt flat_map].
    rewrite (copyParamsJoint_spec n j s Hs Hn Hj). cbn.
    rewrite IH by exact Hok. now rewrite app_assoc.
Qed.

Lemma copyParamsJoints_spec names js s :
  state_ok s → Forall (joint_ok (owner_ s)) js →
  Forall2 (λ n j, jointMap_ (owner_ s) !! n = Some j) names js →
  (N.of_nat (length names) ≤ UINT_MAX)%N →
  copyParamsJoints names s = Some (flat_map (joint_params s) js).
Proof.
  intros Hs Hok Hnames Hsize. unfold copyParamsJoints.
  rewrite size_of_fits by exact Hsize. cbn.
  rewrite (for_loop_list (λ n params, p ← copyParamsJoint n s; Some (params ++ p)) [] names).
  now rewrite (copyParamsJoints_fold names js s [] Hs Hok Hnames).
Qed.

Lemma flat_map_length_joints s js :
  state_ok s → Forall (joint_ok (owner_ s)) js →
  length (flat_map (joint_params s) js) = sum_usedParams js.
Proof.
  intros Hs Hok. induction Hok as [|j js Hj _ IH]; [reflexivity|].
  cbn. rewrite length_app, IH, joint_params_length by assumption. reflexivity.
Qed.

Lemma flat_map_tiled s js start :
  tiles start js →
  flat_map (joint_params s) js = take (sum_usedParams js) (drop start (params_ s)).
Proof.
  revert start. induction js as [|j js IH]; intros start.
  - cbn. now rewrite take_0.
  - cbn [tiles flat_map sum_usedParams]. intros [Hst Ht]. rewrite (IH _ Ht).
    unfold joint_params. rewrite Hst, <- take_take_drop, drop_drop. reflexivity.
Qed.

Lemma copied_values s js k v :
  state_ok s → Forall (joint_ok (owner_ s)) js →
  (k, v) ∈ joints_values (flat_map (joint_params s) js) js → params_ s !! k = Some v.
Proof.
  intros Hs Hok. induction Hok as [|j js Hj Hok IH]; cbn [joints_values flat_map].
  - intros H. now apply elem_of_nil in H.
  - pose proof (joint_params_length s j Hs Hj) as Hlen.
    intros [H|H]%elem_of_app.
    + apply zip_seq_lookup in H as (i & -> & Hi & Hv).
      rewrite lookup_app_l in Hv by lia. unfold joint_params in Hv.
      rewrite lookup_take_lt, lookup_drop in Hv by lia. exact Hv.
    + rewrite drop_app_length' in H by (symmetry; exact Hlen). now apply IH.
Qed.

Lemma named_joints (m : KinematicModel) (js : list Joint) :
  (∀ j, j ∈ js → jointMap_ m !! name j = Some j) →
  Forall2 (λ n j, jointMap_ m !! n = Some j) (name <$> js) js.
Proof.
  intros H. induction js as [|j js IH]; cbn; constructor.
  - apply H. left.
  - apply IH. intros j' Hj'. apply H. now right.
Qed.

Lemma tiled_joints_ok m :
  tiles 0 (jointList_ m) → sum_usedParams (jointList_ m) = getDimension m →
  Forall (joint_ok m) (jointList_ m).
Proof.
  intros Ht Hsum. apply Forall_forall. intros j Hj.
  destruct (tiles_range 0 _ j Ht Hj) as [_ H]. unfold joint_ok. lia.
Qed.

(** X15: when the joints of the model, in the order of its list, tile the
    state, addressing every joint in that order is addressing the state as
    a whole: [setParamsJoints] with the names of all joints is [setParams],
    and [copyParamsJoints] with them is [copyParams], the copy of the
    parameters as they are. *)
Theorem all_joints_whole_state (params : list float) (s : KinematicState) :
  state_ok s →
  tiles 0 (jointList_ (owner_ s)) →
  sum_usedParams (jointList_ (owner_ s)) = getDimension (owner_ s) →
  (∀ j, j ∈ jointList_ (owner_ s) → jointMap_ (owner_ s) !! name j = Some j) →
  (N.of_nat (length (jointList_ (owner_ s))) ≤ UINT_MAX)%N →
  getDimension (owner_ s) ≤ length params →
  setParamsJoints params (name <$> jointList_ (owner_ s)) s = setParams params s ∧
  copyParamsJoints (name <$> jointList_ (owner_ s)) s = copyParams s ∧
  copyParams s = Some (params_ s).
Proof.
  intros Hs Ht Hsum Hreg Hsize Hlen. pose proof Hs as [[_ Hfit] Hp _].
  pose proof (tiled_joints_ok _ Ht Hsum) as Hok.
  pose proof (named_joints _ _ Hreg) as Hnames.
  assert (N.of_nat (length (name <$> jointList_ (owner_ s))) ≤ UINT_MAX)%N as Hsize'
    by now rewrite length_fmap.
  split; [|split].
  - rewrite (setParamsJoints_eq params _ (jointList_ (owner_ s)) s Hs Hok Hnames Hsize').
    + rewrite (joints_values_tiled params _ 0 Ht), Hsum.
      now rewrite setParams_fold_eq by exact Hlen.
    + lia.
    + rewrite Hsum. unfold INT_MAX. change (2 ^ 31)%N with 2147483648%N in Hfit. lia.
  - rewrite (copyParamsJoints_spec _ (jointList_ (owner_ s)) s Hs Hok Hnames Hsize').
    rewrite (flat_map_tiled s _ 0 Ht), Hsum, drop_0, <- Hp, take_ge by lia.
    symmetry. now apply copyParams_spec.
  - now apply copyParams_spec.
Qed.

Lemma all_joints_whole_state_witness :
  setParamsJoints [0.5%float; 3%float] (name <$> jointList_ (owner_ sample_state)) sample_state
  = setParams [0.5%float; 3%float] sample_state ∧
  copyParamsJoints (name <$> jointList_ (owner_ sample_state)) sample_state
  = copyParams sample_state ∧
  copyParams sample_state = Some (params_ sample_state).
Proof.
  apply (all_joints_whole_state [0.5%float; 3%float] sample_state).
  - exact sample_state_ok.
  - cbn. auto.
  - reflexivity.
  - exact sample_joints_registered.
  - cbn. unfold UINT_MAX. lia.
  - cbn. lia.
Defined.

(** X16: [copyParamsJoints] returns the parameters of the named joints, one
    joint after the other, and [getParamsJoint] points at those of one joint.
    Handing the copy back to [setParamsJoints] with the same names changes no
    value and leaves the named joints seen. *)
Theorem copyParamsJoints_setParamsJoints (names : list string) (joints : list Joint)
    (s : KinematicState) :
  state_ok s → registry_ok (owner_ s) →
  Forall2 (λ n j, jointMap_ (owner_ s) !! n = Some j) names joints →
  (N.of_nat (length names) ≤ UINT_MAX)%N →
  (Z.of_nat (sum_usedParams joints) ≤ INT_MAX)%Z →
  ∃ out r s', copyParamsJoints names s = Some out ∧
    Forall2 (λ n j, copyParamsJoint n s
                    = Some (take (usedParams j) (drop (stateIndex j) (params_ s))) ∧
                    getParamsJoint n s = Some (stateIndex j)) names joints ∧
    out = flat_map (λ j, take (usedParams j) (drop (stateIndex j) (params_ s))) joints ∧
    length out = sum_usedParams joints ∧
    setParamsJoints out names s = Some (r, s') ∧
    params_ s' = params_ s ∧
    (∀ n, n ∈ names → seenJoint n s' = Some true).
Proof.
  intros Hs Hreg Hnames Hsize Hmax.
  pose proof (named_joints_ok _ _ _ Hreg Hnames) as Hok.
  pose proof (flat_map_length_joints s joints Hs Hok) as Hlen.
  assert (sum_usedParams joints ≤ length (flat_map (joint_params s) joints)) as Hle by lia.
  destruct (setParams_fold_defined
              (joints_values (flat_map (joint_params s) joints) joints) false s Hs
              (joints_values_range _ _ _ Hok)) as (r & s' & Hrun & Hs').
  destruct (setParams_fold_frame _ _ _ _ _ Hrun) as (Ho & _).
  pose proof (setParamsJoints_seen _ names joints s r s' Hs Hs' Ho Hreg Hnames Hle Hrun)
    as Hseen.
  pose proof (setParamsJoints_eq _ names joints s Hs Hok Hnames Hsize Hle Hmax) as Heq.
  exists (flat_map (joint_params s) joints), r, s'.
  split; [now apply copyParamsJoints_spec|]. split; [|split; [reflexivity|]].
  - eapply Forall2_impl; [exact Hnames|]. cbn. intros n j Hn. split.
    + apply copyParamsJoint_spec; [exact Hs|exact Hn|]. eapply joints_ok; eauto.
    + unfold getParamsJoint, getJoint. now rewrite Hn.
  - split; [exact Hlen|]. split; [now rewrite Heq|]. split; [|exact Hseen].
    apply (setParams_fold_same (joints_values (flat_map (joint_params s) joints) joints)
             false s r s'); [|exact Hrun].
    intros k v Hin. eapply copied_values; eauto.
Qed.

Lemma copyParamsJoints_setParamsJoints_witness :
  let names := ["elbow"; "shoulder"] in
  let joints := [{| name := "elbow"; usedParams := 1; stateIndex := 1 |};
                 {| name := "shoulder"; usedParams := 1; stateIndex := 0 |}] in
  ∃ out r s', copyParamsJoints names sample_state = Some out ∧
    Forall2 (λ n j, copyParamsJoint n sample_state
                    = Some (take (usedParams j) (drop (stateIndex j) (params_ sample_state))) ∧
                    getParamsJoint n sample_state = Some (stateIndex j)) names joints ∧
    out = flat_map (λ j, take (usedParams j) (drop (stateIndex j) (params_ sample_state)))
            joints ∧
    length out = sum_usedParams joints ∧
    setParamsJoints out names sample_state = Some (r, s') ∧
    params_ s' = params_ sample_state ∧
    (∀ n, n ∈ names → seenJoint n s' = Some true).
Proof.
  apply (copyParamsJoints_setParamsJoints ["elbow"; "shoulder"] _ sample_state).
  - exact sample_state_ok.
  - exact sample_registry_ok.
  - exact sample_names.
  - cbn. unfold UINT_MAX. lia.
  - cbn. unfold INT_MAX. lia.
Defined.



(** ** The group of all components *)

Lemma for_loop_whole {St} (F : nat → St → option St) n s :
  for_loop (λ i s, j ← load (seq 0 n) i; F j s) 0 n s = for_loop F 0 n s.
Proof.
  apply for_loop_ext. intros k t Hk. unfold load.
  rewrite lookup_seq_lt by lia. reflexivity.
Qed.

Lemma for_all_whole (T : nat → option bool) n :
  for_all (λ i, j ← load (seq 0 n) i; T j) 0 n = for_all T 0 n.
Proof.
  pose proof (for_all_indices0 T (seq 0 n)) as H. rewrite length_seq in H.
  rewrite H. symmetry. apply for_all_seq.
Qed.

Section Whole.

Variable rand_r : N → Z * N.
Variable RAND_MAX : Z.

(** X17: on the group that lists every component of the state in order,
    the operations on a group are the operations on the whole state, with
    one exception: [defaultParamsGroup] gives the values of [defaultParams]
    but leaves the flags as they are, where [defaultParams] marks every
    component as seen. *)
Theorem whole_group_operations (g : JointGroup) (s : KinematicState)
    (params : list float) (value factor : float) :
  dimension g = getDimension (owner_ s) →
  state_index g = seq 0 (getDimension (owner_ s)) →
  randomParamsGroup rand_r RAND_MAX g s = randomParams rand_r RAND_MAX s ∧
  perturbParamsGroup rand_r RAND_MAX factor g s = perturbParams rand_r RAND_MAX factor s ∧
  enforceBoundsGroup g s = enforceBounds s ∧
  checkBoundsGroup g s = checkBounds s ∧
  resetGroup g s = reset s ∧
  seenAllGroup g s = seenAll s ∧
  setParamsGroup params g s = setParams params s ∧
  setAllInGroup value g s = setAll value s ∧
  (state_ok s → copyParamsGroup g s = copyParams s) ∧
  (state_ok s →
   ∃ s1 s2, defaultParamsGroup g s = Some s1 ∧ defaultParams s = Some s2 ∧
     params_ s1 = params_ s2 ∧ updated_ s1 = updated_ s ∧ seenAll s2 = Some true).
Proof.
  intros Hd Hi.
  assert (∀ t, enforceBoundsGroup g t = for_loop enforceBounds_at 0 (getDimension (owner_ s)) t)
    as Henf.
  { intros t. unfold enforceBoundsGroup. rewrite Hd, Hi. apply for_loop_whole. }
  split; [|split; [|split; [|split; [|split; [|split; [|split; [|split; [|split]]]]]]]].
  - unfold randomParamsGroup, randomParams. rewrite Hd, Hi. apply for_loop_whole.
  - unfold perturbParamsGroup, perturbParams. rewrite Hd, Hi, for_loop_whole.
    destruct (for_loop _ 0 _ s) as [t|] eqn:E; [|reflexivity]. cbn.
    rewrite Henf. unfold enforceBounds. f_equal.
    clear Henf. rewrite for_loop_seq in E. symmetry. f_equal.
    apply (fold_opt_preserves (perturbParams_at rand_r RAND_MAX factor)
             (λ t, owner_ t = owner_ s) (seq 0 (getDimension (owner_ s))) s t);
      [|exact E|reflexivity].
    intros j u u' _ (lo & hi & p & _ & _ & _ & ->)%perturbParams_at_Some Hu. exact Hu.
  - rewrite Henf. reflexivity.
  - unfold checkBoundsGroup, checkBounds. rewrite Hd, Hi. apply for_all_whole.
  - unfold resetGroup, reset. rewrite Hd, Hi.
    apply (for_loop_whole (λ j s, set_updated j false s)).
  - unfold seenAllGroup, seenAll. rewrite Hd, Hi.
    apply (for_all_whole (λ j, load (updated_ s) j)).
  - unfold setParamsGroup, setParams. rewrite Hd, Hi. apply for_loop_ext.
    intros k t Hk.
    assert (load (seq 0 (getDimension (owner_ s))) k = Some k) as ->
      by (apply lookup_seq_lt; lia).
    reflexivity.
  - unfold setAllInGroup, setAll. rewrite Hd, Hi. apply for_loop_whole.
  - intros Hs. rewrite copyParams_spec by exact Hs.
    rewrite copyParamsGroup_fold by (rewrite Hd, Hi, length_seq; reflexivity).
    rewrite (gather_fold _ _ [] (params_ s)); [reflexivity|].
    rewrite Hi. destruct Hs as [_ Hp _]. rewrite <- Hp. clear.
    induction (params_ s) as [|x l IH] using rev_ind; [constructor|].
    rewrite length_app. cbn. rewrite seq_app. cbn. apply Forall2_app.
    + eapply Forall2_impl; [exact IH|]. cbn. intros j v Hj.
      rewrite lookup_app_l; [exact Hj|]. now apply lookup_lt_Some in Hj.
    + constructor; [|constructor]. now rewrite list_lookup_middle.
  - intros Hs.
    assert (group_ok (owner_ s) g) as Hg.
    { split; [rewrite Hd, Hi, length_seq; reflexivity|rewrite Hi; apply Forall_seq_lt]. }
    destruct (defaultParamsGroup_defined g s Hs Hg) as (s1 & H1 & Hs1 & Ho1 & Hu1 & Hv1).
    destruct (defaultParams_defined s Hs) as (s2 & H2 & Hs2 & Ho2 & Hv2).
    exists s1, s2. do 2 (split; [assumption|]). split; [|split; [exact Hu1|]].
    + destruct Hs1 as [_ Hp1 _], Hs2 as [_ Hp2 _].
      apply list_eq_same_length with (n := getDimension (owner_ s)); [congruence..|].
      intros i Hlt.
      destruct (Hv1 i) as (lo & hi & Hlo & Hhi & Hpi); [rewrite Hi; apply elem_of_seq; lia|].
      destruct (Hv2 i Hlt) as [(lo' & hi' & Hlo' & Hhi' & Hpi') _].
      rewrite Ho1 in Hlo, Hhi. rewrite Ho2 in Hlo', Hhi'. congruence.
    + apply seenAll_true. intros i Hlt. rewrite Ho2 in Hlt. now destruct (Hv2 i Hlt).
Qed.

End Whole.

Lemma whole_group_operations_witness :
  let g := {| dimension := 2; state_index := [0; 1] |} in
  let s := sample_state in
  randomParamsGroup sample_rand_r sample_RAND_MAX g s = randomParams sample_rand_r sample_RAND_MAX s ∧
  perturbParamsGroup sample_rand_r sample_RAND_MAX 0.5 g s
  = perturbParams sample_rand_r sample_RAND_MAX 0.5 s ∧
  enforceBoundsGroup g s = enforceBounds s ∧
  checkBoundsGroup g s = checkBounds s ∧
  resetGroup g s = reset s ∧
  seenAllGroup g s = seenAll s ∧
  setParamsGroup [0.5%float; 3%float] g s = setParams [0.5%float; 3%float] s ∧
  setAllInGroup 3 g s = setAll 3 s ∧
  (state_ok s → copyParamsGroup g s = copyParams s) ∧
  (state_ok s →
   ∃ s1 s2, defaultParamsGroup g s = Some s1 ∧ defaultParams s = Some s2 ∧
     params_ s1 = params_ s2 ∧ updated_ s1 = updated_ s ∧ seenAll s2 = Some true).
Proof.
  apply (whole_group_operations sample_rand_r sample_RAND_MAX
           {| dimension := 2; state_index := [0; 1] |} sample_state
           [0.5%float; 3%float] 3 0.5).
  - reflexivity.
  - reflexivity.
Defined.



(** ** The start state of the planner *)

Lemma seenJoint_same n j s t :
  state_ok s → state_ok t → owner_ t = owner_ s →
  jointMap_ (owner_ s) !! n = Some j → joint_ok (owner_ s) j →
  (∀ k, stateIndex j ≤ k < stateIndex j + usedParams j → updated_ t !! k = updated_ s !! k) →
  seenJoint n t = seenJoint n s.
Proof.
  intros Hs Ht Ho Hn Hj Hk.
  assert (jointMap_ (owner_ t) !! n = Some j) as Hn' by now rewrite Ho.
  assert (joint_ok (owner_ t) j) as Hj' by now rewrite Ho.
  destruct (seenJoint_defined n j s Hs Hn Hj) as [b Hb].
  destruct (seenJoint_defined n j t Ht Hn' Hj') as [b' Hb'].
  rewrite Hb, Hb'. f_equal.
  pose proof (seenJoint_true n j s Hs Hn Hj) as H1.
  pose proof (seenJoint_true n j t Ht Hn' Hj') as H2.
  destruct b, b'; try reflexivity.
  - assert (seenJoint n t = Some true) as H; [|congruence].
    apply H2. intros k Hr. rewrite Hk by exact Hr. exact (proj1 H1 Hb k Hr).
  - assert (seenJoint n s = Some true) as H; [|congruence].
    apply H1. intros k Hr. rewrite <- Hk by exact Hr. exact (proj1 H2 Hb' k Hr).
Qed.

Lemma fill_joint_spec robot j s :
  state_ok s → state_ok robot → owner_ robot = owner_ s →
  jointMap_ (owner_ s) !! name j = Some j → joint_ok (owner_ s) j →
  ∃ s', fill_joint robot j s = Some s' ∧ state_ok s' ∧ owner_ s' = owner_ s ∧
    (∀ k, ¬ (stateIndex j ≤ k < stateIndex j + usedParams j) →
          params_ s' !! k = params_ s !! k ∧ updated_ s' !! k = updated_ s !! k) ∧
    (∀ k, stateIndex j ≤ k < stateIndex j + usedParams j →
          updated_ s' !! k = Some true ∧
          (seenJoint (name j) s = Some true → params_ s' !! k = params_ s !! k) ∧
          (seenJoint (name j) s = Some false →
           ∃ p v, params_ s' !! k = Some p ∧ params_ robot !! k = Some v ∧ same_value p v)).
Proof.
  intros Hs Hrobot Ho Hn Hj. unfold fill_joint.
  destruct (seenJoint_defined (name j) j s Hs Hn Hj) as [b Hb]. rewrite Hb. cbn.
  destruct b; cbn.
  - exists s. split; [reflexivity|]. split; [exact Hs|]. split; [reflexivity|].
    split; [auto|]. intros k Hk. split; [|split; [reflexivity|discriminate]].
    now apply (seenJoint_true (name j) j s Hs Hn Hj).
  - unfold getParamsJoint, getJoint. rewrite Ho, Hn. cbn.
    pose proof Hrobot as [_ Hp _]. unfold joint_ok in Hj.
    rewrite offset_nat by (rewrite Hp, Ho; lia). cbn.
    set (vs := drop (stateIndex j) (params_ robot)).
    assert (usedParams j ≤ length vs) as Hlen
      by (unfold vs; rewrite length_drop, Hp, Ho; lia).
    rewrite (setParamsJoint_fold_eq vs (name j) j s Hs Hn Hj Hlen).
    destruct (setParams_fold_spec (zip (seq (stateIndex j) (usedParams j)) vs) s Hs)
      as (r & s' & Hrun & Hval & _ & _ & _).
    { rewrite zip_fst_le by (rewrite length_seq; lia). apply NoDup_seq. }
    { apply (Forall_zip_fst (λ k, k < getDimension (owner_ s))). apply Forall_forall.
      intros k Hk%elem_of_seq. lia. }
    rewrite Hrun. cbn. exists s'. split; [reflexivity|].
    split; [exact (setParams_fold_ok _ _ _ _ _ Hs Hrun)|].
    destruct (setParams_fold_frame _ _ _ _ _ Hrun) as (Ho' & _ & _ & _ & Hframe).
    destruct (setParams_fold_seen _ _ _ _ _ Hrun) as [Hseen _].
    split; [exact Ho'|]. split.
    + intros k Hk. apply Hframe. rewrite zip_fst_le by (rewrite length_seq; lia).
      intros Hin%elem_of_seq. lia.
    + intros k Hk.
      destruct (lookup_lt_is_Some_2 vs (k - stateIndex j)) as [v Hv]; [lia|].
      assert ((k, v) ∈ zip (seq (stateIndex j) (usedParams j)) vs) as Hin.
      { apply zip_seq_lookup. exists (k - stateIndex j). split; [lia|]. split; [lia|exact Hv]. }
      split; [exact (Hseen k v Hin)|]. split; [discriminate|]. intros _.
      destruct (Hval k v Hin) as (p & Hpk & Hsame). exists p, v.
      split; [exact Hpk|]. split; [|exact Hsame].
      unfold vs in Hv. rewrite lookup_drop in Hv.
      now replace (stateIndex j + (k - stateIndex j)) with k in Hv by lia.
Qed.

Lemma fill_fold robot js start s :
  state_ok s → state_ok robot → owner_ robot = owner_ s →
  tiles start js → start + sum_usedParams js ≤ getDimension (owner_ s) →
  (∀ j, j ∈ js → jointMap_ (owner_ s) !! name j = Some j) →
  ∃ s', fold_opt (fill_joint robot) js s = Some s' ∧ state_ok s' ∧ owner_ s' = owner_ s ∧
    (∀ k, k < start → params_ s' !! k = params_ s !! k ∧ updated_ s' !! k = updated_ s !! k) ∧
    (∀ j k, j ∈ js → stateIndex j ≤ k < stateIndex j + usedParams j →
       updated_ s' !! k = Some true ∧
       (seenJoint (name j) s = Some true → params_ s' !! k = params_ s !! k) ∧
       (seenJoint (name j) s = Some false →
        ∃ p v, params_ s' !! k = Some p ∧ params_ robot !! k = Some v ∧ same_value p v)).
Proof.
  intros Hs Hrobot Ho. revert start s Hs Ho.
  induction js as [|j js IH]; intros start s Hs Ho Ht Hsum Hreg.
  - exists s. cbn. split; [reflexivity|]. split; [exact Hs|]. split; [reflexivity|].
    split; [auto|]. intros j k Hj. now apply elem_of_nil in Hj.
  - cbn in Ht, Hsum. destruct Ht as [Hstart Ht].
    assert (jointMap_ (owner_ s) !! name j = Some j) as Hn by (apply Hreg; left).
    assert (joint_ok (owner_ s) j) as Hj by (unfold joint_ok; lia).
    destruct (fill_joint_spec robot j s Hs Hrobot Ho Hn Hj)
      as (s1 & Hrun1 & Hs1 & Ho1 & Hout1 & Hin1).
    destruct (IH (start + usedParams j) s1 Hs1) as (s' & Hrun & Hs' & Ho' & Hlow & Hjs);
      [congruence|exact Ht|rewrite Ho1; lia| |].
    { intros j' Hj'. rewrite Ho1. apply Hreg. now right. }
    exists s'. cbn [fold_opt]. rewrite Hrun1. cbn. split; [exact Hrun|].
    split; [exact Hs'|]. split; [congruence|]. split.
    + intros k Hk. destruct (Hlow k) as [-> ->]; [lia|]. apply Hout1. lia.
    + intros j' k [->|Hj']%elem_of_cons Hk.
      * destruct (Hlow k) as [-> ->]; [lia|]. now apply Hin1.
      * destruct (tiles_range _ _ _ Ht Hj') as [Hge Hle].
        assert (seenJoint (name j') s1 = seenJoint (name j') s) as Hsame.
        { apply (seenJoint_same (name j') j' s s1 Hs Hs1 Ho1).
          - apply Hreg. now right.
          - unfold joint_ok. lia.
          - intros i Hi. apply Hout1. lia. }
        destruct (Hjs j' k Hj' Hk) as (Hu & Hkeep & Hfill). rewrite Hsame in Hkeep, Hfill.
        split; [exact Hu|]. split; [|exact Hfill].
        intros Hseen. rewrite (Hkeep Hseen). apply Hout1. lia.
Qed.

(** X18: the loop of [fillStartState] that completes the start state from
    the state of the robot. When the joints tile the state, are registered
    under their names, and both states are states of the model, the loop
    returns with every component seen; a joint that was seen keeps its
    parameters, and a joint that was not has those of the robot. *)
Theorem fill_unseen_completes (robot s : KinematicState) (joints : list Joint) :
  state_ok s → state_ok robot → owner_ robot = owner_ s →
  tiles 0 joints → sum_usedParams joints = getDimension (owner_ s) →
  (∀ j, j ∈ joints → jointMap_ (owner_ s) !! name j = Some j) →
  (N.of_nat (length joints) ≤ UINT_MAX)%N →
  ∃ s', fill_unseen robot joints s = Some s' ∧ seenAll s' = Some true ∧
    ∀ j k, j ∈ joints → stateIndex j ≤ k < stateIndex j + usedParams j →
      (seenJoint (name j) s = Some true → params_ s' !! k = params_ s !! k) ∧
      (seenJoint (name j) s = Some false →
       ∃ p v, params_ s' !! k = Some p ∧ params_ robot !! k = Some v ∧ same_value p v).
Proof.
  intros Hs Hrobot Ho Ht Hsum Hreg Hsize.
  destruct (fill_fold robot joints 0 s Hs Hrobot Ho Ht) as (s' & Hrun & Hs' & Ho' & _ & Hjs);
    [lia|exact Hreg|].
  exists s'. split; [|split].
  - unfold fill_unseen. rewrite size_of_fits by exact Hsize. cbn.
    exact (eq_trans (for_loop_list (fill_joint robot) [] joints s) Hrun).
  - apply seenAll_true. intros i Hi. rewrite Ho' in Hi.
    destruct (tiles_cover 0 joints i Ht) as (j & Hj & Hr); [lia|].
    now destruct (Hjs j i Hj Hr).
  - intros j k Hj Hk. destruct (Hjs j k Hj Hk) as (_ & H1 & H2). auto.
Qed.

Lemma fill_unseen_completes_witness :
  ∃ s', fill_unseen sample_state' (jointList_ sample_model) sample_state = Some s' ∧
    seenAll s' = Some true ∧
    ∀ j k, j ∈ jointList_ sample_model → stateIndex j ≤ k < stateIndex j + usedParams j →
      (seenJoint (name j) sample_state = Some true →
       params_ s' !! k = params_ sample_state !! k) ∧
      (seenJoint (name j) sample_state = Some false →
       ∃ p v, params_ s' !! k = Some p ∧ params_ sample_state' !! k = Some v ∧ same_value p v).
Proof.
  apply (fill_unseen_completes sample_state' sample_state (jointList_ sample_model)).
  - exact sample_state_ok.
  - exact sample_state'_ok.
  - reflexivity.
  - cbn. auto.
  - reflexivity.
  - exact sample_joints_registered.
  - cbn. unfold UINT_MAX. lia.
Defined.



(** * The operations by name *)

Lemma getJoint_found m n : getJoint m n ≠ NULL ↔ is_Some (jointMap_ m !! n).
Proof.
  unfold getJoint. destruct (jointMap_ m !! n) as [j|]; split.
  - eauto.
  - discriminate.
  - congruence.
  - intros [? ?]. discriminate.
Qed.

Lemma found_joints m names :
  (∀ x, x ∈ names → getJoint m x ≠ NULL) →
  ∃ joints, Forall2 (λ x j, jointMap_ m !! x = Some j) names joints.
Proof.
  induction names as [|n names IH]; intros H.
  - exists []. constructor.
  - destruct IH as [joints Hj]; [intros x Hx; apply H; now right|].
    destruct (proj1 (getJoint_found m n) (H n ltac:(left))) as [j Hn].
    exists (j :: joints). now constructor.
Qed.

(** [all_opt] returns at the first test that fails: it is defined when every
    test is, and also when the tests before a failing one are. *)
Lemma all_opt_is_Some {A} (T : A → option bool) xs :
  is_Some (all_opt T xs) ↔
  (∀ x, x ∈ xs → is_Some (T x)) ∨
  ∃ pre x post, xs = pre ++ x :: post ∧ (∀ y, y ∈ pre → is_Some (T y)) ∧ T x = Some false.
Proof.
  induction xs as [|x xs IH].
  - cbn. split; [|eauto]. intros _. left. intros x Hx. now apply elem_of_nil in Hx.
  - cbn [all_opt]. destruct (T x) as [[]|] eqn:E; cbn.
    + rewrite IH. split.
      * intros [H|(pre & y & post & -> & Hpre & Hy)].
        -- left. intros z [->|Hz]%elem_of_cons; [rewrite E; eauto|auto].
        -- right. exists (x :: pre), y, post. split; [reflexivity|]. split; [|exact Hy].
           intros z [->|Hz]%elem_of_cons; [rewrite E; eauto|auto].
      * intros [H|(pre & y & post & Heq & Hpre & Hy)].
        -- left. intros z Hz. apply H. now right.
        -- destruct pre as [|x' pre]; cbn in Heq; injection Heq as <- ->; [congruence|].
           right. exists pre, y, post. split; [reflexivity|]. split; [|exact Hy].
           intros z Hz. apply Hpre. now right.
    + split; [|eauto]. intros _. right. exists [], x, xs. split; [reflexivity|].
      split; [|exact E]. intros y Hy. now apply elem_of_nil in Hy.
    + split; [intros [? ?]; discriminate|].
      intros [H|(pre & y & post & Heq & Hpre & Hy)].
      * rewrite <- E. apply H. left.
      * destruct pre as [|x' pre]; cbn in Heq; injection Heq as <- ->; [congruence|].
        rewrite <- E. apply Hpre. left.
Qed.

Lemma setParamsJoint_owner p n s r s' :
  setParamsJoint p n s = Some (r, s') → getJoint (owner_ s) n ≠ NULL ∧ owner_ s' = owner_ s.
Proof.
  unfold setParamsJoint. destruct (getJoint (owner_ s) n) as [|joint]; [discriminate|].
  cbn. intros H. split; [discriminate|]. rewrite for_loop_seq in H.
  apply (fold_opt_preserves
           (λ i rs, v ← load p i; setParams_at (uadd (stateIndex joint) i) v rs)
           (λ rs : bool * KinematicState, owner_ rs.2 = owner_ s)
           (seq 0 (usedParams joint)) (false, s) (r, s')); [|exact H|reflexivity].
  intros i [b t] [b' t'] _ Hstep Ht. cbn in *.
  destruct (load p i) as [v|]; [|discriminate]. cbn in Hstep.
  apply setParams_at_frame in Hstep as (Ho & _). congruence.
Qed.

Lemma setParamsJoints_fold_found params m names st :
  owner_ st.2 = m →
  is_Some (fold_opt (setParamsJoints_at params) names st) →
  ∀ x, x ∈ names → getJoint m x ≠ NULL.
Proof.
  revert st. induction names as [|n names IH]; intros [[c u] s] Ho Hrun x Hx.
  - now apply elem_of_nil in Hx.
  - cbn [fold_opt] in Hrun. cbn in Ho. subst m.
    destruct (setParamsJoints_at params n (c, u, s)) as [[[c' u'] s']|] eqn:E;
      [cbn in Hrun|destruct Hrun; discriminate].
    unfold setParamsJoints_at in E.
    destruct (offset params u) as [p|]; [cbn in E|discriminate].
    destruct (setParamsJoint p n s) as [[r t]|] eqn:Er; [cbn in E|discriminate].
    destruct (setParamsJoint_owner _ _ _ _ _ Er) as [Hn Hot].
    apply elem_of_cons in Hx as [->|Hx]; [exact Hn|].
    destruct (getJoint (owner_ s) n) as [|joint]; [discriminate|]. cbn in E.
    injection E as <- <- <-.
    apply (IH (c || r, int_add_unsigned u (usedParams joint), t)); [exact Hot|exact Hrun|exact Hx].
Qed.

Lemma copyParamsJoints_fold_found names s out :
  is_Some (fold_opt (λ n params, p ← copyParamsJoint n s; Some (params ++ p)) names out) →
  ∀ x, x ∈ names → is_Some (copyParamsJoint x s).
Proof.
  revert out. induction names as [|n names IH]; intros out Hrun x Hx.
  - now apply elem_of_nil in Hx.
  - cbn [fold_opt] in Hrun.
    destruct (copyParamsJoint n s) as [p|] eqn:E; [cbn in Hrun|destruct Hrun; discriminate].
    apply elem_of_cons in Hx as [->|Hx]; [rewrite E; eauto|]. eapply IH; eauto.
Qed.

Lemma copyParamsJoint_found n s :
  state_ok s → registry_ok (owner_ s) →
  is_Some (copyParamsJoint n s) ↔ getJoint (owner_ s) n ≠ NULL.
Proof.
  intros Hs Hreg. rewrite getJoint_found. split.
  - unfold copyParamsJoint, getJoint.
    destruct (jointMap_ (owner_ s) !! n) as [j|]; [eauto|]. intros [? ?]. discriminate.
  - intros [j Hj]. rewrite (copyParamsJoint_spec n j s Hs Hj); [eauto|].
    eapply joints_ok; eauto.
Qed.

Lemma checkBoundsJoint_found n s :
  state_ok s → registry_ok (owner_ s) →
  is_Some (checkBoundsJoint n s) ↔ getJoint (owner_ s) n ≠ NULL.
Proof.
  intros Hs Hreg. rewrite getJoint_found. split.
  - unfold checkBoundsJoint, getJoint.
    destruct (jointMap_ (owner_ s) !! n) as [j|]; [eauto|]. intros [? ?]. discriminate.
  - intros [j Hj]. eapply checkBoundsJoint_defined; eauto. eapply joints_ok; eauto.
Qed.

(** C10 (counterexample): ["wrist"] is not a joint of the model, and
    [checkBoundsJoints] is defined on a list that holds it, after a joint
    that is out of its bounds: the loop returns before it looks the name
    up. On the name alone [checkBoundsJoint] is undefined. *)
Lemma checkBoundsJoints_unknown_name :
  getJoint (owner_ sample_state) "wrist" = NULL ∧
  checkBoundsJoint "wrist" sample_state = None ∧
  checkBoundsJoint "elbow" sample_state = Some false ∧
  checkBoundsJoints ["elbow"; "wrist"] sample_state = Some false.
Proof. repeat split; vm_compute; reflexivity. Qed.

(** C10 (amended): the operations of the state that take the name of a
    group or of a joint use the result of the lookup unchecked. On a state
    of a model whose registered groups and joints are its own, and with a
    value supplied for each addressed component, each operation on one name
    is defined exactly when the lookup of the name succeeds. Of the
    operations on a list of names, [copyParamsJoints] and [setParamsJoints]
    are defined exactly when every name of the list is found;
    [checkBoundsJoints] returns at the first joint out of its bounds, so it
    is defined when every name is found and also when the names before a
    joint out of its bounds are. *)
Theorem named_operations_defined_iff_found (rand_r : N → Z * N) (RAND_MAX : Z)
    (s : KinematicState) (n : string) (params : list float) (value factor : float) :
  state_ok s → registry_ok (owner_ s) →
  (∀ g, groupMap_ (owner_ s) !! n = Some g → dimension g ≤ length params) →
  (∀ j, jointMap_ (owner_ s) !! n = Some j → usedParams j ≤ length params) →
  ((is_Some (defaultParamsGroup_name n s) ↔ getGroup (owner_ s) n ≠ NULL) ∧
   (is_Some (randomParamsGroup_name rand_r RAND_MAX n s) ↔ getGroup (owner_ s) n ≠ NULL) ∧
   (is_Some (perturbParamsGroup_name rand_r RAND_MAX factor n s)
      ↔ getGroup (owner_ s) n ≠ NULL) ∧
   (is_Some (enforceBoundsGroup_name n s) ↔ getGroup (owner_ s) n ≠ NULL) ∧
   (is_Some (checkBoundsGroup_name n s) ↔ getGroup (owner_ s) n ≠ NULL) ∧
   (is_Some (resetGroup_name n s) ↔ getGroup (owner_ s) n ≠ NULL) ∧
   (is_Some (seenAllGroup_name n s) ↔ getGroup (owner_ s) n ≠ NULL) ∧
   (is_Some (setParamsGroup_name params n s) ↔ getGroup (owner_ s) n ≠ NULL) ∧
   (is_Some (setAllInGroup_name value n s) ↔ getGroup (owner_ s) n ≠ NULL) ∧
   (is_Some (copyParamsGroup_name n s) ↔ getGroup (owner_ s) n ≠ NULL)) ∧
  ((is_Some (checkBoundsJoint n s) ↔ getJoint (owner_ s) n ≠ NULL) ∧
   (is_Some (seenJoint n s) ↔ getJoint (owner_ s) n ≠ NULL) ∧
   (is_Some (getParamsJoint n s) ↔ getJoint (owner_ s) n ≠ NULL) ∧
   (is_Some (setParamsJoint params n s) ↔ getJoint (owner_ s) n ≠ NULL) ∧
   (is_Some (copyParamsJoint n s) ↔ getJoint (owner_ s) n ≠ NULL)) ∧
  (∀ names, (N.of_nat (length names) ≤ UINT_MAX)%N →
     (is_Some (copyParamsJoints names s) ↔ ∀ x, x ∈ names → getJoint (owner_ s) x ≠ NULL) ∧
     ((∀ joints, Forall2 (λ x j, jointMap_ (owner_ s) !! x = Some j) names joints →
         sum_usedParams joints ≤ length params ∧
         (Z.of_nat (sum_usedParams joints) ≤ INT_MAX)%Z) →
      (is_Some (setParamsJoints params names s)
       ↔ ∀ x, x ∈ names → getJoint (owner_ s) x ≠ NULL)) ∧
     (is_Some (checkBoundsJoints names s) ↔
        (∀ x, x ∈ names → getJoint (owner_ s) x ≠ NULL) ∨
        ∃ pre x post, names = pre ++ x :: post ∧
          (∀ y, y ∈ pre → getJoint (owner_ s) y ≠ NULL) ∧
          checkBoundsJoint x s = Some false)).
Proof.
  intros Hs Hreg Hglen Hjlen. pose proof Hreg as [Hgroups Hjoints]. split; [|split].
  - split; [|split; [|split; [|split; [|split; [|split; [|split; [|split; [|split]]]]]]]].
    + apply group_op_defined_iff. intros g Hg.
      destruct (defaultParamsGroup_defined g s Hs (Hgroups n g Hg)) as (? & -> & _). eauto.
    + apply group_op_defined_iff. intros g Hg.
      destruct (randomParamsGroup_defined rand_r RAND_MAX (owner_ s) g s)
        as (? & -> & _); eauto. split; auto.
    + apply group_op_defined_iff. intros g Hg.
      destruct (perturbParamsGroup_defined rand_r RAND_MAX factor (owner_ s) g s)
        as (? & -> & _); eauto. split; auto.
    + apply group_op_defined_iff. intros g Hg.
      destruct (Hgroups n g Hg) as [Hd Hr]. rewrite enforceBoundsGroup_fold by exact Hd.
      destruct (enforce_fold_defined (state_index g) s Hs Hr) as (? & -> & _). eauto.
    + apply group_op_defined_iff. intros g Hg. apply checkBoundsGroup_defined; eauto.
    + apply group_op_defined_iff. intros g Hg. apply resetGroup_defined; eauto.
    + apply group_op_defined_iff. intros g Hg. apply seenAllGroup_defined; eauto.
    + apply group_op_defined_iff. intros g Hg. apply setParamsGroup_defined; eauto.
    + apply group_op_defined_iff. intros g Hg. apply setAllInGroup_defined; eauto.
    + apply group_op_defined_iff. intros g Hg. apply copyParamsGroup_defined; eauto.
  - split; [|split; [|split; [|split]]].
    + now apply checkBoundsJoint_found.
    + rewrite <- (joint_op_defined_iff (λ j, seenJoint n s) s n); [|].
      * unfold seenJoint at 1, getJoint.
        destruct (jointMap_ (owner_ s) !! n) as [j|] eqn:E; cbn.
        -- unfold seenJoint, getJoint. rewrite E. reflexivity.
        -- split; intros [? ?]; discriminate.
      * intros j Hj. eapply seenJoint_defined; eauto.
    + apply joint_op_defined_iff. intros j Hj. eauto.
    + rewrite <- (joint_op_defined_iff (λ j, setParamsJoint params n s) s n); [|].
      * unfold setParamsJoint at 1, getJoint.
        destruct (jointMap_ (owner_ s) !! n) as [j|] eqn:E; cbn.
        -- unfold setParamsJoint, getJoint. rewrite E. reflexivity.
        -- split; intros [? ?]; discriminate.
      * intros j Hj. eapply setParamsJoint_defined; eauto.
    + now apply copyParamsJoint_found.
  - intros names Hsize. split; [|split].
    + split.
      * unfold copyParamsJoints. rewrite size_of_fits by exact Hsize. cbn.
        rewrite (for_loop_list (λ x out, p ← copyParamsJoint x s; Some (out ++ p)) [] names).
        intros Hrun x Hx. apply (copyParamsJoint_found x s Hs Hreg).
        exact (copyParamsJoints_fold_found names s [] Hrun x Hx).
      * intros Hall. destruct (found_joints _ _ Hall) as [joints Hj].
        rewrite (copyParamsJoints_spec names joints s Hs (named_joints_ok _ _ _ Hreg Hj) Hj Hsize).
        eauto.
    + intros Hfit. split.
      * unfold setParamsJoints. rewrite size_of_fits by exact Hsize. cbn.
        rewrite (for_loop_ext _
                   (λ i st, x ← load ([] ++ names) i; setParamsJoints_at params x st))
          by (intros k [[c u] t] _; reflexivity).
        rewrite (for_loop_list (setParamsJoints_at params) [] names).
        intros Hrun.
        apply (setParamsJoints_fold_found params (owner_ s) names (false, 0%Z, s) eq_refl).
        destruct (fold_opt _ names _) as [r|]; [eauto|destruct Hrun; discriminate].
      * intros Hall. destruct (found_joints _ _ Hall) as [joints Hj].
        destruct (Hfit joints Hj) as [Hlen Hmax].
        pose proof (named_joints_ok _ _ _ Hreg Hj) as Hok.
        rewrite (setParamsJoints_eq params names joints s Hs Hok Hj Hsize Hlen Hmax).
        destruct (setParams_fold_defined (joints_values params joints) false s Hs
                    (joints_values_range _ _ _ Hok)) as (r & s' & -> & _). eauto.
    + assert (checkBoundsJoints names s = all_opt (λ x, checkBoundsJoint x s) names) as ->.
      { unfold checkBoundsJoints. rewrite size_of_fits by exact Hsize. cbn.
        exact (for_all_list (λ x, checkBoundsJoint x s) [] names). }
      rewrite all_opt_is_Some. split.
      * intros [H|(pre & x & post & Heq & Hpre & Hx)].
        -- left. intros x Hx. now apply (checkBoundsJoint_found x s Hs Hreg), H.
        -- right. exists pre, x, post. split; [exact Heq|]. split; [|exact Hx].
           intros y Hy. now apply (checkBoundsJoint_found y s Hs Hreg), Hpre.
      * intros [H|(pre & x & post & Heq & Hpre & Hx)].
        -- left. intros x Hx. now apply (checkBoundsJoint_found x s Hs Hreg), H.
        -- right. exists pre, x, post. split; [exact Heq|]. split; [|exact Hx].
           intros y Hy. now apply (checkBoundsJoint_found y s Hs Hreg), Hpre.
Qed.

Lemma named_operations_defined_iff_found_witness :
  (is_Some (defaultParamsGroup_name "arm" sample_state)
   ↔ getGroup (owner_ sample_state) "arm" ≠ NULL) ∧
  (is_Some (copyParamsJoint "arm" sample_state)
   ↔ getJoint (owner_ sample_state) "arm" ≠ NULL) ∧
  (is_Some (checkBoundsJoints ["elbow"; "wrist"] sample_state) ↔
     (∀ x, x ∈ ["elbow"; "wrist"] → getJoint (owner_ sample_state) x ≠ NULL) ∨
     ∃ pre x post, ["elbow"; "wrist"] = pre ++ x :: post ∧
       (∀ y, y ∈ pre → getJoint (owner_ sample_state) y ≠ NULL) ∧
       checkBoundsJoint x sample_state = Some false).
Proof.
  destruct (named_operations_defined_iff_found sample_rand_r sample_RAND_MAX sample_state
              "arm" [1%float] 0%float 0%float) as ((Hgroup & _) & (_ & _ & _ & _ & Hcopy) & Hlist).
  - exact sample_state_ok.
  - exact sample_registry_ok.
  - intros g ->%sample_groups. cbn. lia.
  - intros j [Hu Hi]%sample_joints. cbn. lia.
  - split; [exact Hgroup|]. split; [exact Hcopy|].
    apply (Hlist ["elbow"; "wrist"]). cbn. unfold UINT_MAX. lia.
Defined.

